(** * Net frequency with suffix trees

    A shallow embedding of [suffix_tree.hpp] / [suffix_tree.cpp]: the
    suffix tree built online by Ukkonen's algorithm, enriched with suffix
    links and Weiner links, and the two net-frequency computations
    ([single_nf], [all_nf]) that run on it.

    Modelling conventions.
    - [uint32_t] values are integers in [Z] with the wrap-around written
      out ([wrap32]).
    - [InternalNode*] and [LeafNode*] are handles (indices) into two
      arenas, [inodes] and [lnodes]; [new] appends to the arena, so a
      fresh object gets a fresh handle and no handle is ever invalidated.
      The root is the internal node with handle [0].  [nullptr] is [None].
    - [std::unordered_map<char, X*>] is a [gmap ascii nat].
    - Undefined behaviour (reading the text out of range, dereferencing a
      null link, a failing [assert]) is the error [None] of the option
      monad; loops take fuel and answer [None] when it runs out. *)

From Stdlib Require Import ZArith Lia Ascii String.
From stdpp Require Import gmap strings list.

Open Scope Z_scope.

(** ** Machine integers and text access *)

Definition wrap32 (z : Z) : Z := z mod 2 ^ 32.

(** [s[i]] of a [std::string_view]: defined only inside the view. *)
Definition char_at (s : list ascii) (i : Z) : option ascii :=
  s !! Z.to_nat i.

(** [s.substr(pos, len)]: throws when [pos > s.size()], clips otherwise. *)
Definition substr (s : list ascii) (pos len : Z) : option (list ascii) :=
  if decide (pos ≤ Z.of_nat (length s))
  then Some (take (Z.to_nat len) (drop (Z.to_nat pos) s))
  else None.

(** ** Data model *)

Record LeafNode := mkLeafNode {
  leaf_start : Z
}.

Record InternalNode := mkInternalNode {
  start : Z;
  end_ : Z;
  internal_children : gmap ascii nat;
  leaf_children : gmap ascii nat;
  suffix_link : option nat;
  weiner_links : list nat;
  nf : Z
}.

(** [InternalNode(i, j)] *)
Definition new_internal (i j : Z) : InternalNode :=
  mkInternalNode i j ∅ ∅ None [] 0.

Record SuffixTree := mkSuffixTree {
  txt : list ascii;
  inodes : list InternalNode;
  lnodes : list LeafNode;
  need_link : option nat;
  global_end : Z;
  remainder : Z;
  active_node : nat;
  active_edge : Z;
  active_length : Z
}.

Definition root : nat := 0%nat.

(** Field updates. *)

Definition set_start (v : Z) (n : InternalNode) : InternalNode :=
  mkInternalNode v (end_ n) (internal_children n) (leaf_children n)
    (suffix_link n) (weiner_links n) (nf n).
Definition set_internal_children (m : gmap ascii nat) (n : InternalNode)
  : InternalNode :=
  mkInternalNode (start n) (end_ n) m (leaf_children n)
    (suffix_link n) (weiner_links n) (nf n).
Definition set_leaf_children (m : gmap ascii nat) (n : InternalNode)
  : InternalNode :=
  mkInternalNode (start n) (end_ n) (internal_children n) m
    (suffix_link n) (weiner_links n) (nf n).
Definition set_suffix_link (l : option nat) (n : InternalNode)
  : InternalNode :=
  mkInternalNode (start n) (end_ n) (internal_children n) (leaf_children n)
    l (weiner_links n) (nf n).
Definition set_weiner_links (l : list nat) (n : InternalNode)
  : InternalNode :=
  mkInternalNode (start n) (end_ n) (internal_children n) (leaf_children n)
    (suffix_link n) l (nf n).
Definition set_nf (v : Z) (n : InternalNode) : InternalNode :=
  mkInternalNode (start n) (end_ n) (internal_children n) (leaf_children n)
    (suffix_link n) (weiner_links n) v.

Definition set_inodes (h : list InternalNode) (st : SuffixTree) : SuffixTree :=
  mkSuffixTree (txt st) h (lnodes st) (need_link st) (global_end st)
    (remainder st) (active_node st) (active_edge st) (active_length st).
Definition set_lnodes (h : list LeafNode) (st : SuffixTree) : SuffixTree :=
  mkSuffixTree (txt st) (inodes st) h (need_link st) (global_end st)
    (remainder st) (active_node st) (active_edge st) (active_length st).
Definition set_need_link (l : option nat) (st : SuffixTree) : SuffixTree :=
  mkSuffixTree (txt st) (inodes st) (lnodes st) l (global_end st)
    (remainder st) (active_node st) (active_edge st) (active_length st).
Definition set_global_end (v : Z) (st : SuffixTree) : SuffixTree :=
  mkSuffixTree (txt st) (inodes st) (lnodes st) (need_link st) v
    (remainder st) (active_node st) (active_edge st) (active_length st).
Definition set_remainder (v : Z) (st : SuffixTree) : SuffixTree :=
  mkSuffixTree (txt st) (inodes st) (lnodes st) (need_link st) (global_end st)
    v (active_node st) (active_edge st) (active_length st).
Definition set_active_node (v : nat) (st : SuffixTree) : SuffixTree :=
  mkSuffixTree (txt st) (inodes st) (lnodes st) (need_link st) (global_end st)
    (remainder st) v (active_edge st) (active_length st).
Definition set_active_edge (v : Z) (st : SuffixTree) : SuffixTree :=
  mkSuffixTree (txt st) (inodes st) (lnodes st) (need_link st) (global_end st)
    (remainder st) (active_node st) v (active_length st).
Definition set_active_length (v : Z) (st : SuffixTree) : SuffixTree :=
  mkSuffixTree (txt st) (inodes st) (lnodes st) (need_link st) (global_end st)
    (remainder st) (active_node st) (active_edge st) v.

(** [LeafNode::edge_length]: [*end_ptr - start]; every leaf's [end_ptr]
    is [&global_end]. *)
Definition leaf_edge_length (ge : Z) (l : LeafNode) : Z :=
  wrap32 (ge - leaf_start l).

(** [InternalNode::edge_length]: [end - start]. *)
Definition edge_length (n : InternalNode) : Z :=
  wrap32 (end_ n - start n).

(** ** Ukkonen's algorithm *)

(** [SuffixTree::add_links] *)
Definition add_links (node : nat) (st : SuffixTree) : option SuffixTree :=
  match need_link st with
  | Some nl =>
      x ← inodes st !! nl;
      let h1 := <[nl := set_suffix_link (Some node) x]> (inodes st) in
      t ← h1 !! node;
      let wls := weiner_links t in
      let h2 := if decide (nl ∈ wls) then h1
                else <[node := set_weiner_links (wls ++ [nl]) t]> h1 in
      Some (set_need_link (Some node) (set_inodes h2 st))
  | None => Some (set_need_link (Some node) st)
  end.

(** The tail of one iteration of the loop of [extend], after a leaf was
    inserted: [remainder--] and the move of the active point. *)
Definition after_insertion (k : Z) (st : SuffixTree) : option SuffixTree :=
  let st := set_remainder (wrap32 (remainder st - 1)) st in
  if decide (active_node st = root ∧ 0 < active_length st) then
    Some (set_active_edge (wrap32 (wrap32 (k - remainder st) + 1))
            (set_active_length (wrap32 (active_length st - 1)) st))
  else
    an ← inodes st !! active_node st;
    match suffix_link an with
    | Some l => Some (set_active_node l st)
    | None => Some (set_active_node root st)
    end.

(** Rule 2a on a leaf child [lf] of the active node. *)
Definition split_leaf (k : Z) (c : ascii) (lf : nat) (prev_start : Z)
    (st : SuffixTree) : option SuffixTree :=
  node ← lnodes st !! lf;
  let node_start := wrap32 (leaf_start node + active_length st) in
  let internal_node := length (inodes st) in
  let leaf := length (lnodes st) in
  ck ← char_at (txt st) k;
  cn ← char_at (txt st) node_start;
  an ← inodes st !! active_node st;
  let m := new_internal prev_start node_start in
  let m := set_leaf_children (<[cn := lf]> (<[ck := leaf]> (leaf_children m))) m in
  let an := set_internal_children (<[c := internal_node]> (internal_children an)) an in
  let an := set_leaf_children (delete c (leaf_children an)) an in
  let st := set_lnodes (<[lf := mkLeafNode node_start]> (lnodes st) ++ [mkLeafNode k]) st in
  let st := set_inodes (<[active_node st := an]> (inodes st) ++ [m]) st in
  add_links internal_node st.

(** Rule 2a on an internal child [ch] of the active node. *)
Definition split_internal (k : Z) (c : ascii) (ch : nat) (prev_start : Z)
    (st : SuffixTree) : option SuffixTree :=
  node ← inodes st !! ch;
  let node_start := wrap32 (start node + active_length st) in
  let h := <[ch := set_start node_start node]> (inodes st) in
  let internal_node := length (inodes st) in
  let leaf := length (lnodes st) in
  ck ← char_at (txt st) k;
  cn ← char_at (txt st) node_start;
  an ← h !! active_node st;
  let m := new_internal prev_start node_start in
  let m := set_leaf_children (<[ck := leaf]> (leaf_children m)) m in
  let m := set_internal_children (<[cn := ch]> (internal_children m)) m in
  let an := set_internal_children (<[c := internal_node]> (internal_children an)) an in
  let st := set_lnodes (lnodes st ++ [mkLeafNode k]) st in
  let st := set_inodes (<[active_node st := an]> h ++ [m]) st in
  add_links internal_node st.

(** One iteration of the [while (remainder > 0)] loop of [extend].  The
    boolean is [true] when the iteration leaves the loop by [break]. *)
Definition extend_body (k : Z) (st : SuffixTree) : option (bool * SuffixTree) :=
  let st := if decide (active_length st = 0) then set_active_edge k st else st in
  an ← inodes st !! active_node st;
  c ← char_at (txt st) (active_edge st);
  match leaf_children an !! c, internal_children an !! c with
  | Some _, Some _ => None
  | None, None =>
      let leaf := length (lnodes st) in
      let an := set_leaf_children (<[c := leaf]> (leaf_children an)) an in
      let st := set_lnodes (lnodes st ++ [mkLeafNode k]) st in
      let st := set_inodes (<[active_node st := an]> (inodes st)) st in
      st ← add_links (active_node st) st;
      st ← after_insertion k st;
      Some (false, st)
  | node_leaf, node_internal =>
      len ← match node_leaf, node_internal with
            | Some lf, _ => leaf_edge_length (global_end st) <$> lnodes st !! lf
            | None, Some ch => edge_length <$> inodes st !! ch
            | None, None => None
            end;
      if decide (len ≤ active_length st) then
        ch ← node_internal;
        Some (false,
              set_active_node ch
                (set_active_length (wrap32 (active_length st - len))
                   (set_active_edge (wrap32 (active_edge st + len)) st)))
      else
        prev_start ← match node_leaf, node_internal with
                     | Some lf, _ => leaf_start <$> lnodes st !! lf
                     | None, Some ch => start <$> inodes st !! ch
                     | None, None => None
                     end;
        c1 ← char_at (txt st) (wrap32 (prev_start + active_length st));
        ck ← char_at (txt st) k;
        if decide (c1 = ck) then
          st ← add_links (active_node st)
                 (set_active_length (wrap32 (active_length st + 1)) st);
          Some (true, st)
        else
          st ← match node_leaf, node_internal with
               | Some lf, _ => split_leaf k c lf prev_start st
               | None, Some ch => split_internal k c ch prev_start st
               | None, None => None
               end;
          st ← after_insertion k st;
          Some (false, st)
  end.

Fixpoint extend_loop (fuel : nat) (k : Z) (st : SuffixTree)
  : option SuffixTree :=
  if decide (0 < remainder st) then
    match fuel with
    | O => None
    | S fuel =>
        match extend_body k st with
        | Some (true, st) => Some st
        | Some (false, st) => extend_loop fuel k st
        | None => None
        end
    end
  else Some st.

(** [SuffixTree::extend] *)
Definition extend (fuel : nat) (k : Z) (st : SuffixTree) : option SuffixTree :=
  let st := set_need_link None st in
  let st := set_remainder (wrap32 (remainder st + 1)) st in
  st ← extend_loop fuel k st;
  Some (set_global_end (wrap32 (global_end st + 1)) st).

(** The state of the member initialisers of the constructor. *)
Definition init (t : list ascii) : SuffixTree :=
  mkSuffixTree t [new_internal 0 0] [] None 0 0 root 0 0.

Fixpoint phases (fuel : nat) (ks : list nat) (st : SuffixTree)
  : option SuffixTree :=
  match ks with
  | [] => Some st
  | k :: ks => st ← extend fuel (Z.of_nat k) st; phases fuel ks st
  end.

(** Iterations granted to the loop of one call of [extend]. *)
Definition phase_fuel (t : list ascii) : nat :=
  ((length t + 2) * (length t + 2))%nat.

(** [SuffixTree::SuffixTree]: the counter [k] is a [uint32_t], so the
    loop only ends for a text shorter than [2^32]. *)
Definition build (t : list ascii) : option SuffixTree :=
  if decide (Z.of_nat (length t) < 2 ^ 32)
  then phases (phase_fuel t) (seq 0 (length t)) (init t)
  else None.

(** ** Locating a query *)

Fixpoint find_loop (fuel : nat) (st : SuffixTree) (s : list ascii)
    (node : nat) (i : Z) : option (option nat * Z) :=
  match fuel with
  | O => None
  | S fuel =>
      if decide (Z.of_nat (length s) ≤ i) then
        Some (Some node, wrap32 (i - Z.of_nat (length s)))
      else
        n ← inodes st !! node;
        si ← char_at s i;
        match internal_children n !! si with
        | Some ch =>
            internal_child ← inodes st !! ch;
            let len := Z.min (edge_length internal_child)
                             (wrap32 (wrap32 (Z.of_nat (length s)) - i)) in
            a ← substr s i len;
            b ← substr (txt st) (start internal_child) len;
            if decide (a = b) then
              find_loop fuel st s ch (wrap32 (i + edge_length internal_child))
            else Some (None, 0)
        | None =>
            match leaf_children n !! si with
            | Some _ => Some (None, 1)
            | None => Some (None, 0)
            end
        end
  end.

(** [SuffixTree::find_internal_node].  Every iteration that does not
    return goes one node down, and no path of the tree is longer than the
    text, which bounds the number of iterations. *)
Definition find_internal_node (st : SuffixTree) (s : list ascii)
  : option (option nat * Z) :=
  find_loop (S (length (txt st))) st s root 0.

(** ** Net frequency *)

(** The inner loop of [single_nf] over the leaf children of one [xS]. *)
Definition nf_dec_keys (sn : InternalNode) (ys : list (ascii * nat)) (nf : Z) : Z :=
  foldl (λ nf y, if decide (is_Some (leaf_children sn !! y.1))
                 then wrap32 (nf - 1) else nf) nf ys.

(** The outer loop of [single_nf] over [S->weiner_links]. *)
Fixpoint nf_dec_links (h : list InternalNode) (sn : InternalNode)
    (xs : list nat) (nf : Z) : option Z :=
  match xs with
  | [] => Some nf
  | x :: xs =>
      xn ← h !! x;
      nf_dec_links h sn xs (nf_dec_keys sn (map_to_list (leaf_children xn)) nf)
  end.

(** [SuffixTree::single_nf] *)
Definition single_nf (st : SuffixTree) (s : list ascii) : option Z :=
  r ← find_internal_node st s;
  match r with
  | (Some S_, 0) =>
      sn ← inodes st !! S_;
      let nf := wrap32 (Z.of_nat (size (leaf_children sn))) in
      if decide (nf = 0) then Some 0
      else nf_dec_links (inodes st) sn (weiner_links sn) nf
  | _ => Some 0
  end.

(** The loop of [process] over the leaf children of [xS]: decrement
    [S->nf] for every key shared with [S]. *)
Fixpoint process_keys (S_ : nat) (ys : list (ascii * nat))
    (h : list InternalNode) : option (list InternalNode) :=
  match ys with
  | [] => Some h
  | y :: ys =>
      sn ← h !! S_;
      process_keys S_ ys
        (if decide (is_Some (leaf_children sn !! y.1))
         then <[S_ := set_nf (wrap32 (nf sn - 1)) sn]> h else h)
  end.

(** Run [f] on every element, threading the arena. *)
Fixpoint for_each {A} (f : A → list InternalNode → option (list InternalNode))
    (l : list A) (h : list InternalNode) : option (list InternalNode) :=
  match l with
  | [] => Some h
  | a :: l => h ← f a h; for_each f l h
  end.

(** The lambda [process] of [all_nf]; the fuel bounds the recursion depth. *)
Fixpoint process (fuel : nat) (xS : nat) (h : list InternalNode)
  : option (list InternalNode) :=
  match fuel with
  | O => None
  | S fuel =>
      xn ← h !! xS;
      h ← (if decide (leaf_children xn = ∅) then Some h
           else
             let h := <[xS := set_nf (wrap32 (nf xn + Z.of_nat (size (leaf_children xn)))) xn]> h in
             S_ ← suffix_link xn;
             process_keys S_ (map_to_list (leaf_children xn)) h);
      for_each (λ c, process fuel c.2) (map_to_list (internal_children xn)) h
  end.

(** The lambda [report] of [all_nf]: the lines written to [std::cout],
    as (substring, nf) pairs.  The children are visited in the order of
    [map_to_list]; [std::unordered_map] fixes no iteration order, so the
    list stands for the lines printed up to their order. *)
Fixpoint report (fuel : nat) (t : list ascii) (h : list InternalNode)
    (S_ : nat) (start_pos string_depth : Z) : option (list (list ascii * Z)) :=
  match fuel with
  | O => None
  | S fuel =>
      sn ← h !! S_;
      here ← (if decide (nf sn = 0) then Some []
              else w ← substr t start_pos string_depth; Some [(w, nf sn)]);
      rest ← mapM (λ c : ascii * nat,
                     child ← h !! c.2;
                     report fuel t h c.2 start_pos
                       (wrap32 (string_depth + edge_length child)))
                  (map_to_list (internal_children sn));
      Some (here ++ concat rest)
  end.

(** The accumulation pass of [all_nf].  No path of the tree is longer
    than the text, which bounds the depth of the recursion. *)
Definition accumulate (fuel : nat) (h : list InternalNode)
  : option (list InternalNode) :=
  r ← h !! root;
  for_each (λ c, process fuel c.2) (map_to_list (internal_children r)) h.

(** The report pass of [all_nf], over the children of the root in the
    order of [map_to_list]. *)
Definition report_all (t : list ascii) (h : list InternalNode)
  : option (list (list ascii * Z)) :=
  r ← h !! root;
  rest ← mapM (λ c : ascii * nat,
                 S_ ← h !! c.2;
                 report (length t) t h c.2 (start S_) (edge_length S_))
              (map_to_list (internal_children r));
  Some (concat rest).

(** [SuffixTree::all_nf]: the printed pairs and the tree it leaves. *)
Definition all_nf (st : SuffixTree)
  : option (list (list ascii * Z) * SuffixTree) :=
  h ← accumulate (length (txt st)) (inodes st);
  out ← report_all (txt st) h;
  Some (out, set_inodes h st).

Definition text (s : string) : list ascii := list_ascii_of_string s.

(** ** Texts of the scenarios of the specification *)

(** Number of positions of [t] at which [s] occurs. *)
Definition occurrences (s t : list ascii) : nat :=
  length (filter (λ i, take (length s) (drop i t) = s)
            (seq 0 (S (length t) - length s))).

Definition paper_text : list ascii := text "#abcdabybcdbxbcyabcd$".

(** ** Invariants of the construction *)

(** [t[a..b)] *)
Definition sub (t : list ascii) (a b : Z) : list ascii :=
  take (Z.to_nat (b - a)) (drop (Z.to_nat a) t).

Definition len (w : list ascii) : Z := Z.of_nat (length w).

(** The invariants are stated relative to a labelling [D] that gives the
    string represented by every internal node.  [k] is the current phase
    (the value of [global_end]) and [kl] bounds the [start] of a leaf. *)

(** The edge from [u] to its internal child [ch] under key [c]: the edge
    label [t[start..end)] is not empty, starts with [c], and is preceded
    in the text by an occurrence of the string of [u]. *)
Record int_edge_ok (t : list ascii) (k : Z) (D : nat → list ascii)
    (hi : list InternalNode) (u : nat) (c : ascii) (ch : nat)
    (cn : InternalNode) : Prop := {
  ie_lookup : hi !! ch = Some cn;
  ie_start : 0 ≤ start cn;
  ie_lt : start cn < end_ cn;
  ie_end : end_ cn ≤ k;
  ie_key : char_at t (start cn) = Some c;
  ie_pos : len (D u) ≤ start cn;
  ie_occ : D u = sub t (start cn - len (D u)) (start cn);
  ie_D : D ch = D u ++ sub t (start cn) (end_ cn)
}.
Arguments ie_lookup {_ _ _ _ _ _ _ _} _.
Arguments ie_start {_ _ _ _ _ _ _ _} _.
Arguments ie_lt {_ _ _ _ _ _ _ _} _.
Arguments ie_end {_ _ _ _ _ _ _ _} _.
Arguments ie_key {_ _ _ _ _ _ _ _} _.
Arguments ie_pos {_ _ _ _ _ _ _ _} _.
Arguments ie_occ {_ _ _ _ _ _ _ _} _.
Arguments ie_D {_ _ _ _ _ _ _ _} _.

(** The edge from [u] to its leaf child [lf] under key [c]: the leaf with
    handle [lf] stands for the suffix that starts at position [lf]. *)
Record leaf_edge_ok (t : list ascii) (kl : Z) (D : nat → list ascii)
    (hl : list LeafNode) (u : nat) (c : ascii) (lf : nat)
    (ln : LeafNode) : Prop := {
  le_lookup : hl !! lf = Some ln;
  le_lo : Z.of_nat lf ≤ leaf_start ln;
  le_hi : leaf_start ln ≤ kl;
  le_key : char_at t (leaf_start ln) = Some c;
  le_D : D u = sub t (Z.of_nat lf) (leaf_start ln)
}.
Arguments le_lookup {_ _ _ _ _ _ _ _} _.
Arguments le_lo {_ _ _ _ _ _ _ _} _.
Arguments le_hi {_ _ _ _ _ _ _ _} _.
Arguments le_key {_ _ _ _ _ _ _ _} _.
Arguments le_D {_ _ _ _ _ _ _ _} _.

Record tree_ok (t : list ascii) (k kl : Z) (D : nat → list ascii)
    (hi : list InternalNode) (hl : list LeafNode) : Prop := {
  tk_k : 0 ≤ k ∧ k ≤ len t ∧ kl ≤ k ∧ kl < len t;
  tk_root : is_Some (hi !! root);
  tk_Droot : D root = [];
  tk_int : ∀ u un c ch, hi !! u = Some un →
           internal_children un !! c = Some ch →
           ∃ cn, int_edge_ok t k D hi u c ch cn;
  tk_leaf : ∀ u un c lf, hi !! u = Some un →
            leaf_children un !! c = Some lf →
            ∃ ln, leaf_edge_ok t kl D hl u c lf ln;
  tk_disj : ∀ u un c, hi !! u = Some un →
            internal_children un !! c = None ∨ leaf_children un !! c = None;
  tk_parent : ∀ v, (v < length hi)%nat → v ≠ root →
              ∃ u un c, hi !! u = Some un ∧ internal_children un !! c = Some v;
  tk_lparent : ∀ lf, (lf < length hl)%nat →
               ∃ u un c, hi !! u = Some un ∧ leaf_children un !! c = Some lf;
  tk_ne : ∀ u un, hi !! u = Some un → u ≠ root →
          (∃ c x, internal_children un !! c = Some x) ∨
          (∃ c x, leaf_children un !! c = Some x)
}.
Arguments tk_k {_ _ _ _ _ _} _.
Arguments tk_root {_ _ _ _ _ _} _.
Arguments tk_Droot {_ _ _ _ _ _} _.
Arguments tk_int {_ _ _ _ _ _} _.
Arguments tk_leaf {_ _ _ _ _ _} _.
Arguments tk_disj {_ _ _ _ _ _} _.
Arguments tk_parent {_ _ _ _ _ _} _.
Arguments tk_lparent {_ _ _ _ _ _} _.
Arguments tk_ne {_ _ _ _ _ _} _.

(** [anc hi u v]: [v] is reached from [u] along edges to internal
    children. *)
Inductive anc (hi : list InternalNode) : nat → nat → Prop :=
  | anc_refl u : anc hi u u
  | anc_step u un c ch v :
      hi !! u = Some un → internal_children un !! c = Some ch →
      anc hi ch v → anc hi u v.

(** Suffix links and Weiner links.  [ex] tells which nodes may still be
    waiting for their suffix link. *)
Record links_ok (D : nat → list ascii) (hi : list InternalNode)
    (ex : nat → Prop) : Prop := {
  lk_root : ∀ rn, hi !! root = Some rn → suffix_link rn = None;
  lk_suf : ∀ u un, hi !! u = Some un → u ≠ root →
           match suffix_link un with
           | Some v => (v < length hi)%nat ∧ ∃ x, D u = x :: D v
           | None => ex u
           end;
  lk_wl : ∀ u un v, hi !! u = Some un →
          (v ∈ weiner_links un ↔
           ∃ vn, hi !! v = Some vn ∧ suffix_link vn = Some u);
  lk_nodup : ∀ u un, hi !! u = Some un → NoDup (weiner_links un);
  lk_nf : ∀ u un, hi !! u = Some un → nf un = 0
}.
Arguments lk_root {_ _ _} _.
Arguments lk_suf {_ _ _} _.
Arguments lk_wl {_ _ _} _.
Arguments lk_nodup {_ _ _} _.
Arguments lk_nf {_ _ _} _.

(** Every suffix [t[i..k)] with [j ≤ i] that has no leaf yet already
    occurs in [t[0..k)] at a position that has a leaf. *)
Definition implicit (t : list ascii) (j k : Z) : Prop :=
  ∀ i, j ≤ i → i < k →
    ∃ i', 0 ≤ i' ∧ i' < j ∧ sub t i' (i' + (k - i)) = sub t i k.

(** What is known of the node [A] held in [need_link] when the suffix
    [t[j..k]] is about to be inserted: its string is [t[j-1..k)], and it
    is followed somewhere in [t[0..k)] by a byte other than [t[k]]. *)
Definition pending_link (t : list ascii) (k j : Z) (D : nat → list ascii)
    (hi : list InternalNode) (A : nat) : Prop :=
  (A < length hi)%nat ∧
  (∃ x, D A = x :: sub t j k) ∧
  ∃ c' p, 0 ≤ p ∧ p + len (D A) + 1 ≤ k ∧
          sub t p (p + len (D A) + 1) = D A ++ [c'] ∧
          char_at t k ≠ Some c'.

(** The invariant at the head of the loop of [extend(k)]. *)
Record loop_inv (k : Z) (D : nat → list ascii) (st : SuffixTree) : Prop := {
  li_k : 0 ≤ k ∧ k < len (txt st) ∧ len (txt st) < 2 ^ 32;
  li_ge : global_end st = k;
  li_rem : remainder st = k + 1 - Z.of_nat (length (lnodes st));
  li_rem0 : 0 ≤ remainder st;
  li_tree : tree_ok (txt st) k k D (inodes st) (lnodes st);
  li_links : links_ok D (inodes st) (λ u, need_link st = Some u);
  li_impl : implicit (txt st) (Z.of_nat (length (lnodes st))) k;
  li_an : (active_node st < length (inodes st))%nat;
  li_al : 0 ≤ active_length st ∧ active_length st ≤ k;
  li_ap : D (active_node st) ++ sub (txt st) (k - active_length st) k
          = sub (txt st) (Z.of_nat (length (lnodes st))) k;
  li_ae : 0 < active_length st → active_edge st = k - active_length st;
  li_nl : 0 < remainder st → ∀ A, need_link st = Some A →
          pending_link (txt st) k (Z.of_nat (length (lnodes st))) D (inodes st) A;
  li_done : remainder st = 0 → ∀ u un, inodes st !! u = Some un → u ≠ root →
            is_Some (suffix_link un)
}.
Arguments li_k {_ _ _} _.
Arguments li_ge {_ _ _} _.
Arguments li_rem {_ _ _} _.
Arguments li_rem0 {_ _ _} _.
Arguments li_tree {_ _ _} _.
Arguments li_links {_ _ _} _.
Arguments li_impl {_ _ _} _.
Arguments li_an {_ _ _} _.
Arguments li_al {_ _ _} _.
Arguments li_ap {_ _ _} _.
Arguments li_ae {_ _ _} _.
Arguments li_nl {_ _ _} _.
Arguments li_done {_ _ _} _.

(** The invariant between two phases: the state before [extend(k)]. *)
Record phase_inv (k : Z) (D : nat → list ascii) (st : SuffixTree) : Prop := {
  pi_k : 0 ≤ k ∧ k ≤ len (txt st) ∧ len (txt st) < 2 ^ 32;
  pi_ge : global_end st = k;
  pi_rem : remainder st = k - Z.of_nat (length (lnodes st));
  pi_rem0 : 0 ≤ remainder st;
  pi_tree : tree_ok (txt st) k (k - 1) D (inodes st) (lnodes st);
  pi_links : links_ok D (inodes st) (λ _, False);
  pi_impl : implicit (txt st) (Z.of_nat (length (lnodes st))) k;
  pi_an : (active_node st < length (inodes st))%nat;
  pi_al : 0 ≤ active_length st ∧ active_length st ≤ k;
  pi_ap : D (active_node st) ++ sub (txt st) (k - active_length st) k
          = sub (txt st) (Z.of_nat (length (lnodes st))) k;
  pi_ae : 0 < active_length st → active_edge st = k - active_length st
}.
Arguments pi_k {_ _ _} _.
Arguments pi_ge {_ _ _} _.
Arguments pi_rem {_ _ _} _.
Arguments pi_rem0 {_ _ _} _.
Arguments pi_tree {_ _ _} _.
Arguments pi_links {_ _ _} _.
Arguments pi_impl {_ _ _} _.
Arguments pi_an {_ _ _} _.
Arguments pi_al {_ _ _} _.
Arguments pi_ap {_ _ _} _.
Arguments pi_ae {_ _ _} _.

(** Two nodes, or two arenas, that differ at most in links and [nf]. *)
Definition same_shape (n n' : InternalNode) : Prop :=
  start n = start n' ∧ end_ n = end_ n' ∧
  internal_children n = internal_children n' ∧
  leaf_children n = leaf_children n'.

Definition same_tree (hi hi' : list InternalNode) : Prop :=
  length hi = length hi' ∧
  ∀ u un, hi !! u = Some un → ∃ un', hi' !! u = Some un' ∧ same_shape un un'.

(** The child of the active node [ann] under key [c] starts its edge
    label at [s], and that label is longer than [active_length]. *)
Definition active_edge_at (k : Z) (st : SuffixTree) (ann : InternalNode)
    (c : ascii) (s : Z) : Prop :=
  (∃ ch chn, internal_children ann !! c = Some ch ∧
             inodes st !! ch = Some chn ∧ start chn = s ∧
             active_length st < edge_length chn) ∨
  (∃ lf ln, leaf_children ann !! c = Some lf ∧
            lnodes st !! lf = Some ln ∧ leaf_start ln = s ∧
            active_length st < leaf_edge_length k ln).

(** The state inside one iteration of the loop of [extend(k)], after the
    leaf of the suffix [t[jo..k]] was attached and [add_links] was called,
    before [remainder--]. *)
Record mid_inv (k : Z) (D : nat → list ascii) (st : SuffixTree) : Prop := {
  mi_k : 0 ≤ k ∧ k < len (txt st) ∧ len (txt st) < 2 ^ 32;
  mi_ge : global_end st = k;
  mi_rem : remainder st = k + 1 - (Z.of_nat (length (lnodes st)) - 1);
  mi_rem0 : 1 ≤ remainder st;
  mi_j : (0 < length (lnodes st))%nat;
  mi_tree : tree_ok (txt st) k k D (inodes st) (lnodes st);
  mi_links : links_ok D (inodes st)
               (λ u, need_link st = Some u ∧ 0 < active_length st);
  mi_impl : implicit (txt st) (Z.of_nat (length (lnodes st)) - 1) k;
  mi_an : (active_node st < length (inodes st))%nat;
  mi_al : 0 ≤ active_length st ∧ active_length st ≤ k;
  mi_ap : D (active_node st) ++ sub (txt st) (k - active_length st) k
          = sub (txt st) (Z.of_nat (length (lnodes st)) - 1) k;
  mi_ae : 0 < active_length st → active_edge st = k - active_length st;
  mi_nl : ∃ N, need_link st = Some N ∧ (N < length (inodes st))%nat ∧
          D N = sub (txt st) (Z.of_nat (length (lnodes st)) - 1) k ∧
          (Z.of_nat (length (lnodes st)) - 1 < k →
           ∃ c' p, 0 ≤ p ∧ p + len (D N) + 1 ≤ k ∧
                   sub (txt st) p (p + len (D N) + 1) = D N ++ [c'] ∧
                   char_at (txt st) k ≠ Some c')
}.
Arguments mi_k {_ _ _} _.
Arguments mi_ge {_ _ _} _.
Arguments mi_rem {_ _ _} _.
Arguments mi_rem0 {_ _ _} _.
Arguments mi_j {_ _ _} _.
Arguments mi_tree {_ _ _} _.
Arguments mi_links {_ _ _} _.
Arguments mi_impl {_ _ _} _.
Arguments mi_an {_ _ _} _.
Arguments mi_al {_ _ _} _.
Arguments mi_ap {_ _ _} _.
Arguments mi_ae {_ _ _} _.
Arguments mi_nl {_ _ _} _.

(** Every node of [hi] is still in [hi'], with the same edge label. *)
Definition same_span (hi hi' : list InternalNode) : Prop :=
  ∀ u un, hi !! u = Some un →
    ∃ un', hi' !! u = Some un' ∧ start un' = start un ∧ end_ un' = end_ un.

(** Two arenas with the same links and counters. *)
Definition same_links (hi hi' : list InternalNode) : Prop :=
  length hi = length hi' ∧
  ∀ u un', hi' !! u = Some un' →
    ∃ un, hi !! u = Some un ∧ suffix_link un' = suffix_link un ∧
          weiner_links un' = weiner_links un ∧ nf un' = nf un.

(** The labelling [D] extended to a new node [m]. *)
Definition relabel (D : nat → list ascii) (m : nat) (w : list ascii)
  : nat → list ascii :=
  λ u, if decide (u = m) then w else D u.

(** [node_string t hi u w]: the labels of the edges from the root down to
    the internal node [u] spell [w]. *)
Inductive node_string (t : list ascii) (hi : list InternalNode)
  : nat → list ascii → Prop :=
  | ns_root : node_string t hi root []
  | ns_child u w un c ch cn :
      node_string t hi u w → hi !! u = Some un →
      internal_children un !! c = Some ch → hi !! ch = Some cn →
      node_string t hi ch (w ++ sub t (start cn) (end_ cn)).

(** ** Net frequency, in the words of the specification *)

(** The bytes [y] that key a leaf child of both [xS] and [S]. *)
Definition shared_leaf_keys (xn sn : InternalNode) : gset ascii :=
  dom (leaf_children xn) ∩ dom (leaf_children sn).

(** The number of pairs [(xS, y)] with [xS] in [S.weiner_links] and [y]
    keying a leaf child of both [xS] and [S]. *)
Definition cancelling_pairs (h : list InternalNode) (sn : InternalNode) : Z :=
  foldr (λ x acc,
           match h !! x with
           | Some xn => Z.of_nat (size (shared_leaf_keys xn sn))
           | None => 0
           end + acc) 0 (weiner_links sn).

(** The number of distinct bytes keying leaf children of [S], minus one
    for each cancelling pair. *)
Definition net_frequency (h : list InternalNode) (sn : InternalNode) : Z :=
  Z.of_nat (size (dom (leaf_children sn))) - cancelling_pairs h sn.

(** A text whose last byte occurs nowhere else. *)
Definition sentinel_terminated (t : list ascii) : Prop :=
  ∃ t0 c, t = t0 ++ [c] ∧ c ∉ t0.

(** ** The accumulation pass of [all_nf], in terms of the nodes it visits *)

(** Every [nf] field holds a 32-bit value. *)
Definition nf_range (h : list InternalNode) : Prop :=
  ∀ u un, h !! u = Some un → nf un = wrap32 (nf un).

(** [h'] is [h] with other values in the [nf] fields. *)
Definition nf_only (h h' : list InternalNode) : Prop :=
  length h = length h' ∧
  ∀ u un, h !! u = Some un → ∃ z, h' !! u = Some (set_nf z un).

(** [h'] is [h] with [f u] added, modulo [2^32], to the [nf] of each [u]. *)
Definition nf_shift (f : nat → Z) (h h' : list InternalNode) : Prop :=
  length h = length h' ∧
  ∀ u un, h !! u = Some un →
          h' !! u = Some (set_nf (wrap32 (nf un + f u)) un).

(** What one call of [process] on [x], without the recursive calls, adds
    to the [nf] of [u]. *)
Definition visit_delta (h : list InternalNode) (x u : nat) : Z :=
  match h !! x with
  | Some xn =>
      (if decide (x = u) then Z.of_nat (size (leaf_children xn)) else 0)
      - (if decide (suffix_link xn = Some u) then
           match h !! u with
           | Some un => Z.of_nat (size (shared_leaf_keys xn un))
           | None => 0
           end
         else 0)
  | None => 0
  end.

Definition total_delta (h : list InternalNode) (l : list nat) (u : nat) : Z :=
  foldr (λ y acc, visit_delta h y u + acc) 0 l.

(** The internal nodes [process] visits from [x], in order. *)
Fixpoint dfs (fuel : nat) (h : list InternalNode) (x : nat) : option (list nat) :=
  match fuel with
  | O => None
  | S fuel =>
      xn ← h !! x;
      ls ← mapM (λ c : ascii * nat, dfs fuel h c.2)
                (map_to_list (internal_children xn));
      Some (x :: concat ls)
  end.

(** [process] dereferences the suffix link of every visited node that has
    a leaf child. *)
Definition visitable (h : list InternalNode) (l : list nat) : Prop :=
  ∀ y yn, y ∈ l → h !! y = Some yn → leaf_children yn ≠ ∅ →
          ∃ S_, suffix_link yn = Some S_ ∧ (S_ < length h)%nat.

(** Sums over lists of nodes. *)
Definition sumZ (g : nat → Z) (l : list nat) : Z :=
  foldr (λ y acc, g y + acc) 0 l.

(** What the accumulation pass adds to the [nf] of [u]. *)
Definition bulk_delta (hi : list InternalNode) (u : nat) : Z :=
  match hi !! u with
  | Some un =>
      (if decide (u = root) then 0 else Z.of_nat (size (leaf_children un)))
      - cancelling_pairs hi un
  | None => 0
  end.

(** [sentinel_terminated], as a test that evaluates. *)
Definition sentinel_check (t : list ascii) : bool :=
  match reverse t with
  | [] => false
  | c :: r => bool_decide (c ∉ r)
  end.

(** ** The shape the construction keeps, whatever the text *)

(** The bytes that key a child of a node. *)
Definition child_keys (n : InternalNode) : gset ascii :=
  dom (leaf_children n) ∪ dom (internal_children n).

(** There is a root, every other internal node was created together with
    a leaf, and every internal node but the root has children under at
    least two bytes. *)
Definition branching (hi : list InternalNode) (hl : list LeafNode) : Prop :=
  (0 < length hi)%nat ∧ (length hi ≤ S (length hl))%nat ∧
  ∀ u un, hi !! u = Some un → u ≠ root → (2 ≤ size (child_keys un))%nat.

(** ** The locus of a query *)

(** The internal node [S_] is the locus of [s] with [r] bytes left: the
    string of [S_] is [s] followed by [r] more bytes, and [S_] is the
    first such node on its path (the string of its parent is shorter
    than [s]). *)
Definition locus (t : list ascii) (hi : list InternalNode) (s : list ascii)
    (S_ : nat) (r : Z) : Prop :=
  (∃ w, node_string t hi S_ (s ++ w) ∧ len w = r) ∧
  ∀ p pn c wp, hi !! p = Some pn → internal_children pn !! c = Some S_ →
               node_string t hi p wp → len wp < len s.

(** ** The lines [all_nf] prints *)

(** The line printed by [report] at the node [u], whose string is [w],
    when the traversal started at position [sp]: nothing when [nf] is
    zero, else [txt.substr(sp, |w|)] and [nf]. *)
Definition report_line (t : list ascii) (h : list InternalNode) (sp : Z)
    (u : nat) (w : list ascii) : list (list ascii * Z) :=
  match h !! u with
  | Some n =>
      if decide (nf n = 0) then []
      else [(take (length w) (drop (Z.to_nat sp) t), nf n)]
  | None => []
  end.

(** The line for [u] below the child [top] of the root: the traversal of
    that subtree starts at [top->start]. *)
Definition report_entry (t : list ascii) (h : list InternalNode)
    (e : nat * nat * list ascii) : list (list ascii * Z) :=
  match h !! e.1.1 with
  | Some topn => report_line t h (start topn) e.1.2 e.2
  | None => []
  end.

(** ** What the net frequency counts, in terms of the text alone *)

(** [s] occurs in [t] at position [i]. *)
Definition occurs_at (s t : list ascii) (i : nat) : Prop :=
  (i + length s ≤ length t)%nat ∧ take (length s) (drop i t) = s.

(** The occurrence of [s] at [i] has a unique right extension: the byte
    [y] that follows it makes a string [s y] found nowhere else (the
    comment of [single_nf]: the leaf children of [S] count the unique
    right extensions of [s]). *)
Definition right_unique (t s : list ascii) (i : nat) : bool :=
  match t !! (i + length s)%nat with
  | Some y => Nat.eqb (occurrences (s ++ [y]) t) 1
  | None => true
  end.

(** The occurrence of [s] at [i] has no repeated left extension: the
    byte [x] before it, if there is one, makes a string [x s] found
    nowhere else ([single_nf] takes one off for a repeated left
    extension [xS] that has the leaf). *)
Definition left_unique (t s : list ascii) (i : nat) : bool :=
  match i with
  | O => true
  | S j => match t !! j with
           | Some x => Nat.eqb (occurrences (x :: s) t) 1
           | None => true
           end
  end.

(** A net occurrence: an occurrence of a repeated string that is unique
    on both sides. *)
Definition net_occurrence (t s : list ascii) (i : nat) : bool :=
  bool_decide (take (length s) (drop i t) = s) && Nat.leb 2 (occurrences s t)
  && left_unique t s i && right_unique t s i.

Definition net_occurrences (t s : list ascii) : nat :=
  length (filter (λ i, net_occurrence t s i = true)
            (seq 0 (S (length t) - length s))).

(** * Substrings *)

Lemma wrap32_small z : 0 ≤ z < 2 ^ 32 → wrap32 z = z.
Proof. intros. unfold wrap32. apply Z.mod_small. lia. Qed.

Lemma wrap32_range z : 0 ≤ wrap32 z < 2 ^ 32.
Proof. unfold wrap32. apply Z.mod_pos_bound. lia. Qed.

Lemma len_nonneg w : 0 ≤ len w.
Proof. unfold len. lia. Qed.

Lemma len_app w1 w2 : len (w1 ++ w2) = len w1 + len w2.
Proof. unfold len. rewrite length_app. lia. Qed.

Lemma len_cons c w : len (c :: w) = 1 + len w.
Proof. unfold len. simpl. lia. Qed.

Lemma len_zero_nil w : len w = 0 → w = [].
Proof. unfold len. destruct w; simpl; [done | lia]. Qed.

Lemma sub_nil t a b : b ≤ a → sub t a b = [].
Proof. intros. unfold sub. replace (Z.to_nat (b - a)) with 0%nat by lia. done. Qed.

Lemma len_sub t a b : 0 ≤ a → a ≤ b → b ≤ len t → len (sub t a b) = b - a.
Proof. unfold len, sub. intros. rewrite length_take, length_drop. lia. Qed.

Lemma len_sub_le t a b : a ≤ b → len (sub t a b) ≤ b - a.
Proof. unfold len, sub. intros. rewrite length_take. lia. Qed.

Lemma sub_app t a b c :
  0 ≤ a → a ≤ b → b ≤ c → sub t a b ++ sub t b c = sub t a c.
Proof.
  intros. unfold sub.
  replace (Z.to_nat (c - a)) with (Z.to_nat (b - a) + Z.to_nat (c - b))%nat by lia.
  rewrite <- take_take_drop. f_equal. rewrite drop_drop. do 2 f_equal. lia.
Qed.

Lemma char_at_Some t i c : 0 ≤ i → char_at t i = Some c → i < len t.
Proof.
  unfold char_at, len. intros ? H. apply lookup_lt_Some in H. lia.
Qed.

Lemma char_at_lt t i : 0 ≤ i → i < len t → ∃ c, char_at t i = Some c.
Proof.
  unfold char_at, len. intros. apply lookup_lt_is_Some. lia.
Qed.

Lemma sub_lookup t a b i :
  0 ≤ a → 0 ≤ i → i < b - a → sub t a b !! Z.to_nat i = char_at t (a + i).
Proof.
  intros. unfold sub, char_at. rewrite lookup_take_lt by lia.
  rewrite lookup_drop. f_equal. lia.
Qed.

Lemma sub_one t a c : 0 ≤ a → char_at t a = Some c → sub t a (a + 1) = [c].
Proof.
  intros ? H. unfold sub, char_at in *.
  replace (Z.to_nat (a + 1 - a)) with 1%nat by lia.
  apply list_eq. intros [|i]; simpl.
  - rewrite lookup_take_lt by lia. rewrite lookup_drop. rewrite <- H. f_equal. lia.
  - rewrite lookup_take_ge by lia. done.
Qed.

Lemma sub_snoc t a b c :
  0 ≤ a → a ≤ b → char_at t b = Some c → sub t a (b + 1) = sub t a b ++ [c].
Proof.
  intros. rewrite <- (sub_app t a b (b + 1)) by lia.
  f_equal. by apply sub_one; [lia|].
Qed.

Lemma sub_cons t a b c :
  0 ≤ a → a < b → char_at t a = Some c → sub t a b = c :: sub t (a + 1) b.
Proof.
  intros. rewrite <- (sub_app t a (a + 1) b) by lia.
  rewrite (sub_one t a c) by done. done.
Qed.

Lemma take_sub t a b m :
  0 ≤ m → m ≤ b - a → take (Z.to_nat m) (sub t a b) = sub t a (a + m).
Proof.
  intros. unfold sub. rewrite take_take. do 2 f_equal. lia.
Qed.

Lemma sub_sub t a b x y :
  0 ≤ a → 0 ≤ x → x ≤ y → y ≤ b - a →
  take (Z.to_nat (y - x)) (drop (Z.to_nat x) (sub t a b)) = sub t (a + x) (a + y).
Proof.
  intros. unfold sub. apply list_eq. intros i.
  destruct (decide (i < Z.to_nat (y - x))%nat).
  - rewrite !lookup_take_lt by lia. rewrite !lookup_drop.
    rewrite lookup_take_lt by lia. rewrite lookup_drop. f_equal. lia.
  - rewrite !lookup_take_ge by lia. done.
Qed.

Lemma sub_inner t a b a' b' x y :
  sub t a b = sub t a' b' → 0 ≤ a → 0 ≤ a' → 0 ≤ x → x ≤ y →
  y ≤ b - a → y ≤ b' - a' → sub t (a + x) (a + y) = sub t (a' + x) (a' + y).
Proof.
  intros E ??????.
  rewrite <- (sub_sub t a b) by lia. rewrite <- (sub_sub t a' b') by lia.
  by rewrite E.
Qed.

Lemma sub_prefix t a b a' b' y :
  sub t a b = sub t a' b' → 0 ≤ a → 0 ≤ a' → 0 ≤ y →
  y ≤ b - a → y ≤ b' - a' → sub t a (a + y) = sub t a' (a' + y).
Proof.
  intros E ?????.
  pose proof (sub_inner t a b a' b' 0 y E) as H'.
  rewrite !Z.add_0_r in H'. apply H'; lia.
Qed.

Lemma sub_char t a b a' b' x :
  sub t a b = sub t a' b' → 0 ≤ a → 0 ≤ a' → 0 ≤ x →
  x < b - a → x < b' - a' → char_at t (a + x) = char_at t (a' + x).
Proof.
  intros E ?????.
  rewrite <- (sub_lookup t a b) by lia. rewrite <- (sub_lookup t a' b') by lia.
  by rewrite E.
Qed.

Lemma app_inv_len (w1 w2 v1 v2 : list ascii) :
  w1 ++ w2 = v1 ++ v2 → len w1 = len v1 → w1 = v1 ∧ w2 = v2.
Proof.
  intros E L. apply app_inj_1; [|done]. unfold len in L. lia.
Qed.

Lemma sub_full t : sub t 0 (len t) = t.
Proof.
  unfold sub, len. simpl. rewrite Z.sub_0_r, Nat2Z.id. apply take_ge. done.
Qed.

Lemma substr_sub s pos l :
  0 ≤ pos → pos ≤ len s → 0 ≤ l → substr s pos l = Some (sub s pos (pos + l)).
Proof.
  intros. unfold substr, sub. rewrite decide_True by (unfold len in *; lia).
  do 3 f_equal. lia.
Qed.

Lemma prefix_sub_eq t a b w :
  0 ≤ a → a ≤ b → w `prefix_of` sub t a b → w = sub t a (a + len w).
Proof.
  intros ?? Hp. pose proof (prefix_length _ _ Hp) as Hl.
  pose proof (len_sub_le t a b ltac:(lia)).
  rewrite <- (take_sub t a b (len w)) by (unfold len in *; lia).
  destruct Hp as [x ->]. unfold len. rewrite Nat2Z.id.
  by rewrite take_app_length.
Qed.

Lemma sub_prefix_of t a b c :
  0 ≤ a → a ≤ b → b ≤ c → sub t a b `prefix_of` sub t a c.
Proof. intros. rewrite <- (sub_app t a b c) by lia. by apply prefix_app_r. Qed.

Lemma sub_eq_len t a b a' b' :
  sub t a b = sub t a' b' → 0 ≤ a → a ≤ b → b ≤ len t →
  0 ≤ a' → a' ≤ b' → b' ≤ len t → b - a = b' - a'.
Proof.
  intros E ??????. rewrite <- (len_sub t a b), <- (len_sub t a' b') by lia.
  by rewrite E.
Qed.

(** Equal stretches of the text have equal sub-stretches. *)
Lemma sub_shift t a b a' b' x y x' y' :
  sub t a b = sub t a' b' → 0 ≤ a → 0 ≤ a' → a ≤ x → x ≤ y → y ≤ b →
  x' = a' + (x - a) → y' = a' + (y - a) → y' ≤ b' →
  sub t x y = sub t x' y'.
Proof.
  intros E ????? -> -> ?.
  pose proof (sub_inner t a b a' b' (x - a) (y - a) E) as H'.
  replace (a + (x - a)) with x in H' by lia.
  replace (a + (y - a)) with y in H' by lia.
  apply H'; lia.
Qed.

Lemma char_shift t a b a' b' x x' :
  sub t a b = sub t a' b' → 0 ≤ a → 0 ≤ a' → a ≤ x → x < b →
  x' = a' + (x - a) → x' < b' → char_at t x = char_at t x'.
Proof.
  intros E ???? -> ?.
  pose proof (sub_char t a b a' b' (x - a) E) as H'.
  replace (a + (x - a)) with x in H' by lia.
  apply H'; lia.
Qed.

(** After rule 3 has found [t[j..k]] earlier in the text, every pending
    suffix of [t[0..k]] occurs earlier too. *)
Lemma implicit_step t j k p :
  implicit t j k → 0 ≤ j → j ≤ k → k < len t →
  0 ≤ p → p < j → sub t p (p + (k + 1 - j)) = sub t j (k + 1) →
  implicit t j (k + 1).
Proof.
  intros Him Hj0 Hjk Hk Hp0 Hpj Hocc i Hji Hik.
  assert (sub t (p + (i - j)) (p + (i - j) + (k + 1 - i)) = sub t i (k + 1)) as Hi.
  { symmetry. apply (sub_shift t j (k + 1) p (p + (k + 1 - j))); (done || lia). }
  destruct (decide (p + (i - j) < j)) as [Hlt|Hge].
  { exists (p + (i - j)). split_and!; [lia|lia|done]. }
  destruct (Him (p + (i - j))) as (i' & Hi0 & Hij & Hocc'); [lia..|].
  exists i'. split_and!; [done..|].
  rewrite <- Hi.
  apply (sub_shift t i' (i' + (k - (p + (i - j)))) (p + (i - j)) k); (done || lia).
Qed.

Lemma sub_one_inv t a c : 0 ≤ a → sub t a (a + 1) = [c] → char_at t a = Some c.
Proof.
  intros ? H. pose proof (sub_lookup t a (a + 1) 0 ltac:(lia) ltac:(lia) ltac:(lia)) as H'.
  rewrite H, Z.add_0_r in H'. simpl in H'. done.
Qed.

Lemma tree_ok_mono t k kl k' kl' D hi hl :
  tree_ok t k kl D hi hl → k ≤ k' → k' ≤ len t → kl ≤ kl' → kl' ≤ k' →
  kl' < len t → tree_ok t k' kl' D hi hl.
Proof.
  intros TK ?????. pose proof (tk_k TK). constructor; try apply TK.
  - lia.
  - intros u un c ch Hu Hc. destruct (tk_int TK u un c ch Hu Hc) as [cn E].
    exists cn. destruct E. constructor; (done || lia).
  - intros u un c lf Hu Hc. destruct (tk_leaf TK u un c lf Hu Hc) as [ln E].
    exists ln. destruct E. constructor; (done || lia).
Qed.

Lemma occ_split t p x w c' :
  0 ≤ p → p + len w + 2 ≤ len t →
  sub t p (p + len (x :: w) + 1) = (x :: w) ++ [c'] →
  sub t (p + 1) (p + 1 + len w) = w ∧ char_at t (p + 1 + len w) = Some c'.
Proof.
  intros Hp Hn H. pose proof (len_nonneg w). rewrite len_cons in H.
  rewrite <- (sub_app t p (p + 1) (p + (1 + len w) + 1)) in H by lia.
  rewrite <- (sub_app t (p + 1) (p + 1 + len w) (p + (1 + len w) + 1)) in H by lia.
  change ((x :: w) ++ [c']) with ([x] ++ w ++ [c']) in H.
  apply app_inv_len in H as [_ H];
    [|rewrite len_sub by lia; unfold len; simpl; lia].
  apply app_inv_len in H as [H1 H2]; [|rewrite len_sub by lia; lia].
  split; [done|]. apply sub_one_inv; [lia|].
  rewrite <- H2. f_equal. lia.
Qed.

(** * The shape of the tree *)

Section TreeShape.
Context (t : list ascii) (k kl : Z) (D : nat → list ascii)
        (hi : list InternalNode) (hl : list LeafNode).
Hypothesis TK : tree_ok t k kl D hi hl.
Local Abbreviation anc := (anc hi).
Local Abbreviation int_edge_ok := (int_edge_ok t k D hi).
Local Abbreviation leaf_edge_ok := (leaf_edge_ok t kl D hl).

Lemma ie_len {u c ch cn} :
  int_edge_ok u c ch cn → len (D ch) = len (D u) + (end_ cn - start cn).
Proof.
  intros E. pose proof (tk_k TK) as Hk.
  rewrite (ie_D E), len_app, len_sub; destruct E; lia.
Qed.

Lemma ie_cons {u c ch cn} :
  int_edge_ok u c ch cn → D ch = D u ++ c :: sub t (start cn + 1) (end_ cn).
Proof.
  intros E. rewrite (ie_D E). f_equal.
  apply sub_cons; destruct E; lia || done.
Qed.

Lemma D_len_le x : (x < length hi)%nat → len (D x) ≤ k.
Proof.
  intros Hx. destruct (decide (x = root)) as [->|Hr].
  - rewrite (tk_Droot TK). pose proof (tk_k TK). unfold len. simpl. lia.
  - destruct (tk_parent TK x Hx Hr) as (u & un & c & Hu & Hc).
    destruct (tk_int TK u un c x Hu Hc) as [cn E].
    pose proof (ie_len E). pose proof (ie_pos E).
    pose proof (ie_end E). lia.
Qed.

Lemma D_nonroot v : (v < length hi)%nat → v ≠ root → D v ≠ [].
Proof.
  intros Hv Hr. destruct (tk_parent TK v Hv Hr) as (u & un & c & Hu & Hc).
  destruct (tk_int TK u un c v Hu Hc) as [cn E].
  rewrite (ie_cons E). by destruct (D u).
Qed.

Lemma D_nil_root v : (v < length hi)%nat → D v = [] → v = root.
Proof.
  intros Hv HD. destruct (decide (v = root)); [done|].
  by destruct (D_nonroot v).
Qed.

Lemma anc_prefix u v : anc u v → D u `prefix_of` D v.
Proof.
  induction 1 as [|u un c ch v Hu Hc _ IH]; [done|].
  destruct (tk_int TK u un c ch Hu Hc) as [cn E].
  etrans; [|apply IH]. rewrite (ie_D E). by apply prefix_app_r.
Qed.

Lemma anc_len u v : anc u v → u = v ∨ len (D u) < len (D v).
Proof.
  destruct 1 as [|u un c ch v Hu Hc Ha]; [by left|right].
  destruct (tk_int TK u un c ch Hu Hc) as [cn E].
  pose proof (ie_len E). pose proof (ie_lt E).
  apply anc_prefix, prefix_length in Ha. unfold len in *. lia.
Qed.

Lemma anc_snoc a p pn c b :
  anc a p → hi !! p = Some pn → internal_children pn !! c = Some b → anc a b.
Proof.
  induction 1 as [u|u un c' ch v Hu Hc _ IH]; intros Hp Hb.
  - eapply anc_step; [done..|apply anc_refl].
  - eapply anc_step; [done..|by apply IH].
Qed.

(** The first byte below [u] on the way to [v]. *)
Lemma anc_step_key u un c ch v :
  hi !! u = Some un → internal_children un !! c = Some ch → anc ch v →
  ∃ w, D v = D u ++ c :: w.
Proof.
  intros Hu Hc Ha. destruct (tk_int TK u un c ch Hu Hc) as [cn E].
  destruct (anc_prefix _ _ Ha) as [w Hw]. rewrite Hw, (ie_cons E).
  rewrite <- app_assoc. simpl. eauto.
Qed.

Lemma prefix_of_le (l1 l2 l : list ascii) :
  l1 `prefix_of` l → l2 `prefix_of` l → (length l1 ≤ length l2)%nat →
  l1 `prefix_of` l2.
Proof.
  intros H1 H2 Hl. destruct (prefix_weak_total _ _ _ H1 H2) as [|H]; [done|].
  pose proof (prefix_length _ _ H).
  assert (l2 = l1) as -> ; [|done].
  destruct H as [w ->]. rewrite length_app in *.
  destruct w; [by rewrite app_nil_r|simpl in *; lia].
Qed.

Lemma key_same (p w1 w2 w3 : list ascii) c1 c2 :
  p ++ c1 :: w1 = p ++ c2 :: w2 ++ w3 → c1 = c2.
Proof. intros H. apply app_inv_head in H. by inversion H. Qed.

Lemma key_prefix (p w1 w2 l : list ascii) c1 c2 :
  (p ++ c1 :: w1) `prefix_of` l → (p ++ c2 :: w2) `prefix_of` l → c1 = c2.
Proof.
  intros [x ->] [y H]. rewrite <- !app_assoc in H. apply app_inv_head in H.
  simpl in H. by inversion H.
Qed.

Lemma anc_int m a b :
  (length (D b) < m)%nat → (a < length hi)%nat → (b < length hi)%nat →
  D a `prefix_of` D b → anc a b.
Proof.
  revert a b. induction m as [|m IH]; intros a b Hm Ha Hb Hp; [lia|].
  destruct (decide (b = root)) as [->|Hbr].
  { rewrite (tk_Droot TK) in Hp. apply prefix_nil_inv in Hp.
    rewrite (D_nil_root a Ha Hp). apply anc_refl. }
  destruct (tk_parent TK b Hb Hbr) as (pb & pbn & cb & Hpb & Hcb).
  destruct (tk_int TK pb pbn cb b Hpb Hcb) as [bn Eb].
  pose proof (ie_len Eb) as Lb. pose proof (ie_lt Eb) as Ltb.
  assert (D pb `prefix_of` D b) as Ppb.
  { rewrite (ie_D Eb). by apply prefix_app_r. }
  assert (pb < length hi)%nat as Hpbv by (by eapply lookup_lt_Some).
  destruct (decide (len (D a) ≤ len (D pb))) as [Hle|Hgt].
  { eapply anc_snoc; [|done..]. apply IH; [unfold len in *; lia|done..|].
    eapply prefix_of_le; [done..|unfold len in *; lia]. }
  assert (a ≠ root) as Har.
  { intros ->. rewrite (tk_Droot TK) in Hgt. pose proof (len_nonneg (D pb)).
    unfold len in *. simpl in *. lia. }
  destruct (tk_parent TK a Ha Har) as (pa & pan & ca & Hpa & Hca).
  destruct (tk_int TK pa pan ca a Hpa Hca) as [an Ea].
  pose proof (ie_len Ea) as La. pose proof (ie_lt Ea) as Lta.
  assert (D pa `prefix_of` D b) as Ppa.
  { trans (D a); [|done]. rewrite (ie_D Ea). by apply prefix_app_r. }
  assert (pa < length hi)%nat as Hpav by (by eapply lookup_lt_Some).
  pose proof (prefix_length _ _ Hp) as Lab.
  destruct (decide (len (D pa) ≤ len (D pb))) as [Hle'|Hgt'].
  - assert (anc pa pb) as Hanc.
    { apply IH; [unfold len in *; lia|done..|].
      eapply prefix_of_le; [done..|unfold len in *; lia]. }
    inversion Hanc as [|? un c q ? Hu Hq Hqa]; subst.
    + assert (ca = cb) as ->.
      { pose proof (ie_cons Ea) as Ca. pose proof (ie_cons Eb) as Cb.
        apply (key_prefix (D pb) (sub t (start an + 1) (end_ an))
                 (sub t (start bn + 1) (end_ bn)) (D b) ca cb);
          [by rewrite <- Ca|by rewrite <- Cb]. }
      assert (a = b) as -> by congruence. apply anc_refl.
    + destruct (anc_step_key _ _ _ _ _ Hu Hq Hqa) as [w Hw].
      assert (c = ca) as ->.
      { pose proof (ie_cons Ea) as Ca.
        apply (key_prefix (D pa) w (sub t (start an + 1) (end_ an)) (D b) c ca);
          [by rewrite <- Hw|by rewrite <- Ca]. }
      assert (q = a) as -> by congruence.
      destruct (anc_len _ _ Hqa) as [->|]; unfold len in *; lia.
  - assert (anc pb pa) as Hanc.
    { apply IH; [unfold len in *; lia|done..|].
      eapply prefix_of_le; [done..|unfold len in *; lia]. }
    inversion Hanc as [|? un c q ? Hu Hq Hqa]; subst; [unfold len in *; lia|].
    destruct (anc_step_key _ _ _ _ _ Hu Hq Hqa) as [w Hw].
    assert (c = cb) as ->.
    { pose proof (ie_cons Eb) as Cb.
      apply (key_prefix (D pb) w (sub t (start bn + 1) (end_ bn)) (D b) c cb);
        [by rewrite <- Hw|by rewrite <- Cb]. }
    assert (q = b) as -> by congruence.
    destruct (anc_len _ _ Hqa) as [->|]; unfold len in *; lia.
Qed.

Lemma anc_of_prefix a b :
  (a < length hi)%nat → (b < length hi)%nat → D a `prefix_of` D b → anc a b.
Proof. intros. by eapply (anc_int (S (length (D b)))); [lia|..]. Qed.

Lemma D_inj a b :
  (a < length hi)%nat → (b < length hi)%nat → D a = D b → a = b.
Proof.
  intros Ha Hb E.
  assert (anc a b) as H1 by (apply anc_of_prefix; [done..|by rewrite E]).
  destruct (anc_len _ _ H1) as [|]; [done|]. rewrite E in *. lia.
Qed.

Lemma int_parent_unique u un c u' un' c' ch :
  hi !! u = Some un → internal_children un !! c = Some ch →
  hi !! u' = Some un' → internal_children un' !! c' = Some ch →
  u = u' ∧ c = c'.
Proof.
  intros Hu Hc Hu' Hc'.
  destruct (tk_int TK u un c ch Hu Hc) as [cn E].
  destruct (tk_int TK u' un' c' ch Hu' Hc') as [cn' E'].
  assert (cn' = cn) as -> by (destruct E, E'; congruence).
  split.
  - apply D_inj; [by eapply lookup_lt_Some..|].
    pose proof (ie_D E) as H1. rewrite (ie_D E') in H1.
    by apply app_inv_tail in H1.
  - pose proof (ie_key E) as H1. rewrite (ie_key E') in H1. congruence.
Qed.

Lemma leaf_parent_unique u un c u' un' c' lf :
  hi !! u = Some un → leaf_children un !! c = Some lf →
  hi !! u' = Some un' → leaf_children un' !! c' = Some lf →
  u = u' ∧ c = c'.
Proof.
  intros Hu Hc Hu' Hc'.
  destruct (tk_leaf TK u un c lf Hu Hc) as [ln E].
  destruct (tk_leaf TK u' un' c' lf Hu' Hc') as [ln' E'].
  assert (ln' = ln) as -> by (destruct E, E'; congruence).
  split.
  - apply D_inj; [by eapply lookup_lt_Some..|].
    by rewrite (le_D E), (le_D E').
  - pose proof (le_key E) as H1. rewrite (le_key E') in H1. congruence.
Qed.

(** The string of the suffix of leaf [lf], cut at [k]. *)
Lemma leaf_string u c lf ln :
  leaf_edge_ok u c lf ln →
  sub t (Z.of_nat lf) k = D u ++ sub t (leaf_start ln) k.
Proof.
  intros E. rewrite (le_D E). symmetry. apply sub_app.
  - lia.
  - apply (le_lo E).
  - pose proof (le_hi E). pose proof (tk_k TK). lia.
Qed.

(** A node whose string is a prefix of the suffix of a leaf lies above
    the parent of that leaf. *)
Lemma anc_leaf u p pn c lf :
  (u < length hi)%nat → hi !! p = Some pn → leaf_children pn !! c = Some lf →
  D u `prefix_of` sub t (Z.of_nat lf) k → anc u p.
Proof.
  intros Hu Hp Hc Hpre.
  destruct (tk_leaf TK p pn c lf Hp Hc) as [ln E].
  pose proof (leaf_string _ _ _ _ E) as Hs.
  assert (p < length hi)%nat as Hpv by (by eapply lookup_lt_Some).
  assert (D p `prefix_of` sub t (Z.of_nat lf) k) as Hpp.
  { rewrite Hs. by apply prefix_app_r. }
  destruct (decide (length (D u) ≤ length (D p))%nat) as [Hle|Hgt].
  { apply anc_of_prefix; [done..|]. by eapply prefix_of_le. }
  assert (anc p u) as Ha.
  { apply anc_of_prefix; [done..|]. eapply prefix_of_le; [done..|lia]. }
  inversion Ha as [|? un cq q ? Hu' Hq Hqa]; subst; [lia|].
  exfalso.
  destruct (anc_step_key _ _ _ _ _ Hu' Hq Hqa) as [w Hw].
  rewrite Hw, Hs in Hpre. destruct Hpre as [x Hx].
  rewrite <- app_assoc in Hx. apply app_inv_head in Hx. simpl in Hx.
  pose proof (le_lo E). pose proof (le_hi E). pose proof (tk_k TK).
  destruct (decide (leaf_start ln < k)) as [Hlt|Hge].
  - rewrite (sub_cons t _ _ c) in Hx by (lia || apply (le_key E)).
    inversion Hx; subst cq.
    assert (un = pn) as -> by congruence.
    destruct (tk_disj TK p pn c Hp); congruence.
  - rewrite sub_nil in Hx by lia. done.
Qed.

(** The child of [u] on the way to the leaf [lf], when the string of
    [u] is a prefix of the suffix of that leaf. *)
Lemma child_toward_leaf u un lf :
  hi !! u = Some un → (lf < length hl)%nat →
  D u `prefix_of` sub t (Z.of_nat lf) k →
  (∃ c ch cn, internal_children un !! c = Some ch ∧ int_edge_ok u c ch cn ∧
              D ch `prefix_of` sub t (Z.of_nat lf) k) ∨
  (∃ c ln, leaf_children un !! c = Some lf ∧ leaf_edge_ok u c lf ln).
Proof.
  intros Hu Hlf Hpre.
  destruct (tk_lparent TK lf Hlf) as (p & pn & c & Hp & Hc).
  assert (anc u p) as Ha.
  { eapply anc_leaf; [by eapply lookup_lt_Some|done..]. }
  destruct (tk_leaf TK p pn c lf Hp Hc) as [ln E].
  inversion Ha as [|? un' cq q ? Hu' Hq Hqa]; subst.
  - right. assert (un = pn) as -> by congruence. eauto.
  - left. assert (un' = un) as -> by congruence.
    destruct (tk_int TK u un cq q Hu Hq) as [cn Eq].
    exists cq, q, cn. split_and!; [done..|].
    trans (D p); [by apply anc_prefix|].
    rewrite (leaf_string _ _ _ _ E). by apply prefix_app_r.
Qed.

(** An internal edge that lies on the path of the suffix starting at
    [i]: its label is the stretch of that suffix below the string of [u]. *)
Lemma edge_on_suffix u c ch cn i :
  int_edge_ok u c ch cn → 0 ≤ i → i ≤ k → D ch `prefix_of` sub t i k →
  D u = sub t i (i + len (D u)) ∧
  i + len (D u) + (end_ cn - start cn) ≤ k ∧
  sub t (start cn) (end_ cn) =
    sub t (i + len (D u)) (i + len (D u) + (end_ cn - start cn)).
Proof.
  intros E Hi0 Hik Hpre.
  pose proof (ie_len E) as HL. pose proof (ie_lt E) as Hlt.
  pose proof (len_nonneg (D u)) as Hd0.
  pose proof (prefix_length _ _ Hpre) as HLk.
  pose proof (len_sub_le t i k ltac:(lia)) as HLk'.
  assert (len (D ch) ≤ k - i) as HLk'' by (unfold len in *; lia).
  assert (D u = sub t i (i + len (D u))) as HDu.
  { apply (prefix_sub_eq t i k); [lia..|]. trans (D ch); [|done].
    rewrite (ie_D E). by apply prefix_app_r. }
  split_and!; [done|lia|].
  apply (prefix_sub_eq t i k) in Hpre; [|lia..].
  rewrite HL in Hpre. pose proof (ie_D E) as HD. rewrite Hpre in HD.
  rewrite <- (sub_app t i (i + len (D u))) in HD by lia.
  rewrite <- HDu in HD. apply app_inv_head in HD.
  rewrite <- HD. f_equal. lia.
Qed.

Lemma leaf_edge_start u c lf ln :
  leaf_edge_ok u c lf ln → leaf_start ln = Z.of_nat lf + len (D u).
Proof.
  intros E. pose proof (le_lo E). pose proof (le_hi E). pose proof (tk_k TK).
  pose proof (le_D E) as HD. apply (f_equal len) in HD.
  rewrite len_sub in HD by lia. lia.
Qed.

(** A node other than the root is followed, somewhere in [t[0..k)], by
    the key of one of its children. *)
Lemma node_has_ext u un c :
  hi !! u = Some un → u ≠ root → char_at t k = Some c →
  internal_children un !! c = None → leaf_children un !! c = None →
  ∃ c' p, 0 ≤ p ∧ p + len (D u) + 1 ≤ k ∧
          sub t p (p + len (D u) + 1) = D u ++ [c'] ∧ char_at t k ≠ Some c'.
Proof.
  intros Hu Hur Hck Hic Hlc. pose proof (tk_k TK) as Hk.
  pose proof (len_nonneg (D u)) as Hd0.
  destruct (tk_ne TK u un Hu Hur) as [(c' & x & Hx)|(c' & x & Hx)].
  - destruct (tk_int TK u un c' x Hu Hx) as [cn E].
    pose proof (ie_lt E). pose proof (ie_end E). pose proof (ie_pos E).
    exists c', (start cn - len (D u)). split_and!; [lia|lia| |].
    + replace (start cn - len (D u) + len (D u) + 1) with (start cn + 1) by lia.
      rewrite <- (sub_app t _ (start cn)) by lia.
      rewrite <- (ie_occ E). f_equal. apply sub_one; [apply E|apply E].
    + intros Hk'. rewrite Hck in Hk'. inversion Hk'; subst. congruence.
  - destruct (tk_leaf TK u un c' x Hu Hx) as [ln E].
    pose proof (le_lo E). pose proof (le_hi E).
    pose proof (leaf_edge_start _ _ _ _ E) as Hs.
    assert (leaf_start ln ≠ k) as Hne.
    { intros Heq. pose proof (le_key E) as Hk'. rewrite Heq in Hk'. congruence. }
    exists c', (Z.of_nat x). split_and!; [lia|lia| |].
    + replace (Z.of_nat x + len (D u) + 1) with (leaf_start ln + 1) by lia.
      rewrite <- (sub_app t _ (leaf_start ln)) by lia.
      rewrite <- (le_D E). f_equal. apply sub_one; [lia|apply E].
    + intros Hk'. rewrite Hck in Hk'. inversion Hk'; subst. congruence.
Qed.

(** The labelling [D] is the string read from the root. *)
Lemma node_string_D_aux m u :
  (length (D u) < m)%nat → (u < length hi)%nat → node_string t hi u (D u).
Proof.
  revert u. induction m as [|m IH]; intros u Hm Hu; [lia|].
  destruct (decide (u = root)) as [->|Hur].
  { rewrite (tk_Droot TK). constructor. }
  destruct (tk_parent TK u Hu Hur) as (p & pn & c & Hp & Hc).
  destruct (tk_int TK p pn c u Hp Hc) as [cn E].
  pose proof (ie_len E) as HL. pose proof (ie_lt E).
  rewrite (ie_D E). eapply ns_child; [|done..|apply E].
  apply IH; [unfold len in *; lia|by eapply lookup_lt_Some].
Qed.

Lemma node_string_D u : (u < length hi)%nat → node_string t hi u (D u).
Proof. intros. by eapply (node_string_D_aux (S (length (D u)))); [lia|]. Qed.

Lemma node_string_unique u w : node_string t hi u w → w = D u.
Proof.
  induction 1 as [|u w un c ch cn _ IH Hu Hc Hch]; [by rewrite (tk_Droot TK)|].
  destruct (tk_int TK u un c ch Hu Hc) as [cn' E].
  assert (cn' = cn) as -> by (destruct E; congruence).
  by rewrite (ie_D E), IH.
Qed.

End TreeShape.

(** * Changes that keep the tree *)

Lemma same_shape_refl n : same_shape n n.
Proof. done. Qed.

Lemma same_tree_refl hi : same_tree hi hi.
Proof. split; [done|]. intros u un H. exists un. by split. Qed.

Lemma same_tree_rev hi hi' u un' :
  same_tree hi hi' → hi' !! u = Some un' →
  ∃ un, hi !! u = Some un ∧ same_shape un un'.
Proof.
  intros [Hl Hs] Hu. pose proof (lookup_lt_Some _ _ _ Hu) as Hlt.
  rewrite <- Hl in Hlt. destruct (lookup_lt_is_Some_2 _ _ Hlt) as [un Hun].
  destruct (Hs u un Hun) as (un'' & Hu'' & Hsh).
  exists un. split; [done|]. congruence.
Qed.

Lemma same_tree_insert hi u un un' :
  hi !! u = Some un → same_shape un un' → same_tree hi (<[u := un']> hi).
Proof.
  intros Hu Hs. split; [by rewrite length_insert|].
  intros v vn Hv. destruct (decide (u = v)) as [->|Hne].
  - exists un'. rewrite list_lookup_insert_eq by (by eapply lookup_lt_Some).
    split; [done|]. congruence.
  - exists vn. by rewrite list_lookup_insert_ne.
Qed.

Lemma same_tree_trans h1 h2 h3 :
  same_tree h1 h2 → same_tree h2 h3 → same_tree h1 h3.
Proof.
  intros [L1 S1] [L2 S2]. split; [congruence|].
  intros u un Hu. destruct (S1 u un Hu) as (un' & Hu' & Hs').
  destruct (S2 u un' Hu') as (un'' & Hu'' & Hs'').
  exists un''. split; [done|].
  destruct Hs' as (?&?&?&?), Hs'' as (?&?&?&?). unfold same_shape.
  split_and!; congruence.
Qed.

Lemma tree_ok_same_tree t k kl D hi hi' hl :
  tree_ok t k kl D hi hl → same_tree hi hi' → tree_ok t k kl D hi' hl.
Proof.
  intros TK ST. pose proof ST as [Hl Hs].
  constructor.
  - apply (tk_k TK).
  - destruct (tk_root TK) as [rn Hrn]. destruct (Hs _ _ Hrn) as (rn' & -> & _). done.
  - apply (tk_Droot TK).
  - intros u un' c ch Hu Hc.
    destruct (same_tree_rev _ _ _ _ ST Hu) as (un & Hun & (?&?&Hic&?)).
    rewrite <- Hic in Hc.
    destruct (tk_int TK u un c ch Hun Hc) as [cn E].
    destruct (Hs _ _ (ie_lookup E)) as (cn' & Hcn' & (Hst & Hen & _ & _)).
    exists cn'. destruct E. constructor; rewrite <- ?Hst, <- ?Hen; done.
  - intros u un' c lf Hu Hc.
    destruct (same_tree_rev _ _ _ _ ST Hu) as (un & Hun & (?&?&?&Hlc)).
    rewrite <- Hlc in Hc. apply (tk_leaf TK u un c lf Hun Hc).
  - intros u un' c Hu.
    destruct (same_tree_rev _ _ _ _ ST Hu) as (un & Hun & (?&?&Hic&Hlc)).
    rewrite <- Hic, <- Hlc. apply (tk_disj TK u un c Hun).
  - intros v Hv Hr. rewrite <- Hl in Hv.
    destruct (tk_parent TK v Hv Hr) as (u & un & c & Hu & Hc).
    destruct (Hs _ _ Hu) as (un' & Hu' & (?&?&Hic&?)).
    exists u, un', c. split; [done|]. by rewrite <- Hic.
  - intros lf Hlf.
    destruct (tk_lparent TK lf Hlf) as (u & un & c & Hu & Hc).
    destruct (Hs _ _ Hu) as (un' & Hu' & (?&?&?&Hlc)).
    exists u, un', c. split; [done|]. by rewrite <- Hlc.
  - intros u un' Hu Hr.
    destruct (same_tree_rev _ _ _ _ ST Hu) as (un & Hun & (?&?&Hic&Hlc)).
    rewrite <- Hic, <- Hlc. apply (tk_ne TK u un Hun Hr).
Qed.

Lemma set_suffix_link_id n : set_suffix_link (suffix_link n) n = n.
Proof. by destruct n. Qed.

Lemma links_ok_weaken D hi (ex ex' : nat → Prop) :
  links_ok D hi ex →
  (∀ u un, hi !! u = Some un → u ≠ root → suffix_link un = None → ex u → ex' u) →
  links_ok D hi ex'.
Proof.
  intros LK H. constructor; try apply LK.
  intros u un Hu Hr. pose proof (lk_suf LK u un Hu Hr) as Hs.
  destruct (suffix_link un) eqn:E; [done|]. by eapply H.
Qed.

(** [add_links(target)] when the string of the node waiting in
    [need_link] is the string of [target] with one more byte in front. *)
Lemma add_links_spec t k kl D st target st' :
  tree_ok t k kl D (inodes st) (lnodes st) →
  links_ok D (inodes st) (λ u, need_link st = Some u ∨ u = target) →
  (target < length (inodes st))%nat →
  (∀ A, need_link st = Some A →
        (A < length (inodes st))%nat ∧ ∃ x, D A = x :: D target) →
  add_links target st = Some st' →
  same_tree (inodes st) (inodes st') ∧
  links_ok D (inodes st')
    (λ u, u = target ∧ ∃ tn, inodes st !! target = Some tn ∧ suffix_link tn = None) ∧
  st' = set_need_link (Some target) (set_inodes (inodes st') st).
Proof.
  intros TK LK Ht HA Hadd. unfold add_links in Hadd.
  destruct (need_link st) as [A|] eqn:HnA.
  2:{ inversion Hadd; subst; simpl. split_and!; [apply same_tree_refl| |by destruct st].
      eapply links_ok_weaken; [done|]. simpl. intros u un Hu _ Hs [|]; simplify_eq; eauto. }
  destruct (HA A eq_refl) as (HAv & x & HDA).
  destruct (inodes st !! A) as [xn|] eqn:Hxn; [|done]. simpl in Hadd.
  assert (A ≠ target) as Hne.
  { intros ->. apply (f_equal length) in HDA. simpl in HDA. lia. }
  assert (A ≠ root) as HAr.
  { intros ->. rewrite (tk_Droot TK) in HDA. done. }
  rewrite list_lookup_insert_ne in Hadd by done.
  destruct (inodes st !! target) as [tn|] eqn:Htn; [|done]. simpl in Hadd.
  pose proof (lk_suf LK A xn Hxn HAr) as HsA.
  (* the old link of [A], if any, already is [target] *)
  assert (suffix_link xn = Some target ∨ suffix_link xn = None) as Hold.
  { destruct (suffix_link xn) as [v0|]; [left|by right].
    destruct HsA as (Hv0 & x0 & HD0). f_equal.
    apply (D_inj t k kl D (inodes st) (lnodes st) TK); [done..|]. congruence. }
  destruct (decide (A ∈ weiner_links tn)) as [Hin|Hnin].
  - apply (lk_wl LK target tn A Htn) in Hin as (xn' & Hxn' & Hsl).
    assert (xn' = xn) as -> by congruence.
    replace (set_suffix_link (Some target) xn) with xn in Hadd
      by (rewrite <- Hsl; symmetry; apply set_suffix_link_id).
    rewrite list_insert_id in Hadd by done.
    inversion Hadd; subst; simpl. split_and!; [apply same_tree_refl| |by destruct st].
    eapply links_ok_weaken; [done|]. simpl. intros u un Hu _ Hs [Hu'|]; simplify_eq; eauto.
  - destruct Hold as [Hold|Hold].
    { exfalso. apply Hnin. apply (lk_wl LK target tn A Htn). eauto. }
    inversion Hadd; subst; simpl. clear Hadd.
    set (xn' := set_suffix_link (Some target) xn).
    set (tn' := set_weiner_links (weiner_links tn ++ [A]) tn).
    assert (∀ u, <[target:=tn']> (<[A:=xn']> (inodes st)) !! u =
                 if decide (u = target) then Some tn'
                 else if decide (u = A) then Some xn' else inodes st !! u) as Hlk.
    { intros u. destruct (decide (u = target)) as [->|].
      - rewrite list_lookup_insert_eq; [done|]. by rewrite length_insert.
      - rewrite list_lookup_insert_ne by done. destruct (decide (u = A)) as [->|].
        + by rewrite list_lookup_insert_eq.
        + by rewrite list_lookup_insert_ne. }
    split_and!; [| |by destruct st].
    + eapply same_tree_trans.
      * apply (same_tree_insert _ A xn xn'); done.
      * apply (same_tree_insert _ target tn tn'); [|done].
        by rewrite list_lookup_insert_ne.
    + constructor.
      * intros rn. rewrite Hlk. repeat case_decide; subst.
        -- intros [= <-]. simpl. apply (lk_root LK tn Htn).
        -- done.
        -- apply (lk_root LK).
      * intros u un. rewrite Hlk, !length_insert. repeat case_decide; subst.
        -- intros [= <-] Hr. simpl.
           pose proof (lk_suf LK target tn Htn Hr) as Hs.
           destruct (suffix_link tn) eqn:Hstn; [done|eauto].
        -- intros [= <-] _. simpl. split; [done|]. eauto.
        -- intros Hu Hr. pose proof (lk_suf LK u un Hu Hr) as Hs.
           destruct (suffix_link un); [done|]. destruct Hs as [Hs|Hs]; congruence.
      * intros u un v. rewrite Hlk.
        assert ((∃ vn, <[target:=tn']> (<[A:=xn']> (inodes st)) !! v = Some vn ∧
                       suffix_link vn = Some u) ↔
                (v = A ∧ u = target) ∨
                (∃ vn, inodes st !! v = Some vn ∧ suffix_link vn = Some u)) as ->.
        { rewrite Hlk. split.
          - intros (vn & Hv & Hs). repeat case_decide; subst.
            + inversion Hv; subst. simpl in Hs. right. eauto.
            + inversion Hv; subst. simpl in Hs. left. split; congruence.
            + right. eauto.
          - intros [[-> ->]|(vn & Hv & Hs)].
            + rewrite decide_False, decide_True by done. eauto.
            + repeat case_decide; subst.
              * exists tn'. split; [done|]. simpl. congruence.
              * congruence.
              * eauto. }
        repeat case_decide; subst.
        -- intros [= <-]. simpl. rewrite elem_of_app, list_elem_of_singleton.
           rewrite (lk_wl LK target tn v Htn). naive_solver.
        -- intros [= <-]. simpl. rewrite (lk_wl LK A xn v Hxn). naive_solver.
        -- intros Hu. rewrite (lk_wl LK u un v Hu). naive_solver.
      * intros u un. rewrite Hlk. repeat case_decide; subst.
        -- intros [= <-]. simpl. apply NoDup_app. split_and!.
           ++ apply (lk_nodup LK target tn Htn).
           ++ intros y Hy Hy'. apply list_elem_of_singleton in Hy'. by subst.
           ++ apply NoDup_singleton.
        -- intros [= <-]. simpl. apply (lk_nodup LK A xn Hxn).
        -- apply (lk_nodup LK).
      * intros u un. rewrite Hlk. repeat case_decide; subst.
        -- intros [= <-]. simpl. apply (lk_nf LK target tn Htn).
        -- intros [= <-]. simpl. apply (lk_nf LK A xn Hxn).
        -- apply (lk_nf LK).
Qed.

Lemma int_edge_transfer t k D hi D' hi' u c ch cn :
  int_edge_ok t k D hi u c ch cn → D' u = D u → D' ch = D ch →
  same_span hi hi' → ∃ cn', int_edge_ok t k D' hi' u c ch cn'.
Proof.
  intros E Hu Hch Hs. destruct (Hs _ _ (ie_lookup E)) as (cn' & Hl & Hst & Hen).
  exists cn'. destruct E. constructor; rewrite ?Hu, ?Hch, ?Hst, ?Hen; done.
Qed.

Lemma leaf_edge_transfer t kl D hl D' hl' u c lf ln :
  leaf_edge_ok t kl D hl u c lf ln → D' u = D u → hl' !! lf = Some ln →
  leaf_edge_ok t kl D' hl' u c lf ln.
Proof. intros E Hu Hl. destruct E. constructor; rewrite ?Hu; done. Qed.

Lemma same_span_insert hi u un un' :
  hi !! u = Some un → start un' = start un → end_ un' = end_ un →
  same_span hi (<[u := un']> hi).
Proof.
  intros Hu Hs He v vn Hv. destruct (decide (u = v)) as [->|Hne].
  - exists un'. rewrite list_lookup_insert_eq by (by eapply lookup_lt_Some).
    split; [done|]. split; congruence.
  - exists vn. by rewrite list_lookup_insert_ne.
Qed.

Lemma same_span_app hi hi' m : same_span hi hi' → same_span hi (hi' ++ [m]).
Proof.
  intros H u un Hu. destruct (H u un Hu) as (un' & Hu' & ?).
  exists un'. split; [|done]. by apply lookup_app_l_Some.
Qed.

Lemma same_span_trans h1 h2 h3 : same_span h1 h2 → same_span h2 h3 → same_span h1 h3.
Proof.
  intros H1 H2 u un Hu. destruct (H1 u un Hu) as (un' & Hu' & ? & ?).
  destruct (H2 u un' Hu') as (un'' & Hu'' & ? & ?).
  exists un''. split; [done|]. split; congruence.
Qed.

Lemma links_ok_same_links D hi hi' ex :
  links_ok D hi ex → same_links hi hi' → links_ok D hi' ex.
Proof.
  intros LK [Hl Hs]. constructor.
  - intros rn Hr. destruct (Hs _ _ Hr) as (rn0 & Hr0 & -> & _). by apply (lk_root LK).
  - intros u un' Hu Hur. destruct (Hs _ _ Hu) as (un & Hun & -> & _).
    rewrite <- Hl. by apply (lk_suf LK).
  - intros u un' v Hu. destruct (Hs _ _ Hu) as (un & Hun & _ & -> & _).
    rewrite (lk_wl LK u un v Hun). split.
    + intros (vn & Hv & Hsv).
      assert (v < length hi')%nat as Hlt by (rewrite <- Hl; by eapply lookup_lt_Some).
      destruct (lookup_lt_is_Some_2 _ _ Hlt) as [vn' Hvn'].
      destruct (Hs _ _ Hvn') as (vn0 & Hvn0 & Hsl & _).
      exists vn'. split; [done|]. congruence.
    + intros (vn' & Hv & Hsv). destruct (Hs _ _ Hv) as (vn & Hvn & Hsl & _).
      exists vn. split; [done|]. congruence.
  - intros u un' Hu. destruct (Hs _ _ Hu) as (un & Hun & _ & -> & _).
    by apply (lk_nodup LK u).
  - intros u un' Hu. destruct (Hs _ _ Hu) as (un & Hun & _ & _ & ->).
    by apply (lk_nf LK u).
Qed.

Lemma same_links_insert hi u un un' :
  hi !! u = Some un → suffix_link un' = suffix_link un →
  weiner_links un' = weiner_links un → nf un' = nf un →
  same_links hi (<[u := un']> hi).
Proof.
  intros Hu H1 H2 H3. split; [by rewrite length_insert|].
  intros v vn' Hv. apply list_lookup_insert_Some in Hv as [(-> & -> & _)|[Hne Hv]].
  - exists un. done.
  - exists vn'. done.
Qed.

Lemma same_links_trans h1 h2 h3 : same_links h1 h2 → same_links h2 h3 → same_links h1 h3.
Proof.
  intros [L1 S1] [L2 S2]. split; [congruence|].
  intros u un'' Hu. destruct (S2 u un'' Hu) as (un' & Hu' & ? & ? & ?).
  destruct (S1 u un' Hu') as (un & Hun & ? & ? & ?).
  exists un. split; [done|]. split_and!; congruence.
Qed.

(** Rule 2b on the tree: a fresh leaf under the active node. *)
Lemma tree_ok_add_leaf t k D hi hl an ann c :
  tree_ok t k k D hi hl → hi !! an = Some ann →
  leaf_children ann !! c = None → internal_children ann !! c = None →
  char_at t k = Some c → D an = sub t (Z.of_nat (length hl)) k →
  Z.of_nat (length hl) ≤ k →
  tree_ok t k k D
    (<[an := set_leaf_children (<[c := length hl]> (leaf_children ann)) ann]> hi)
    (hl ++ [mkLeafNode k]).
Proof.
  intros TK Han Hlc Hic Hck HD Hjk.
  set (ann' := set_leaf_children (<[c := length hl]> (leaf_children ann)) ann).
  assert (same_span hi (<[an := ann']> hi)) as SS by (by eapply same_span_insert).
  assert (∀ u un, <[an := ann']> hi !! u = Some un →
            ∃ un0, hi !! u = Some un0 ∧
                   internal_children un = internal_children un0 ∧
                   (u ≠ an → un = un0) ∧ (u = an → un = ann' ∧ un0 = ann)) as Hold.
  { intros u un Hu. apply list_lookup_insert_Some in Hu as [(-> & <- & _)|[Hne Hu]].
    - exists ann. done.
    - exists un. split_and!; (done || congruence). }
  constructor.
  - apply (tk_k TK).
  - destruct (tk_root TK) as [rn Hrn]. destruct (SS _ _ Hrn) as (rn' & -> & _). done.
  - apply (tk_Droot TK).
  - intros u un c' ch Hu Hc'. destruct (Hold u un Hu) as (un0 & Hu0 & Hic0 & _).
    rewrite Hic0 in Hc'. destruct (tk_int TK u un0 c' ch Hu0 Hc') as [cn E].
    by eapply int_edge_transfer.
  - intros u un c' lf Hu Hc'. destruct (Hold u un Hu) as (un0 & Hu0 & _ & Hne & Heq).
    destruct (decide (u = an)) as [->|Hu'].
    + destruct (Heq eq_refl) as [-> ->]. simpl in Hc'.
      apply lookup_insert_Some in Hc' as [(<- & <-)|[Hcc Hc']].
      * exists (mkLeafNode k). constructor; simpl; [|lia|lia|done|done].
        rewrite lookup_app_r by lia. by rewrite Nat.sub_diag.
      * destruct (tk_leaf TK an ann c' lf Han Hc') as [ln E].
        exists ln. eapply leaf_edge_transfer; [done..|].
        apply lookup_app_l_Some, (le_lookup E).
    + rewrite (Hne Hu') in Hc'. destruct (tk_leaf TK u un0 c' lf Hu0 Hc') as [ln E].
      exists ln. eapply leaf_edge_transfer; [done..|].
      apply lookup_app_l_Some, (le_lookup E).
  - intros u un c' Hu. destruct (Hold u un Hu) as (un0 & Hu0 & Hic0 & Hne & Heq).
    destruct (decide (u = an)) as [->|Hu'].
    + destruct (Heq eq_refl) as [-> ->]. simpl.
      destruct (decide (c = c')) as [<-|Hcc]; [by left|].
      rewrite lookup_insert_ne by done. apply (tk_disj TK an ann c' Han).
    + rewrite (Hne Hu'). apply (tk_disj TK u un0 c' Hu0).
  - intros v Hv Hvr. rewrite length_insert in Hv.
    destruct (tk_parent TK v Hv Hvr) as (u & un & c' & Hu & Hc').
    destruct (decide (u = an)) as [->|Hu'].
    + exists an, ann', c'. rewrite list_lookup_insert_eq by (by eapply lookup_lt_Some).
      split; [done|]. simpl. congruence.
    + exists u, un, c'. by rewrite list_lookup_insert_ne.
  - intros lf Hlf. rewrite length_app in Hlf. simpl in Hlf.
    destruct (decide (lf = length hl)) as [->|Hne].
    + exists an, ann', c. rewrite list_lookup_insert_eq by (by eapply lookup_lt_Some).
      split; [done|]. simpl. by rewrite lookup_insert_eq.
    + destruct (tk_lparent TK lf ltac:(lia)) as (u & un & c' & Hu & Hc').
      destruct (decide (u = an)) as [->|Hu'].
      * exists an, ann', c'. rewrite list_lookup_insert_eq by (by eapply lookup_lt_Some).
        split; [done|]. simpl. rewrite lookup_insert_ne; [congruence|].
        intros <-. congruence.
      * exists u, un, c'. by rewrite list_lookup_insert_ne.
  - intros u un Hu Hur. destruct (Hold u un Hu) as (un0 & Hu0 & Hic0 & Hne & Heq).
    destruct (decide (u = an)) as [->|Hu'].
    + destruct (Heq eq_refl) as [-> ->]. right. exists c, (length hl). simpl.
      by rewrite lookup_insert_eq.
    + rewrite (Hne Hu'). by apply (tk_ne TK u un0).
Qed.

(** * The steps of [extend] *)

Lemma edge_length_small t k D hi u c ch cn :
  int_edge_ok t k D hi u c ch cn → k < 2 ^ 32 →
  edge_length cn = end_ cn - start cn.
Proof.
  intros E Hk. unfold edge_length. apply wrap32_small.
  pose proof (ie_start E). pose proof (ie_lt E). pose proof (ie_end E). lia.
Qed.

Section ActivePoint.
Context (k : Z) (D : nat → list ascii) (st : SuffixTree).
Hypothesis LI : loop_inv k D st.
Hypothesis Hr : 0 < remainder st.

Local Abbreviation t := (txt st).
Local Abbreviation j := (Z.of_nat (length (lnodes st))).
Local Abbreviation al := (active_length st).
Local Abbreviation an := (active_node st).
Local Abbreviation d := (len (D (active_node st))).

Lemma ap_depth : d + al = k - j ∧ 0 ≤ j ∧ j ≤ k.
Proof.
  pose proof (li_ap LI) as H. pose proof (li_k LI). pose proof (li_al LI).
  pose proof (li_rem LI). pose proof (li_rem0 LI).
  apply (f_equal len) in H. rewrite len_app in H.
  rewrite (len_sub t (k - al) k) in H by lia.
  destruct (decide (j ≤ k)).
  - rewrite (len_sub t j k) in H by lia. lia.
  - lia.
Qed.

Lemma ap_D : D an = sub t j (j + d).
Proof.
  pose proof ap_depth. pose proof (li_al LI). pose proof (len_nonneg (D an)).
  apply (prefix_sub_eq t j k); [lia..|].
  rewrite <- (li_ap LI). by apply prefix_app_r.
Qed.

Lemma ap_rest : sub t (k - al) k = sub t (j + d) k.
Proof. pose proof ap_depth. f_equal. lia. Qed.

Lemma active_child ann :
  inodes st !! an = Some ann → 0 < al →
  ∃ c, char_at t (k - al) = Some c ∧
    ((∃ ch cn, internal_children ann !! c = Some ch ∧
               int_edge_ok t k D (inodes st) an c ch cn ∧
               ∀ m, 0 ≤ m → m ≤ al → m ≤ end_ cn - start cn →
                    sub t (start cn) (start cn + m) = sub t (k - al) (k - al + m)) ∨
     (∃ lf ln, leaf_children ann !! c = Some lf ∧
               leaf_edge_ok t k D (lnodes st) an c lf ln ∧
               al < k - leaf_start ln ∧
               sub t (leaf_start ln) (leaf_start ln + al) = sub t (k - al) k)).
Proof.
  intros Han Hal.
  pose proof ap_depth as (Hd & Hj0 & Hjk). pose proof (li_k LI) as (Hk0 & Hkn & Hn).
  pose proof (len_nonneg (D an)) as Hd0.
  pose proof (li_tree LI) as TK.
  destruct (li_impl LI j) as (i' & Hi0 & Hij & Hocc); [lia..|].
  assert (D an = sub t i' (i' + d)) as HDi.
  { etrans; [exact ap_D|].
    apply (sub_shift t j k i' (i' + (k - j))); (done || lia). }
  assert (D an `prefix_of` sub t (Z.of_nat (Z.to_nat i')) k) as Hpre.
  { rewrite Z2Nat.id by lia. rewrite HDi at 1. apply sub_prefix_of; lia. }
  destruct (child_toward_leaf t k k D (inodes st) (lnodes st) TK an ann
              (Z.to_nat i') Han ltac:(lia) Hpre)
    as [(c & ch & cn & Hc & E & Hch)|(c & ln & Hc & E)].
  - rewrite Z2Nat.id in Hch by lia.
    pose proof (ie_len t k k D (inodes st) (lnodes st) TK E) as HL.
    pose proof (ie_lt E) as Hlt. pose proof (ie_start E) as Hs0.
    pose proof (ie_end E) as Hek.
    pose proof (prefix_length _ _ Hch) as HLk.
    pose proof (len_sub_le t i' k ltac:(lia)) as HLk'.
    assert (len (D ch) ≤ k - i') as HLk'' by (unfold len in *; lia).
    apply (prefix_sub_eq t i' k) in Hch; [|lia..].
    rewrite HL in Hch.
    assert (sub t (start cn) (end_ cn) =
            sub t (i' + d) (i' + d + (end_ cn - start cn))) as Hlab.
    { pose proof (ie_D E) as HD. rewrite Hch in HD.
      rewrite <- (sub_app t i' (i' + d)) in HD by lia.
      rewrite <- HDi in HD. apply app_inv_head in HD.
      rewrite <- HD. f_equal. lia. }
    assert (∀ m, 0 ≤ m → m ≤ al → m ≤ end_ cn - start cn →
              sub t (start cn) (start cn + m) = sub t (k - al) (k - al + m)) as Hagree.
    { intros m Hm0 Hmal HmL.
      trans (sub t (i' + d) (i' + d + m)).
      - apply (sub_shift t (start cn) (end_ cn) (i' + d)
                 (i' + d + (end_ cn - start cn))); (done || lia).
      - apply (sub_shift t i' (i' + (k - j)) j k); (done || lia). }
    exists c. split.
    + pose proof (Hagree 1 ltac:(lia) ltac:(lia) ltac:(lia)) as H1.
      rewrite <- (ie_key E). symmetry.
      apply (char_shift t (start cn) (start cn + 1) (k - al) (k - al + 1));
        (done || lia).
    + left. eauto 10.
  - destruct E as [Hll Hlo Hhi Hkey HDl]. rewrite Z2Nat.id in * by lia.
    assert (leaf_start ln = i' + d) as Hs.
    { apply (f_equal len) in HDl. rewrite len_sub in HDl by lia. lia. }
    assert (sub t (leaf_start ln) (leaf_start ln + al) = sub t (k - al) k) as Hagree.
    { apply (sub_shift t i' (i' + (k - j)) j k); (done || lia). }
    exists c. split.
    + rewrite <- Hkey. symmetry.
      apply (char_shift t (leaf_start ln) (leaf_start ln + al) (k - al) k);
        (done || lia).
    + right. exists (Z.to_nat i'), ln. split_and!; [done| |lia|done].
      constructor; rewrite ?Z2Nat.id by lia; done.
Qed.

Lemma child_info_int ann c ch :
  inodes st !! an = Some ann → char_at t (k - al) = Some c →
  internal_children ann !! c = Some ch →
  ∃ cn, int_edge_ok t k D (inodes st) an c ch cn ∧
        ∀ m, 0 ≤ m → m ≤ al → m ≤ end_ cn - start cn →
             sub t (start cn) (start cn + m) = sub t (k - al) (k - al + m).
Proof.
  intros Han Hc Hch. pose proof (li_tree LI) as TK.
  destruct (tk_int TK an ann c ch Han Hch) as [cn E].
  exists cn. split; [done|]. intros m Hm0 Hmal HmL.
  destruct (decide (al = 0)) as [Hal|Hal].
  { rewrite !sub_nil by lia. done. }
  pose proof (li_al LI).
  destruct (active_child ann Han ltac:(lia))
    as (c' & Hc' & [(ch' & cn' & Hch' & E' & Hag)|(lf & ln & Hlf & _)]).
  - assert (c' = c) as -> by congruence.
    assert (ch' = ch) as -> by congruence.
    assert (cn' = cn) as -> by (destruct E, E'; congruence).
    by apply Hag.
  - assert (c' = c) as -> by congruence.
    destruct (tk_disj TK an ann c Han); congruence.
Qed.

Lemma child_info_leaf ann c lf :
  inodes st !! an = Some ann → char_at t (k - al) = Some c →
  leaf_children ann !! c = Some lf →
  ∃ ln, leaf_edge_ok t k D (lnodes st) an c lf ln ∧
        (0 < al → al < k - leaf_start ln) ∧
        sub t (leaf_start ln) (leaf_start ln + al) = sub t (k - al) k.
Proof.
  intros Han Hc Hlf. pose proof (li_tree LI) as TK.
  destruct (tk_leaf TK an ann c lf Han Hlf) as [ln E].
  exists ln. split; [done|].
  destruct (decide (al = 0)) as [Hal|Hal].
  { rewrite !sub_nil by lia. split; [lia|done]. }
  pose proof (li_al LI).
  destruct (active_child ann Han ltac:(lia))
    as (c' & Hc' & [(ch' & cn' & Hch' & _)|(lf' & ln' & Hlf' & E' & Hlt & Hag)]).
  - assert (c' = c) as -> by congruence.
    destruct (tk_disj TK an ann c Han); congruence.
  - assert (c' = c) as -> by congruence.
    assert (lf' = lf) as -> by congruence.
    assert (ln' = ln) as -> by (destruct E, E'; congruence).
    done.
Qed.

(** The byte selecting the active edge. *)
Lemma active_key : ∃ c, char_at t (k - al) = Some c.
Proof.
  pose proof (li_al LI). pose proof (li_k LI).
  apply char_at_lt; lia.
Qed.

Lemma an_lookup : ∃ ann, inodes st !! an = Some ann.
Proof. apply lookup_lt_is_Some_2, (li_an LI). Qed.

(** What the two kinds of active edge have in common. *)
Lemma edge_common ann c s :
  inodes st !! an = Some ann → char_at t (k - al) = Some c →
  active_edge_at k st ann c s →
  0 ≤ s ∧ d ≤ s ∧ D an = sub t (s - d) s ∧ s + al < k ∧
  sub t s (s + al) = sub t (k - al) k ∧ char_at t s = Some c.
Proof.
  intros Han Hc Hed. pose proof (li_tree LI) as TK.
  pose proof (li_k LI) as (Hk0 & Hkn & Hn). pose proof (li_al LI) as [Hal0 Halk].
  destruct Hed as [(ch & chn & Hch & Hchn & <- & Hlen)|(lf & ln & Hlf & Hln & <- & Hlen)].
  - destruct (child_info_int ann c ch Han Hc Hch) as (cn & E & Hag).
    assert (cn = chn) as -> by (destruct E; congruence).
    rewrite (edge_length_small _ _ _ _ _ _ _ _ E) in Hlen by lia.
    pose proof (ie_end E). pose proof (Hag al ltac:(lia) ltac:(lia) ltac:(lia)) as H1.
    replace (k - al + al) with k in H1 by lia.
    split_and!; [apply E|apply E|apply E|lia|done|apply E].
  - destruct (child_info_leaf ann c lf Han Hc Hlf) as (ln' & E & Hlt & Hag).
    assert (ln' = ln) as -> by (destruct E; congruence).
    pose proof (le_lo E). pose proof (le_hi E).
    pose proof (leaf_edge_start _ _ _ _ _ _ TK _ _ _ _ E) as Hs.
    unfold leaf_edge_length in Hlen. rewrite wrap32_small in Hlen by lia.
    split_and!; [lia|lia| |lia|done|apply E].
    rewrite (le_D E) at 1. f_equal. lia.
Qed.

(** The occurrence of [t[j..k]] found by rule 3. *)
Lemma rule3_occurrence ann c s :
  inodes st !! an = Some ann → char_at t (k - al) = Some c →
  active_edge_at k st ann c s →
  char_at t (s + al) = char_at t k →
  0 ≤ s - d ∧ s - d < j ∧ sub t (s - d) (s - d + (k + 1 - j)) = sub t j (k + 1).
Proof.
  intros Han Hc Hed Heq.
  destruct (edge_common ann c s Han Hc Hed) as (Hs0 & Hds & HD & Hsk & Hag & _).
  pose proof ap_depth as (Hd & Hj0 & Hjk). pose proof (li_k LI) as (Hk0 & Hkn & Hn).
  pose proof (li_al LI) as [Hal0 Halk]. pose proof (len_nonneg (D an)) as Hd0.
  destruct (char_at_lt t k ltac:(lia) ltac:(lia)) as [ck Hck].
  split_and!; [lia..|].
  replace (s - d + (k + 1 - j)) with (s + al + 1) by lia.
  rewrite <- (sub_app t (s - d) s (s + al + 1)) by lia.
  rewrite <- (sub_app t s (s + al) (s + al + 1)) by lia.
  rewrite <- HD, Hag. rewrite (sub_one t (s + al) ck) by (lia || congruence).
  rewrite (sub_snoc t j k ck) by (lia || done).
  rewrite <- (li_ap LI). by rewrite <- app_assoc.
Qed.

(** When a node waits for its suffix link, rule 3 can only apply at a
    node. *)
Lemma pending_al0 A ann c s :
  inodes st !! an = Some ann → char_at t (k - al) = Some c →
  active_edge_at k st ann c s →
  char_at t (s + al) = char_at t k →
  need_link st = Some A → al = 0.
Proof.
  intros Han Hc Hed Heq HA.
  destruct (decide (al = 0)) as [|Hal]; [done|exfalso].
  pose proof (li_tree LI) as TK.
  pose proof ap_depth as (Hd & Hj0 & Hjk). pose proof (li_k LI) as (Hk0 & Hkn & Hn).
  pose proof (li_al LI) as [Hal0 Halk]. pose proof (len_nonneg (D an)) as Hd0.
  destruct (li_nl LI Hr A HA) as (HAv & (x & HDA) & c' & p & Hp0 & Hpk & Hocc & Hck).
  rewrite HDA in Hocc, Hpk. rewrite len_cons, len_sub in Hpk by lia.
  apply occ_split in Hocc as [Hq1 Hq2]; [|rewrite ?len_sub by lia; lia..].
  rewrite len_sub in Hq1, Hq2 by lia.
  set (q := p + 1) in *.
  assert (D an `prefix_of` sub t (Z.of_nat (Z.to_nat q)) k) as Hpre.
  { rewrite Z2Nat.id by lia. rewrite ap_D at 1.
    replace (sub t j (j + d)) with (sub t q (q + d)).
    - apply sub_prefix_of; lia.
    - symmetry. apply (sub_shift t j k q (q + (k - j))); (done || lia). }
  assert (char_at t (s + al) = Some c') as Hsc.
  { destruct (child_toward_leaf t k k D (inodes st) (lnodes st) TK an ann
                (Z.to_nat q) Han ltac:(lia) Hpre)
      as [(c2 & ch & cn & Hch & E & Hpch)|(c2 & ln & Hlf & E)].
    - rewrite Z2Nat.id in Hpch by lia.
      destruct (edge_on_suffix _ _ _ _ _ _ TK _ _ _ _ q E ltac:(lia) ltac:(lia) Hpch)
        as (HDq & HLk & Hlab).
      pose proof (ie_lt E). pose proof (ie_start E).
      assert (c2 = c) as ->.
      { pose proof (ie_key E) as Hk2.
        assert (char_at t (start cn) = char_at t (k - al)) as Hx; [|congruence].
        trans (char_at t (q + d)).
        - apply (char_shift t (start cn) (end_ cn) (q + d)
                   (q + d + (end_ cn - start cn))); (done || lia).
        - apply (char_shift t q (q + (k - j)) j k); (done || lia). }
      destruct Hed as [(ch' & chn & Hch' & Hchn & <- & Hlen)|(lf & ln & Hlf & _)];
        [|destruct (tk_disj TK an ann c Han); congruence].
      assert (ch' = ch) as -> by congruence.
      assert (chn = cn) as -> by (destruct E; congruence).
      rewrite (edge_length_small _ _ _ _ _ _ _ _ E) in Hlen by lia.
      rewrite <- Hq2.
      apply (char_shift t (start cn) (end_ cn) (q + d)
               (q + d + (end_ cn - start cn))); (done || lia).
    - pose proof (leaf_edge_start _ _ _ _ _ _ TK _ _ _ _ E) as Hs.
      rewrite Z2Nat.id in Hs by lia.
      assert (c2 = c) as ->.
      { pose proof (le_key E) as Hk2.
        assert (char_at t (leaf_start ln) = char_at t (k - al)) as Hx; [|congruence].
        rewrite Hs.
        apply (char_shift t q (q + (k - j)) j k); (done || lia). }
      destruct Hed as [(ch' & chn & Hch' & _)|(lf & ln' & Hlf' & Hln' & <- & Hlen)];
        [destruct (tk_disj TK an ann c Han); congruence|].
      assert (lf = Z.to_nat q) as -> by congruence.
      assert (ln' = ln) as -> by (destruct E; congruence).
      rewrite <- Hq2. f_equal. lia. }
  congruence.
Qed.

End ActivePoint.

(** Walking down: the active point moves to the far end of an edge that
    is not longer than [active_length]. *)
Lemma walk_down_inv k D st ann c ch chn :
  loop_inv k D st → 0 < remainder st →
  active_edge st = k - active_length st →
  inodes st !! active_node st = Some ann →
  char_at (txt st) (k - active_length st) = Some c →
  internal_children ann !! c = Some ch →
  inodes st !! ch = Some chn →
  edge_length chn ≤ active_length st →
  loop_inv k D
    (set_active_node ch
       (set_active_length (wrap32 (active_length st - edge_length chn))
          (set_active_edge (wrap32 (k - active_length st + edge_length chn)) st))).
Proof.
  intros LI Hr Hae Han Hc Hch Hchn Hlen.
  destruct (child_info_int k D st LI Hr ann c ch Han Hc Hch) as (cn & E & Hag).
  assert (cn = chn) as -> by (destruct E; congruence).
  pose proof (li_k LI) as (Hk0 & Hkn & Hn). pose proof (li_al LI) as [Hal0 Halk].
  rewrite (edge_length_small _ _ _ _ _ _ _ _ E) in * by lia.
  pose proof (ie_lt E) as Hlt. pose proof (ie_start E) as Hs0.
  pose proof (ie_end E) as Hek.
  rewrite !wrap32_small by lia.
  pose proof (li_ap LI) as Hap.
  constructor; simpl;
    [apply (li_k LI)|apply (li_ge LI)|apply (li_rem LI)|apply (li_rem0 LI)
    |apply (li_tree LI)|apply (li_links LI)|apply (li_impl LI)
    | | | | |apply (li_nl LI)|].
  - by eapply lookup_lt_Some.
  - lia.
  - rewrite (ie_D E), <- app_assoc.
    replace (sub (txt st) (start chn) (end_ chn))
      with (sub (txt st) (k - active_length st)
              (k - active_length st + (end_ chn - start chn)))
      by (rewrite <- Hag by lia; f_equal; lia).
    rewrite <- Hap. f_equal.
    replace (k - (active_length st - (end_ chn - start chn)))
      with (k - active_length st + (end_ chn - start chn)) by lia.
    apply sub_app; lia.
  - intros _. lia.
  - intros H0. lia.
Qed.

(** The active node never is the node waiting for its suffix link. *)
Lemma an_not_pending k D st A :
  loop_inv k D st → 0 < remainder st → need_link st = Some A →
  A ≠ active_node st.
Proof.
  intros LI Hr HA ->.
  destruct (li_nl LI Hr _ HA) as (_ & (x & HDA) & _).
  pose proof (ap_depth k D st LI Hr) as (Hd & Hj0 & Hjk).
  pose proof (li_k LI) as (Hk0 & Hkn & Hn). pose proof (li_al LI) as [Hal0 Halk].
  apply (f_equal len) in HDA. rewrite len_cons, len_sub in HDA by lia. lia.
Qed.

(** Before [add_links(active_node)]: the links are in order, up to the
    node waiting in [need_link]. *)
Lemma links_pre_an k D st :
  loop_inv k D st →
  links_ok D (inodes st) (λ u, need_link st = Some u ∨ u = active_node st).
Proof.
  intros LI. eapply links_ok_weaken; [apply (li_links LI)|]. simpl. eauto.
Qed.

(** After [add_links(active_node)] no node waits for a link. *)
Lemma links_post_an k D st hi' :
  loop_inv k D st → 0 < remainder st →
  links_ok D hi'
    (λ u, u = active_node st ∧
          ∃ tn, inodes st !! active_node st = Some tn ∧ suffix_link tn = None) →
  links_ok D hi' (λ _, False).
Proof.
  intros LI Hr LK. eapply links_ok_weaken; [done|]. simpl.
  intros u un Hu Hur Hs (-> & tn & Htn & Hstn).
  pose proof (lk_suf (li_links LI) _ tn Htn Hur) as H. rewrite Hstn in H.
  by eapply an_not_pending.
Qed.

(** Rule 3: the next byte is already on the active edge. *)
Lemma rule3_inv k D st ann c s st1 :
  loop_inv k D st → 0 < remainder st →
  active_edge st = k - active_length st →
  inodes st !! active_node st = Some ann →
  char_at (txt st) (k - active_length st) = Some c →
  active_edge_at k st ann c s →
  char_at (txt st) (s + active_length st) = char_at (txt st) k →
  add_links (active_node st)
    (set_active_length (wrap32 (active_length st + 1)) st) = Some st1 →
  phase_inv (k + 1) D (set_global_end (wrap32 (global_end st1 + 1)) st1).
Proof.
  intros LI Hr Hae Han Hc Hed Heq Hadd.
  pose proof (ap_depth k D st LI Hr) as (Hd & Hj0 & Hjk).
  pose proof (li_k LI) as (Hk0 & Hkn & Hn). pose proof (li_al LI) as [Hal0 Halk].
  pose proof (len_nonneg (D (active_node st))) as Hd0.
  destruct (rule3_occurrence k D st LI Hr ann c s Han Hc Hed Heq) as (Hp0 & Hpj & Hocc).
  apply (add_links_spec (txt st) k k D) in Hadd as (ST & LK & ->); simpl.
  - apply (links_post_an k D st _ LI Hr) in LK.
    rewrite (li_ge LI). rewrite !wrap32_small by lia.
    constructor; simpl.
    + lia.
    + done.
    + rewrite (li_rem LI). lia.
    + apply (li_rem0 LI).
    + eapply tree_ok_same_tree; [|done].
      eapply tree_ok_mono; [apply (li_tree LI)|lia..].
    + done.
    + eapply implicit_step; [apply (li_impl LI)|try done; lia..].
    + destruct ST as [<- _]. apply (li_an LI).
    + lia.
    + destruct (char_at_lt (txt st) k ltac:(lia) ltac:(lia)) as [ck Hck].
      replace (k + 1 - (active_length st + 1)) with (k - active_length st) by lia.
      rewrite !(sub_snoc _ _ k ck) by (lia || done).
      by rewrite app_assoc, (li_ap LI).
    + intros _. lia.
  - apply (li_tree LI).
  - apply (links_pre_an k D st LI).
  - apply (li_an LI).
  - intros A HA.
    pose proof (pending_al0 k D st LI Hr A ann c s Han Hc Hed Heq HA) as Hal.
    destruct (li_nl LI Hr A HA) as (HAv & (x & HDA) & _).
    split; [done|]. exists x. rewrite HDA. f_equal.
    rewrite <- (li_ap LI). rewrite sub_nil by lia. by rewrite app_nil_r.
Qed.

Lemma implicit_weaken t j k : implicit t j k → implicit t (j + 1) k.
Proof.
  intros H i Hi Hik. destruct (H i) as (i' & ? & ? & ?); [lia..|].
  exists i'. split_and!; (done || lia).
Qed.

(** [remainder--] and the move of the active point to the next suffix. *)
Lemma after_insertion_inv k D st st' :
  mid_inv k D st → after_insertion k st = Some st' → loop_inv k D st'.
Proof.
  intros MI Hafter.
  pose proof (mi_k MI) as (Hk0 & Hkn & Hn). pose proof (mi_al MI) as [Hal0 Halk].
  pose proof (mi_rem MI) as Hrem. pose proof (mi_rem0 MI) as Hrem0.
  pose proof (mi_j MI) as Hjpos.
  pose proof (mi_tree MI) as TK. pose proof (mi_ap MI) as Hap.
  set (jo := Z.of_nat (length (lnodes st)) - 1) in *.
  pose proof (len_nonneg (D (active_node st))) as Hd0.
  assert (0 ≤ jo ∧ jo ≤ k) as [Hjo0 Hjok] by lia.
  assert (len (D (active_node st)) + active_length st = k - jo) as Hd.
  { apply (f_equal len) in Hap. rewrite len_app, !len_sub in Hap by lia. lia. }
  assert (implicit (txt st) (Z.of_nat (length (lnodes st))) k) as Himpl.
  { replace (Z.of_nat (length (lnodes st))) with (jo + 1) by lia.
    apply implicit_weaken, (mi_impl MI). }
  destruct (mi_nl MI) as (N & HN & HNv & HDN & Hghost).
  fold jo in HDN, Hghost.
  assert (links_ok D (inodes st) (λ u, need_link st = Some u)) as LK.
  { eapply links_ok_weaken; [apply (mi_links MI)|]. simpl. naive_solver. }
  assert (∀ A, need_link st = Some A → jo < k →
            pending_link (txt st) k (Z.of_nat (length (lnodes st))) D (inodes st) A) as Hnl.
  { intros A HA Hlt. assert (A = N) as -> by congruence.
    destruct (char_at_lt (txt st) jo ltac:(lia) ltac:(lia)) as [x Hx].
    split_and!; [done| |by apply Hghost].
    exists x. rewrite HDN. replace (Z.of_nat (length (lnodes st))) with (jo + 1) by lia.
    apply sub_cons; (done || lia). }
  assert (∀ u un, inodes st !! u = Some un → u ≠ root →
            suffix_link un = None → active_length st ≠ 0 ∧ u ≠ active_node st) as Hlinked.
  { intros u un Hu Hur Hs. pose proof (lk_suf (mi_links MI) u un Hu Hur) as H.
    rewrite Hs in H. destruct H as [H1 H2]. split; [lia|]. intros ->.
    assert (active_node st = N) as HanN by congruence.
    rewrite HanN, HDN, len_sub in Hd by lia. lia. }
  unfold after_insertion in Hafter. simpl in Hafter.
  rewrite Hrem in Hafter. rewrite !(wrap32_small (k + 1 - jo - 1)) in Hafter by lia.
  destruct (decide (active_node st = root ∧ 0 < active_length st)) as [[Hroot Hpos]|Hnot].
  - inversion Hafter; subst st'; clear Hafter.
    rewrite Hroot, (tk_Droot TK) in *. change (len []) with 0 in Hd.
    rewrite (wrap32_small (k - (k + 1 - jo - 1))) by lia.
    rewrite (wrap32_small (k - (k + 1 - jo - 1) + 1)) by lia.
    rewrite (wrap32_small (active_length st - 1)) by lia.
    constructor; simpl; rewrite ?Hroot;
      [done|apply (mi_ge MI)|lia|lia|done|done|done|by rewrite <- Hroot; apply (mi_an MI)
      |lia| | |intros ? A HA; apply Hnl; [done|lia]|].
    + rewrite (tk_Droot TK). simpl. f_equal; lia.
    + intros _. lia.
    + intros H0. lia.
  - destruct (inodes st !! active_node st) as [ann|] eqn:Han; [|done]. simpl in Hafter.
    destruct (decide (active_node st = root)) as [Hroot|Hnroot].
    + assert (active_length st = 0) as Hal by lia.
      rewrite Hroot in Han. rewrite (lk_root LK ann Han) in Hafter.
      inversion Hafter; subst st'; clear Hafter.
      rewrite Hroot, (tk_Droot TK) in *. change (len []) with 0 in Hd.
      constructor; simpl;
        [done|apply (mi_ge MI)|lia|lia|done|done|done|by rewrite <- Hroot; apply (mi_an MI)
        |lia| | |intros ? A HA; apply Hnl; [done|lia]|].
      * rewrite (tk_Droot TK), !sub_nil by lia. done.
      * intros ?. lia.
      * intros _ u un Hu Hur. destruct (suffix_link un) eqn:Hs; [done|].
        destruct (Hlinked u un Hu Hur Hs). lia.
    + pose proof (lk_suf LK _ ann Han Hnroot) as Hs.
      destruct (suffix_link ann) as [v|] eqn:Hsl.
      2:{ destruct (Hlinked _ ann Han Hnroot Hsl). done. }
      destruct Hs as (Hv & x & HDv).
      inversion Hafter; subst st'; clear Hafter.
      assert (jo < k) as Hlt.
      { rewrite HDv, len_cons in Hd. pose proof (len_nonneg (D v)). lia. }
      constructor; simpl;
        [done|apply (mi_ge MI)|lia|lia|done|done|done|done
        |lia| |apply (mi_ae MI)|intros ? A HA; apply Hnl; [done|lia]|].
      * destruct (char_at_lt (txt st) jo ltac:(lia) ltac:(lia)) as [x' Hx'].
        rewrite HDv, (sub_cons _ jo k x') in Hap by (done || lia).
        simpl in Hap. inversion Hap.
        replace (Z.of_nat (length (lnodes st))) with (jo + 1) by lia. done.
      * intros ?. lia.
Qed.

(** Rule 2b: no edge starts with the next byte; a leaf is attached to
    the active node. *)
Lemma rule2b_inv k D st ann c st2 :
  loop_inv k D st → 0 < remainder st →
  inodes st !! active_node st = Some ann →
  char_at (txt st) (k - active_length st) = Some c →
  leaf_children ann !! c = None → internal_children ann !! c = None →
  add_links (active_node st)
    (set_inodes
       (<[active_node st :=
            set_leaf_children (<[c := length (lnodes st)]> (leaf_children ann)) ann]>
          (inodes st))
       (set_lnodes (lnodes st ++ [mkLeafNode k]) st)) = Some st2 →
  mid_inv k D st2.
Proof.
  intros LI Hr Han Hc Hlc Hic Hadd.
  pose proof (ap_depth k D st LI Hr) as (Hd & Hj0 & Hjk).
  pose proof (li_k LI) as (Hk0 & Hkn & Hn). pose proof (li_al LI) as [Hal0 Halk].
  pose proof (len_nonneg (D (active_node st))) as Hd0.
  pose proof (li_tree LI) as TK.
  assert (active_length st = 0) as Hal.
  { destruct (decide (active_length st = 0)) as [|Hne]; [done|exfalso].
    destruct (active_child k D st LI Hr ann Han ltac:(lia))
      as (c' & Hc' & [(ch & cn & Hch & _)|(lf & ln & Hlf & _)]); congruence. }
  rewrite Hal, Z.sub_0_r in Hc.
  assert (D (active_node st) = sub (txt st) (Z.of_nat (length (lnodes st))) k) as HD.
  { rewrite <- (li_ap LI). rewrite sub_nil by lia. by rewrite app_nil_r. }
  set (ann' := set_leaf_children (<[c := length (lnodes st)]> (leaf_children ann)) ann) in *.
  assert (tree_ok (txt st) k k D (<[active_node st := ann']> (inodes st))
            (lnodes st ++ [mkLeafNode k])) as TK'.
  { by apply tree_ok_add_leaf. }
  assert (same_links (inodes st) (<[active_node st := ann']> (inodes st))) as SL.
  { by eapply same_links_insert. }
  apply (add_links_spec (txt st) k k D) in Hadd as (ST & LK & ->); simpl.
  - assert (links_ok D (inodes st2) (λ _, False)) as LK'.
    { eapply links_ok_weaken; [done|]. simpl.
      intros u un Hu Hur Hs (-> & tn & Htn & Hstn).
      rewrite list_lookup_insert_eq in Htn by (by eapply lookup_lt_Some).
      inversion Htn; subst tn. simpl in Hstn.
      pose proof (lk_suf (li_links LI) _ ann Han Hur) as H. rewrite Hstn in H.
      by eapply an_not_pending. }
    constructor; simpl; rewrite ?length_app; simpl.
    + done.
    + apply (li_ge LI).
    + rewrite (li_rem LI). lia.
    + lia.
    + lia.
    + by eapply tree_ok_same_tree.
    + eapply links_ok_weaken; [done|]. simpl. done.
    + replace (Z.of_nat (length (lnodes st) + 1) - 1)
        with (Z.of_nat (length (lnodes st))) by lia. apply (li_impl LI).
    + destruct ST as [HST _]. simpl in HST. rewrite <- HST, length_insert.
      apply (li_an LI).
    + done.
    + replace (Z.of_nat (length (lnodes st) + 1) - 1)
        with (Z.of_nat (length (lnodes st))) by lia. apply (li_ap LI).
    + apply (li_ae LI).
    + replace (Z.of_nat (length (lnodes st) + 1) - 1)
        with (Z.of_nat (length (lnodes st))) by lia.
      exists (active_node st). split_and!; [done| |done|].
      * destruct ST as [HST _]. simpl in HST. rewrite <- HST, length_insert.
        apply (li_an LI).
      * intros Hlt. apply (node_has_ext _ _ _ _ _ _ TK _ ann c); try done.
        intros Hroot. rewrite Hroot, (tk_Droot TK) in Hd. change (len []) with 0 in Hd. lia.
  - done.
  - simpl. eapply links_ok_same_links; [|done]. apply (links_pre_an k D st LI).
  - simpl. rewrite length_insert. apply (li_an LI).
  - simpl. intros A HA. rewrite length_insert.
    destruct (li_nl LI Hr A HA) as (HAv & (x & HDA) & _).
    split; [done|]. exists x. by rewrite HDA, HD.
Qed.

(** * Splitting an edge *)

Lemma lookup_ext_insert {A} (h : list A) i x m u y :
  (i < length h)%nat →
  (<[i := x]> h ++ [m]) !! u = Some y ↔
  (u = length h ∧ y = m) ∨ (u = i ∧ y = x) ∨ (u ≠ i ∧ h !! u = Some y).
Proof.
  intros Hi. rewrite lookup_app_Some, list_lookup_insert_Some, length_insert.
  rewrite list_lookup_singleton_Some. split.
  - intros [[(-> & -> & _)|[? ?]]|[Hle [Hu ->]]]; [naive_solver..|].
    left. split; [lia|done].
  - intros [[-> ->]|[[-> ->]|[Hne Hu]]].
    + right. split; [lia|]. split; [lia|done].
    + left. left. done.
    + left. right. done.
Qed.

Lemma lookup_ext {A} (h : list A) m u y :
  (h ++ [m]) !! u = Some y ↔ (u = length h ∧ y = m) ∨ h !! u = Some y.
Proof.
  rewrite lookup_app_Some, list_lookup_singleton_Some. split.
  - intros [?|[Hle [Hu ->]]]; [by right|]. left. split; [lia|done].
  - intros [[-> ->]|?]; [|by left]. right. split; [lia|]. split; [lia|done].
Qed.

Lemma relabel_old D m w u : u ≠ m → relabel D m w u = D u.
Proof. intros. unfold relabel. by rewrite decide_False. Qed.

Lemma relabel_new D m w : relabel D m w m = w.
Proof. unfold relabel. by rewrite decide_True. Qed.

(** Rule 2a on the tree, when the active edge leads to a leaf. *)
Lemma tree_ok_split_leaf t k D hi hl an ann c lf ln al ck cn :
  tree_ok t k k D hi hl → hi !! an = Some ann →
  leaf_children ann !! c = Some lf → hl !! lf = Some ln →
  0 < al → leaf_start ln + al < k →
  char_at t k = Some ck → char_at t (leaf_start ln + al) = Some cn → cn ≠ ck →
  D an ++ sub t (leaf_start ln) (leaf_start ln + al) = sub t (Z.of_nat (length hl)) k →
  Z.of_nat (length hl) ≤ k →
  tree_ok t k k
    (relabel D (length hi) (sub t (Z.of_nat (length hl)) k))
    (<[an := set_leaf_children (delete c (leaf_children ann))
               (set_internal_children (<[c := length hi]> (internal_children ann)) ann)]> hi
     ++ [set_leaf_children (<[cn := lf]> (<[ck := length hl]> ∅))
           (new_internal (leaf_start ln) (leaf_start ln + al))])
    (<[lf := mkLeafNode (leaf_start ln + al)]> hl ++ [mkLeafNode k]).
Proof.
  intros TK Han Hlf Hln Hal Hsk Hck Hcn Hne HDm Hjk.
  set (s := leaf_start ln) in *. set (M := length hi).
  set (Dm := sub t (Z.of_nat (length hl)) k) in *.
  set (ann' := set_leaf_children _ (set_internal_children _ ann)).
  set (Mn := set_leaf_children _ (new_internal _ _)).
  set (D' := relabel D M Dm).
  pose proof (tk_k TK) as Hk.
  assert (an < M)%nat as HanM by (by eapply lookup_lt_Some).
  assert (lf < length hl)%nat as Hlfl by (by eapply lookup_lt_Some).
  destruct (tk_leaf TK an ann c lf Han Hlf) as [ln' E0].
  assert (ln' = ln) as -> by (destruct E0; congruence).
  pose proof (leaf_edge_start _ _ _ _ _ _ TK _ _ _ _ E0) as Hs. fold s in Hs.
  pose proof (len_nonneg (D an)) as Hd0.
  assert (internal_children ann !! c = None) as Hicc.
  { destruct (tk_disj TK an ann c Han); congruence. }
  assert (∀ u, (u < M)%nat → D' u = D u) as HD'.
  { intros u Hu. apply relabel_old. lia. }
  assert (D' M = Dm) as HD'M by apply relabel_new.
  assert (same_span hi (<[an := ann']> hi ++ [Mn])) as SS.
  { apply same_span_app. by eapply same_span_insert. }
  assert (∀ x l, hl !! x = Some l → x ≠ lf →
            (<[lf := mkLeafNode (s + al)]> hl ++ [mkLeafNode k]) !! x = Some l) as Hlold.
  { intros x l Hx Hxlf. apply lookup_ext_insert; [done|]. right. right. done. }
  constructor.
  - done.
  - destruct (tk_root TK) as [rn Hrn]. destruct (SS _ _ Hrn) as (rn' & -> & _). done.
  - rewrite HD'; [apply (tk_Droot TK)|]. destruct (tk_root TK) as [rn Hrn].
    by eapply lookup_lt_Some.
  - intros u un c' x Hu Hx.
    apply lookup_ext_insert in Hu; [|done].
    destruct Hu as [[-> ->]|[[-> ->]|[Hua Hu]]]; fold M.
    + done.
    + simpl in Hx. apply lookup_insert_Some in Hx as [(<- & <-)|[Hcc Hx]].
      * exists Mn. constructor; simpl; rewrite ?HD'M, ?HD' by done.
        -- apply lookup_ext_insert; [done|]. by left.
        -- pose proof (le_lo E0). fold s in H. lia.
        -- lia.
        -- lia.
        -- apply (le_key E0).
        -- lia.
        -- rewrite (le_D E0) at 1. f_equal. lia.
        -- by rewrite HDm.
      * destruct (tk_int TK an ann c' x Han Hx) as [xn E].
        eapply int_edge_transfer; [done| | |done].
        -- by apply HD'.
        -- apply HD'. eapply lookup_lt_Some, (ie_lookup E).
    + destruct (tk_int TK u un c' x Hu Hx) as [xn E].
      eapply int_edge_transfer; [done| | |done].
      * apply HD'. by eapply lookup_lt_Some.
      * apply HD'. eapply lookup_lt_Some, (ie_lookup E).
  - intros u un c' x Hu Hx.
    apply lookup_ext_insert in Hu; [|done].
    destruct Hu as [[-> ->]|[[-> ->]|[Hua Hu]]]; fold M.
    + simpl in Hx. apply lookup_insert_Some in Hx as [(<- & <-)|[Hcc Hx]].
      * exists (mkLeafNode (s + al)). constructor; simpl; rewrite ?HD'M.
        -- apply lookup_ext_insert; [done|]. right. left. done.
        -- pose proof (le_lo E0). fold s in H. lia.
        -- lia.
        -- done.
        -- rewrite <- HDm, (le_D E0). fold s. apply sub_app; [lia| |lia].
           apply (le_lo E0).
      * apply lookup_insert_Some in Hx as [(<- & <-)|[Hcc' Hx]]; [|done].
        exists (mkLeafNode k). constructor; simpl; rewrite ?HD'M; [|lia|lia|done|done].
        apply lookup_ext_insert; [done|]. by left.
    + simpl in Hx. apply lookup_delete_Some in Hx as [Hcc Hx].
      destruct (tk_leaf TK an ann c' x Han Hx) as [xn E].
      exists xn. eapply leaf_edge_transfer; [done|by apply HD'|].
      apply Hlold; [apply (le_lookup E)|]. intros ->.
      destruct (leaf_parent_unique _ _ _ _ _ _ TK _ _ _ _ _ _ _ Han Hx Han Hlf). done.
    + destruct (tk_leaf TK u un c' x Hu Hx) as [xn E].
      exists xn. eapply leaf_edge_transfer; [done| |].
      * apply HD'. by eapply lookup_lt_Some.
      * apply Hlold; [apply (le_lookup E)|]. intros ->.
        destruct (leaf_parent_unique _ _ _ _ _ _ TK _ _ _ _ _ _ _ Hu Hx Han Hlf). done.
  - intros u un c' Hu.
    apply lookup_ext_insert in Hu; [|done].
    destruct Hu as [[-> ->]|[[-> ->]|[Hua Hu]]]; fold M.
    + left. done.
    + simpl. destruct (decide (c = c')) as [<-|Hcc].
      * right. apply lookup_delete_eq.
      * rewrite lookup_insert_ne, lookup_delete_ne by done.
        apply (tk_disj TK an ann c' Han).
    + apply (tk_disj TK u un c' Hu).
  - intros v Hv Hvr. rewrite length_app, length_insert in Hv. simpl in Hv.
    destruct (decide (v = M)) as [->|HvM].
    + exists an, ann', c. split.
      * apply lookup_ext_insert; [done|]. right. left. done.
      * simpl. apply lookup_insert_eq.
    + destruct (tk_parent TK v ltac:(unfold M in *; lia) Hvr) as (u & un & c' & Hu & Hc').
      destruct (decide (u = an)) as [->|Hua].
      * assert (un = ann) as -> by congruence.
        exists an, ann', c'. split.
        -- apply lookup_ext_insert; [done|]. right. left. done.
        -- simpl. rewrite lookup_insert_ne; [done|]. intros <-. congruence.
      * exists u, un, c'. split; [|done].
        apply lookup_ext_insert; [done|]. right. right. done.
  - intros x Hx. rewrite length_app, length_insert in Hx. simpl in Hx.
    destruct (decide (x = length hl)) as [->|Hxj].
    { exists M, Mn, ck. split.
      - apply lookup_ext_insert; [done|]. by left.
      - simpl. rewrite lookup_insert_ne by done. apply lookup_insert_eq. }
    destruct (decide (x = lf)) as [->|Hxlf].
    { exists M, Mn, cn. split.
      - apply lookup_ext_insert; [done|]. by left.
      - simpl. apply lookup_insert_eq. }
    destruct (tk_lparent TK x ltac:(lia)) as (u & un & c' & Hu & Hc').
    destruct (decide (u = an)) as [->|Hua].
    + assert (un = ann) as -> by congruence.
      exists an, ann', c'. split.
      * apply lookup_ext_insert; [done|]. right. left. done.
      * simpl. rewrite lookup_delete_ne; [done|]. intros <-. congruence.
    + exists u, un, c'. split; [|done].
      apply lookup_ext_insert; [done|]. right. right. done.
  - intros u un Hu Hur.
    apply lookup_ext_insert in Hu; [|done].
    destruct Hu as [[-> ->]|[[-> ->]|[Hua Hu]]]; fold M.
    + right. exists cn, lf. simpl. apply lookup_insert_eq.
    + left. exists c, M. simpl. apply lookup_insert_eq.
    + by apply (tk_ne TK u un).
Qed.

Lemma int_edge_transfer2 t k D hi D' hi' u c ch cn cn' :
  int_edge_ok t k D hi u c ch cn → D' u = D u → D' ch = D ch →
  hi' !! ch = Some cn' → start cn' = start cn → end_ cn' = end_ cn →
  int_edge_ok t k D' hi' u c ch cn'.
Proof.
  intros E Hu Hch Hl Hst Hen.
  destruct E. constructor; rewrite ?Hu, ?Hch, ?Hst, ?Hen; done.
Qed.

(** Rule 2a on the tree, when the active edge leads to an internal node. *)
Lemma tree_ok_split_internal t k D hi hl an ann c ch chn al ck cn :
  tree_ok t k k D hi hl → hi !! an = Some ann →
  internal_children ann !! c = Some ch → hi !! ch = Some chn →
  0 < al → al < end_ chn - start chn →
  char_at t k = Some ck → char_at t (start chn + al) = Some cn → cn ≠ ck →
  D an ++ sub t (start chn) (start chn + al) = sub t (Z.of_nat (length hl)) k →
  Z.of_nat (length hl) ≤ k →
  tree_ok t k k
    (relabel D (length hi) (sub t (Z.of_nat (length hl)) k))
    (<[an := set_internal_children (<[c := length hi]> (internal_children ann)) ann]>
       (<[ch := set_start (start chn + al) chn]> hi)
     ++ [set_internal_children (<[cn := ch]> ∅)
           (set_leaf_children (<[ck := length hl]> ∅)
              (new_internal (start chn) (start chn + al)))])
    (hl ++ [mkLeafNode k]).
Proof.
  intros TK Han Hch Hchn Hal Hlen Hck Hcn Hne HDm Hjk.
  set (s := start chn) in *. set (M := length hi).
  set (Dm := sub t (Z.of_nat (length hl)) k) in *.
  set (ann' := set_internal_children _ ann).
  set (chn' := set_start _ chn).
  set (Mn := set_internal_children _ (set_leaf_children _ (new_internal _ _))).
  set (D' := relabel D M Dm).
  pose proof (tk_k TK) as Hk.
  assert (an < M)%nat as HanM by (by eapply lookup_lt_Some).
  assert (ch < M)%nat as HchM by (by eapply lookup_lt_Some).
  destruct (tk_int TK an ann c ch Han Hch) as [chn0 E0].
  assert (chn0 = chn) as -> by (destruct E0; congruence).
  pose proof (ie_len t k k D hi hl TK E0) as HL0. fold s in HL0.
  pose proof (ie_start E0) as Hs0. pose proof (ie_end E0) as He0.
  pose proof (ie_pos E0) as Hpos0. fold s in Hs0, Hpos0.
  pose proof (len_nonneg (D an)) as Hd0.
  assert (an ≠ ch) as Hanch by (intros ->; lia).
  assert (leaf_children ann !! c = None) as Hlcc.
  { destruct (tk_disj TK an ann c Han); congruence. }
  assert (∀ u, (u < M)%nat → D' u = D u) as HD'.
  { intros u Hu. apply relabel_old. lia. }
  assert (D' M = Dm) as HD'M by apply relabel_new.
  assert (len Dm = len (D an) + al) as HLm.
  { rewrite <- HDm, len_app, len_sub by lia. lia. }
  set (hi' := <[an := ann']> (<[ch := chn']> hi) ++ [Mn]).
  assert (∀ u un, hi' !! u = Some un ↔
            (u = M ∧ un = Mn) ∨ (u = an ∧ un = ann') ∨
            (u = ch ∧ un = chn') ∨ (u ≠ an ∧ u ≠ ch ∧ hi !! u = Some un)) as Hlk.
  { intros u un. unfold hi'. rewrite lookup_ext_insert by (by rewrite length_insert).
    rewrite length_insert, list_lookup_insert_Some. fold M. split.
    - intros [?|[?|[? [(-> & -> & _)|[? ?]]]]]; [by left|by right; left|
        by right; right; left|by right; right; right].
    - intros [?|[?|[[-> ->]|(? & ? & ?)]]]; [by left|by right; left|..].
      + right. right. split; [done|]. left. done.
      + right. right. split; [done|]. right. done. }
  assert (∀ x xn, hi !! x = Some xn → x ≠ ch →
            ∃ xn', hi' !! x = Some xn' ∧ start xn' = start xn ∧ end_ xn' = end_ xn) as Hspan.
  { intros x xn Hx Hxch. destruct (decide (x = an)) as [->|Hxan].
    - exists ann'. split; [apply Hlk; right; left; done|].
      assert (xn = ann) as -> by congruence. done.
    - exists xn. split; [|done]. apply Hlk. right. right. right. done. }
  assert (∀ u un c' x, hi !! u = Some un → internal_children un !! c' = Some x →
            x ≠ ch → ∃ xn, int_edge_ok t k D' hi' u c' x xn) as Hold.
  { intros u un c' x Hu Hx Hxch. destruct (tk_int TK u un c' x Hu Hx) as [xn E].
    destruct (Hspan x xn (ie_lookup E) Hxch) as (xn' & Hx' & Hst & Hen).
    exists xn'. eapply int_edge_transfer2; [done| | |done..].
    - apply HD'. by eapply lookup_lt_Some.
    - apply HD'. eapply lookup_lt_Some, (ie_lookup E). }
  assert (∀ u un c' x, hi !! u = Some un → leaf_children un !! c' = Some x →
            ∃ xn, leaf_edge_ok t k D' (hl ++ [mkLeafNode k]) u c' x xn) as Hlold.
  { intros u un c' x Hu Hx. destruct (tk_leaf TK u un c' x Hu Hx) as [xn E].
    exists xn. eapply leaf_edge_transfer; [done| |].
    - apply HD'. by eapply lookup_lt_Some.
    - apply lookup_app_l_Some, (le_lookup E). }
  constructor; fold hi'.
  - done.
  - apply lookup_lt_is_Some_2. unfold hi'. rewrite length_app, !length_insert.
    destruct (tk_root TK) as [rn Hrn]. apply lookup_lt_Some in Hrn. lia.
  - rewrite HD'; [apply (tk_Droot TK)|]. destruct (tk_root TK) as [rn Hrn].
    by eapply lookup_lt_Some.
  - intros u un c' x Hu Hx.
    apply Hlk in Hu as [[-> ->]|[[-> ->]|[[-> ->]|(Hua & Huc & Hu)]]].
    + simpl in Hx. apply lookup_insert_Some in Hx as [(<- & <-)|[Hcc Hx]]; [|done].
      exists chn'. constructor; simpl; rewrite ?HD'M, ?HD' by done; fold s.
      * apply Hlk. right. right. left. done.
      * lia.
      * lia.
      * done.
      * done.
      * lia.
      * rewrite HLm. replace (s + al - (len (D an) + al)) with (s - len (D an)) by lia.
        rewrite <- HDm, (ie_occ E0) at 1. fold s. apply sub_app; lia.
      * rewrite (ie_D E0), <- HDm, <- app_assoc. fold s. f_equal.
        symmetry. apply sub_app; lia.
    + simpl in Hx. apply lookup_insert_Some in Hx as [(<- & <-)|[Hcc Hx]].
      * exists Mn. constructor; simpl; rewrite ?HD'M, ?HD' by done; fold s.
        -- apply Hlk. by left.
        -- lia.
        -- lia.
        -- lia.
        -- apply (ie_key E0).
        -- lia.
        -- apply (ie_occ E0).
        -- by rewrite HDm.
      * eapply Hold; [done..|]. intros ->.
        destruct (int_parent_unique _ _ _ _ _ _ TK _ _ _ _ _ _ _ Han Hx Han Hch). done.
    + simpl in Hx. eapply Hold; [done..|]. intros ->.
      destruct (tk_int TK ch chn c' ch Hchn Hx) as [xn E].
      pose proof (ie_len t k k D hi hl TK E). pose proof (ie_lt E). lia.
    + eapply Hold; [done..|]. intros ->.
      destruct (int_parent_unique _ _ _ _ _ _ TK _ _ _ _ _ _ _ Hu Hx Han Hch). done.
  - intros u un c' x Hu Hx.
    apply Hlk in Hu as [[-> ->]|[[-> ->]|[[-> ->]|(Hua & Huc & Hu)]]].
    + simpl in Hx. apply lookup_insert_Some in Hx as [(<- & <-)|[Hcc Hx]]; [|done].
      exists (mkLeafNode k). constructor; simpl; rewrite ?HD'M; [|lia|lia|done|done].
      rewrite lookup_app_r by lia. by rewrite Nat.sub_diag.
    + simpl in Hx. by eapply Hlold.
    + simpl in Hx. by eapply Hlold.
    + by eapply Hlold.
  - intros u un c' Hu.
    apply Hlk in Hu as [[-> ->]|[[-> ->]|[[-> ->]|(Hua & Huc & Hu)]]]; simpl.
    + destruct (decide (cn = c')) as [<-|Hcc].
      * right. by rewrite lookup_insert_ne.
      * left. by rewrite lookup_insert_ne.
    + destruct (decide (c = c')) as [<-|Hcc]; [by right|].
      rewrite lookup_insert_ne by done. apply (tk_disj TK an ann c' Han).
    + apply (tk_disj TK ch chn c' Hchn).
    + apply (tk_disj TK u un c' Hu).
  - intros v Hv Hvr. unfold hi' in Hv. rewrite length_app, !length_insert in Hv.
    simpl in Hv. fold M in Hv.
    destruct (decide (v = M)) as [->|HvM].
    { exists an, ann', c. split; [apply Hlk; right; left; done|].
      simpl. apply lookup_insert_eq. }
    destruct (decide (v = ch)) as [->|Hvch].
    { exists M, Mn, cn. split; [apply Hlk; left; done|].
      simpl. apply lookup_insert_eq. }
    destruct (tk_parent TK v ltac:(unfold M in *; lia) Hvr) as (u & un & c' & Hu & Hc').
    destruct (decide (u = an)) as [->|Hua].
    { assert (un = ann) as -> by congruence.
      exists an, ann', c'. split; [apply Hlk; right; left; done|].
      simpl. rewrite lookup_insert_ne; [done|]. intros <-. congruence. }
    destruct (decide (u = ch)) as [->|Huc].
    { assert (un = chn) as -> by congruence.
      exists ch, chn', c'. split; [apply Hlk; right; right; left; done|done]. }
    exists u, un, c'. split; [|done]. apply Hlk. right. right. right. done.
  - intros x Hx. rewrite length_app in Hx. simpl in Hx.
    destruct (decide (x = length hl)) as [->|Hxj].
    { exists M, Mn, ck. split; [apply Hlk; left; done|].
      simpl. apply lookup_insert_eq. }
    destruct (tk_lparent TK x ltac:(lia)) as (u & un & c' & Hu & Hc').
    destruct (decide (u = an)) as [->|Hua].
    { assert (un = ann) as -> by congruence.
      exists an, ann', c'. split; [apply Hlk; right; left; done|done]. }
    destruct (decide (u = ch)) as [->|Huc].
    { assert (un = chn) as -> by congruence.
      exists ch, chn', c'. split; [apply Hlk; right; right; left; done|done]. }
    exists u, un, c'. split; [|done]. apply Hlk. right. right. right. done.
  - intros u un Hu Hur.
    apply Hlk in Hu as [[-> ->]|[[-> ->]|[[-> ->]|(Hua & Huc & Hu)]]]; simpl.
    + left. exists cn, ch. apply lookup_insert_eq.
    + left. exists c, M. apply lookup_insert_eq.
    + by apply (tk_ne TK ch chn).
    + by apply (tk_ne TK u un).
Qed.

(** The links after a fresh node [Mn] was appended to the arena. *)
Lemma links_ok_extend D hi h1 ex Mn w :
  links_ok D hi ex → same_links hi h1 →
  suffix_link Mn = None → weiner_links Mn = [] → nf Mn = 0 →
  links_ok (relabel D (length hi) w) (h1 ++ [Mn]) (λ u, ex u ∨ u = length hi).
Proof.
  intros LK0 SL HsM HwM HnM.
  pose proof (links_ok_same_links _ _ _ _ LK0 SL) as LK.
  destruct SL as [Hl _]. rewrite Hl.
  assert (∀ v vn, h1 !! v = Some vn → suffix_link vn ≠ Some (length h1)) as Hno.
  { intros v vn Hv Hs. destruct (decide (v = root)) as [->|Hvr].
    - rewrite (lk_root LK vn Hv) in Hs. done.
    - pose proof (lk_suf LK v vn Hv Hvr) as H. rewrite Hs in H. lia. }
  constructor.
  - intros rn Hr. apply lookup_ext in Hr as [[_ ->]|Hr]; [done|]. by apply (lk_root LK).
  - intros u un Hu Hur. apply lookup_ext in Hu as [[-> ->]|Hu].
    + rewrite HsM. by right.
    + pose proof (lk_suf LK u un Hu Hur) as H.
      destruct (suffix_link un) as [v|]; [|by left].
      destruct H as [Hv [x Hx]]. split; [rewrite length_app; lia|].
      exists x. rewrite !relabel_old; [done|lia|].
      apply lookup_lt_Some in Hu. lia.
  - intros u un v Hu. apply lookup_ext in Hu as [[-> ->]|Hu].
    + rewrite HwM. split; [by intros ?%elem_of_nil|].
      intros (vn & Hv & Hs). apply lookup_ext in Hv as [[-> ->]|Hv]; [congruence|].
      by destruct (Hno v vn Hv).
    + rewrite (lk_wl LK u un v Hu). split.
      * intros (vn & Hv & Hs). exists vn. split; [|done]. by apply lookup_app_l_Some.
      * intros (vn & Hv & Hs). apply lookup_ext in Hv as [[-> ->]|Hv]; [congruence|].
        eauto.
  - intros u un Hu. apply lookup_ext in Hu as [[-> ->]|Hu].
    + rewrite HwM. apply NoDup_nil_2.
    + by apply (lk_nodup LK u).
  - intros u un Hu. apply lookup_ext in Hu as [[-> ->]|Hu]; [done|].
    by apply (lk_nf LK u).
Qed.

(** * One iteration of [extend] *)

(** What the two variants of rule 2a have in common, once the tree has
    been rebuilt around the new internal node. *)
Lemma split_finish k D st s cn hi1 Mn hlb st2 :
  loop_inv k D st → 0 < remainder st → 0 < active_length st →
  0 ≤ s → len (D (active_node st)) ≤ s →
  D (active_node st) = sub (txt st) (s - len (D (active_node st))) s →
  s + active_length st < k →
  sub (txt st) s (s + active_length st)
    = sub (txt st) (k - active_length st) k →
  char_at (txt st) (s + active_length st) = Some cn →
  char_at (txt st) k ≠ Some cn →
  same_links (inodes st) hi1 →
  suffix_link Mn = None → weiner_links Mn = [] → nf Mn = 0 →
  length hlb = S (length (lnodes st)) →
  tree_ok (txt st) k k
    (relabel D (length (inodes st))
       (sub (txt st) (Z.of_nat (length (lnodes st))) k))
    (hi1 ++ [Mn]) hlb →
  add_links (length (inodes st))
    (set_inodes (hi1 ++ [Mn]) (set_lnodes hlb st)) = Some st2 →
  mid_inv k
    (relabel D (length (inodes st))
       (sub (txt st) (Z.of_nat (length (lnodes st))) k)) st2.
Proof.
  intros LI Hr Hal Hs0 Hds HDan Hsk Hag Hcn Hck SL HsM HwM HnM Hlen TK' Hadd.
  pose proof (ap_depth k D st LI Hr) as (Hd & Hj0 & Hjk).
  pose proof (li_k LI) as (Hk0 & Hkn & Hn). pose proof (li_al LI) as [Hal0 Halk].
  pose proof (len_nonneg (D (active_node st))) as Hd0.
  set (M := length (inodes st)) in *.
  set (j := Z.of_nat (length (lnodes st))) in *.
  set (D' := relabel D M (sub (txt st) j k)) in *.
  pose proof (li_an LI) as HanM. fold M in HanM.
  assert (∀ u, (u < M)%nat → D' u = D u) as HD'.
  { intros u Hu. apply relabel_old. lia. }
  assert (D' M = sub (txt st) j k) as HD'M by apply relabel_new.
  assert (length hi1 = M) as Hl1 by (by destruct SL as [<- _]).
  apply (add_links_spec (txt st) k k D') in Hadd as (ST & LK & ->); simpl.
  - destruct ST as [HST ST']. simpl in HST. rewrite length_app, Hl1 in HST. simpl in HST.
    constructor; simpl; rewrite ?Hlen.
    + done.
    + apply (li_ge LI).
    + rewrite (li_rem LI). lia.
    + lia.
    + lia.
    + eapply tree_ok_same_tree; [done|]. split; [|done]. simpl.
      rewrite length_app, Hl1. simpl. done.
    + eapply links_ok_weaken; [done|]. simpl. intros u un _ _ _ [-> _]. done.
    + replace (Z.of_nat (S (length (lnodes st))) - 1) with j by lia. apply (li_impl LI).
    + lia.
    + done.
    + replace (Z.of_nat (S (length (lnodes st))) - 1) with j by lia.
      rewrite HD' by done. apply (li_ap LI).
    + apply (li_ae LI).
    + replace (Z.of_nat (S (length (lnodes st))) - 1) with j by lia.
      exists M. split_and!; [done|lia|done|]. intros _.
      exists cn, (s - len (D (active_node st))). rewrite HD'M, len_sub by lia.
      split_and!; [lia|lia| |done].
      replace (s - len (D (active_node st)) + (k - j) + 1)
        with (s + active_length st + 1) by lia.
      rewrite <- (sub_app _ _ s) by lia.
      rewrite (sub_snoc _ s _ cn) by (lia || done).
      rewrite <- HDan, Hag, app_assoc. f_equal. apply (li_ap LI).
  - done.
  - simpl. eapply links_ok_weaken.
    + eapply links_ok_extend; [apply (li_links LI)|done..].
    + simpl. fold M. naive_solver.
  - simpl. rewrite length_app, Hl1. simpl. lia.
  - simpl. intros A HA. rewrite length_app, Hl1. simpl.
    destruct (li_nl LI Hr A HA) as (HAv & (x & HDA) & _). fold M in HAv.
    split; [lia|]. exists x. rewrite HD'M, HD' by done. done.
Qed.

Lemma normalize_inv k D st :
  loop_inv k D st → 0 < remainder st →
  let st0 := if decide (active_length st = 0) then set_active_edge k st else st in
  loop_inv k D st0 ∧ active_edge st0 = k - active_length st0 ∧
  0 < remainder st0.
Proof.
  intros LI Hr. simpl. destruct (decide (active_length st = 0)) as [Hal|Hal].
  - split_and!; [|simpl; lia|done].
    constructor; simpl;
      [apply (li_k LI)|apply (li_ge LI)|apply (li_rem LI)|apply (li_rem0 LI)
      |apply (li_tree LI)|apply (li_links LI)|apply (li_impl LI)|apply (li_an LI)
      |apply (li_al LI)|apply (li_ap LI)|lia|apply (li_nl LI)|apply (li_done LI)].
  - split_and!; [done| |done]. pose proof (li_al LI). apply (li_ae LI). lia.
Qed.

(** Rule 2a, the active edge leading to a leaf. *)
Lemma split_leaf_inv k D st ann c lf ln c1 ck st2 :
  loop_inv k D st → 0 < remainder st →
  inodes st !! active_node st = Some ann →
  char_at (txt st) (k - active_length st) = Some c →
  leaf_children ann !! c = Some lf → lnodes st !! lf = Some ln →
  active_length st < leaf_edge_length k ln →
  char_at (txt st) (wrap32 (leaf_start ln + active_length st)) = Some c1 →
  char_at (txt st) k = Some ck → c1 ≠ ck →
  split_leaf k c lf (leaf_start ln) st = Some st2 →
  mid_inv k
    (relabel D (length (inodes st))
       (sub (txt st) (Z.of_nat (length (lnodes st))) k)) st2.
Proof.
  intros LI Hr Han Hc Hlf Hln Hlen Hc1 Hck Hne Hsplit.
  pose proof (ap_depth k D st LI Hr) as (Hd & Hj0 & Hjk).
  pose proof (li_k LI) as (Hk0 & Hkn & Hn). pose proof (li_al LI) as [Hal0 Halk].
  assert (active_edge_at k st ann c (leaf_start ln)) as Hed.
  { right. exists lf, ln. done. }
  destruct (edge_common k D st LI Hr ann c _ Han Hc Hed)
    as (Hs0 & Hds & HDan & Hsk & Hag & Hcs).
  rewrite wrap32_small in Hc1 by lia.
  assert (0 < active_length st) as Hal.
  { destruct (decide (active_length st = 0)) as [H0|]; [|lia].
    rewrite H0, ?Z.add_0_r, ?Z.sub_0_r in *. congruence. }
  unfold split_leaf in Hsplit. rewrite Hln in Hsplit. simpl in Hsplit.
  rewrite wrap32_small in Hsplit by lia.
  rewrite Hck, Hc1, Han in Hsplit. simpl in Hsplit.
  eapply (split_finish k D st (leaf_start ln) c1
            (<[active_node st := _]> (inodes st)) _
            (<[lf := _]> (lnodes st) ++ [_])); try eassumption.
  - intros ?. congruence.
  - by eapply same_links_insert.
  - done.
  - done.
  - done.
  - rewrite length_app, length_insert. simpl. lia.
  - apply (tree_ok_split_leaf (txt st) k D (inodes st) (lnodes st)
             (active_node st) ann c lf ln (active_length st) ck c1);
      try done; [apply (li_tree LI)|].
    rewrite Hag. apply (li_ap LI).
Qed.

(** Rule 2a, the active edge leading to an internal node. *)
Lemma split_internal_inv k D st ann c ch chn c1 ck st2 :
  loop_inv k D st → 0 < remainder st →
  inodes st !! active_node st = Some ann →
  char_at (txt st) (k - active_length st) = Some c →
  internal_children ann !! c = Some ch → inodes st !! ch = Some chn →
  active_length st < edge_length chn →
  char_at (txt st) (wrap32 (start chn + active_length st)) = Some c1 →
  char_at (txt st) k = Some ck → c1 ≠ ck →
  split_internal k c ch (start chn) st = Some st2 →
  mid_inv k
    (relabel D (length (inodes st))
       (sub (txt st) (Z.of_nat (length (lnodes st))) k)) st2.
Proof.
  intros LI Hr Han Hc Hch Hchn Hlen Hc1 Hck Hne Hsplit.
  pose proof (ap_depth k D st LI Hr) as (Hd & Hj0 & Hjk).
  pose proof (li_k LI) as (Hk0 & Hkn & Hn). pose proof (li_al LI) as [Hal0 Halk].
  assert (active_edge_at k st ann c (start chn)) as Hed.
  { left. exists ch, chn. done. }
  destruct (edge_common k D st LI Hr ann c _ Han Hc Hed)
    as (Hs0 & Hds & HDan & Hsk & Hag & Hcs).
  rewrite wrap32_small in Hc1 by lia.
  assert (0 < active_length st) as Hal.
  { destruct (decide (active_length st = 0)) as [H0|]; [|lia].
    rewrite H0, ?Z.add_0_r, ?Z.sub_0_r in *. congruence. }
  destruct (tk_int (li_tree LI) _ ann c ch Han Hch) as [chn0 E0].
  assert (chn0 = chn) as -> by (destruct E0; congruence).
  rewrite (edge_length_small _ _ _ _ _ _ _ _ E0) in Hlen by lia.
  assert (active_node st ≠ ch) as Hanch.
  { intros Heq. pose proof (ie_len _ _ _ _ _ _ (li_tree LI) E0) as HL.
    rewrite <- Heq in HL. lia. }
  unfold split_internal in Hsplit. rewrite Hchn in Hsplit. simpl in Hsplit.
  rewrite wrap32_small in Hsplit by lia.
  rewrite Hck, Hc1 in Hsplit. simpl in Hsplit.
  rewrite list_lookup_insert_ne in Hsplit by done.
  rewrite Han in Hsplit. simpl in Hsplit.
  eapply (split_finish k D st (start chn) c1
            (<[active_node st := _]> (<[ch := _]> (inodes st))) _
            (lnodes st ++ [_])); try eassumption.
  - intros ?. congruence.
  - eapply same_links_trans.
    + by apply (same_links_insert _ ch chn (set_start (start chn + active_length st) chn)).
    + eapply same_links_insert; [by rewrite list_lookup_insert_ne|done..].
  - done.
  - done.
  - done.
  - rewrite length_app. simpl. lia.
  - apply (tree_ok_split_internal (txt st) k D (inodes st) (lnodes st)
             (active_node st) ann c ch chn (active_length st) ck c1);
      try done; [apply (li_tree LI)|].
    rewrite Hag. apply (li_ap LI).
Qed.

Lemma extend_body_inv k D st b st' :
  loop_inv k D st → 0 < remainder st → extend_body k st = Some (b, st') →
  if b then ∃ D', phase_inv (k + 1) D'
                    (set_global_end (wrap32 (global_end st' + 1)) st')
  else ∃ D', loop_inv k D' st'.
Proof.
  intros LI Hr Hbody. unfold extend_body in Hbody.
  destruct (normalize_inv k D st LI Hr) as (LI0 & Hae & Hr0).
  set (st0 := if decide (active_length st = 0) then set_active_edge k st else st) in *.
  clearbody st0. clear LI Hr st. rename st0 into st.
  destruct (an_lookup k D st LI0) as [ann Han]. rewrite Han in Hbody. simpl in Hbody.
  destruct (active_key k D st LI0) as [c Hc]. rewrite Hae, Hc in Hbody. simpl in Hbody.
  destruct (leaf_children ann !! c) as [lf|] eqn:Hlf;
    destruct (internal_children ann !! c) as [ch|] eqn:Hch.
  - done.
  - (* the active edge leads to a leaf *)
    simpl in Hbody. destruct (lnodes st !! lf) as [ln|] eqn:Hln; [|done].
    simpl in Hbody. rewrite (li_ge LI0) in Hbody.
    destruct (decide (leaf_edge_length k ln ≤ active_length st)) as [|Hlen]; [done|].
    destruct (char_at (txt st) (wrap32 (leaf_start ln + active_length st)))
      as [c1|] eqn:Hc1; [|done]. simpl in Hbody.
    destruct (char_at (txt st) k) as [ck|] eqn:Hck; [|done]. simpl in Hbody.
    assert (active_edge_at k st ann c (leaf_start ln)) as Hed.
    { right. exists lf, ln. split_and!; try done. by apply Z.nle_gt. }
    destruct (decide (c1 = ck)) as [->|Hne].
    + destruct (add_links _ _) as [st1|] eqn:Hadd; [|done]. simpl in Hbody.
      inversion Hbody; subst b st'. exists D.
      eapply (rule3_inv k D st ann c (leaf_start ln)); try done.
      destruct (edge_common k D st LI0 Hr0 ann c _ Han Hc Hed) as (? & ? & ? & ? & _).
      pose proof (li_k LI0). pose proof (li_al LI0).
        rewrite wrap32_small in Hc1 by lia. congruence.
    + destruct (split_leaf _ _ _ _ _) as [st2|] eqn:Hsplit; [|done]. simpl in Hbody.
      destruct (after_insertion k st2) as [st3|] eqn:Hafter; [|done]. simpl in Hbody.
      inversion Hbody; subst b st'. eexists.
      eapply after_insertion_inv; [|done].
      eapply (split_leaf_inv k D st ann c lf ln c1 ck); (done || lia).
  - (* the active edge leads to an internal node *)
    simpl in Hbody. destruct (inodes st !! ch) as [chn|] eqn:Hchn; [|done].
    simpl in Hbody.
    destruct (decide (edge_length chn ≤ active_length st)) as [Hle|Hlen].
    + simpl in Hbody. inversion Hbody; subst b st'. exists D.
      by eapply (walk_down_inv k D st ann c ch chn).
    + destruct (char_at (txt st) (wrap32 (start chn + active_length st)))
        as [c1|] eqn:Hc1; [|done]. simpl in Hbody.
      destruct (char_at (txt st) k) as [ck|] eqn:Hck; [|done]. simpl in Hbody.
      assert (active_edge_at k st ann c (start chn)) as Hed.
      { left. exists ch, chn. split_and!; try done. by apply Z.nle_gt. }
      destruct (decide (c1 = ck)) as [->|Hne].
      * destruct (add_links _ _) as [st1|] eqn:Hadd; [|done]. simpl in Hbody.
        inversion Hbody; subst b st'. exists D.
        eapply (rule3_inv k D st ann c (start chn)); try done.
        destruct (edge_common k D st LI0 Hr0 ann c _ Han Hc Hed) as (? & ? & ? & ? & _).
        pose proof (li_k LI0). pose proof (li_al LI0).
        rewrite wrap32_small in Hc1 by lia. congruence.
      * destruct (split_internal _ _ _ _ _) as [st2|] eqn:Hsplit; [|done].
        simpl in Hbody.
        destruct (after_insertion k st2) as [st3|] eqn:Hafter; [|done]. simpl in Hbody.
        inversion Hbody; subst b st'. eexists.
        eapply after_insertion_inv; [|done].
        eapply (split_internal_inv k D st ann c ch chn c1 ck); (done || lia).
  - (* no edge: rule 2b *)
    destruct (add_links _ _) as [st2|] eqn:Hadd; [|done]. simpl in Hbody.
    destruct (after_insertion k st2) as [st3|] eqn:Hafter; [|done]. simpl in Hbody.
    inversion Hbody; subst b st'. exists D.
    eapply after_insertion_inv; [|done].
    by eapply (rule2b_inv k D st ann c).
Qed.

(** * The construction *)

(** Leaving the loop of [extend] because [remainder] is zero. *)
Lemma loop_exit_inv k D st :
  loop_inv k D st → remainder st = 0 →
  phase_inv (k + 1) D (set_global_end (wrap32 (global_end st + 1)) st).
Proof.
  intros LI Hr0.
  pose proof (li_k LI) as (Hk0 & Hkn & Hn). pose proof (li_al LI) as [Hal0 Halk].
  pose proof (li_rem LI) as Hrem. pose proof (li_ap LI) as Hap.
  rewrite (sub_nil _ (Z.of_nat (length (lnodes st))) k) in Hap by lia.
  apply app_eq_nil in Hap as [HD Hs].
  assert (active_length st = 0) as Hal.
  { apply (f_equal len) in Hs. rewrite len_sub in Hs by lia.
    change (len []) with 0 in Hs. lia. }
  rewrite (li_ge LI), wrap32_small by lia.
  constructor; simpl.
  - lia.
  - done.
  - lia.
  - lia.
  - eapply tree_ok_mono; [apply (li_tree LI)|lia..].
  - eapply links_ok_weaken; [apply (li_links LI)|]. simpl.
    intros u un Hu Hur Hs' _.
    destruct (li_done LI Hr0 u un Hu Hur) as [v Hv]. congruence.
  - intros i Hi Hik. lia.
  - apply (li_an LI).
  - lia.
  - rewrite HD, Hal, !sub_nil by lia. done.
  - lia.
Qed.

Lemma extend_loop_inv fuel k D st st' :
  loop_inv k D st → extend_loop fuel k st = Some st' →
  ∃ D', phase_inv (k + 1) D' (set_global_end (wrap32 (global_end st' + 1)) st').
Proof.
  revert D st. induction fuel as [|fuel IH]; intros D st LI Hloop; simpl in Hloop.
  - destruct (decide (0 < remainder st)); [done|]. inversion Hloop; subst st'.
    exists D. apply loop_exit_inv; [done|]. pose proof (li_rem0 LI). lia.
  - destruct (decide (0 < remainder st)) as [Hr|Hr].
    + destruct (extend_body k st) as [[[] st1]|] eqn:Hbody; [| |done].
      * inversion Hloop; subst st'.
        apply (extend_body_inv k D st true st1 LI Hr Hbody).
      * destruct (extend_body_inv k D st false st1 LI Hr Hbody) as [D1 LI1].
        by eapply IH.
    + inversion Hloop; subst st'.
      exists D. apply loop_exit_inv; [done|]. pose proof (li_rem0 LI). lia.
Qed.

(** Entering the loop of [extend(k)]. *)
Lemma extend_start_inv k D st :
  phase_inv k D st → k < len (txt st) →
  loop_inv k D (set_remainder (wrap32 (remainder st + 1)) (set_need_link None st)).
Proof.
  intros PI Hk.
  pose proof (pi_k PI) as (Hk0 & Hkn & Hn). pose proof (pi_rem PI) as Hrem.
  pose proof (pi_rem0 PI) as Hrem0.
  simpl. rewrite wrap32_small by lia.
  constructor; simpl.
  - lia.
  - apply (pi_ge PI).
  - lia.
  - lia.
  - eapply tree_ok_mono; [apply (pi_tree PI)|lia..].
  - eapply links_ok_weaken; [apply (pi_links PI)|]. simpl. done.
  - apply (pi_impl PI).
  - apply (pi_an PI).
  - apply (pi_al PI).
  - apply (pi_ap PI).
  - apply (pi_ae PI).
  - done.
  - intros ?. lia.
Qed.

(** One phase. *)
Lemma extend_inv fuel k D st st' :
  phase_inv k D st → k < len (txt st) → extend fuel k st = Some st' →
  ∃ D', phase_inv (k + 1) D' st'.
Proof.
  intros PI Hk Hext. unfold extend in Hext.
  destruct (extend_loop _ _ _) as [st1|] eqn:Hloop; [|done]. simpl in Hext.
  inversion Hext; subst st'. eapply extend_loop_inv; [|done].
  exact (extend_start_inv k D st PI Hk).
Qed.

Lemma phases_inv fuel m k D st st' :
  phase_inv (Z.of_nat k) D st → Z.of_nat (k + m) ≤ len (txt st) →
  (∀ f j s s', extend f j s = Some s' → txt s' = txt s) →
  phases fuel (seq k m) st = Some st' →
  ∃ D', phase_inv (Z.of_nat (k + m)) D' st'.
Proof.
  revert k D st. induction m as [|m IH]; intros k D st PI Hkm Htxt Hph; simpl in Hph.
  - inversion Hph; subst st'. exists D. by rewrite Nat.add_0_r.
  - destruct (extend fuel (Z.of_nat k) st) as [st1|] eqn:Hext; [|done]. simpl in Hph.
    destruct (extend_inv fuel (Z.of_nat k) D st st1 PI ltac:(lia) Hext) as [D1 PI1].
    replace (k + S m)%nat with (S k + m)%nat by lia.
    eapply (IH (S k) D1 st1); [| |done..].
    + replace (Z.of_nat (S k)) with (Z.of_nat k + 1) by lia. done.
    + rewrite (Htxt _ _ _ _ Hext). lia.
Qed.

Lemma init_inv t : len t < 2 ^ 32 → phase_inv 0 (λ _, []) (init t).
Proof.
  intros Hn. pose proof (len_nonneg t).
  constructor; simpl; try done; try lia.
  - constructor; simpl; try done; try lia.
    + intros u un c ch Hu. apply list_lookup_singleton_Some in Hu as [-> <-]. done.
    + intros u un c lf Hu. apply list_lookup_singleton_Some in Hu as [-> <-]. done.
    + intros u un c Hu. apply list_lookup_singleton_Some in Hu as [-> <-]. by left.
    + intros v Hv Hvr. unfold root in *. lia.
    + intros u un Hu. apply list_lookup_singleton_Some in Hu as [-> <-]. done.
  - constructor; simpl.
    + intros rn [= <-]. done.
    + intros u un Hu. apply list_lookup_singleton_Some in Hu as [-> <-]. done.
    + intros u un v Hu. apply list_lookup_singleton_Some in Hu as [-> <-]. simpl.
      split; [by intros ?%elem_of_nil|].
      intros (vn & Hv & Hs). apply list_lookup_singleton_Some in Hv as [-> <-]. done.
    + intros u un Hu. apply list_lookup_singleton_Some in Hu as [-> <-]. apply NoDup_nil_2.
    + intros u un Hu. apply list_lookup_singleton_Some in Hu as [-> <-]. done.
  - intros i ??. lia.
  - unfold root. lia.
Qed.

(** The text is never modified. *)
Lemma add_links_txt n st st' : add_links n st = Some st' → txt st' = txt st.
Proof.
  unfold add_links. intros H. repeat case_match; simplify_option_eq; done.
Qed.

Lemma after_insertion_txt k st st' :
  after_insertion k st = Some st' → txt st' = txt st.
Proof.
  unfold after_insertion. intros H.
  destruct (decide _); [by inversion H|].
  simpl in H. destruct (inodes st !! active_node st) as [an|]; [|done].
  simpl in H. destruct (suffix_link an); by inversion H.
Qed.

Lemma split_leaf_txt k c lf p st st' :
  split_leaf k c lf p st = Some st' → txt st' = txt st.
Proof.
  unfold split_leaf. intros H. simplify_option_eq.
  match goal with H : add_links _ _ = Some _ |- _ => apply add_links_txt in H end.
  done.
Qed.

Lemma split_internal_txt k c ch p st st' :
  split_internal k c ch p st = Some st' → txt st' = txt st.
Proof.
  unfold split_internal. intros H. simplify_option_eq.
  match goal with H : add_links _ _ = Some _ |- _ => apply add_links_txt in H end.
  done.
Qed.

Lemma extend_body_txt k st b st' :
  extend_body k st = Some (b, st') → txt st' = txt st.
Proof.
  unfold extend_body. intros H.
  set (st0 := if decide (active_length st = 0) then set_active_edge k st else st) in *.
  assert (txt st0 = txt st) as <- by (unfold st0; by destruct (decide _)).
  clearbody st0.
  destruct (inodes st0 !! active_node st0) as [an|]; [|done]. simpl in H.
  destruct (char_at (txt st0) (active_edge st0)) as [c|]; [|done]. simpl in H.
  destruct (leaf_children an !! c) as [lf|], (internal_children an !! c) as [ch|];
    simpl in H; try done.
  - destruct (lnodes st0 !! lf) as [ln|]; [|done]. simpl in H.
    destruct (decide _); [done|].
    destruct (char_at (txt st0) (wrap32 _)) as [c1|]; [|done]. simpl in H.
    destruct (char_at (txt st0) k) as [ck|]; [|done]. simpl in H.
    destruct (decide _).
    + destruct (add_links _ _) as [st1|] eqn:Hadd; [|done]. simpl in H.
      inversion H; subst. apply add_links_txt in Hadd. done.
    + destruct (split_leaf _ _ _ _ _) as [st1|] eqn:Hs; [|done]. simpl in H.
      destruct (after_insertion _ _) as [st2|] eqn:Ha; [|done]. simpl in H.
      inversion H; subst. apply split_leaf_txt in Hs.
      apply after_insertion_txt in Ha. congruence.
  - destruct (inodes st0 !! ch) as [chn|]; [|done]. simpl in H.
    destruct (decide _); [inversion H; subst; done|].
    destruct (char_at (txt st0) (wrap32 _)) as [c1|]; [|done]. simpl in H.
    destruct (char_at (txt st0) k) as [ck|]; [|done]. simpl in H.
    destruct (decide _).
    + destruct (add_links _ _) as [st1|] eqn:Hadd; [|done]. simpl in H.
      inversion H; subst. apply add_links_txt in Hadd. done.
    + destruct (split_internal _ _ _ _ _) as [st1|] eqn:Hs; [|done]. simpl in H.
      destruct (after_insertion _ _) as [st2|] eqn:Ha; [|done]. simpl in H.
      inversion H; subst. apply split_internal_txt in Hs.
      apply after_insertion_txt in Ha. congruence.
  - destruct (add_links _ _) as [st1|] eqn:Hadd; [|done]. simpl in H.
    destruct (after_insertion _ _) as [st2|] eqn:Ha; [|done]. simpl in H.
    inversion H; subst. apply add_links_txt in Hadd.
    apply after_insertion_txt in Ha. rewrite Ha, Hadd. done.
Qed.

Lemma extend_loop_txt fuel k st st' :
  extend_loop fuel k st = Some st' → txt st' = txt st.
Proof.
  revert st. induction fuel as [|fuel IH]; intros st H; simpl in H.
  - destruct (decide _); [done|]. by inversion H.
  - destruct (decide _); [|by inversion H].
    destruct (extend_body k st) as [[[] st1]|] eqn:Hb; [| |done].
    + inversion H; subst. by apply extend_body_txt in Hb.
    + apply extend_body_txt in Hb. apply IH in H. congruence.
Qed.

Lemma extend_txt fuel k st st' : extend fuel k st = Some st' → txt st' = txt st.
Proof.
  unfold extend. intros H.
  destruct (extend_loop _ _ _) as [st1|] eqn:Hl; [|done]. simpl in H.
  inversion H; subst. apply extend_loop_txt in Hl. done.
Qed.

Lemma phases_txt fuel ks st st' : phases fuel ks st = Some st' → txt st' = txt st.
Proof.
  revert st. induction ks as [|k ks IH]; intros st H; simpl in H.
  - by inversion H.
  - destruct (extend fuel (Z.of_nat k) st) as [st1|] eqn:He; [|done]. simpl in H.
    apply extend_txt in He. apply IH in H. congruence.
Qed.

(** ** The tree built by the constructor *)

Theorem build_inv t st :
  build t = Some st →
  txt st = t ∧ ∃ D, phase_inv (len t) D st.
Proof.
  unfold build. intros H. destruct (decide _) as [Hn|]; [|done].
  pose proof (phases_txt _ _ _ _ H) as Htxt. simpl in Htxt. split; [done|].
  destruct (phases_inv (phase_fuel t) (length t) 0 (λ _, []) (init t) st) as [D PI].
  - apply init_inv. done.
  - simpl. unfold len. lia.
  - intros ????. apply extend_txt.
  - done.
  - exists D. done.
Qed.

(** A text that ends in a byte occurring nowhere else. *)
Lemma sentinel_all_leaves t0 c D st :
  c ∉ t0 → phase_inv (len (t0 ++ [c])) D st → txt st = t0 ++ [c] →
  Z.of_nat (length (lnodes st)) = len (t0 ++ [c]).
Proof.
  intros Hc PI Htxt. set (t := t0 ++ [c]) in *.
  pose proof (pi_rem PI) as Hrem. pose proof (pi_rem0 PI) as Hrem0.
  pose proof (pi_k PI) as (Hk0 & Hkn & Hn).
  destruct (decide (Z.of_nat (length (lnodes st)) = len t)) as [|Hne]; [done|exfalso].
  assert (len t = len t0 + 1) as Hlt.
  { unfold t. rewrite len_app. done. }
  pose proof (len_nonneg t0).
  destruct (pi_impl PI (Z.of_nat (length (lnodes st)))) as (i' & Hi0 & Hij & Hocc); [lia..|].
  rewrite Htxt in Hocc.
  assert (char_at t (len t0) = char_at t (i' + (len t0 - Z.of_nat (length (lnodes st))))) as Heq.
  { apply (char_shift t (Z.of_nat (length (lnodes st))) (len t) i'
       (i' + (len t - Z.of_nat (length (lnodes st))))); (done || lia). }
  unfold char_at, t in Heq.
  rewrite lookup_app_r in Heq by (unfold len; lia).
  replace (Z.to_nat (len t0) - length t0)%nat with 0%nat in Heq by (unfold len; lia).
  rewrite lookup_app_l in Heq by (unfold len in *; lia).
  simpl in Heq. apply Hc. eapply list_elem_of_lookup_2. symmetry. done.
Qed.

(** * The construction returns *)

Lemma add_links_is_Some n st :
  (∀ A, need_link st = Some A → (A < length (inodes st))%nat) →
  (n < length (inodes st))%nat → is_Some (add_links n st).
Proof.
  intros HA Hn. unfold add_links. destruct (need_link st) as [A|]; [|done].
  destruct (lookup_lt_is_Some_2 (inodes st) A (HA A eq_refl)) as [x ->]. simpl.
  destruct (lookup_lt_is_Some_2 (<[A:=set_suffix_link (Some n) x]> (inodes st)) n)
    as [tn ->]; [by rewrite length_insert|]. done.
Qed.

Lemma add_links_remainder n st st' :
  add_links n st = Some st' →
  remainder st' = remainder st ∧ active_length st' = active_length st.
Proof.
  unfold add_links. intros H. repeat case_match; simplify_option_eq; done.
Qed.

Lemma after_insertion_is_Some k st :
  (active_node st < length (inodes st))%nat → is_Some (after_insertion k st).
Proof.
  intros Han. unfold after_insertion. destruct (decide _); [done|]. simpl.
  destruct (lookup_lt_is_Some_2 _ _ Han) as [an ->]. simpl.
  by destruct (suffix_link an).
Qed.

Lemma after_insertion_remainder k st st' :
  after_insertion k st = Some st' → remainder st' = wrap32 (remainder st - 1).
Proof.
  unfold after_insertion. intros H.
  destruct (decide _); [by inversion H|].
  simpl in H. destruct (inodes st !! active_node st) as [an|]; [|done].
  simpl in H. destruct (suffix_link an); by inversion H.
Qed.

Lemma split_leaf_remainder k c lf p st st' :
  split_leaf k c lf p st = Some st' → remainder st' = remainder st.
Proof.
  unfold split_leaf. intros H. simplify_option_eq.
  match goal with H : add_links _ _ = Some _ |- _ =>
    apply add_links_remainder in H as [H _] end.
  done.
Qed.

Lemma split_internal_remainder k c ch p st st' :
  split_internal k c ch p st = Some st' → remainder st' = remainder st.
Proof.
  unfold split_internal. intros H. simplify_option_eq.
  match goal with H : add_links _ _ = Some _ |- _ =>
    apply add_links_remainder in H as [H _] end.
  done.
Qed.

(** The edge to a leaf child of the active node is longer than
    [active_length]: the active point never reaches a leaf. *)
Lemma leaf_edge_long k D st ann c lf ln :
  loop_inv k D st → 0 < remainder st →
  inodes st !! active_node st = Some ann →
  leaf_children ann !! c = Some lf → lnodes st !! lf = Some ln →
  0 ≤ leaf_start ln ∧ active_length st < k - leaf_start ln.
Proof.
  intros LI Hr Han Hlf Hln.
  pose proof (ap_depth k D st LI Hr) as (Hd & Hj0 & Hjk).
  pose proof (li_k LI) as (Hk0 & Hkn & Hn). pose proof (li_al LI) as [Hal0 Halk].
  destruct (tk_leaf (li_tree LI) _ ann c lf Han Hlf) as [ln' E].
  assert (ln' = ln) as -> by (destruct E; congruence).
  pose proof (le_lo E). pose proof (le_hi E).
  pose proof (f_equal len (le_D E)) as HL. rewrite len_sub in HL by lia.
  apply lookup_lt_Some in Hln. lia.
Qed.

Lemma split_leaf_is_Some k c lf ln p st ck c1 ann :
  lnodes st !! lf = Some ln → char_at (txt st) k = Some ck →
  char_at (txt st) (wrap32 (leaf_start ln + active_length st)) = Some c1 →
  inodes st !! active_node st = Some ann →
  (∀ A, need_link st = Some A → (A < length (inodes st))%nat) →
  is_Some (split_leaf k c lf p st).
Proof.
  intros Hln Hck Hc1 Han HA. unfold split_leaf.
  rewrite Hln. simpl. rewrite Hck. simpl. rewrite Hc1. simpl. rewrite Han. simpl.
  apply add_links_is_Some; simpl.
  - intros A HAn. rewrite length_app, length_insert. specialize (HA A HAn). lia.
  - rewrite length_app, length_insert. simpl. lia.
Qed.

Lemma split_internal_is_Some k c ch chn p st ck c1 ann :
  inodes st !! ch = Some chn → char_at (txt st) k = Some ck →
  char_at (txt st) (wrap32 (start chn + active_length st)) = Some c1 →
  inodes st !! active_node st = Some ann →
  (∀ A, need_link st = Some A → (A < length (inodes st))%nat) →
  is_Some (split_internal k c ch p st).
Proof.
  intros Hch Hck Hc1 Han HA. unfold split_internal.
  rewrite Hch. simpl. rewrite Hck. simpl. rewrite Hc1. simpl.
  destruct (lookup_lt_is_Some_2
              (<[ch:=set_start (wrap32 (start chn + active_length st)) chn]> (inodes st))
              (active_node st)) as [an' ->].
  { rewrite length_insert. by eapply lookup_lt_Some. }
  simpl. apply add_links_is_Some; simpl.
  - intros A HAn. rewrite length_app, !length_insert. specialize (HA A HAn). lia.
  - rewrite length_app, !length_insert. simpl. lia.
Qed.

(** One iteration of the loop of [extend] returns, and either inserts a
    leaf ([remainder] goes down by one) or walks down an edge
    ([active_length] goes down). *)
Lemma extend_body_progress k D st :
  loop_inv k D st → 0 < remainder st →
  ∃ b st', extend_body k st = Some (b, st') ∧
    (b = false →
     remainder st' = remainder st - 1 ∨
     (remainder st' = remainder st ∧ 0 ≤ active_length st' ∧
      active_length st' < active_length st)).
Proof.
  intros LI Hr. unfold extend_body.
  destruct (normalize_inv k D st LI Hr) as (LI0 & Hae & Hr0).
  set (st0 := if decide (active_length st = 0) then set_active_edge k st else st) in *.
  assert (remainder st0 = remainder st ∧ active_length st0 = active_length st)
    as [Hrs Has] by (unfold st0; by destruct (decide _)).
  rewrite <- Hrs, <- Has. clearbody st0. clear LI Hr Hrs Has st. rename st0 into st.
  destruct (an_lookup k D st LI0) as [ann Han]. rewrite Han. simpl.
  destruct (active_key k D st LI0) as [c Hc]. rewrite Hae, Hc. simpl.
  pose proof (li_k LI0) as (Hk0 & Hkn & Hn). pose proof (li_al LI0) as [Hal0 Halk].
  pose proof (li_rem LI0) as Hrem.
  destruct (char_at_lt (txt st) k Hk0 Hkn) as [ck Hck].
  assert (∀ A, need_link st = Some A → (A < length (inodes st))%nat) as HnlV.
  { intros A HA. by destruct (li_nl LI0 Hr0 A HA) as [? _]. }
  assert (wrap32 (remainder st - 1) = remainder st - 1) as Hw
    by (apply wrap32_small; lia).
  destruct (leaf_children ann !! c) as [lf|] eqn:Hlf;
    destruct (internal_children ann !! c) as [ch|] eqn:Hch.
  - destruct (tk_disj (li_tree LI0) _ ann c Han); congruence.
  - (* the active edge leads to a leaf *)
    simpl. destruct (tk_leaf (li_tree LI0) _ ann c lf Han Hlf) as [ln E].
    pose proof (le_lookup E) as Hln. rewrite Hln. simpl. rewrite (li_ge LI0).
    destruct (leaf_edge_long k D st ann c lf ln LI0 Hr0 Han Hlf Hln) as [Hs0 Hlen].
    assert (leaf_edge_length k ln = k - leaf_start ln) as Hel.
    { unfold leaf_edge_length. apply wrap32_small. lia. }
    rewrite decide_False by lia.
    destruct (char_at_lt (txt st) (leaf_start ln + active_length st)
                ltac:(lia) ltac:(lia)) as [c1 Hc1].
    rewrite <- (wrap32_small (leaf_start ln + active_length st)) in Hc1 by lia.
    rewrite Hc1. simpl. rewrite Hck. simpl.
    destruct (decide (c1 = ck)) as [->|Hne].
    + destruct (add_links_is_Some (active_node st)
                  (set_active_length (wrap32 (active_length st + 1)) st))
        as [st1 Hadd]; [done|apply (li_an LI0)|].
      rewrite Hadd. simpl. by exists true, st1.
    + destruct (split_leaf_is_Some k c lf ln (leaf_start ln) st ck c1 ann)
        as [st2 Hsplit]; [done..|].
      rewrite Hsplit. simpl.
      assert (mid_inv k (relabel D (length (inodes st))
                 (sub (txt st) (Z.of_nat (length (lnodes st))) k)) st2) as MI.
      { eapply (split_leaf_inv k D st ann c lf ln c1 ck); (done || lia). }
      destruct (after_insertion_is_Some k st2 (mi_an MI)) as [st3 Hafter].
      rewrite Hafter. simpl. exists false, st3. split; [done|]. intros _. left.
      rewrite (after_insertion_remainder _ _ _ Hafter).
      rewrite (split_leaf_remainder _ _ _ _ _ _ Hsplit). done.
  - (* the active edge leads to an internal node *)
    simpl. destruct (tk_int (li_tree LI0) _ ann c ch Han Hch) as [chn E].
    pose proof (ie_lookup E) as Hchn. rewrite Hchn. simpl.
    pose proof (ie_start E). pose proof (ie_lt E). pose proof (ie_end E).
    assert (edge_length chn = end_ chn - start chn) as Hel.
    { unfold edge_length. apply wrap32_small. lia. }
    destruct (decide (edge_length chn ≤ active_length st)) as [Hle|Hlen].
    + simpl. eexists false, _. split; [done|]. intros _. right. simpl.
      rewrite wrap32_small by lia. lia.
    + assert (active_edge_at k st ann c (start chn)) as Hed.
      { left. exists ch, chn. split_and!; try done. by apply Z.nle_gt. }
      destruct (edge_common k D st LI0 Hr0 ann c _ Han Hc Hed)
        as (Hs0 & Hds & HDan & Hsk & Hag & Hcs).
      destruct (char_at_lt (txt st) (start chn + active_length st)
                  ltac:(lia) ltac:(lia)) as [c1 Hc1].
      rewrite <- (wrap32_small (start chn + active_length st)) in Hc1 by lia.
      rewrite Hc1. simpl. rewrite Hck. simpl.
      destruct (decide (c1 = ck)) as [->|Hne].
      * destruct (add_links_is_Some (active_node st)
                    (set_active_length (wrap32 (active_length st + 1)) st))
          as [st1 Hadd]; [done|apply (li_an LI0)|].
        rewrite Hadd. simpl. by exists true, st1.
      * destruct (split_internal_is_Some k c ch chn (start chn) st ck c1 ann)
          as [st2 Hsplit]; [done..|].
        rewrite Hsplit. simpl.
        assert (mid_inv k (relabel D (length (inodes st))
                   (sub (txt st) (Z.of_nat (length (lnodes st))) k)) st2) as MI.
        { eapply (split_internal_inv k D st ann c ch chn c1 ck); (done || lia). }
        destruct (after_insertion_is_Some k st2 (mi_an MI)) as [st3 Hafter].
        rewrite Hafter. simpl. exists false, st3. split; [done|]. intros _. left.
        rewrite (after_insertion_remainder _ _ _ Hafter).
        rewrite (split_internal_remainder _ _ _ _ _ _ Hsplit). done.
  - (* no edge: rule 2b *)
    destruct (add_links_is_Some (active_node st)
                (set_inodes
                   (<[active_node st :=
                        set_leaf_children (<[c := length (lnodes st)]> (leaf_children ann)) ann]>
                      (inodes st))
                   (set_lnodes (lnodes st ++ [mkLeafNode k]) st)))
      as [st2 Hadd]; simpl.
    { intros A HA. rewrite length_insert. by apply HnlV. }
    { rewrite length_insert. apply (li_an LI0). }
    rewrite Hadd. simpl.
    assert (mid_inv k D st2) as MI by by eapply (rule2b_inv k D st ann c).
    destruct (after_insertion_is_Some k st2 (mi_an MI)) as [st3 Hafter].
    rewrite Hafter. simpl. exists false, st3. split; [done|]. intros _. left.
    rewrite (after_insertion_remainder _ _ _ Hafter).
    destruct (add_links_remainder _ _ _ Hadd) as [-> _]. done.
Qed.

(** The loop of [extend(k)] returns within [remainder * (k + 2) +
    active_length] iterations. *)
Lemma extend_loop_total fuel k : ∀ D st,
  loop_inv k D st →
  remainder st * (k + 2) + active_length st < Z.of_nat fuel →
  is_Some (extend_loop fuel k st).
Proof.
  induction fuel as [|fuel IH]; intros D st LI Hm.
  { pose proof (li_rem0 LI). pose proof (li_al LI). pose proof (li_k LI). nia. }
  simpl. destruct (decide (0 < remainder st)) as [Hr|Hr]; [|done].
  destruct (extend_body_progress k D st LI Hr) as (b & st1 & Hbody & Hdec).
  rewrite Hbody. destruct b; [done|].
  destruct (extend_body_inv k D st false st1 LI Hr Hbody) as [D1 LI1].
  apply (IH D1 st1 LI1).
  pose proof (li_al LI) as [? ?]. pose proof (li_al LI1) as [? ?].
  pose proof (li_rem0 LI1). pose proof (li_k LI) as (? & ? & ?).
  destruct (Hdec eq_refl) as [Hrem|(Hrem & ? & ?)]; rewrite Hrem; nia.
Qed.

Lemma extend_total fuel k D st :
  phase_inv k D st → k < len (txt st) →
  (k + 2) * (k + 2) ≤ Z.of_nat fuel →
  is_Some (extend fuel k st).
Proof.
  intros PI Hk Hf. unfold extend.
  pose proof (extend_start_inv k D st PI Hk) as LI.
  destruct (extend_loop_total fuel k D _ LI) as [st1 Hloop].
  - pose proof (pi_k PI) as (Hk0 & Hkn & Hn). pose proof (pi_rem PI) as Hrem.
    pose proof (pi_rem0 PI) as Hrem0. pose proof (pi_al PI) as [? ?].
    simpl. rewrite wrap32_small by lia. nia.
  - change (is_Some (st' ← extend_loop fuel k
                (set_remainder (wrap32 (remainder st + 1)) (set_need_link None st));
              Some (set_global_end (wrap32 (global_end st' + 1)) st'))).
    rewrite Hloop. done.
Qed.

Lemma phases_total fuel m : ∀ k D st,
  phase_inv (Z.of_nat k) D st → Z.of_nat (k + m) ≤ len (txt st) →
  (len (txt st) + 1) * (len (txt st) + 1) ≤ Z.of_nat fuel →
  is_Some (phases fuel (seq k m) st).
Proof.
  induction m as [|m IH]; intros k D st PI Hkm Hf; simpl; [done|].
  destruct (extend_total fuel (Z.of_nat k) D st PI) as [st1 Hext]; [lia|nia|].
  rewrite Hext. simpl.
  destruct (extend_inv fuel (Z.of_nat k) D st st1 PI ltac:(lia) Hext) as [D1 PI1].
  pose proof (extend_txt _ _ _ _ Hext) as Htxt.
  apply (IH (S k) D1 st1).
  - replace (Z.of_nat (S k)) with (Z.of_nat k + 1) by lia. done.
  - rewrite Htxt. lia.
  - rewrite Htxt. done.
Qed.

(** X1: the constructor returns a tree for every text shorter than
    [2^32] bytes: the loop of every phase ends, neither [assert] of
    [extend] fails, the text is never read out of range and no null
    pointer is dereferenced. *)
Theorem build_total t : len t < 2 ^ 32 → is_Some (build t).
Proof.
  intros Hn. unfold build. rewrite decide_True by done.
  apply (phases_total _ _ 0%nat (λ _, [])).
  - by apply init_inv.
  - simpl. unfold len. lia.
  - simpl. unfold phase_fuel, len. lia.
Qed.

(** * Links and the locator in a built tree *)

Lemma node_string_valid t k kl D hi hl u w :
  tree_ok t k kl D hi hl → node_string t hi u w → (u < length hi)%nat.
Proof.
  intros TK H. destruct H; [|by eapply lookup_lt_Some].
  destruct (tk_root TK) as [rn Hrn]. by eapply lookup_lt_Some.
Qed.

(** C3: after construction, every internal node [u] other than the root
    has a suffix link, and it leads to the one internal node that
    represents the string of [u] without its first byte; the Weiner links
    of a node are exactly the nodes whose suffix link leads to it, each of
    them listed once. *)
Theorem suffix_and_weiner_links t st :
  build t = Some st →
  ∀ u un, inodes st !! u = Some un →
    (u ≠ root →
     ∃ v x w, suffix_link un = Some v ∧
              node_string t (inodes st) u (x :: w) ∧
              node_string t (inodes st) v w ∧
              ∀ v', node_string t (inodes st) v' w → v' = v) ∧
    (∀ v, v ∈ weiner_links un ↔
          ∃ vn, inodes st !! v = Some vn ∧ suffix_link vn = Some u) ∧
    NoDup (weiner_links un).
Proof.
  intros Hb u un Hu. destruct (build_inv t st Hb) as (Htxt & D & PI).
  pose proof (pi_tree PI) as TK. pose proof (pi_links PI) as LK.
  rewrite Htxt in TK.
  split_and!.
  - intros Hur. pose proof (lk_suf LK u un Hu Hur) as Hs.
    destruct (suffix_link un) as [v|]; [|done]. destruct Hs as (Hv & x & HD).
    exists v, x, (D v). split_and!; [done| | |].
    + rewrite <- HD. eapply node_string_D; [done|]. by eapply lookup_lt_Some.
    + by eapply node_string_D.
    + intros v' Hv'.
      eapply (D_inj _ _ _ _ _ _ TK); [by eapply node_string_valid|done|].
      symmetry. by eapply node_string_unique.
  - intros v. apply (lk_wl LK u un v Hu).
  - apply (lk_nodup LK u un Hu).
Qed.

Lemma suffix_and_weiner_links_witness :
  ∃ st, build (text "banana$") = Some st ∧
    ∀ u un, inodes st !! u = Some un →
      (u ≠ root →
       ∃ v x w, suffix_link un = Some v ∧
                node_string (text "banana$") (inodes st) u (x :: w) ∧
                node_string (text "banana$") (inodes st) v w ∧
                ∀ v', node_string (text "banana$") (inodes st) v' w → v' = v) ∧
      (∀ v, v ∈ weiner_links un ↔
            ∃ vn, inodes st !! v = Some vn ∧ suffix_link vn = Some u) ∧
      NoDup (weiner_links un).
Proof.
  eexists. split; [vm_compute; reflexivity|].
  apply (suffix_and_weiner_links (text "banana$")). vm_compute. reflexivity.
Defined.

(** One iteration of the loop of [find_internal_node] that follows an
    internal child: it either answers [{nullptr, 0}] or goes on below that
    child with the index advanced by the length of its edge. *)
Lemma find_loop_step t k kl D st s fuel node n i si ch chn :
  tree_ok t k kl D (inodes st) (lnodes st) → txt st = t → len t < 2 ^ 32 →
  inodes st !! node = Some n → 0 ≤ i →
  char_at s i = Some si → internal_children n !! si = Some ch →
  inodes st !! ch = Some chn →
  start chn < end_ chn ∧ 1 ≤ edge_length chn ∧
  (find_loop (S fuel) st s node i = Some (None, 0) ∨
   find_loop (S fuel) st s node i
     = find_loop fuel st s ch (wrap32 (i + edge_length chn))).
Proof.
  intros TK Htxt Ht Hn Hi0 Hsi Hch Hchn.
  destruct (tk_int TK node n si ch Hn Hch) as [cn E].
  assert (cn = chn) as -> by (destruct E; congruence).
  pose proof (ie_start E). pose proof (ie_lt E). pose proof (ie_end E).
  pose proof (tk_k TK) as (? & ? & ? & ?).
  pose proof (char_at_Some s i si Hi0 Hsi) as Hi.
  assert (edge_length chn = end_ chn - start chn) as Hel.
  { unfold edge_length. apply wrap32_small. lia. }
  split_and!; [done|lia|].
  simpl. rewrite decide_False by (unfold len in *; lia).
  rewrite Hn. simpl. rewrite Hsi. simpl. rewrite Hch, Hchn. simpl.
  rewrite Htxt. unfold substr.
  rewrite (decide_True (P := i ≤ Z.of_nat (length s))) by (unfold len in *; lia).
  rewrite (decide_True (P := start chn ≤ Z.of_nat (length t))) by (unfold len in *; lia).
  simpl.
  destruct (decide _); [by right|by left].
Qed.

(** The loop returns: it goes down one node per iteration. *)
Lemma find_loop_total t k kl D st s fuel node i :
  tree_ok t k kl D (inodes st) (lnodes st) → txt st = t → len t < 2 ^ 32 →
  (node < length (inodes st))%nat → 0 ≤ i →
  len t - len (D node) < Z.of_nat fuel →
  is_Some (find_loop fuel st s node i).
Proof.
  intros TK Htxt Ht. revert node i.
  induction fuel as [|fuel IH]; intros node i Hnode Hi0 Hfuel.
  { pose proof (D_len_le _ _ _ _ _ _ TK node Hnode). pose proof (tk_k TK). lia. }
  destruct (decide (len s ≤ i)) as [Hle|Hlt].
  { simpl. rewrite decide_True by done. done. }
  destruct (lookup_lt_is_Some_2 _ _ Hnode) as [n Hn].
  destruct (char_at_lt s i Hi0 ltac:(lia)) as [si Hsi].
  destruct (internal_children n !! si) as [ch|] eqn:Hch.
  - destruct (tk_int TK node n si ch Hn Hch) as [chn E].
    destruct (find_loop_step t k kl D st s fuel node n i si ch chn TK Htxt Ht Hn Hi0
                Hsi Hch (ie_lookup E)) as (Hlt' & Hel & [->| ->]); [done|].
    pose proof (ie_len _ _ _ _ _ _ TK E).
    apply IH; [by eapply lookup_lt_Some, (ie_lookup E)| |lia].
    pose proof (wrap32_range (i + edge_length chn)). lia.
  - simpl. rewrite decide_False by done. rewrite Hn. simpl. rewrite Hsi. simpl.
    rewrite Hch. by destruct (leaf_children n !! si).
Qed.

(** C9: in a built tree every internal node other than the root has
    [start < end], so that its edge has at least one byte; an iteration of
    the loop of [find_internal_node] that does not return advances the
    32-bit index [i] by such an edge length; and the loop returns, for
    every query. *)
Theorem find_internal_node_terminates t st :
  build t = Some st →
  (∀ u un, inodes st !! u = Some un → u ≠ root →
           start un < end_ un ∧ 1 ≤ edge_length un) ∧
  (∀ s fuel node n i si ch chn,
     inodes st !! node = Some n → 0 ≤ i →
     char_at s i = Some si → internal_children n !! si = Some ch →
     inodes st !! ch = Some chn →
     1 ≤ edge_length chn ∧
     (find_loop (S fuel) st s node i = Some (None, 0) ∨
      find_loop (S fuel) st s node i
        = find_loop fuel st s ch (wrap32 (i + edge_length chn)))) ∧
  (∀ s, is_Some (find_internal_node st s)).
Proof.
  intros Hb. destruct (build_inv t st Hb) as (Htxt & D & PI).
  pose proof (pi_tree PI) as TK. rewrite Htxt in TK.
  pose proof (pi_k PI) as (? & ? & ?). rewrite Htxt in *.
  split_and!.
  - intros u un Hu Hur.
    destruct (tk_parent TK u ltac:(by eapply lookup_lt_Some) Hur) as (p & pn & c & Hp & Hc).
    destruct (tk_int TK p pn c u Hp Hc) as [cn E].
    assert (cn = un) as -> by (destruct E; congruence).
    pose proof (ie_start E). pose proof (ie_lt E). pose proof (ie_end E).
    split; [done|]. unfold edge_length. rewrite wrap32_small; lia.
  - intros s fuel node n i si ch chn Hn Hi0 Hsi Hch Hchn.
    destruct (find_loop_step t _ _ D st s fuel node n i si ch chn TK Htxt ltac:(lia) Hn Hi0
                Hsi Hch Hchn) as (_ & ? & ?). done.
  - intros s. unfold find_internal_node. rewrite Htxt.
    eapply (find_loop_total t _ _ D); [done..| |lia|].
    + destruct (tk_root TK) as [rn Hrn]. by eapply lookup_lt_Some.
    + rewrite (tk_Droot TK). unfold len. simpl. lia.
Qed.

Lemma find_internal_node_terminates_witness :
  ∃ st, build (text "banana$") = Some st ∧
    (∀ u un, inodes st !! u = Some un → u ≠ root →
             start un < end_ un ∧ 1 ≤ edge_length un) ∧
    (∀ s fuel node n i si ch chn,
       inodes st !! node = Some n → 0 ≤ i →
       char_at s i = Some si → internal_children n !! si = Some ch →
       inodes st !! ch = Some chn →
       1 ≤ edge_length chn ∧
       (find_loop (S fuel) st s node i = Some (None, 0) ∨
        find_loop (S fuel) st s node i
          = find_loop fuel st s ch (wrap32 (i + edge_length chn)))) ∧
    (∀ s, is_Some (find_internal_node st s)).
Proof.
  eexists. split; [vm_compute; reflexivity|].
  apply (find_internal_node_terminates (text "banana$")). vm_compute. reflexivity.
Defined.

(** * Net frequency of one query *)

Lemma wrap32_dec z : wrap32 (wrap32 z - 1) = wrap32 (z - 1).
Proof. unfold wrap32. apply Zminus_mod_idemp_l. Qed.

(** The inner loop of [single_nf] decrements once per shared key. *)
Lemma nf_dec_keys_count sn ys n :
  nf_dec_keys sn ys (wrap32 n)
  = wrap32 (n - Z.of_nat (length (filter (λ y : ascii * nat,
                                  is_Some (leaf_children sn !! y.1)) ys))).
Proof.
  unfold nf_dec_keys. revert n. induction ys as [|y ys IH]; intros n; simpl.
  - f_equal. lia.
  - rewrite filter_cons. destruct (decide (is_Some (leaf_children sn !! y.1))).
    + rewrite wrap32_dec, IH. f_equal. simpl. lia.
    + apply IH.
Qed.

Lemma shared_keys_count (xn sn : InternalNode) :
  length (filter (λ y : ascii * nat, is_Some (leaf_children sn !! y.1))
            (map_to_list (leaf_children xn)))
  = size (shared_leaf_keys xn sn).
Proof.
  set (P := λ y : ascii * nat, is_Some (leaf_children sn !! y.1)).
  set (L := map_to_list (leaf_children xn)).
  rewrite <- (length_fmap fst).
  rewrite <- (size_list_to_set (C := gset ascii)).
  - f_equal. apply set_eq. intros x. unfold shared_leaf_keys.
    rewrite elem_of_list_to_set, list_elem_of_fmap, elem_of_intersection, !elem_of_dom.
    split.
    + intros ([x' v] & -> & [HP Hin]%list_elem_of_filter). simpl.
      apply elem_of_map_to_list in Hin. split; [eauto|done].
    + intros [[v Hv] Hs]. exists (x, v). split; [done|].
      apply list_elem_of_filter. split; [done|]. by apply elem_of_map_to_list.
  - apply (sublist_NoDup _ ((map_to_list (leaf_children xn)).*1));
      [apply NoDup_fst_map_to_list|apply fmap_sublist, sublist_filter].
Qed.

(** A node has at most 256 children of each kind. *)
Lemma gmap_ascii_size {A} (m : gmap ascii A) : (size m ≤ 256)%nat.
Proof.
  rewrite <- length_map_to_list, <- (length_fmap fst), <- (length_fmap nat_of_ascii).
  trans (length (seq 0 256)); [|by rewrite length_seq].
  apply submseteq_length, NoDup_submseteq.
  - apply NoDup_fmap_2.
    + intros a b Hab. rewrite <- (ascii_nat_embedding a), <- (ascii_nat_embedding b).
      by rewrite Hab.
    + apply NoDup_fst_map_to_list.
  - intros x (a & -> & _)%list_elem_of_fmap. apply elem_of_seq.
    pose proof (nat_ascii_bounded a). lia.
Qed.

Lemma wrap32_size {A} (m : gmap ascii A) :
  wrap32 (Z.of_nat (size m)) = Z.of_nat (size m).
Proof. pose proof (gmap_ascii_size m). apply wrap32_small. lia. Qed.

(** The outer loop of [single_nf]: one decrement per cancelling pair. *)
Lemma nf_dec_links_count h sn xs n :
  (∀ x, x ∈ xs → is_Some (h !! x)) →
  nf_dec_links h sn xs (wrap32 n)
  = Some (wrap32 (n - foldr (λ x acc,
                               match h !! x with
                               | Some xn => Z.of_nat (size (shared_leaf_keys xn sn))
                               | None => 0
                               end + acc) 0 xs)).
Proof.
  revert n. induction xs as [|x xs IH]; intros n Hv; simpl.
  - do 2 f_equal. lia.
  - destruct (Hv x ltac:(left)) as [xn Hxn]. rewrite Hxn. simpl.
    rewrite nf_dec_keys_count, shared_keys_count, IH.
    + do 2 f_equal. lia.
    + intros y Hy. apply Hv. by right.
Qed.

Lemma cancelling_pairs_no_leaf h sn :
  leaf_children sn = ∅ → cancelling_pairs h sn = 0.
Proof.
  intros He. unfold cancelling_pairs.
  induction (weiner_links sn) as [|x xs IH]; simpl; [done|].
  rewrite IH. destruct (h !! x) as [xn|]; [|done].
  unfold shared_leaf_keys. rewrite He, dom_empty_L, intersection_empty_r_L.
  by rewrite size_empty.
Qed.

(** [single_nf] at a located node, modulo [2^32]. *)
Lemma single_nf_located st s S_ sn :
  find_internal_node st s = Some (Some S_, 0) → inodes st !! S_ = Some sn →
  (∀ x, x ∈ weiner_links sn → is_Some (inodes st !! x)) →
  single_nf st s = Some (wrap32 (net_frequency (inodes st) sn)).
Proof.
  intros Hf Hs Hv. unfold single_nf. rewrite Hf. simpl. rewrite Hs. simpl.
  unfold net_frequency. rewrite size_dom.
  destruct (decide _) as [H0|H0].
  - rewrite wrap32_size in H0.
    rewrite cancelling_pairs_no_leaf by (apply map_size_empty_iff; lia).
    rewrite H0. done.
  - by apply nf_dec_links_count.
Qed.

(** ** The tree of a sentinel-terminated text *)

Section FinalTree.
Context (t : list ascii) (D : nat → list ascii) (st : SuffixTree).
Hypothesis PI : phase_inv (len t) D st.
Hypothesis Htxt : txt st = t.
Hypothesis Hleaves : Z.of_nat (length (lnodes st)) = len t.

Local Abbreviation hi := (inodes st).

Lemma final_tree : tree_ok t (len t) (len t - 1) D (inodes st) (lnodes st).
Proof. pose proof (pi_tree PI) as TK. by rewrite Htxt in TK. Qed.

(** A leaf below [xS] under key [y], and the leaf below [S] under the
    same key: the second is the suffix that follows the first. *)
Lemma leaf_under_suffix x xn S_ sn y l l' :
  hi !! x = Some xn → suffix_link xn = Some S_ → hi !! S_ = Some sn →
  leaf_children xn !! y = Some l → leaf_children sn !! y = Some l' →
  l' = S l.
Proof.
  intros Hx Hsl Hs Hl Hl'. pose proof final_tree as TK.
  pose proof (pi_links PI) as LK. pose proof (tk_k TK) as Hk.
  assert (x ≠ root) as Hxr.
  { intros ->. rewrite (lk_root LK xn Hx) in Hsl. done. }
  pose proof (lk_suf LK x xn Hx Hxr) as Hsuf. rewrite Hsl in Hsuf.
  destruct Hsuf as (_ & c & HD).
  destruct (tk_leaf TK x xn y l Hx Hl) as [ln E].
  pose proof (le_lo E) as Hlo. pose proof (le_hi E) as Hhi.
  pose proof (leaf_edge_start _ _ _ _ _ _ TK _ _ _ _ E) as Hst.
  rewrite HD, len_cons in Hst. pose proof (len_nonneg (D S_)) as Hd0.
  assert (D S_ = sub t (Z.of_nat (S l)) (leaf_start ln)) as HDS.
  { pose proof (le_D E) as HDx. rewrite HD in HDx.
    destruct (char_at_lt t (Z.of_nat l) ltac:(lia) ltac:(lia)) as [c0 Hc0].
    rewrite (sub_cons t _ _ c0) in HDx by (done || lia).
    inversion HDx as [[Hc' HD']]. rewrite HD'. f_equal. lia. }
  assert (D S_ `prefix_of` sub t (Z.of_nat (S l)) (len t)) as Hpre.
  { rewrite HDS at 1. apply sub_prefix_of; lia. }
  destruct (child_toward_leaf _ _ _ _ _ _ TK S_ sn (S l) Hs ltac:(lia) Hpre)
    as [(c2 & ch & cn & Hch & E2 & Hpch)|(c2 & ln2 & Hlf2 & E2)].
  - exfalso.
    destruct (edge_on_suffix _ _ _ _ _ _ TK _ _ _ _ (Z.of_nat (S l)) E2
                ltac:(lia) ltac:(lia) Hpch) as (_ & HLk & Hlab).
    pose proof (ie_lt E2). pose proof (ie_start E2).
    assert (char_at t (start cn) = char_at t (leaf_start ln)) as Hc.
    { apply (char_shift t (start cn) (end_ cn) (Z.of_nat (S l) + len (D S_))
               (Z.of_nat (S l) + len (D S_) + (end_ cn - start cn))); (done || lia). }
    rewrite (ie_key E2), (le_key E) in Hc. inversion Hc; subst c2.
    destruct (tk_disj TK S_ sn y Hs); congruence.
  - pose proof (leaf_edge_start _ _ _ _ _ _ TK _ _ _ _ E2) as Hst2.
    assert (c2 = y) as ->.
    { pose proof (le_key E2) as Hk2. replace (leaf_start ln2) with (leaf_start ln) in Hk2 by lia.
      rewrite (le_key E) in Hk2. congruence. }
    congruence.
Qed.

(** For a given [y], at most one Weiner link of [S] leads to a node with
    a leaf child under [y] when [S] has a leaf child under [y] too. *)
Lemma pair_unique x1 x1n x2 x2n S_ sn y :
  hi !! x1 = Some x1n → suffix_link x1n = Some S_ →
  hi !! x2 = Some x2n → suffix_link x2n = Some S_ →
  hi !! S_ = Some sn →
  y ∈ shared_leaf_keys x1n sn → y ∈ shared_leaf_keys x2n sn → x1 = x2.
Proof.
  intros Hx1 Hs1 Hx2 Hs2 Hs.
  unfold shared_leaf_keys. rewrite !elem_of_intersection, !elem_of_dom.
  intros [[l1 Hl1] [l' Hl']] [[l2 Hl2] _].
  pose proof (leaf_under_suffix _ _ _ _ _ _ _ Hx1 Hs1 Hs Hl1 Hl') as H1.
  pose proof (leaf_under_suffix _ _ _ _ _ _ _ Hx2 Hs2 Hs Hl2 Hl') as H2.
  assert (l1 = l2) as -> by lia.
  destruct (leaf_parent_unique _ _ _ _ _ _ final_tree _ _ _ _ _ _ _ Hx1 Hl1 Hx2 Hl2).
  done.
Qed.

Lemma pairs_sum_le S_ sn xs :
  hi !! S_ = Some sn → NoDup xs →
  (∀ x, x ∈ xs → ∃ xn, hi !! x = Some xn ∧ suffix_link xn = Some S_) →
  ∃ U : gset ascii, U ⊆ dom (leaf_children sn) ∧
    (∀ y, y ∈ U → ∃ x xn, x ∈ xs ∧ hi !! x = Some xn ∧ y ∈ shared_leaf_keys xn sn) ∧
    foldr (λ x acc,
             match hi !! x with
             | Some xn => Z.of_nat (size (shared_leaf_keys xn sn))
             | None => 0
             end + acc) 0 xs = Z.of_nat (size U).
Proof.
  intros Hs. induction xs as [|x xs IH]; intros Hnd Hall.
  - exists ∅. split_and!; [set_solver|set_solver|]. by rewrite size_empty.
  - apply NoDup_cons in Hnd as [Hx Hnd].
    destruct IH as (U & HU & Hfrom & Hsum); [done|intros; apply Hall; by right|].
    destruct (Hall x ltac:(left)) as (xn & Hxn & Hsl).
    exists (shared_leaf_keys xn sn ∪ U). split_and!.
    + unfold shared_leaf_keys at 1. set_solver.
    + intros y [Hy|Hy]%elem_of_union.
      * exists x, xn. split; [by left|done].
      * destruct (Hfrom y Hy) as (x' & xn' & ? & ? & ?). exists x', xn'.
        split; [by right|done].
    + simpl. rewrite Hxn, Hsum, size_union; [lia|].
      intros y Hy1 Hy2. destruct (Hfrom y Hy2) as (x' & xn' & Hin & Hxn' & Hy').
      destruct (Hall x' ltac:(by right)) as (xn'' & Hxn'' & Hsl').
      assert (xn'' = xn') as -> by congruence.
      assert (x = x') as -> by (by eapply pair_unique).
      done.
Qed.

(** The decrements never exceed the number of leaf children. *)
Lemma cancelling_pairs_le S_ sn :
  hi !! S_ = Some sn →
  cancelling_pairs hi sn ≤ Z.of_nat (size (dom (leaf_children sn))).
Proof.
  intros Hs. pose proof (pi_links PI) as LK.
  destruct (pairs_sum_le S_ sn (weiner_links sn) Hs) as (U & HU & _ & Hsum).
  - apply (lk_nodup LK S_ sn Hs).
  - intros x Hx. by apply (lk_wl LK S_ sn x Hs).
  - unfold cancelling_pairs. rewrite Hsum. apply subseteq_size in HU. lia.
Qed.

Lemma weiner_valid S_ sn x :
  hi !! S_ = Some sn → x ∈ weiner_links sn → is_Some (hi !! x).
Proof.
  intros Hs Hx. pose proof (pi_links PI) as LK.
  apply (lk_wl LK S_ sn x Hs) in Hx as (xn & -> & _). done.
Qed.

End FinalTree.

Lemma built_sentinel t st :
  build t = Some st → sentinel_terminated t →
  ∃ D, phase_inv (len t) D st ∧ txt st = t ∧
       Z.of_nat (length (lnodes st)) = len t.
Proof.
  intros Hb (t0 & c & -> & Hc). destruct (build_inv _ _ Hb) as (Htxt & D & PI).
  exists D. split_and!; [done..|]. by eapply sentinel_all_leaves.
Qed.

(** [single_nf] at a located node of a built tree, without wrap-around. *)
Lemma single_nf_exact t st s S_ sn :
  build t = Some st → sentinel_terminated t →
  find_internal_node st s = Some (Some S_, 0) → inodes st !! S_ = Some sn →
  cancelling_pairs (inodes st) sn ≤ Z.of_nat (size (leaf_children sn)) ∧
  single_nf st s = Some (net_frequency (inodes st) sn).
Proof.
  intros Hb Hsen Hf Hs. destruct (built_sentinel t st Hb Hsen) as (D & PI & Htxt & Hlv).
  pose proof (cancelling_pairs_le t D st PI Htxt Hlv S_ sn Hs) as Hle.
  rewrite size_dom in Hle. split; [done|].
  rewrite (single_nf_located st s S_ sn Hf Hs).
  - f_equal. apply wrap32_small. unfold net_frequency. rewrite size_dom.
    pose proof (gmap_ascii_size (leaf_children sn)).
    assert (0 ≤ cancelling_pairs (inodes st) sn); [|lia].
    unfold cancelling_pairs. induction (weiner_links sn) as [|x xs IH]; simpl; [done|].
    destruct (inodes st !! x); lia.
  - intros x Hx. by eapply (weiner_valid t D st PI).
Qed.

Lemma sentinel_check_ok t : sentinel_check t = true → sentinel_terminated t.
Proof.
  unfold sentinel_check. destruct (reverse t) as [|c r] eqn:E; [done|].
  intros H%bool_decide_eq_true. exists (reverse r), c. split.
  - rewrite <- (reverse_involutive t), E. by rewrite reverse_cons.
  - by rewrite elem_of_reverse.
Qed.

(** C1: on the tree of a sentinel-terminated text, when the locator ends
    at an internal node [S] with zero remainder, [single_nf] returns the
    net frequency as the specification defines it: the number of bytes
    keying leaf children of [S], minus one for each pair of a Weiner link
    [xS] of [S] and a byte keying a leaf child of both. *)
Theorem single_nf_is_net_frequency t st s S_ sn :
  build t = Some st → sentinel_terminated t →
  find_internal_node st s = Some (Some S_, 0) → inodes st !! S_ = Some sn →
  single_nf st s = Some (net_frequency (inodes st) sn).
Proof. intros Hb Hsen Hf Hs. by apply (single_nf_exact t st s S_ sn). Qed.

Lemma single_nf_is_net_frequency_witness :
  ∃ st sn, build paper_text = Some st ∧ sentinel_terminated paper_text ∧
    find_internal_node st (text "abcd") = Some (Some 9%nat, 0) ∧
    inodes st !! 9%nat = Some sn ∧
    single_nf st (text "abcd") = Some (net_frequency (inodes st) sn).
Proof.
  assert (sentinel_terminated paper_text) as Hsen.
  { apply sentinel_check_ok. vm_compute. reflexivity. }
  eexists. eexists. split; [vm_compute; reflexivity|]. split; [exact Hsen|].
  split; [vm_compute; reflexivity|]. split; [vm_compute; reflexivity|].
  apply (single_nf_is_net_frequency paper_text _ (text "abcd") 9%nat);
    try exact Hsen; vm_compute; reflexivity.
Defined.

(** C10: on the tree of a sentinel-terminated text, at every located
    internal node the number of decrements [single_nf] performs (one for
    each pair of a Weiner link and a shared leaf-child byte) is at most the
    number of leaf children the counter starts from; the 32-bit counter
    therefore never wraps and the result is the exact non-negative
    difference. *)
Theorem single_nf_no_wrap t st s S_ sn :
  build t = Some st → sentinel_terminated t →
  find_internal_node st s = Some (Some S_, 0) → inodes st !! S_ = Some sn →
  cancelling_pairs (inodes st) sn ≤ Z.of_nat (size (leaf_children sn)) ∧
  ∃ r, single_nf st s = Some r ∧ 0 ≤ r ∧
       r = Z.of_nat (size (leaf_children sn)) - cancelling_pairs (inodes st) sn.
Proof.
  intros Hb Hsen Hf Hs.
  destruct (single_nf_exact t st s S_ sn Hb Hsen Hf Hs) as [Hle Hnf].
  split; [done|]. eexists. split; [done|].
  unfold net_frequency. rewrite size_dom. lia.
Qed.

Lemma single_nf_no_wrap_witness :
  ∃ st sn, build paper_text = Some st ∧ sentinel_terminated paper_text ∧
    find_internal_node st (text "bc") = Some (Some 6%nat, 0) ∧
    inodes st !! 6%nat = Some sn ∧
    cancelling_pairs (inodes st) sn ≤ Z.of_nat (size (leaf_children sn)) ∧
    ∃ r, single_nf st (text "bc") = Some r ∧ 0 ≤ r ∧
         r = Z.of_nat (size (leaf_children sn)) - cancelling_pairs (inodes st) sn.
Proof.
  assert (sentinel_terminated paper_text) as Hsen.
  { apply sentinel_check_ok. vm_compute. reflexivity. }
  eexists. eexists. split; [vm_compute; reflexivity|]. split; [exact Hsen|].
  split; [vm_compute; reflexivity|]. split; [vm_compute; reflexivity|].
  apply (single_nf_no_wrap paper_text _ (text "bc") 6%nat);
    try exact Hsen; vm_compute; reflexivity.
Defined.

(** C5, as written, fails: on the text consisting of the sentinel alone the
    empty query is located at the root, whose single leaf child is counted. *)
Lemma single_nf_empty_not_zero :
  ¬ (∀ t st, sentinel_terminated t → build t = Some st →
             single_nf st [] = Some 0).
Proof.
  intros H.
  assert (sentinel_terminated (text "$")) as Hsen.
  { apply sentinel_check_ok. vm_compute. reflexivity. }
  destruct (build (text "$")) as [st|] eqn:Hb; [|by vm_compute in Hb].
  specialize (H _ _ Hsen Hb). revert H.
  vm_compute in Hb. injection Hb as <-. vm_compute. discriminate.
Qed.

Lemma find_internal_node_empty st :
  find_internal_node st [] = Some (Some root, 0).
Proof. reflexivity. Qed.

(** C5, amended: the empty query is located at the root with remainder
    zero, and [single_nf] returns the net frequency computed at the root: the
    number of leaf children of the root minus its cancelling pairs, which
    need not be zero. *)
Theorem single_nf_empty t st :
  build t = Some st → sentinel_terminated t →
  ∃ rn, inodes st !! root = Some rn ∧
        find_internal_node st [] = Some (Some root, 0) ∧
        single_nf st [] = Some (net_frequency (inodes st) rn).
Proof.
  intros Hb Hsen. destruct (built_sentinel t st Hb Hsen) as (D & PI & Htxt & Hlv).
  destruct (tk_root (pi_tree PI)) as [rn Hr]. exists rn.
  split; [done|]. split; [done|].
  by apply (single_nf_exact t st [] root rn).
Qed.

Lemma single_nf_empty_witness :
  ∃ st, build (text "$") = Some st ∧ sentinel_terminated (text "$") ∧
    ∃ rn, inodes st !! root = Some rn ∧
          find_internal_node st [] = Some (Some root, 0) ∧
          single_nf st [] = Some (net_frequency (inodes st) rn).
Proof.
  assert (sentinel_terminated (text "$")) as Hsen.
  { apply sentinel_check_ok. vm_compute. reflexivity. }
  eexists. split; [vm_compute; reflexivity|]. split; [exact Hsen|].
  apply (single_nf_empty (text "$")); [vm_compute; reflexivity|exact Hsen].
Defined.

(** * The accumulation pass *)

Lemma set_nf_id n : set_nf (nf n) n = n.
Proof. by destruct n. Qed.

Lemma set_nf_set_nf z z' n : set_nf z (set_nf z' n) = set_nf z n.
Proof. done. Qed.

Lemma wrap32_idemp z : wrap32 (wrap32 z) = wrap32 z.
Proof. unfold wrap32. apply Z.mod_mod. lia. Qed.

Lemma wrap32_add_l a b : wrap32 (wrap32 a + b) = wrap32 (a + b).
Proof. unfold wrap32. apply Zplus_mod_idemp_l. Qed.

Lemma wrap32_sub_l a b : wrap32 (wrap32 a - b) = wrap32 (a - b).
Proof. unfold wrap32. apply Zminus_mod_idemp_l. Qed.

Lemma nf_only_refl h : nf_only h h.
Proof. split; [done|]. intros u un Hu. exists (nf un). by rewrite set_nf_id. Qed.

Lemma nf_shift_only f h h' : nf_shift f h h' → nf_only h h'.
Proof. intros [Hl H]. split; [done|]. intros u un Hu. eexists. by apply H. Qed.

Lemma nf_only_trans h1 h2 h3 : nf_only h1 h2 → nf_only h2 h3 → nf_only h1 h3.
Proof.
  intros [Hl1 H1] [Hl2 H2]. split; [congruence|]. intros u un Hu.
  destruct (H1 u un Hu) as [z Hz]. destruct (H2 _ _ Hz) as [z' Hz'].
  exists z'. by rewrite Hz'.
Qed.

Lemma nf_shift_zero h : nf_range h → nf_shift (λ _, 0) h h.
Proof.
  intros Hr. split; [done|]. intros u un Hu.
  by rewrite Z.add_0_r, <- (Hr u un Hu), set_nf_id.
Qed.

Lemma nf_shift_trans f g h1 h2 h3 :
  nf_shift f h1 h2 → nf_shift g h2 h3 → nf_shift (λ u, f u + g u) h1 h3.
Proof.
  intros [Hl1 H1] [Hl2 H2]. split; [congruence|]. intros u un Hu.
  rewrite (H2 _ _ (H1 u un Hu)). simpl. f_equal.
  unfold set_nf; simpl. f_equal. rewrite wrap32_add_l. f_equal. lia.
Qed.

Lemma nf_shift_ext f g h h' :
  (∀ u, (u < length h)%nat → f u = g u) → nf_shift f h h' → nf_shift g h h'.
Proof.
  intros E [Hl H]. split; [done|]. intros u un Hu.
  rewrite <- E; [by apply H|]. by eapply lookup_lt_Some.
Qed.

Lemma nf_shift_range f h h' : nf_shift f h h' → nf_range h'.
Proof.
  intros [Hl H] u un' Hu.
  destruct (lookup_lt_is_Some_2 h u) as [un Hun].
  { rewrite Hl. by eapply lookup_lt_Some. }
  rewrite (H u un Hun) in Hu. injection Hu as <-. simpl.
  by rewrite wrap32_idemp.
Qed.

Lemma total_delta_app h l1 l2 u :
  total_delta h (l1 ++ l2) u = total_delta h l1 u + total_delta h l2 u.
Proof.
  unfold total_delta. induction l1 as [|y l1 IH]; simpl; [done|]. rewrite IH. lia.
Qed.

(** The loop of [process] over the leaf children: one decrement of
    [S->nf] per key shared with [S]. *)
Lemma process_keys_spec S_ ys : ∀ h sn,
  h !! S_ = Some sn →
  process_keys S_ ys h
  = Some (<[S_ := set_nf (wrap32 (nf sn - Z.of_nat (length (filter
             (λ y : ascii * nat, is_Some (leaf_children sn !! y.1)) ys)))) sn]> h)
  ∨ (process_keys S_ ys h = Some h ∧
     filter (λ y : ascii * nat, is_Some (leaf_children sn !! y.1)) ys = []).
Proof.
  induction ys as [|y ys IH]; intros h sn Hs; simpl.
  - right. done.
  - rewrite Hs. simpl. rewrite filter_cons.
    destruct (decide (is_Some (leaf_children sn !! y.1))) as [Hy|Hy].
    + left.
      assert (<[S_:=set_nf (wrap32 (nf sn - 1)) sn]> h !! S_
              = Some (set_nf (wrap32 (nf sn - 1)) sn)) as Hs'.
      { apply list_lookup_insert_eq. by eapply lookup_lt_Some. }
      destruct (IH _ _ Hs') as [->|[-> E]]; simpl.
      * rewrite list_insert_insert_eq. do 2 f_equal.
        unfold set_nf; simpl. f_equal.
        rewrite wrap32_sub_l. f_equal. lia.
      * simpl in E. rewrite E. simpl. do 4 f_equal.
    + apply IH, Hs.
Qed.

Lemma process_keys_shift S_ ys h sn :
  h !! S_ = Some sn → nf sn = wrap32 (nf sn) →
  process_keys S_ ys h
  = Some (<[S_ := set_nf (wrap32 (nf sn - Z.of_nat (length (filter
             (λ y : ascii * nat, is_Some (leaf_children sn !! y.1)) ys)))) sn]> h).
Proof.
  intros Hs Hr. destruct (process_keys_spec S_ ys h sn Hs) as [->|[-> E]]; [done|].
  rewrite E. simpl. rewrite Z.sub_0_r, <- Hr, set_nf_id.
  by rewrite list_insert_id.
Qed.

(** The body of [process] before its recursive calls. *)
Lemma visit_spec x h0 h xn0 xn :
  nf_only h0 h → nf_range h → h0 !! x = Some xn0 → h !! x = Some xn →
  (leaf_children xn0 ≠ ∅ →
   ∃ S_, suffix_link xn0 = Some S_ ∧ (S_ < length h0)%nat) →
  ∃ h',
    (if decide (leaf_children xn = ∅) then Some h
     else
       let h := <[x := set_nf (wrap32 (nf xn + Z.of_nat (size (leaf_children xn)))) xn]> h in
       S_ ← suffix_link xn;
       process_keys S_ (map_to_list (leaf_children xn)) h) = Some h' ∧
    nf_shift (visit_delta h0 x) h h'.
Proof.
  intros [Hlen Hon] Hr H0 Hx HS.
  destruct (Hon x xn0 H0) as [zx Hzx]. rewrite Hx in Hzx. injection Hzx as ->.
  simpl. destruct (decide (leaf_children xn0 = ∅)) as [He|Hne].
  - exists h. split; [done|].
    apply (nf_shift_ext (λ _, 0)); [|by apply nf_shift_zero].
    intros u _. unfold visit_delta. rewrite H0.
    unfold shared_leaf_keys. rewrite He, dom_empty_L.
    rewrite map_size_empty. destruct (decide (x = u)), (decide _); try done;
      destruct (h0 !! u); try done;
      by rewrite intersection_empty_l_L, size_empty.
  - destruct (HS Hne) as (S_ & HSl & HSlt). rewrite HSl. simpl.
    set (xn1 := set_nf (wrap32 (zx + Z.of_nat (size (leaf_children xn0)))) xn0).
    set (h1 := <[x := xn1]> h).
    assert (x < length h)%nat as Hxlt by by eapply lookup_lt_Some.
    destruct (lookup_lt_is_Some_2 h1 S_) as [sn1 Hs1].
    { unfold h1. rewrite length_insert. lia. }
    assert (nf sn1 = wrap32 (nf sn1)) as Hr1.
    { unfold h1 in Hs1. destruct (decide (S_ = x)) as [->|Hn].
      - rewrite list_lookup_insert_eq in Hs1 by done. injection Hs1 as <-.
        simpl. by rewrite wrap32_idemp.
      - rewrite list_lookup_insert_ne in Hs1 by done. by eapply Hr. }
    rewrite (process_keys_shift S_ _ h1 sn1 Hs1 Hr1).
    eexists. split; [done|]. split.
    { unfold h1. by rewrite !length_insert. }
    intros u un Hu.
    destruct (lookup_lt_is_Some_2 h0 u) as [un0 Hun0].
    { rewrite Hlen. by eapply lookup_lt_Some. }
    destruct (Hon u un0 Hun0) as [zu Hzu]. rewrite Hu in Hzu. injection Hzu as ->.
    unfold visit_delta. rewrite H0, Hun0, HSl.
    assert (length (filter (λ y : ascii * nat, is_Some (leaf_children sn1 !! y.1))
                      (map_to_list (leaf_children xn0)))
            = size (shared_leaf_keys xn0 sn1)) as Hcnt.
    { apply shared_keys_count. }
    rewrite Hcnt.
    destruct (decide (u = S_)) as [->|HuS].
    + rewrite list_lookup_insert_eq by (unfold h1; rewrite length_insert; lia).
      rewrite (decide_True (P := Some S_ = Some S_)) by done.
      unfold h1 in Hs1. destruct (decide (x = S_)) as [->|Hn].
      * rewrite list_lookup_insert_eq in Hs1 by done. injection Hs1 as <-.
        assert (un0 = xn0) as -> by congruence.
        assert (zu = zx) as ->.
        { rewrite Hx in Hu. by injection Hu. }
        unfold xn1, set_nf; simpl. do 2 f_equal.
        rewrite wrap32_sub_l. f_equal. unfold shared_leaf_keys. simpl. lia.
      * rewrite list_lookup_insert_ne in Hs1 by done.
        rewrite Hu in Hs1. injection Hs1 as <-.
        unfold set_nf; simpl. by do 2 f_equal.
    + rewrite list_lookup_insert_ne by done.
      rewrite (decide_False (P := Some S_ = Some u)) by congruence.
      unfold h1. destruct (decide (x = u)) as [->|Hn].
      * rewrite list_lookup_insert_eq by done.
        assert (un0 = xn0) as -> by congruence.
        assert (zu = zx) as ->.
        { rewrite Hx in Hu. by injection Hu. }
        unfold xn1, set_nf; simpl. do 2 f_equal. f_equal. lia.
      * rewrite list_lookup_insert_ne by done. rewrite Hu.
        rewrite Z.sub_0_r, Z.add_0_r.
        rewrite <- (Hr u _ Hu). simpl. done.
Qed.

Lemma nf_only_lookup h0 h u un0 :
  nf_only h0 h → h0 !! u = Some un0 → ∃ z, h !! u = Some (set_nf z un0).
Proof. intros [_ H]. apply H. Qed.

Lemma visitable_app h l1 l2 :
  visitable h (l1 ++ l2) → visitable h l1 ∧ visitable h l2.
Proof.
  intros H. split; intros y yn Hy; apply H; set_solver.
Qed.

(** The loop of [process], or of [all_nf], over internal children. *)
Lemma for_each_spec fuel h0 cs :
  (∀ x h l, nf_only h0 h → nf_range h → dfs fuel h0 x = Some l →
            visitable h0 l →
            ∃ h', process fuel x h = Some h' ∧ nf_shift (total_delta h0 l) h h') →
  ∀ h ls, nf_only h0 h → nf_range h →
          mapM (λ c : ascii * nat, dfs fuel h0 c.2) cs = Some ls →
          visitable h0 (concat ls) →
          ∃ h', for_each (λ c : ascii * nat, process fuel c.2) cs h = Some h' ∧
                nf_shift (total_delta h0 (concat ls)) h h'.
Proof.
  intros IH. induction cs as [|c cs IHcs]; intros h ls Hon Hr Hm Hv.
  - simpl in Hm. injection Hm as <-. exists h. split; [done|].
    by apply nf_shift_zero.
  - simpl in Hm. destruct (dfs fuel h0 c.2) as [l|] eqn:El; [|done].
    simpl in Hm. destruct (mapM _ cs) as [ls'|] eqn:Els; [|done].
    simpl in Hm. injection Hm as <-. simpl in Hv.
    destruct (visitable_app _ _ _ Hv) as [Hv1 Hv2].
    destruct (IH c.2 h l Hon Hr El Hv1) as (h1 & Hp & Hs1).
    destruct (IHcs h1 ls') as (h2 & Hf & Hs2); [|by eapply nf_shift_range|done..|].
    { eapply nf_only_trans; [done|]. by eapply nf_shift_only. }
    exists h2. simpl. rewrite Hp. simpl. split; [done|].
    eapply nf_shift_ext; [|by eapply nf_shift_trans].
    intros u _. simpl. by rewrite total_delta_app.
Qed.

(** [process] adds to every [nf] the contributions of the nodes it visits. *)
Lemma process_spec fuel h0 : ∀ x h l,
  nf_only h0 h → nf_range h → dfs fuel h0 x = Some l → visitable h0 l →
  ∃ h', process fuel x h = Some h' ∧ nf_shift (total_delta h0 l) h h'.
Proof.
  induction fuel as [|fuel IH]; intros x h l Hon Hr Hd Hv; [done|].
  simpl in Hd. destruct (h0 !! x) as [xn0|] eqn:H0; [|done]. simpl in Hd.
  destruct (mapM _ _) as [ls|] eqn:Els; [|done]. simpl in Hd. injection Hd as <-.
  destruct (nf_only_lookup _ _ _ _ Hon H0) as [zx Hx].
  destruct (visit_spec x h0 h xn0 _ Hon Hr H0 Hx) as (h1 & Hvis & Hs1).
  { intros Hne. apply (Hv x xn0); [left|done..]. }
  destruct (for_each_spec fuel h0 (map_to_list (internal_children xn0)) IH h1 ls)
    as (h2 & Hf & Hs2); [|by eapply nf_shift_range|done| |].
  { eapply nf_only_trans; [done|]. by eapply nf_shift_only. }
  { intros y yn Hy. apply Hv. by right. }
  exists h2. split.
  - simpl. rewrite Hx. simpl. simpl in Hvis. rewrite Hvis. simpl. exact Hf.
  - eapply nf_shift_ext; [|by eapply nf_shift_trans]. done.
Qed.

(** [accumulate], from any arena with the shape of [h0]. *)
Lemma accumulate_spec fuel h0 h rn ls :
  nf_only h0 h → nf_range h → h0 !! root = Some rn →
  mapM (λ c : ascii * nat, dfs fuel h0 c.2) (map_to_list (internal_children rn))
  = Some ls →
  visitable h0 (concat ls) →
  ∃ h', accumulate fuel h = Some h' ∧ nf_shift (total_delta h0 (concat ls)) h h'.
Proof.
  intros Hon Hr Hroot Hm Hv. unfold accumulate.
  destruct (nf_only_lookup _ _ _ _ Hon Hroot) as [z ->]. simpl.
  apply (for_each_spec fuel h0); [|done..]. apply process_spec.
Qed.

Lemma concat_disjoint {A} (R : A → nat → Prop) (cs : list A) (ls : list (list nat)) :
  Forall2 (λ c l, NoDup l ∧ ∀ y, y ∈ l ↔ R c y) cs ls →
  (∀ c1 c2 y, c1 ∈ cs → c2 ∈ cs → R c1 y → R c2 y → c1 = c2) →
  NoDup cs →
  NoDup (concat ls) ∧ ∀ y, y ∈ concat ls ↔ ∃ c, c ∈ cs ∧ R c y.
Proof.
  induction 1 as [|c l cs ls [Hnd Hl] _ IH]; intros Hdis Hcs; simpl.
  - split; [constructor|]. intros y. split; [by intros ?%elem_of_nil|].
    by intros (c & ?%elem_of_nil & _).
  - apply NoDup_cons in Hcs as [Hc Hcs].
    destruct IH as [IH1 IH2]; [|done|].
    { intros c1 c2 y H1 H2. apply Hdis; by right. }
    split.
    + apply NoDup_app. split_and!; [done| |done].
      intros y Hy1 Hy2. apply Hl in Hy1. apply IH2 in Hy2 as (c' & Hc' & HR).
      assert (c = c') as -> by (eapply Hdis; [by left|by right|done..]).
      done.
    + intros y. rewrite elem_of_app, Hl, IH2. split.
      * intros [HR|(c' & Hc' & HR)]; [exists c|exists c']; split; try done;
          [by left|by right].
      * intros (c' & [->|Hc']%elem_of_cons & HR); [by left|right; eauto].
Qed.

Section DfsTree.
Context (t : list ascii) (k kl : Z) (D : nat → list ascii)
        (hi : list InternalNode) (hl : list LeafNode).
Hypothesis TK : tree_ok t k kl D hi hl.

Lemma anc_valid x y : (x < length hi)%nat → anc hi x y → (y < length hi)%nat.
Proof.
  intros Hx Ha. induction Ha as [|u un c ch v Hu Hc _ IH]; [done|].
  apply IH. destruct (tk_int TK u un c ch Hu Hc) as [cn E].
  eapply lookup_lt_Some, (ie_lookup E).
Qed.

Lemma anc_proper x xn y :
  hi !! x = Some xn →
  (y ≠ x ∧ anc hi x y) ↔
  ∃ c : ascii * nat, c ∈ map_to_list (internal_children xn) ∧ anc hi c.2 y.
Proof.
  intros Hx. split.
  - intros [Hne Ha]. destruct Ha as [|u un c ch v Hu Hc Ha]; [done|].
    assert (un = xn) as -> by congruence.
    exists (c, ch). split; [by apply elem_of_map_to_list|done].
  - intros ([c ch] & Hc%elem_of_map_to_list & Ha). simpl in Ha. split.
    + intros ->.
      destruct (anc_step_key _ _ _ _ _ _ TK x xn c ch x Hx Hc Ha) as [w Hw].
      apply (f_equal length) in Hw. rewrite length_app in Hw. simpl in Hw. lia.
    + by eapply anc_step.
Qed.

Lemma dfs_children_aux fuel x xn :
  (∀ y, (y < length hi)%nat → len t < Z.of_nat fuel + len (D y) →
        ∃ l, dfs fuel hi y = Some l ∧ NoDup l ∧ ∀ z, z ∈ l ↔ anc hi y z) →
  hi !! x = Some xn → len t < Z.of_nat fuel + len (D x) + 1 →
  ∃ ls, mapM (λ c : ascii * nat, dfs fuel hi c.2)
             (map_to_list (internal_children xn)) = Some ls ∧
        NoDup (concat ls) ∧ ∀ y, y ∈ concat ls ↔ (y ≠ x ∧ anc hi x y).
Proof.
  intros IH Hx Hf.
  assert (∃ ls, Forall2 (λ (c : ascii * nat) l,
                  dfs fuel hi c.2 = Some l ∧ NoDup l ∧ ∀ z, z ∈ l ↔ anc hi c.2 z)
                  (map_to_list (internal_children xn)) ls) as [ls Hls].
  { assert (Forall (λ c : ascii * nat, internal_children xn !! c.1 = Some c.2)
              (map_to_list (internal_children xn))) as Hall.
    { apply Forall_forall. intros [c ch] Hc. by apply elem_of_map_to_list. }
    induction Hall as [|[c ch] cs Hc _ IHcs]; [by exists []|].
    destruct IHcs as [ls Hls]. simpl in Hc.
    destruct (tk_int TK x xn c ch Hx Hc) as [cn E].
    pose proof (ie_len _ _ _ _ _ _ TK E). pose proof (ie_lt E).
    destruct (IH ch) as (l & Hl); [eapply lookup_lt_Some, (ie_lookup E)|lia|].
    exists (l :: ls). by constructor. }
  exists ls. split.
  - apply mapM_Some. eapply Forall2_impl; [exact Hls|]. by intros c l [? _].
  - destruct (concat_disjoint (λ (c : ascii * nat) y, anc hi c.2 y)
                (map_to_list (internal_children xn)) ls) as [Hnd Hin].
    + eapply Forall2_impl; [exact Hls|]. by intros c l (_ & ? & ?).
    + intros [c1 ch1] [c2 ch2] y H1%elem_of_map_to_list H2%elem_of_map_to_list Ha1 Ha2.
      simpl in *.
      destruct (anc_step_key _ _ _ _ _ _ TK x xn c1 ch1 y Hx H1 Ha1) as [w1 Hw1].
      destruct (anc_step_key _ _ _ _ _ _ TK x xn c2 ch2 y Hx H2 Ha2) as [w2 Hw2].
      rewrite Hw1 in Hw2. apply app_inv_head in Hw2. injection Hw2 as -> _.
      congruence.
    + apply NoDup_map_to_list.
    + split; [done|]. intros y. rewrite Hin. symmetry. by apply anc_proper.
Qed.

Lemma dfs_tree fuel : ∀ x,
  (x < length hi)%nat → len t < Z.of_nat fuel + len (D x) →
  ∃ l, dfs fuel hi x = Some l ∧ NoDup l ∧ ∀ y, y ∈ l ↔ anc hi x y.
Proof.
  induction fuel as [|fuel IH]; intros x Hx Hf.
  - pose proof (D_len_le _ _ _ _ _ _ TK x Hx). pose proof (tk_k TK). lia.
  - destruct (lookup_lt_is_Some_2 hi x Hx) as [xn Hxn].
    destruct (dfs_children_aux fuel x xn IH Hxn ltac:(lia)) as (ls & Hm & Hnd & Hin).
    exists (x :: concat ls). split_and!.
    + simpl. rewrite Hxn. simpl. rewrite Hm. done.
    + apply NoDup_cons. split; [|done]. rewrite Hin. by intros [? _].
    + intros y. rewrite elem_of_cons, Hin. split.
      * intros [->|[_ ?]]; [constructor|done].
      * intros Ha. destruct (decide (y = x)); [by left|by right].
Qed.

Lemma dfs_children fuel x xn :
  hi !! x = Some xn → len t < Z.of_nat fuel + len (D x) + 1 →
  ∃ ls, mapM (λ c : ascii * nat, dfs fuel hi c.2)
             (map_to_list (internal_children xn)) = Some ls ∧
        NoDup (concat ls) ∧ ∀ y, y ∈ concat ls ↔ (y ≠ x ∧ anc hi x y).
Proof. intros. apply dfs_children_aux; [|done..]. intros. by apply dfs_tree. Qed.

(** The nodes [all_nf] passes to [process]: every internal node but the
    root, once. *)
Lemma dfs_root rn :
  hi !! root = Some rn →
  ∃ ls, mapM (λ c : ascii * nat, dfs (length t) hi c.2)
             (map_to_list (internal_children rn)) = Some ls ∧
        NoDup (concat ls) ∧
        ∀ y, y ∈ concat ls ↔ (y ≠ root ∧ (y < length hi)%nat).
Proof.
  intros Hr.
  destruct (dfs_children (length t) root rn Hr) as (ls & Hm & Hnd & Hin).
  { rewrite (tk_Droot TK). unfold len. simpl. lia. }
  exists ls. split_and!; [done..|]. intros y. rewrite Hin. split.
  - intros [Hne Ha]. split; [done|]. eapply anc_valid; [|done].
    by eapply lookup_lt_Some.
  - intros [Hne Hy]. split; [done|].
    apply (anc_of_prefix _ _ _ _ _ _ TK); [by eapply lookup_lt_Some|done|].
    rewrite (tk_Droot TK). apply prefix_nil.
Qed.

End DfsTree.

Lemma sumZ_ext f g l : (∀ y, y ∈ l → f y = g y) → sumZ f l = sumZ g l.
Proof.
  induction l as [|y l IH]; intros H; simpl; [done|].
  rewrite IH, (H y); [done|by left|]. intros z Hz. apply H. by right.
Qed.

Lemma sumZ_sub f g l : sumZ (λ y, f y - g y) l = sumZ f l - sumZ g l.
Proof. induction l as [|y l IH]; simpl; [done|]. rewrite IH. lia. Qed.

Lemma sumZ_perm g l l' : l ≡ₚ l' → sumZ g l = sumZ g l'.
Proof. induction 1; simpl; lia. Qed.

Lemma sumZ_zero g l : (∀ y, y ∈ l → g y = 0) → sumZ g l = 0.
Proof.
  induction l as [|y l IH]; intros H; simpl; [done|].
  rewrite IH, (H y); [done|by left|]. intros z Hz. apply H. by right.
Qed.

Lemma sumZ_single g u l :
  NoDup l →
  sumZ (λ y, if decide (y = u) then g y else 0) l
  = if decide (u ∈ l) then g u else 0.
Proof.
  induction 1 as [|y l Hy Hnd IH].
  - simpl. destruct (decide (u ∈ [])) as [?%elem_of_nil|]; done.
  - cbn [sumZ foldr]. fold (sumZ (λ y, if decide (y = u) then g y else 0) l).
    rewrite IH. destruct (decide (y = u)) as [->|Hne].
    + rewrite (decide_True (P := u ∈ u :: l)) by by left.
      rewrite decide_False by done. lia.
    + destruct (decide (u ∈ l)).
      * rewrite decide_True by by right. lia.
      * rewrite decide_False; [lia|]. intros [->|?]%elem_of_cons; done.
Qed.

Lemma sumZ_support (P : nat → Prop) `{!∀ y, Decision (P y)} g l l' :
  NoDup l → NoDup l' → (∀ y, y ∈ l' ↔ y ∈ l ∧ P y) →
  (∀ y, y ∈ l → ¬ P y → g y = 0) →
  sumZ g l = sumZ g l'.
Proof.
  intros Hnd Hnd' Hin H0.
  trans (sumZ g (filter P l)).
  - clear Hnd Hin. induction l as [|y l IH]; simpl; [done|].
    rewrite filter_cons. destruct (decide (P y)); simpl.
    + rewrite IH; [done|]. intros z Hz. apply H0. by right.
    + rewrite (H0 y), IH; [done| |by left|done]. intros z Hz. apply H0. by right.
  - apply sumZ_perm, NoDup_Permutation; [by apply NoDup_filter|done|].
    intros y. rewrite list_elem_of_filter, Hin. tauto.
Qed.

(** On a tree whose links are in place, the contributions of all
    internal nodes but the root add up to the net frequency. *)
Lemma total_delta_net D hi l u un :
  links_ok D hi (λ _, False) → hi !! u = Some un →
  NoDup l → (∀ y, y ∈ l ↔ (y ≠ root ∧ (y < length hi)%nat)) →
  total_delta hi l u
  = (if decide (u = root) then 0 else Z.of_nat (size (leaf_children un)))
    - cancelling_pairs hi un.
Proof.
  intros LK Hu Hnd Hin.
  set (own := λ y, if decide (y = u) then Z.of_nat (size (leaf_children un)) else 0).
  set (dec := λ y, match hi !! y with
                   | Some yn =>
                       if decide (suffix_link yn = Some u)
                       then Z.of_nat (size (shared_leaf_keys yn un)) else 0
                   | None => 0
                   end).
  trans (sumZ (λ y, own y - dec y) l).
  { apply sumZ_ext. intros y Hy. unfold visit_delta, own, dec.
    apply Hin in Hy as [_ Hy]. destruct (lookup_lt_is_Some_2 hi y Hy) as [yn Hyn].
    rewrite Hyn, Hu. destruct (decide (y = u)) as [->|]; [|done].
    by replace yn with un by congruence. }
  rewrite sumZ_sub. f_equal.
  - unfold own. rewrite (sumZ_single (λ _, Z.of_nat (size (leaf_children un)))) by done.
    destruct (decide (u = root)) as [->|Hne].
    + rewrite decide_False; [done|]. rewrite Hin. by intros [? _].
    + rewrite decide_True; [done|]. apply Hin. split; [done|].
      by eapply lookup_lt_Some.
  - unfold cancelling_pairs.
    rewrite (sumZ_support (λ y, hi !! y ≫= suffix_link = Some u) dec l (weiner_links un)).
    + apply sumZ_ext. intros y Hy. unfold dec.
      apply (lk_wl LK u un y Hu) in Hy as (yn & Hyn & Hsl).
      rewrite Hyn. by rewrite decide_True.
    + done.
    + by apply (lk_nodup LK u un).
    + intros y. rewrite (lk_wl LK u un y Hu), Hin. split.
      * intros (yn & Hyn & Hsl). split_and!.
        -- intros ->. rewrite (lk_root LK yn Hyn) in Hsl. done.
        -- by eapply lookup_lt_Some.
        -- rewrite Hyn. done.
      * intros [_ Hs]. destruct (hi !! y) as [yn|]; [|done]. eauto.
    + intros y _ Hn. unfold dec. destruct (hi !! y) as [yn|]; [|done].
      simpl in Hn. by rewrite decide_False.
Qed.

Lemma dfs_Some_lookup fuel h x l : dfs fuel h x = Some l → is_Some (h !! x).
Proof. destruct fuel; [done|]. simpl. by destruct (h !! x). Qed.

Lemma report_total t fuel h0 : ∀ x h l sp d,
  nf_only h0 h → dfs fuel h0 x = Some l → sp ≤ len t →
  is_Some (report fuel t h x sp d).
Proof.
  induction fuel as [|fuel IH]; intros x h l sp d Hon Hd Hsp; [done|].
  simpl in Hd. destruct (h0 !! x) as [xn0|] eqn:H0; [|done]. simpl in Hd.
  destruct (mapM _ _) as [ls|] eqn:Els; [|done].
  destruct (nf_only_lookup _ _ _ _ Hon H0) as [zx Hx].
  simpl. rewrite Hx. simpl.
  assert (is_Some (if decide (zx = 0) then Some []
                   else w ← substr t sp d; Some [(w, zx)])) as [here ->].
  { destruct (decide (zx = 0)); [done|]. unfold substr.
    rewrite decide_True by done. done. }
  simpl.
  assert (is_Some (mapM (λ c : ascii * nat,
                     child ← h !! c.2;
                     report fuel t h c.2 sp (wrap32 (d + edge_length child)))
                     (map_to_list (internal_children xn0)))) as [rest ->]; [|done].
  apply mapM_is_Some, Forall_forall. intros c Hc.
  assert (is_Some (dfs fuel h0 c.2)) as [lc Hlc].
  { assert (is_Some (mapM (λ c : ascii * nat, dfs fuel h0 c.2)
                       (map_to_list (internal_children xn0)))) as Hm by by rewrite Els.
    apply mapM_is_Some in Hm. by apply (proj1 (Forall_forall _ _) Hm c). }
  destruct (dfs_Some_lookup _ _ _ _ Hlc) as [cn0 Hcn0].
  destruct (nf_only_lookup _ _ _ _ Hon Hcn0) as [zc Hzc].
  simpl. rewrite Hzc. simpl. by eapply IH.
Qed.

Section Bulk.
Context (t : list ascii) (D : nat → list ascii) (st : SuffixTree).
Hypothesis PI : phase_inv (len t) D st.
Hypothesis Htxt : txt st = t.

(** The accumulation pass succeeds on every arena with the shape of the
    built one, and adds [bulk_delta] to each [nf]. *)
Lemma accumulate_built h :
  nf_only (inodes st) h → nf_range h →
  ∃ h', accumulate (length t) h = Some h' ∧
        nf_shift (bulk_delta (inodes st)) h h'.
Proof.
  intros Hon Hr. pose proof (pi_tree PI) as TK. rewrite Htxt in TK.
  pose proof (pi_links PI) as LK.
  destruct (tk_root TK) as [rn Hrn].
  destruct (dfs_root _ _ _ _ _ _ TK rn Hrn) as (ls & Hm & Hnd & Hin).
  destruct (accumulate_spec (length t) (inodes st) h rn ls Hon Hr Hrn Hm)
    as (h' & Hacc & Hs).
  { intros y yn Hy Hyn _. apply Hin in Hy as [Hne _].
    pose proof (lk_suf LK y yn Hyn Hne) as Hsuf.
    destruct (suffix_link yn) as [v|]; [|done]. exists v. by destruct Hsuf. }
  exists h'. split; [done|].
  eapply nf_shift_ext; [|exact Hs]. intros u Hu. unfold bulk_delta.
  destruct Hon as [Hlen _]. rewrite <- Hlen in Hu.
  destruct (lookup_lt_is_Some_2 _ _ Hu) as [un Hun]. rewrite Hun.
  by eapply total_delta_net.
Qed.

Lemma built_nf_range : nf_range (inodes st).
Proof. intros u un Hu. by rewrite (lk_nf (pi_links PI) u un Hu). Qed.

Lemma report_all_built h :
  nf_only (inodes st) h → is_Some (report_all t h).
Proof.
  intros Hon. pose proof (pi_tree PI) as TK. rewrite Htxt in TK.
  destruct (tk_root TK) as [rn Hrn].
  destruct (dfs_root _ _ _ _ _ _ TK rn Hrn) as (ls & Hm & _).
  destruct (nf_only_lookup _ _ _ _ Hon Hrn) as [z Hz].
  unfold report_all. rewrite Hz. simpl.
  assert (is_Some (mapM (λ c : ascii * nat,
                     S_ ← h !! c.2;
                     report (length t) t h c.2 (start S_) (edge_length S_))
                     (map_to_list (internal_children rn)))) as [rest ->]; [|done].
  apply mapM_is_Some, Forall_forall. intros [c ch] Hc.
  assert (is_Some (dfs (length t) (inodes st) ch)) as [lc Hlc].
  { assert (is_Some (mapM (λ c : ascii * nat, dfs (length t) (inodes st) c.2)
                       (map_to_list (internal_children rn)))) as Hm' by by rewrite Hm.
    apply mapM_is_Some in Hm'. by apply (proj1 (Forall_forall _ _) Hm' (c, ch)). }
  apply elem_of_map_to_list in Hc.
  destruct (tk_int TK root rn c ch Hrn Hc) as [cn E].
  destruct (nf_only_lookup _ _ _ _ Hon (ie_lookup E)) as [zc Hzc].
  simpl. rewrite Hzc. simpl. eapply report_total; [done..|].
  pose proof (ie_lt E). pose proof (ie_end E). lia.
Qed.

(** [all_nf] returns on every arena with the shape of the built one. *)
Lemma all_nf_built h :
  nf_only (inodes st) h → nf_range h →
  ∃ out h', all_nf (set_inodes h st) = Some (out, set_inodes h' st) ∧
            nf_shift (bulk_delta (inodes st)) h h'.
Proof.
  intros Hon Hr. destruct (accumulate_built h Hon Hr) as (h' & Hacc & Hs).
  destruct (report_all_built h') as [out Hout].
  { eapply nf_only_trans; [done|]. by eapply nf_shift_only. }
  exists out, h'. split; [|done]. unfold all_nf. simpl.
  rewrite Htxt, Hacc. simpl. rewrite Hout. done.
Qed.

End Bulk.

Lemma set_inodes_id st : set_inodes (inodes st) st = st.
Proof. by destruct st. Qed.

Lemma wrap32_double z : wrap32 (wrap32 z + z) = wrap32 (2 * wrap32 z).
Proof.
  rewrite wrap32_add_l. unfold wrap32.
  rewrite Z.mul_mod_idemp_r by lia. f_equal. lia.
Qed.

(** C8 fails as stated: on ["aaaa$"] a second call of [all_nf] returns and
    leaves the node of ["aaa"] with [nf] 4, where the first call left 2. *)
Lemma all_nf_twice_differs :
  ∃ st out1 st1 out2 st2 un1 un2,
    build (text "aaaa$") = Some st ∧
    all_nf st = Some (out1, st1) ∧ all_nf st1 = Some (out2, st2) ∧
    inodes st1 !! 1%nat = Some un1 ∧ inodes st2 !! 1%nat = Some un2 ∧
    nf un1 = 2 ∧ nf un2 = 4.
Proof.
  do 7 eexists.
  split; [vm_compute; reflexivity|].
  split; [vm_compute; reflexivity|].
  split; [vm_compute; reflexivity|].
  split; [vm_compute; reflexivity|].
  split; [vm_compute; reflexivity|].
  split; vm_compute; reflexivity.
Qed.

(** C8, as the code behaves: [all_nf] neither rejects a second call nor
    resets the [nf] fields.  On every built tree two successive calls both
    return, and the second adds to every [nf] what the first added: each
    field ends at twice its value after one call, modulo [2^32]. *)
Theorem all_nf_twice_doubles t st :
  build t = Some st →
  ∃ out1 st1 out2 st2,
    all_nf st = Some (out1, st1) ∧ all_nf st1 = Some (out2, st2) ∧
    length (inodes st2) = length (inodes st1) ∧
    ∀ u un1, inodes st1 !! u = Some un1 →
             ∃ un2, inodes st2 !! u = Some un2 ∧ nf un2 = wrap32 (2 * nf un1).
Proof.
  intros Hb. destruct (build_inv _ _ Hb) as (Htxt & D & PI).
  destruct (all_nf_built t D st PI Htxt (inodes st)) as (out1 & h1 & Ha1 & Hs1);
    [apply nf_only_refl|by eapply built_nf_range|].
  rewrite set_inodes_id in Ha1.
  destruct (all_nf_built t D st PI Htxt h1) as (out2 & h2 & Ha2 & Hs2);
    [by eapply nf_shift_only|by eapply nf_shift_range|].
  exists out1, (set_inodes h1 st), out2, (set_inodes h2 st).
  split_and!; [done..| |].
  - simpl. symmetry. apply Hs2.
  - simpl. intros u un1 Hu1. destruct Hs1 as [Hl1 Hs1]. destruct Hs2 as [Hl2 Hs2].
    destruct (lookup_lt_is_Some_2 (inodes st) u) as [un Hun].
    { rewrite Hl1. by eapply lookup_lt_Some. }
    pose proof (Hs1 u un Hun) as Hu1'. rewrite Hu1 in Hu1'. injection Hu1' as ->.
    eexists. split; [by apply Hs2|]. simpl.
    rewrite (lk_nf (pi_links PI) u un Hun), Z.add_0_l. apply wrap32_double.
Qed.

Lemma all_nf_twice_doubles_witness :
  ∃ st, build (text "aaaa$") = Some st ∧
  ∃ out1 st1 out2 st2,
    all_nf st = Some (out1, st1) ∧ all_nf st1 = Some (out2, st2) ∧
    length (inodes st2) = length (inodes st1) ∧
    ∀ u un1, inodes st1 !! u = Some un1 →
             ∃ un2, inodes st2 !! u = Some un2 ∧ nf un2 = wrap32 (2 * nf un1).
Proof.
  eexists. split; [vm_compute; reflexivity|].
  apply (all_nf_twice_doubles (text "aaaa$")). vm_compute. reflexivity.
Defined.

(** ** What [find_internal_node] finds *)

Section Locate.
Context (t : list ascii) (k kl : Z) (D : nat → list ascii) (st : SuffixTree).
Hypothesis TK : tree_ok t k kl D (inodes st) (lnodes st).
Hypothesis Htxt : txt st = t.
Hypothesis Ht : len t < 2 ^ 32.
Context (s : list ascii).
Hypothesis Hlen : len s + len t ≤ 2 ^ 32.

(** One iteration through an internal child, with the comparison of the
    edge label written out. *)
Lemma find_loop_child fuel node n i si ch chn :
  inodes st !! node = Some n → 0 ≤ i → i < len s →
  char_at s i = Some si → internal_children n !! si = Some ch →
  inodes st !! ch = Some chn →
  find_loop (S fuel) st s node i
  = if decide (sub s i (i + Z.min (end_ chn - start chn) (len s - i))
               = sub t (start chn)
                   (start chn + Z.min (end_ chn - start chn) (len s - i)))
    then find_loop fuel st s ch (i + (end_ chn - start chn))
    else Some (None, 0).
Proof.
  intros Hn Hi0 Hi Hsi Hch Hchn.
  destruct (tk_int TK node n si ch Hn Hch) as [cn E].
  assert (cn = chn) as -> by (destruct E; congruence).
  pose proof (ie_start E). pose proof (ie_lt E). pose proof (ie_end E).
  pose proof (tk_k TK) as (? & ? & ? & ?). pose proof (len_nonneg s).
  assert (edge_length chn = end_ chn - start chn) as Hel.
  { unfold edge_length. apply wrap32_small. lia. }
  simpl. rewrite decide_False by (unfold len in *; lia).
  rewrite Hn. simpl. rewrite Hsi. simpl. rewrite Hch, Hchn. simpl.
  fold (len s). rewrite (wrap32_small (len s)) by lia.
  rewrite (wrap32_small (len s - i)) by lia.
  rewrite Htxt. rewrite (substr_sub s) by lia. simpl.
  rewrite (substr_sub t) by lia. simpl.
  rewrite (wrap32_small (i + edge_length chn)) by lia.
  rewrite Hel. by destruct (decide _).
Qed.

(** The child of [node] on the way to a node whose string extends that of
    [node]. *)
Lemma path_child node n S_ :
  inodes st !! node = Some n → (S_ < length (inodes st))%nat →
  D node `prefix_of` D S_ → len (D node) < len (D S_) →
  ∃ c ch cn, char_at (D S_) (len (D node)) = Some c ∧
             internal_children n !! c = Some ch ∧
             int_edge_ok t k D (inodes st) node c ch cn ∧
             D ch `prefix_of` D S_.
Proof.
  intros Hn HS Hpre Hlt.
  assert (anc (inodes st) node S_) as Ha.
  { apply (anc_of_prefix _ _ _ _ _ _ TK); [by eapply lookup_lt_Some|done..]. }
  destruct Ha as [|u un c ch v Hu Hc Ha]; [lia|].
  assert (un = n) as -> by congruence.
  destruct (tk_int TK u n c ch Hu Hc) as [cn E].
  exists c, ch, cn. split_and!; [|done..|by apply (anc_prefix _ _ _ _ _ _ TK)].
  destruct (anc_step_key _ _ _ _ _ _ TK u n c ch v Hu Hc Ha) as [w Hw].
  rewrite Hw. unfold char_at, len. rewrite Nat2Z.id.
  by apply list_lookup_middle.
Qed.

Lemma prefix_sub (w : list ascii) : w `prefix_of` s → w = sub s 0 (len w).
Proof.
  intros Hp. rewrite <- (sub_full s) in Hp.
  pose proof (len_nonneg s).
  by rewrite (prefix_sub_eq s 0 (len s) w) at 1 by (done || lia).
Qed.

Lemma prefix_len_le (w : list ascii) : w `prefix_of` s → len w ≤ len s.
Proof. intros Hp%prefix_length. unfold len. lia. Qed.

Lemma find_loop_spec fuel : ∀ node i S_,
  (node < length (inodes st))%nat → i = len (D node) →
  D node `prefix_of` s → len t - i < Z.of_nat fuel →
  find_loop fuel st s node i = Some (Some S_, 0)
  ↔ ((S_ < length (inodes st))%nat ∧ D S_ = s).
Proof.
  induction fuel as [|fuel IH]; intros node i S_ Hnode Hi Hpre Hfuel.
  { pose proof (D_len_le _ _ _ _ _ _ TK node Hnode). pose proof (tk_k TK). lia. }
  pose proof (prefix_len_le _ Hpre) as Hle. pose proof (len_nonneg (D node)).
  pose proof (tk_k TK) as (? & ? & ? & ?).
  destruct (decide (len s ≤ i)) as [Hge|Hlt].
  { assert (D node = s) as HD.
    { apply prefix_length_eq; [done|]. unfold len in *. lia. }
    simpl. rewrite decide_True by done.
    replace (i - Z.of_nat (length s)) with 0 by (unfold len in *; lia).
    split.
    - intros [= <-]. done.
    - intros [HS HDS]. do 3 f_equal. apply (D_inj _ _ _ _ _ _ TK); congruence. }
  destruct (lookup_lt_is_Some_2 _ _ Hnode) as [n Hn].
  destruct (char_at_lt s i ltac:(lia) ltac:(lia)) as [si Hsi].
  destruct (internal_children n !! si) as [ch|] eqn:Hch.
  - destruct (tk_int TK node n si ch Hn Hch) as [chn E].
    pose proof (ie_start E). pose proof (ie_lt E). pose proof (ie_end E).
    pose proof (ie_len _ _ _ _ _ _ TK E) as HlenD.
    rewrite (find_loop_child fuel node n i si ch chn Hn ltac:(lia) ltac:(lia)
               Hsi Hch (ie_lookup E)).
    assert (D node = sub s 0 i) as HDn by (rewrite Hi; by apply prefix_sub).
    destruct (decide _) as [Heq|Hne].
    + destruct (decide (end_ chn - start chn ≤ len s - i)) as [Hfit|Hover].
      * rewrite Z.min_l in Heq by done.
        apply IH; [by eapply lookup_lt_Some, (ie_lookup E)|lia| |lia].
        rewrite (ie_D E), HDn.
        replace (start chn + (end_ chn - start chn)) with (end_ chn) in Heq by lia.
        rewrite <- Heq, sub_app by lia.
        rewrite <- (sub_full s) at 2. apply sub_prefix_of; lia.
      * assert (ch < length (inodes st))%nat as Hchlt
          by (eapply lookup_lt_Some, (ie_lookup E)).
        pose proof (D_len_le _ _ _ _ _ _ TK ch Hchlt).
        destruct fuel as [|fuel]; [lia|].
        simpl. rewrite decide_True by (unfold len in *; lia).
        fold (len s). split.
        -- intros [= <- Hw]. rewrite wrap32_small in Hw by lia. lia.
        -- intros [HS HDS]. exfalso.
           destruct (path_child node n S_ Hn HS) as (c & ch' & cn' & Hc & Hch' & E' & Hp).
           { by rewrite HDS. } { rewrite HDS. lia. }
           rewrite HDS, <- Hi, Hsi in Hc. injection Hc as <-.
           assert (ch' = ch) as -> by congruence.
           rewrite HDS in Hp. apply prefix_len_le in Hp. lia.
    + split; [done|]. intros [HS HDS]. exfalso.
      destruct (path_child node n S_ Hn HS) as (c & ch' & cn' & Hc & Hch' & E' & Hp).
      { by rewrite HDS. } { rewrite HDS. lia. }
      rewrite HDS, <- Hi, Hsi in Hc. injection Hc as <-.
      assert (ch' = ch) as -> by congruence.
      rewrite HDS in Hp. pose proof (prefix_len_le _ Hp) as Hle'.
      apply prefix_sub in Hp. rewrite HlenD, <- Hi in Hp.
      rewrite (ie_D E), HDn in Hp.
      rewrite <- (sub_app s 0 i (i + (end_ chn - start chn))) in Hp by lia.
      apply app_inv_head in Hp. apply Hne.
      rewrite Z.min_l by lia.
      replace (start chn + (end_ chn - start chn)) with (end_ chn) by lia.
      done.
  - assert (find_loop (S fuel) st s node i ≠ Some (Some S_, 0)) as Hno.
    { simpl. rewrite decide_False by (unfold len in *; lia).
      rewrite Hn. simpl. rewrite Hsi. simpl. rewrite Hch.
      by destruct (leaf_children n !! si). }
    split; [done|]. intros [HS HDS]. exfalso.
    destruct (path_child node n S_ Hn HS) as (c & ch' & cn' & Hc & Hch' & E' & Hp).
    { by rewrite HDS. } { rewrite HDS. lia. }
    rewrite HDS, <- Hi, Hsi in Hc. injection Hc as <-. congruence.
Qed.

(** [find_internal_node] answers [{S, 0}] exactly for the internal node
    [S] whose string is the query. *)
Lemma find_internal_node_spec S_ :
  find_internal_node st s = Some (Some S_, 0)
  ↔ ((S_ < length (inodes st))%nat ∧ D S_ = s).
Proof.
  unfold find_internal_node. apply find_loop_spec.
  - destruct (tk_root TK) as [rn Hrn]. by eapply lookup_lt_Some.
  - by rewrite (tk_Droot TK).
  - rewrite (tk_Droot TK). apply prefix_nil.
  - rewrite Htxt. unfold len. lia.
Qed.

Lemma find_internal_node_total : is_Some (find_internal_node st s).
Proof.
  pose proof (len_nonneg s). unfold find_internal_node. rewrite Htxt.
  eapply (find_loop_total t _ _ D); [done..|lia| |lia|].
  - destruct (tk_root TK) as [rn Hrn]. by eapply lookup_lt_Some.
  - rewrite (tk_Droot TK). unfold len. simpl. lia.
Qed.

End Locate.

(** ** The locator on a query of any length *)

Section LocateAny.
Context (t : list ascii) (k kl : Z) (D : nat → list ascii) (st : SuffixTree).
Hypothesis TK : tree_ok t k kl D (inodes st) (lnodes st).
Hypothesis Htxt : txt st = t.
Hypothesis Ht : len t < 2 ^ 32.
Context (s : list ascii).

(** The index [i] is the depth of the node reached, whatever the query,
    so that it never passes the length of the text: a query longer than
    the text is never answered with a node. *)
Lemma find_loop_long fuel : ∀ node i S_ r,
  len t < len s → (node < length (inodes st))%nat → i = len (D node) →
  find_loop fuel st s node i ≠ Some (Some S_, r).
Proof.
  induction fuel as [|fuel IH]; intros node i S_ r Hlong Hnode Hi; [done|].
  pose proof (D_len_le _ _ _ _ _ _ TK node Hnode) as HDk.
  pose proof (tk_k TK) as (? & ? & ? & ?). pose proof (len_nonneg (D node)).
  destruct (lookup_lt_is_Some_2 _ _ Hnode) as [n Hn].
  destruct (char_at_lt s i ltac:(lia) ltac:(lia)) as [si Hsi].
  destruct (internal_children n !! si) as [ch|] eqn:Hch.
  - destruct (tk_int TK node n si ch Hn Hch) as [chn E].
    destruct (find_loop_step t k kl D st s fuel node n i si ch chn TK Htxt Ht Hn
                ltac:(lia) Hsi Hch (ie_lookup E)) as (_ & _ & [->| ->]); [done|].
    assert (ch < length (inodes st))%nat as Hchlt
      by (eapply lookup_lt_Some, (ie_lookup E)).
    pose proof (ie_len _ _ _ _ _ _ TK E) as HL.
    pose proof (ie_start E). pose proof (ie_lt E). pose proof (ie_end E).
    pose proof (D_len_le _ _ _ _ _ _ TK ch Hchlt).
    apply IH; [done..|].
    unfold edge_length. rewrite (wrap32_small (end_ chn - start chn)) by lia.
    rewrite wrap32_small by lia. lia.
  - simpl. rewrite decide_False by (unfold len in *; lia).
    rewrite Hn. simpl. rewrite Hsi. simpl. rewrite Hch.
    by destruct (leaf_children n !! si).
Qed.

Hypothesis Hst : len s ≤ len t.

(** One iteration through an internal child below a node of depth [i],
    with the comparison of the edge label written out. *)
Lemma find_loop_child_any fuel node n i si ch chn :
  inodes st !! node = Some n → i = len (D node) → i < len s →
  char_at s i = Some si → internal_children n !! si = Some ch →
  inodes st !! ch = Some chn →
  find_loop (S fuel) st s node i
  = if decide (sub s i (i + Z.min (end_ chn - start chn) (len s - i))
               = sub t (start chn)
                   (start chn + Z.min (end_ chn - start chn) (len s - i)))
    then find_loop fuel st s ch (i + (end_ chn - start chn))
    else Some (None, 0).
Proof.
  intros Hn Hi0 Hi Hsi Hch Hchn.
  destruct (tk_int TK node n si ch Hn Hch) as [cn E].
  assert (cn = chn) as -> by (destruct E; congruence).
  pose proof (ie_start E). pose proof (ie_lt E). pose proof (ie_end E).
  pose proof (tk_k TK) as (? & ? & ? & ?). pose proof (len_nonneg s).
  pose proof (len_nonneg (D node)).
  pose proof (ie_len _ _ _ _ _ _ TK E) as HL.
  assert (ch < length (inodes st))%nat as Hchlt by (by eapply lookup_lt_Some).
  pose proof (D_len_le _ _ _ _ _ _ TK ch Hchlt).
  assert (edge_length chn = end_ chn - start chn) as Hel.
  { unfold edge_length. apply wrap32_small. lia. }
  simpl. rewrite decide_False by (unfold len in *; lia).
  rewrite Hn. simpl. rewrite Hsi. simpl. rewrite Hch, Hchn. simpl.
  fold (len s). rewrite (wrap32_small (len s)) by lia.
  rewrite (wrap32_small (len s - i)) by lia.
  rewrite Htxt. rewrite (substr_sub s) by lia. simpl.
  rewrite (substr_sub t) by lia. simpl.
  rewrite (wrap32_small (i + edge_length chn)) by lia.
  rewrite Hel. by destruct (decide _).
Qed.

Lemma find_loop_spec_any fuel : ∀ node i S_,
  (node < length (inodes st))%nat → i = len (D node) →
  D node `prefix_of` s → len t - i < Z.of_nat fuel →
  find_loop fuel st s node i = Some (Some S_, 0)
  ↔ ((S_ < length (inodes st))%nat ∧ D S_ = s).
Proof.
  induction fuel as [|fuel IH]; intros node i S_ Hnode Hi Hpre Hfuel.
  { pose proof (D_len_le _ _ _ _ _ _ TK node Hnode). pose proof (tk_k TK). lia. }
  pose proof (prefix_len_le _ _ Hpre) as Hle. pose proof (len_nonneg (D node)).
  pose proof (tk_k TK) as (? & ? & ? & ?).
  destruct (decide (len s ≤ i)) as [Hge|Hlt].
  { assert (D node = s) as HD.
    { apply prefix_length_eq; [done|]. unfold len in *. lia. }
    simpl. rewrite decide_True by done.
    replace (i - Z.of_nat (length s)) with 0 by (unfold len in *; lia).
    split.
    - intros [= <-]. done.
    - intros [HS HDS]. do 3 f_equal. apply (D_inj _ _ _ _ _ _ TK); congruence. }
  destruct (lookup_lt_is_Some_2 _ _ Hnode) as [n Hn].
  destruct (char_at_lt s i ltac:(lia) ltac:(lia)) as [si Hsi].
  destruct (internal_children n !! si) as [ch|] eqn:Hch.
  - destruct (tk_int TK node n si ch Hn Hch) as [chn E].
    pose proof (ie_start E). pose proof (ie_lt E). pose proof (ie_end E).
    pose proof (ie_len _ _ _ _ _ _ TK E) as HlenD.
    rewrite (find_loop_child_any fuel node n i si ch chn Hn Hi ltac:(lia)
               Hsi Hch (ie_lookup E)).
    assert (D node = sub s 0 i) as HDn by (rewrite Hi; by apply prefix_sub).
    destruct (decide _) as [Heq|Hne].
    + destruct (decide (end_ chn - start chn ≤ len s - i)) as [Hfit|Hover].
      * rewrite Z.min_l in Heq by done.
        apply IH; [by eapply lookup_lt_Some, (ie_lookup E)|lia| |lia].
        rewrite (ie_D E), HDn.
        replace (start chn + (end_ chn - start chn)) with (end_ chn) in Heq by lia.
        rewrite <- Heq, sub_app by lia.
        rewrite <- (sub_full s) at 2. apply sub_prefix_of; lia.
      * assert (ch < length (inodes st))%nat as Hchlt
          by (eapply lookup_lt_Some, (ie_lookup E)).
        pose proof (D_len_le _ _ _ _ _ _ TK ch Hchlt).
        destruct fuel as [|fuel]; [lia|].
        simpl. rewrite decide_True by (unfold len in *; lia).
        fold (len s). split.
        -- intros [= <- Hw]. rewrite wrap32_small in Hw by lia. lia.
        -- intros [HS HDS]. exfalso.
           destruct (path_child t k kl D st TK node n S_ Hn HS)
             as (c & ch' & cn' & Hc & Hch' & E' & Hp).
           { by rewrite HDS. } { rewrite HDS. lia. }
           rewrite HDS, <- Hi, Hsi in Hc. injection Hc as <-.
           assert (ch' = ch) as -> by congruence.
           rewrite HDS in Hp. apply prefix_len_le in Hp. lia.
    + split; [done|]. intros [HS HDS]. exfalso.
      destruct (path_child t k kl D st TK node n S_ Hn HS)
        as (c & ch' & cn' & Hc & Hch' & E' & Hp).
      { by rewrite HDS. } { rewrite HDS. lia. }
      rewrite HDS, <- Hi, Hsi in Hc. injection Hc as <-.
      assert (ch' = ch) as -> by congruence.
      rewrite HDS in Hp. pose proof (prefix_len_le _ _ Hp) as Hle'.
      apply prefix_sub in Hp. rewrite HlenD, <- Hi in Hp.
      rewrite (ie_D E), HDn in Hp.
      rewrite <- (sub_app s 0 i (i + (end_ chn - start chn))) in Hp by lia.
      apply app_inv_head in Hp. apply Hne.
      rewrite Z.min_l by lia.
      replace (start chn + (end_ chn - start chn)) with (end_ chn) by lia.
      done.
  - assert (find_loop (S fuel) st s node i ≠ Some (Some S_, 0)) as Hno.
    { simpl. rewrite decide_False by (unfold len in *; lia).
      rewrite Hn. simpl. rewrite Hsi. simpl. rewrite Hch.
      by destruct (leaf_children n !! si). }
    split; [done|]. intros [HS HDS]. exfalso.
    destruct (path_child t k kl D st TK node n S_ Hn HS)
      as (c & ch' & cn' & Hc & Hch' & E' & Hp).
    { by rewrite HDS. } { rewrite HDS. lia. }
    rewrite HDS, <- Hi, Hsi in Hc. injection Hc as <-. congruence.
Qed.

End LocateAny.

(** [find_internal_node] answers [{S, 0}] exactly for the internal node
    [S] whose string is the query, however long the query is. *)
Lemma find_internal_node_spec_any t k kl D st s S_ :
  tree_ok t k kl D (inodes st) (lnodes st) → txt st = t → len t < 2 ^ 32 →
  find_internal_node st s = Some (Some S_, 0)
  ↔ ((S_ < length (inodes st))%nat ∧ D S_ = s).
Proof.
  intros TK Htxt Ht. destruct (tk_root TK) as [rn Hrn].
  assert (root < length (inodes st))%nat as Hroot by (by eapply lookup_lt_Some).
  destruct (decide (len s ≤ len t)) as [Hst|Hlong].
  - unfold find_internal_node.
    apply (find_loop_spec_any t k kl D st TK Htxt Ht s Hst); [done| | |].
    + by rewrite (tk_Droot TK).
    + rewrite (tk_Droot TK). apply prefix_nil.
    + rewrite Htxt. unfold len. lia.
  - split.
    + intros Hf. exfalso. unfold find_internal_node in Hf.
      eapply (find_loop_long t k kl D st TK Htxt Ht s); [|exact Hroot| |exact Hf].
      * lia.
      * by rewrite (tk_Droot TK).
    + intros [HS HD]. pose proof (D_len_le _ _ _ _ _ _ TK S_ HS).
      pose proof (tk_k TK). rewrite HD in *. lia.
Qed.

(** C2 fails as stated at the empty query: in ["ab$"] the root represents
    the empty string and has three leaf children; [single_nf] counts them,
    while [all_nf] never passes the root to [process] and leaves its [nf]
    at zero. *)
Lemma single_nf_empty_differs_from_bulk :
  ∃ st out st1 rn,
    build (text "ab$") = Some st ∧ sentinel_terminated (text "ab$") ∧
    node_string (text "ab$") (inodes st) root [] ∧
    find_internal_node st [] = Some (Some root, 0) ∧
    all_nf st = Some (out, st1) ∧ inodes st1 !! root = Some rn ∧
    single_nf st [] = Some 3 ∧ nf rn = 0.
Proof.
  do 4 eexists.
  split; [vm_compute; reflexivity|].
  split; [apply sentinel_check_ok; vm_compute; reflexivity|].
  split; [constructor|].
  split; [vm_compute; reflexivity|].
  split; [vm_compute; reflexivity|].
  split; [vm_compute; reflexivity|].
  split; vm_compute; reflexivity.
Qed.

(** C2, for non-empty queries: on the tree of a sentinel-terminated text
    [all_nf] returns, and for every non-empty query [s], of any length,
    [single_nf] returns the [nf] that [all_nf] leaves in the internal
    node whose string is [s], when there is one, and 0 when no internal
    node has the string [s]. *)
Theorem single_nf_agrees_with_all_nf t st :
  build t = Some st → sentinel_terminated t →
  ∃ out st1, all_nf st = Some (out, st1) ∧
    ∀ s, s ≠ [] →
      (∀ S_, node_string t (inodes st) S_ s →
             ∃ sn1, inodes st1 !! S_ = Some sn1 ∧
                    single_nf st s = Some (nf sn1)) ∧
      ((∀ S_, ¬ node_string t (inodes st) S_ s) → single_nf st s = Some 0).
Proof.
  intros Hb Hsen.
  destruct (built_sentinel t st Hb Hsen) as (D & PI & Htxt & Hlv).
  pose proof (pi_tree PI) as TK. rewrite Htxt in TK.
  assert (len t < 2 ^ 32) as Ht by (pose proof (pi_k PI); rewrite Htxt in *; lia).
  destruct (all_nf_built t D st PI Htxt (inodes st)) as (out & h1 & Ha & Hs);
    [apply nf_only_refl|by eapply built_nf_range|].
  rewrite set_inodes_id in Ha.
  exists out, (set_inodes h1 st). split; [done|].
  intros s Hne. split.
  - intros S_ Hns.
    pose proof (node_string_valid _ _ _ _ _ _ _ _ TK Hns) as HS.
    pose proof (node_string_unique _ _ _ _ _ _ TK _ _ Hns) as HD.
    destruct (lookup_lt_is_Some_2 _ _ HS) as [sn Hsn].
    assert (find_internal_node st s = Some (Some S_, 0)) as Hf.
    { by apply (find_internal_node_spec_any t _ _ D st s S_ TK Htxt Ht). }
    destruct (single_nf_exact t st s S_ sn Hb Hsen Hf Hsn) as [Hle Hnf].
    destruct Hs as [_ Hs]. pose proof (Hs S_ sn Hsn) as Hs1.
    eexists. split; [exact Hs1|]. rewrite Hnf. f_equal. simpl.
    rewrite (lk_nf (pi_links PI) S_ sn Hsn), Z.add_0_l.
    unfold bulk_delta. rewrite Hsn.
    rewrite decide_False.
    2:{ intros ->. rewrite (tk_Droot TK) in HD. done. }
    unfold net_frequency. rewrite size_dom.
    pose proof (gmap_ascii_size (leaf_children sn)).
    assert (0 ≤ cancelling_pairs (inodes st) sn).
    { unfold cancelling_pairs. induction (weiner_links sn) as [|x xs IH]; simpl; [done|].
      destruct (inodes st !! x); lia. }
    symmetry. apply wrap32_small. lia.
  - intros Hno.
    destruct (find_internal_node_total t _ _ D st TK Htxt Ht s) as [r Hr].
    unfold single_nf. rewrite Hr. simpl.
    destruct r as [[S_|] z]; [|done].
    destruct (decide (z = 0)) as [->|Hz]; [|by destruct z].
    exfalso. apply (find_internal_node_spec_any t _ _ D st s S_ TK Htxt Ht) in Hr as [HS HD].
    apply (Hno S_). rewrite <- HD. by apply (node_string_D _ _ _ _ _ _ TK).
Qed.

Lemma single_nf_agrees_with_all_nf_witness :
  ∃ st, build (text "abab$") = Some st ∧ sentinel_terminated (text "abab$") ∧
  ∃ out st1, all_nf st = Some (out, st1) ∧
    ∀ s, s ≠ [] →
      (∀ S_, node_string (text "abab$") (inodes st) S_ s →
             ∃ sn1, inodes st1 !! S_ = Some sn1 ∧
                    single_nf st s = Some (nf sn1)) ∧
      ((∀ S_, ¬ node_string (text "abab$") (inodes st) S_ s) →
       single_nf st s = Some 0).
Proof.
  assert (sentinel_terminated (text "abab$")) as Hsen.
  { apply sentinel_check_ok. vm_compute. reflexivity. }
  eexists. split; [vm_compute; reflexivity|]. split; [exact Hsen|].
  apply (single_nf_agrees_with_all_nf (text "abab$")); [vm_compute; reflexivity|exact Hsen].
Defined.

(** ** Scenarios of the specification, run on the code *)

(** C7: on the text of [main.cpp], [single_nf("abcd")] is 2 (the assertion
    of [main]). *)
Theorem single_nf_paper_abcd :
  (st ← build paper_text; single_nf st (text "abcd")) = Some 2.
Proof. vm_compute. reflexivity. Qed.

(** C6, as the code behaves: on ["aaaa$"] the bulk computation prints
    exactly one pair, and that pair is [("aaa", 2)]. *)
Theorem all_nf_aaaa :
  (st ← build (text "aaaa$"); fst <$> all_nf st) = Some [(text "aaa", 2)].
Proof. vm_compute. reflexivity. Qed.

(** C6 fails as stated: the output on ["aaaa$"] is not [("a", 1)]. *)
Lemma all_nf_aaaa_not_a1 :
  (st ← build (text "aaaa$"); fst <$> all_nf st) ≠ Some [(text "a", 1)].
Proof. vm_compute. discriminate. Qed.

(** C4 fails on the code: in ["ab$"] the query ["ax"] does not occur, yet
    the locator answers [{nullptr, 1}], because the label of the edge to a
    leaf is never compared with the rest of the query. *)
Theorem find_internal_node_leaf_unchecked :
  occurrences (text "ax") (text "ab$") = 0%nat ∧
  (st ← build (text "ab$"); find_internal_node st (text "ax")) = Some (None, 1).
Proof. split; vm_compute; reflexivity. Qed.

(** * Further properties of the code *)

Lemma sub_to_end t i : sub t (Z.of_nat i) (len t) = drop i t.
Proof.
  unfold sub, len. rewrite Nat2Z.id. apply take_ge. rewrite length_drop. lia.
Qed.

Lemma build_total_witness :
  len (text "banana$") < 2 ^ 32 ∧ is_Some (build (text "banana$")).
Proof.
  split; [reflexivity|]. apply (build_total (text "banana$")). reflexivity.
Defined.

(** X2: in a built tree the leaf with handle [i] hangs below exactly one
    internal node, and the labels from the root down to that leaf spell
    the suffix of the text that starts at [i]; the edge of the leaf is not
    empty and runs to the end of the text. *)
Theorem leaf_spells_suffix t st i :
  build t = Some st → (i < length (lnodes st))%nat →
  ∃ u un c ln w,
    inodes st !! u = Some un ∧ leaf_children un !! c = Some i ∧
    lnodes st !! i = Some ln ∧ node_string t (inodes st) u w ∧
    char_at t (leaf_start ln) = Some c ∧
    1 ≤ leaf_edge_length (global_end st) ln ∧
    w ++ sub t (leaf_start ln) (leaf_start ln + leaf_edge_length (global_end st) ln)
      = drop i t ∧
    ∀ u' un' c', inodes st !! u' = Some un' → leaf_children un' !! c' = Some i →
                 u' = u ∧ c' = c.
Proof.
  intros Hb Hi. destruct (build_inv t st Hb) as (Htxt & D & PI).
  pose proof (pi_tree PI) as TK. rewrite Htxt in TK.
  pose proof (pi_k PI) as (Hk0 & _ & Hn). rewrite Htxt in Hn.
  destruct (tk_lparent TK i Hi) as (u & un & c & Hu & Hc).
  destruct (tk_leaf TK u un c i Hu Hc) as [ln E].
  pose proof (le_lo E) as Hlo. pose proof (le_hi E) as Hhi.
  assert (leaf_edge_length (global_end st) ln = len t - leaf_start ln) as Hel.
  { unfold leaf_edge_length. rewrite (pi_ge PI). apply wrap32_small. lia. }
  exists u, un, c, ln, (D u). split_and!; try done.
  - apply (le_lookup E).
  - apply (node_string_D _ _ _ _ _ _ TK). by eapply lookup_lt_Some.
  - apply (le_key E).
  - lia.
  - rewrite Hel.
    replace (leaf_start ln + (len t - leaf_start ln)) with (len t) by lia.
    rewrite <- (leaf_string _ _ _ _ _ _ TK u c i ln E). apply sub_to_end.
  - intros u' un' c' Hu' Hc'.
    destruct (leaf_parent_unique _ _ _ _ _ _ TK _ _ _ _ _ _ _ Hu Hc Hu' Hc'). done.
Qed.

Lemma leaf_spells_suffix_witness :
  ∃ st, build (text "banana$") = Some st ∧ (3 < length (lnodes st))%nat ∧
  ∃ u un c ln w,
    inodes st !! u = Some un ∧ leaf_children un !! c = Some 3%nat ∧
    lnodes st !! 3%nat = Some ln ∧ node_string (text "banana$") (inodes st) u w ∧
    char_at (text "banana$") (leaf_start ln) = Some c ∧
    1 ≤ leaf_edge_length (global_end st) ln ∧
    w ++ sub (text "banana$") (leaf_start ln)
           (leaf_start ln + leaf_edge_length (global_end st) ln)
      = drop 3 (text "banana$") ∧
    ∀ u' un' c', inodes st !! u' = Some un' → leaf_children un' !! c' = Some 3%nat →
                 u' = u ∧ c' = c.
Proof.
  eexists. split; [vm_compute; reflexivity|]. split; [vm_compute; lia|].
  apply (leaf_spells_suffix (text "banana$")); [vm_compute; reflexivity|vm_compute; lia].
Defined.

(** X3: after construction the tree has [|T| - remainder] leaves; every
    suffix that has no leaf of its own occurs in the text at the position
    of an earlier suffix that has one; and when the text ends in a byte
    that occurs nowhere else, every suffix has its leaf and the builder
    is back at the root with nothing pending. *)
Theorem leaves_and_remainder t st :
  build t = Some st →
  Z.of_nat (length (lnodes st)) = len t - remainder st ∧
  0 ≤ remainder st ∧ global_end st = len t ∧
  (∀ i, (length (lnodes st) ≤ i < length t)%nat →
        ∃ i', (i' < length (lnodes st))%nat ∧
              take (length t - i) (drop i' t) = drop i t) ∧
  (sentinel_terminated t →
   remainder st = 0 ∧ length (lnodes st) = length t ∧
   active_node st = root ∧ active_length st = 0).
Proof.
  intros Hb. destruct (build_inv t st Hb) as (Htxt & D & PI).
  pose proof (pi_tree PI) as TK. rewrite Htxt in TK.
  pose proof (pi_k PI) as (Hk0 & _ & Hn). rewrite Htxt in Hn.
  pose proof (pi_rem PI) as Hrem. pose proof (pi_rem0 PI) as Hrem0.
  split_and!; [lia|done|apply (pi_ge PI)| |].
  - intros i Hi.
    destruct (pi_impl PI (Z.of_nat i)) as (i' & Hi0 & Hij & Hocc);
      [unfold len in *; lia..|].
    rewrite Htxt in Hocc. exists (Z.to_nat i'). split; [lia|].
    rewrite sub_to_end in Hocc. rewrite <- Hocc. unfold sub.
    f_equal. unfold len. lia.
  - intros Hsen. destruct (built_sentinel t st Hb Hsen) as (D' & PI' & _ & Hlv).
    pose proof (pi_tree PI') as TK'. rewrite Htxt in TK'.
    pose proof (pi_al PI') as [Hal0 Halk]. pose proof (pi_ap PI') as Hap.
    rewrite Htxt, Hlv, (sub_nil _ (len t) (len t)) in Hap by lia.
    apply app_eq_nil in Hap as [HD Hs].
    split_and!; [lia|unfold len in Hlv; lia| |].
    + apply (D_nil_root _ _ _ _ _ _ TK'); [apply (pi_an PI')|done].
    + apply (f_equal len) in Hs. rewrite len_sub in Hs by lia.
      change (len []) with 0 in Hs. lia.
Qed.

Lemma leaves_and_remainder_witness :
  ∃ st, build (text "banana") = Some st ∧
  Z.of_nat (length (lnodes st)) = len (text "banana") - remainder st ∧
  0 ≤ remainder st ∧ global_end st = len (text "banana") ∧
  (∀ i, (length (lnodes st) ≤ i < length (text "banana"))%nat →
        ∃ i', (i' < length (lnodes st))%nat ∧
              take (length (text "banana") - i) (drop i' (text "banana"))
              = drop i (text "banana")) ∧
  (sentinel_terminated (text "banana") →
   remainder st = 0 ∧ length (lnodes st) = length (text "banana") ∧
   active_node st = root ∧ active_length st = 0).
Proof.
  eexists. split; [vm_compute; reflexivity|].
  apply (leaves_and_remainder (text "banana")). vm_compute. reflexivity.
Defined.

(** X4: in a built tree every internal node represents exactly one
    string, that string occurs in the text, and no two internal nodes
    represent the same string. *)
Theorem node_strings t st :
  build t = Some st →
  (∀ u, (u < length (inodes st))%nat →
        ∃ w, node_string t (inodes st) u w ∧
             (∀ w', node_string t (inodes st) u w' → w' = w) ∧
             ∃ p, (p + length w ≤ length t)%nat ∧ take (length w) (drop p t) = w) ∧
  (∀ u u' w, node_string t (inodes st) u w → node_string t (inodes st) u' w →
             u = u').
Proof.
  intros Hb. destruct (build_inv t st Hb) as (Htxt & D & PI).
  pose proof (pi_tree PI) as TK. rewrite Htxt in TK.
  pose proof (tk_k TK) as (Hk0 & _). split.
  - intros u Hu. exists (D u). split_and!.
    + by apply (node_string_D _ _ _ _ _ _ TK).
    + intros w' Hw'. by apply (node_string_unique _ _ _ _ _ _ TK).
    + destruct (decide (u = root)) as [->|Hr].
      { exists 0%nat. rewrite (tk_Droot TK). simpl. split; [lia|done]. }
      destruct (tk_parent TK u Hu Hr) as (p & pn & c & Hp & Hc).
      destruct (tk_int TK p pn c u Hp Hc) as [un E].
      pose proof (ie_start E). pose proof (ie_lt E). pose proof (ie_end E).
      pose proof (ie_pos E). pose proof (len_nonneg (D p)).
      assert (D u = sub t (start un - len (D p)) (end_ un)) as HD.
      { rewrite (ie_D E). rewrite (ie_occ E) at 1. apply sub_app; lia. }
      pose proof (f_equal len HD) as HL. rewrite len_sub in HL by lia.
      exists (Z.to_nat (start un - len (D p))). split; [unfold len in *; lia|].
      rewrite HD at 2. unfold sub. f_equal. unfold len in *. lia.
  - intros u u' w Hu Hu'.
    apply (D_inj _ _ _ _ _ _ TK);
      [by eapply node_string_valid|by eapply node_string_valid|].
    rewrite <- (node_string_unique _ _ _ _ _ _ TK _ _ Hu).
    by rewrite <- (node_string_unique _ _ _ _ _ _ TK _ _ Hu').
Qed.

Lemma node_strings_witness :
  ∃ st, build (text "banana$") = Some st ∧
  (∀ u, (u < length (inodes st))%nat →
        ∃ w, node_string (text "banana$") (inodes st) u w ∧
             (∀ w', node_string (text "banana$") (inodes st) u w' → w' = w) ∧
             ∃ p, (p + length w ≤ length (text "banana$"))%nat ∧
                  take (length w) (drop p (text "banana$")) = w) ∧
  (∀ u u' w, node_string (text "banana$") (inodes st) u w →
             node_string (text "banana$") (inodes st) u' w → u = u').
Proof.
  eexists. split; [vm_compute; reflexivity|].
  apply (node_strings (text "banana$")). vm_compute. reflexivity.
Defined.

(** ** Internal nodes branch *)

Lemma branching_same_tree hi hi' hl :
  branching hi hl → same_tree hi hi' → branching hi' hl.
Proof.
  intros (H0 & H1 & H2) ST. pose proof ST as [Hl _]. split_and!; [lia..|].
  intros u un' Hu Hr. destruct (same_tree_rev _ _ _ _ ST Hu) as (un & Hun & _ & _ & Hi & Hlf).
  specialize (H2 u un Hun Hr). unfold child_keys in *. by rewrite <- Hi, <- Hlf.
Qed.

Lemma add_links_same_tree n st st' :
  add_links n st = Some st' →
  lnodes st' = lnodes st ∧ same_tree (inodes st) (inodes st').
Proof.
  unfold add_links. intros H. destruct (need_link st) as [nl|].
  2:{ inversion H; subst. split; [done|apply same_tree_refl]. }
  destruct (inodes st !! nl) as [x|] eqn:Hx; [|done]. simpl in H.
  destruct (_ !! n) as [tn|] eqn:Htn; [|done]. simpl in H.
  assert (same_tree (inodes st) (<[nl:=set_suffix_link (Some n) x]> (inodes st))) as ST1
    by by apply (same_tree_insert _ nl x).
  destruct (decide _); inversion H; subst; simpl; (split; [done|]); [done|].
  eapply same_tree_trans; [done|]. by apply (same_tree_insert _ n tn).
Qed.

Lemma after_insertion_arenas k st st' :
  after_insertion k st = Some st' →
  inodes st' = inodes st ∧ lnodes st' = lnodes st.
Proof.
  unfold after_insertion. intros H.
  destruct (decide _); [by inversion H|].
  simpl in H. destruct (inodes st !! active_node st) as [an|]; [|done].
  simpl in H. destruct (suffix_link an); by inversion H.
Qed.

(** Replacing a node by one with at least its child keys, and creating
    at most one node, with two child keys, together with a leaf. *)
Lemma branching_step hi hl a ann an' ms hl' :
  branching hi hl → hi !! a = Some ann →
  child_keys ann ⊆ child_keys an' →
  (length hl + length ms ≤ length hl')%nat →
  Forall (λ m, (2 ≤ size (child_keys m))%nat) ms →
  branching (<[a := an']> hi ++ ms) hl'.
Proof.
  intros (H0 & H1 & H2) Ha Hsub Hl Hall.
  split_and!; [rewrite length_app, length_insert; lia..|].
  intros u un Hu Hr. apply lookup_app_Some in Hu as [Hu|[_ Hu]].
  - apply list_lookup_insert_Some in Hu as [(<- & <- & _)|[Hne Hu]].
    + specialize (H2 a ann Ha Hr). apply subseteq_size in Hsub. lia.
    + by apply (H2 u un).
  - apply (proj1 (Forall_forall _ _) Hall). by eapply list_elem_of_lookup_2.
Qed.

Lemma size_two_keys (a b : ascii) (X : gset ascii) :
  a ≠ b → a ∈ X → b ∈ X → (2 ≤ size X)%nat.
Proof.
  intros Hne Ha Hb.
  assert ({[a; b]} ⊆ X) as Hs by set_solver.
  apply subseteq_size in Hs. rewrite size_union in Hs by set_solver.
  rewrite !size_singleton in Hs. lia.
Qed.

(** One iteration of the loop of [extend] keeps the shape. *)
Lemma extend_body_branching k st b st' :
  branching (inodes st) (lnodes st) → extend_body k st = Some (b, st') →
  branching (inodes st') (lnodes st').
Proof.
  intros HB H. unfold extend_body in H.
  set (st0 := if decide (active_length st = 0) then set_active_edge k st else st) in *.
  assert (inodes st0 = inodes st ∧ lnodes st0 = lnodes st) as [Hi0 Hl0]
    by (unfold st0; by destruct (decide _)).
  rewrite <- Hi0, <- Hl0 in HB. clearbody st0. clear Hi0 Hl0 st. rename st0 into st.
  destruct (inodes st !! active_node st) as [an|] eqn:Han; [|done]. simpl in H.
  destruct (char_at (txt st) (active_edge st)) as [c|]; [|done]. simpl in H.
  destruct (leaf_children an !! c) as [lf|] eqn:Hlf,
           (internal_children an !! c) as [ch|] eqn:Hch; simpl in H; try done.
  - (* a leaf *)
    destruct (lnodes st !! lf) as [ln|] eqn:Hln; [|done]. simpl in H.
    destruct (decide _); [done|].
    destruct (char_at (txt st) (wrap32 _)) as [c1|] eqn:Hc1; [|done]. simpl in H.
    destruct (char_at (txt st) k) as [ck|] eqn:Hck; [|done]. simpl in H.
    destruct (decide (c1 = ck)) as [|Hne].
    + destruct (add_links _ _) as [st1|] eqn:Hadd; [|done]. simpl in H.
      inversion H; subst. apply add_links_same_tree in Hadd as [-> ST].
      by eapply branching_same_tree.
    + destruct (split_leaf _ _ _ _ _) as [st1|] eqn:Hs; [|done]. simpl in H.
      destruct (after_insertion _ _) as [st2|] eqn:Ha; [|done]. simpl in H.
      inversion H; subst. apply after_insertion_arenas in Ha as [-> ->].
      unfold split_leaf in Hs. rewrite Hln in Hs. simpl in Hs.
      rewrite Hck, Hc1, Han in Hs. simpl in Hs.
      apply add_links_same_tree in Hs as [-> ST]. simpl in ST.
      eapply branching_same_tree; [|exact ST]. simpl.
      eapply (branching_step _ _ _ an); [done..| | |].
      * unfold child_keys. simpl. rewrite dom_delete_L, dom_insert_L.
        intros x Hx. destruct (decide (x = c)); set_solver.
      * rewrite length_app, length_insert. simpl. lia.
      * constructor; [|done]. unfold child_keys. simpl.
        apply (size_two_keys c1 ck); [done|set_solver..].
  - (* an internal node *)
    destruct (inodes st !! ch) as [chn|] eqn:Hchn; [|done]. simpl in H.
    destruct (decide _); [by inversion H; subst|].
    destruct (char_at (txt st) (wrap32 _)) as [c1|] eqn:Hc1; [|done]. simpl in H.
    destruct (char_at (txt st) k) as [ck|] eqn:Hck; [|done]. simpl in H.
    destruct (decide (c1 = ck)) as [|Hne].
    + destruct (add_links _ _) as [st1|] eqn:Hadd; [|done]. simpl in H.
      inversion H; subst. apply add_links_same_tree in Hadd as [-> ST].
      by eapply branching_same_tree.
    + destruct (split_internal _ _ _ _ _) as [st1|] eqn:Hs; [|done]. simpl in H.
      destruct (after_insertion _ _) as [st2|] eqn:Ha; [|done]. simpl in H.
      inversion H; subst. apply after_insertion_arenas in Ha as [-> ->].
      unfold split_internal in Hs. rewrite Hchn in Hs. simpl in Hs.
      rewrite Hck, Hc1 in Hs. simpl in Hs.
      destruct (<[ch:=_]> (inodes st) !! active_node st) as [an'|] eqn:Han'; [|done].
      simpl in Hs.
      apply add_links_same_tree in Hs as [-> ST]. simpl in ST.
      eapply branching_same_tree; [|exact ST]. simpl.
      eapply branching_step with (ann := an') (hl := lnodes st); [|exact Han'| | |].
      * rewrite <- (app_nil_r (<[ch:=_]> (inodes st))).
        eapply (branching_step _ _ ch chn); [done|done|done|simpl; lia|done].
      * unfold child_keys. simpl. rewrite dom_insert_L. set_solver.
      * rewrite length_app. simpl. lia.
      * constructor; [|done]. unfold child_keys. simpl.
        apply (size_two_keys c1 ck); [done|set_solver..].
  - (* no child: a new leaf *)
    destruct (add_links _ _) as [st1|] eqn:Hadd; [|done]. simpl in H.
    destruct (after_insertion _ _) as [st2|] eqn:Ha; [|done]. simpl in H.
    inversion H; subst. apply after_insertion_arenas in Ha as [-> ->].
    apply add_links_same_tree in Hadd as [-> ST]. simpl in ST.
    eapply branching_same_tree; [|exact ST]. simpl.
    rewrite <- (app_nil_r (<[_ := _]> _)).
    eapply (branching_step _ _ _ an); [done..| | |].
    + unfold child_keys. simpl. rewrite dom_insert_L. set_solver.
    + rewrite length_app. simpl. lia.
    + done.
Qed.

Lemma extend_loop_branching fuel k : ∀ st st',
  branching (inodes st) (lnodes st) → extend_loop fuel k st = Some st' →
  branching (inodes st') (lnodes st').
Proof.
  induction fuel as [|fuel IH]; intros st st' HB H; simpl in H.
  - destruct (decide _); [done|]. by inversion H; subst.
  - destruct (decide _); [|by inversion H; subst].
    destruct (extend_body k st) as [[[] st1]|] eqn:Hb; [| |done].
    + inversion H; subst. by eapply extend_body_branching.
    + eapply IH; [|done]. by eapply extend_body_branching.
Qed.

Lemma extend_branching fuel k st st' :
  branching (inodes st) (lnodes st) → extend fuel k st = Some st' →
  branching (inodes st') (lnodes st').
Proof.
  intros HB H. unfold extend in H.
  destruct (extend_loop _ _ _) as [st1|] eqn:Hl; [|done]. simpl in H.
  inversion H; subst. simpl. by eapply extend_loop_branching; [|done].
Qed.

Lemma phases_branching fuel ks : ∀ st st',
  branching (inodes st) (lnodes st) → phases fuel ks st = Some st' →
  branching (inodes st') (lnodes st').
Proof.
  induction ks as [|k ks IH]; intros st st' HB H; simpl in H.
  - by inversion H; subst.
  - destruct (extend _ _ _) as [st1|] eqn:He; [|done]. simpl in H.
    eapply IH; [|done]. by eapply extend_branching.
Qed.

Lemma build_branching t st :
  build t = Some st → branching (inodes st) (lnodes st).
Proof.
  unfold build. destruct (decide _); [|done]. intros H.
  eapply phases_branching; [|done]. simpl.
  split_and!; [simpl; lia..|].
  intros u un Hu Hr. apply list_lookup_singleton_Some in Hu as [-> _]. done.
Qed.

(** X5: in a built tree the children of an internal node are keyed by the
    first byte of their edge labels, no byte keys both a leaf child and an
    internal child, the edge of an internal child is a non-empty range of
    the text, and every internal node but the root has at least two
    children. *)
Theorem internal_nodes_branch t st u un :
  build t = Some st → inodes st !! u = Some un →
  (∀ c, internal_children un !! c = None ∨ leaf_children un !! c = None) ∧
  (∀ c ch, internal_children un !! c = Some ch →
           ch ≠ root ∧
           ∃ cn, inodes st !! ch = Some cn ∧ char_at t (start cn) = Some c ∧
                 0 ≤ start cn ∧ start cn < end_ cn ∧ end_ cn ≤ len t) ∧
  (∀ c lf, leaf_children un !! c = Some lf →
           ∃ ln, lnodes st !! lf = Some ln ∧ char_at t (leaf_start ln) = Some c) ∧
  (u ≠ root →
   (2 ≤ size (internal_children un) + size (leaf_children un))%nat).
Proof.
  intros Hb Hu. destruct (build_inv t st Hb) as (Htxt & D & PI).
  pose proof (pi_tree PI) as TK. rewrite Htxt in TK.
  split_and!.
  - intros c. by apply (tk_disj TK u un).
  - intros c ch Hc. destruct (tk_int TK u un c ch Hu Hc) as [cn E]. split.
    + intros ->. pose proof (ie_len _ _ _ _ _ _ TK E) as HL.
      rewrite (tk_Droot TK) in HL. pose proof (ie_lt E). pose proof (len_nonneg (D u)).
      change (len []) with 0 in HL. lia.
    + exists cn. split_and!; [apply (ie_lookup E)|apply (ie_key E)|apply (ie_start E)
                              |apply (ie_lt E)|apply (ie_end E)].
  - intros c lf Hc. destruct (tk_leaf TK u un c lf Hu Hc) as [ln E].
    exists ln. split; [apply (le_lookup E)|apply (le_key E)].
  - intros Hr. destruct (build_branching t st Hb) as (_ & _ & H2).
    specialize (H2 u un Hu Hr). unfold child_keys in H2.
    rewrite size_union in H2.
    + rewrite !size_dom in H2. lia.
    + intros c Hl Hi. apply elem_of_dom in Hl as [x Hl]. apply elem_of_dom in Hi as [y Hi].
      destruct (tk_disj TK u un c Hu); congruence.
Qed.

Lemma internal_nodes_branch_witness :
  ∃ st un, build (text "banana$") = Some st ∧ inodes st !! 1%nat = Some un ∧
  (∀ c, internal_children un !! c = None ∨ leaf_children un !! c = None) ∧
  (∀ c ch, internal_children un !! c = Some ch →
           ch ≠ root ∧
           ∃ cn, inodes st !! ch = Some cn ∧
                 char_at (text "banana$") (start cn) = Some c ∧
                 0 ≤ start cn ∧ start cn < end_ cn ∧
                 end_ cn ≤ len (text "banana$")) ∧
  (∀ c lf, leaf_children un !! c = Some lf →
           ∃ ln, lnodes st !! lf = Some ln ∧
                 char_at (text "banana$") (leaf_start ln) = Some c) ∧
  (1%nat ≠ root →
   (2 ≤ size (internal_children un) + size (leaf_children un))%nat).
Proof.
  eexists. eexists. split; [vm_compute; reflexivity|].
  split; [vm_compute; reflexivity|].
  apply (internal_nodes_branch (text "banana$")); vm_compute; reflexivity.
Defined.

(** X6: a built tree has at most one internal node more than it has
    leaves, and at most one leaf per byte of the text: its size is linear
    in the length of the text. *)
Theorem tree_size t st :
  build t = Some st →
  (1 ≤ length (inodes st))%nat ∧
  (length (inodes st) ≤ S (length (lnodes st)))%nat ∧
  (length (lnodes st) ≤ length t)%nat.
Proof.
  intros Hb. destruct (build_branching t st Hb) as (H0 & H1 & _).
  destruct (build_inv t st Hb) as (Htxt & D & PI).
  pose proof (pi_rem PI). pose proof (pi_rem0 PI). unfold len in *. lia.
Qed.

Lemma tree_size_witness :
  ∃ st, build (text "banana$") = Some st ∧
  (1 ≤ length (inodes st))%nat ∧
  (length (inodes st) ≤ S (length (lnodes st)))%nat ∧
  (length (lnodes st) ≤ length (text "banana$"))%nat.
Proof.
  eexists. split; [vm_compute; reflexivity|].
  apply (tree_size (text "banana$")). vm_compute. reflexivity.
Defined.

(** ** The answers of [find_internal_node] *)

Lemma sub_prefix_agree (x y : list ascii) a b :
  x `prefix_of` y → 0 ≤ a → a ≤ b → b ≤ len x → sub x a b = sub y a b.
Proof.
  intros [z ->] Ha Hab Hb. unfold sub. rewrite drop_app_le by (unfold len in *; lia).
  rewrite take_app_le; [done|]. rewrite length_drop. unfold len in *. lia.
Qed.

Lemma sub_app_r (x y : list ascii) m :
  0 ≤ m → sub (x ++ y) (len x) (len x + m) = take (Z.to_nat m) y.
Proof.
  intros Hm. unfold sub, len. rewrite Nat2Z.id, drop_app_length. f_equal. lia.
Qed.

Section Locus.
Context (t : list ascii) (k kl : Z) (D : nat → list ascii) (st : SuffixTree).
Hypothesis TK : tree_ok t k kl D (inodes st) (lnodes st).

Lemma anc_last a b :
  anc (inodes st) a b → a ≠ b →
  ∃ p pn c, inodes st !! p = Some pn ∧ internal_children pn !! c = Some b ∧
            anc (inodes st) a p.
Proof.
  induction 1 as [|u un c ch v Hu Hc Ha IH]; intros Hne; [done|].
  destruct (decide (ch = v)) as [->|Hchv].
  - exists u, un, c. split_and!; [done..|constructor].
  - destruct (IH Hchv) as (p & pn & c' & Hp & Hc' & Hap).
    exists p, pn, c'. split_and!; [done..|]. by eapply anc_step.
Qed.

Lemma parent_shorter p pn c u :
  inodes st !! p = Some pn → internal_children pn !! c = Some u →
  len (D p) < len (D u).
Proof.
  intros Hp Hc. destruct (tk_int TK p pn c u Hp Hc) as [cn E].
  pose proof (ie_len _ _ _ _ _ _ TK E). pose proof (ie_lt E). lia.
Qed.

(** A node whose string extends that of [a], and whose parent has a
    string no longer than that of [a], is [a]. *)
Lemma first_below a b m :
  (a < length (inodes st))%nat → (b < length (inodes st))%nat →
  D a `prefix_of` D b → m ≤ len (D a) →
  (∀ p pn c, inodes st !! p = Some pn → internal_children pn !! c = Some b →
             len (D p) < m) →
  a = b.
Proof.
  intros Ha Hb Hpre Hm Hpar. destruct (decide (a = b)) as [|Hne]; [done|exfalso].
  assert (anc (inodes st) a b) as Hanc by by apply (anc_of_prefix _ _ _ _ _ _ TK).
  destruct (anc_last a b Hanc Hne) as (p & pn & c & Hp & Hc & Hap).
  specialize (Hpar p pn c Hp Hc).
  apply (anc_prefix _ _ _ _ _ _ TK) in Hap. apply prefix_length in Hap.
  unfold len in *. lia.
Qed.

End Locus.

Section LocusLoop.
Context (t : list ascii) (k kl : Z) (D : nat → list ascii) (st : SuffixTree).
Hypothesis TK : tree_ok t k kl D (inodes st) (lnodes st).
Hypothesis Htxt : txt st = t.
Context (s : list ascii).
Hypothesis Hlen : len s + len t ≤ 2 ^ 32.

Lemma find_loop_locus fuel : ∀ node i S_ r,
  (node < length (inodes st))%nat → i = len (D node) →
  D node `prefix_of` s → len t - i < Z.of_nat fuel →
  find_loop fuel st s node i = Some (Some S_, r)
  ↔ ((S_ < length (inodes st))%nat ∧ (∃ w, D S_ = s ++ w ∧ len w = r) ∧
     ∀ p pn c, inodes st !! p = Some pn → internal_children pn !! c = Some S_ →
               len (D p) < len s).
Proof.
  induction fuel as [|fuel IH]; intros node i S_ r Hnode Hi Hpre Hfuel.
  { pose proof (D_len_le _ _ _ _ _ _ TK node Hnode). pose proof (tk_k TK). lia. }
  pose proof (prefix_len_le _ _ Hpre) as Hle. pose proof (len_nonneg (D node)).
  pose proof (tk_k TK) as (? & ? & ? & ?).
  destruct (decide (len s ≤ i)) as [Hge|Hlt].
  { assert (D node = s) as HD.
    { apply prefix_length_eq; [done|]. unfold len in *. lia. }
    simpl. rewrite decide_True by done.
    replace (i - Z.of_nat (length s)) with 0 by (unfold len in *; lia).
    split.
    - intros [= <- <-]. split_and!; [done| |].
      + exists []. by rewrite app_nil_r.
      + intros p pn c Hp Hc. rewrite <- HD. by eapply parent_shorter.
    - intros (HS & (w & Hw & Hr) & Hpar).
      assert (node = S_) as <-.
      { eapply (first_below _ _ _ D st TK node S_ (len s)); [done..| |lia|done].
        rewrite HD, Hw. by apply prefix_app_r. }
      rewrite HD in Hw. rewrite <- (app_nil_r s) in Hw at 1.
      apply app_inv_head in Hw. subst w. change (len []) with 0 in Hr.
      by rewrite <- Hr. }
  destruct (lookup_lt_is_Some_2 _ _ Hnode) as [n Hn].
  destruct (char_at_lt s i ltac:(lia) ltac:(lia)) as [si Hsi].
  (* the child on the way to a node whose string starts with [s] *)
  assert (∀ w, (S_ < length (inodes st))%nat → D S_ = s ++ w →
            ∃ ch cn, internal_children n !! si = Some ch ∧
                     int_edge_ok t k D (inodes st) node si ch cn ∧
                     D ch `prefix_of` D S_) as Hpath.
  { intros w HS Hw.
    destruct (path_child _ _ _ D st TK node n S_ Hn HS)
      as (c & ch' & cn' & Hc & Hch' & E' & Hp).
    { rewrite Hw. by apply prefix_app_r. }
    { rewrite Hw, len_app. pose proof (len_nonneg w). lia. }
    rewrite Hw, <- Hi in Hc. unfold char_at in Hc, Hsi.
    rewrite lookup_app_l in Hc by (unfold len in *; lia).
    rewrite Hsi in Hc. injection Hc as <-. eauto. }
  destruct (internal_children n !! si) as [ch|] eqn:Hch.
  - destruct (tk_int TK node n si ch Hn Hch) as [chn E].
    pose proof (ie_start E). pose proof (ie_lt E). pose proof (ie_end E).
    pose proof (ie_len _ _ _ _ _ _ TK E) as HlenD.
    rewrite (find_loop_child _ _ _ D st TK Htxt s Hlen fuel node n i si ch chn Hn
               ltac:(lia) ltac:(lia) Hsi Hch (ie_lookup E)).
    assert (D node = sub s 0 i) as HDn by (rewrite Hi; by apply prefix_sub).
    assert (ch < length (inodes st))%nat as Hchlt
      by (eapply lookup_lt_Some, (ie_lookup E)).
    destruct (decide _) as [Heq|Hne].
    + destruct (decide (end_ chn - start chn ≤ len s - i)) as [Hfit|Hover].
      * rewrite Z.min_l in Heq by done.
        apply IH; [done|lia| |lia].
        rewrite (ie_D E), HDn.
        replace (start chn + (end_ chn - start chn)) with (end_ chn) in Heq by lia.
        rewrite <- Heq, sub_app by lia.
        rewrite <- (sub_full s) at 2. apply sub_prefix_of; lia.
      * pose proof (D_len_le _ _ _ _ _ _ TK ch Hchlt).
        rewrite Z.min_r in Heq by lia.
        replace (i + (len s - i)) with (len s) in Heq by lia.
        assert (D ch = s ++ sub t (start chn + (len s - i)) (end_ chn)) as HDch.
        { rewrite (ie_D E), HDn.
          rewrite <- (sub_app t (start chn) (start chn + (len s - i)) (end_ chn)) by lia.
          rewrite <- Heq, app_assoc, sub_app by lia. by rewrite sub_full. }
        destruct fuel as [|fuel]; [lia|].
        simpl. rewrite decide_True by (unfold len in *; lia).
        fold (len s). split.
        -- intros [= <- <-]. rewrite wrap32_small by lia. split_and!; [done| |].
           ++ eexists. split; [exact HDch|]. rewrite len_sub by lia. lia.
           ++ intros p pn c Hp Hc.
              destruct (int_parent_unique _ _ _ _ _ _ TK _ _ _ _ _ _ _ Hn Hch Hp Hc)
                as [<- _]. lia.
        -- intros (HS & (w & Hw & Hr) & Hpar).
           destruct (Hpath w HS Hw) as (ch' & cn' & Hch' & E' & Hp).
           injection Hch' as <-.
           assert (ch = S_) as <-.
           { eapply (first_below _ _ _ D st TK ch S_ (len s)); [done..|lia|done]. }
           rewrite HDch in Hw. apply app_inv_head in Hw. subst w.
           rewrite len_sub in Hr by lia. rewrite wrap32_small by lia.
           do 3 f_equal. lia.
    + split; [done|]. intros (HS & (w & Hw & Hr) & Hpar). exfalso.
      destruct (Hpath w HS Hw) as (ch' & cn' & Hch' & E' & Hp).
      injection Hch' as <-. apply Hne.
      set (m := (end_ chn - start chn) `min` (len s - i)) in *.
      assert (0 ≤ m ∧ m ≤ end_ chn - start chn ∧ m ≤ len s - i) as (Hm0 & Hm1 & Hm2)
        by (unfold m; lia).
      trans (sub (D S_) i (i + m)).
      * apply sub_prefix_agree; [|lia..]. rewrite Hw. by apply prefix_app_r.
      * rewrite <- (sub_prefix_agree (D ch) (D S_)) by (done || lia).
        rewrite (ie_D E), Hi, sub_app_r by lia. apply take_sub; lia.
  - assert (find_loop (S fuel) st s node i ≠ Some (Some S_, r)) as Hno.
    { simpl. rewrite decide_False by (unfold len in *; lia).
      rewrite Hn. simpl. rewrite Hsi. simpl. rewrite Hch.
      by destruct (leaf_children n !! si). }
    split; [done|]. intros (HS & (w & Hw & Hr) & Hpar). exfalso.
    destruct (Hpath w HS Hw) as (ch' & cn' & Hch' & _). done.
Qed.

End LocusLoop.

Lemma D_occurs t k kl D hi hl u :
  tree_ok t k kl D hi hl → (u < length hi)%nat →
  ∃ p, 0 ≤ p ∧ p + len (D u) ≤ len t ∧ D u = sub t p (p + len (D u)).
Proof.
  intros TK Hu. pose proof (tk_k TK) as (Hk0 & Hk & _).
  destruct (decide (u = root)) as [->|Hr].
  { exists 0. rewrite (tk_Droot TK). change (len []) with 0.
    pose proof (len_nonneg t). split_and!; [lia..|]. by rewrite sub_nil. }
  destruct (tk_parent TK u Hu Hr) as (p & pn & c & Hp & Hc).
  destruct (tk_int TK p pn c u Hp Hc) as [un E].
  pose proof (ie_start E). pose proof (ie_lt E). pose proof (ie_end E).
  pose proof (ie_pos E). pose proof (len_nonneg (D p)).
  pose proof (ie_len _ _ _ _ _ _ TK E) as HL.
  exists (start un - len (D p)). split_and!; [lia..|].
  rewrite (ie_D E) at 1. rewrite (ie_occ E) at 1.
  rewrite sub_app by lia. f_equal. lia.
Qed.

Lemma occurrences_pos (s t : list ascii) p :
  (p + length s ≤ length t)%nat → take (length s) (drop p t) = s →
  (0 < occurrences s t)%nat.
Proof.
  intros Hp Hocc. unfold occurrences.
  assert (p ∈ filter (λ i, take (length s) (drop i t) = s)
                (seq 0 (S (length t) - length s))) as Hin.
  { apply list_elem_of_filter. split; [done|]. apply elem_of_seq. lia. }
  destruct (filter _ _); [by apply elem_of_nil in Hin|simpl; lia].
Qed.

(** X7: in a built tree, and for a query short enough for the 32-bit
    index, [find_internal_node] answers [{S, r}] exactly when [S] is the
    locus of the query with [r] bytes left: the string of [S] is the query
    followed by [r] more bytes, and the string of the parent of [S] is
    shorter than the query. *)
Theorem find_internal_node_locus t st s S_ r :
  build t = Some st → len s + len t ≤ 2 ^ 32 →
  find_internal_node st s = Some (Some S_, r) ↔ locus t (inodes st) s S_ r.
Proof.
  intros Hb Hlen. destruct (build_inv t st Hb) as (Htxt & D & PI).
  pose proof (pi_tree PI) as TK. rewrite Htxt in TK.
  unfold find_internal_node.
  rewrite (find_loop_locus t _ _ D st TK Htxt s Hlen _ root 0 S_ r).
  - unfold locus. split.
    + intros (HS & (w & Hw & Hr) & Hpar). split.
      * exists w. split; [|done]. rewrite <- Hw.
        by apply (node_string_D _ _ _ _ _ _ TK).
      * intros p pn c wp Hp Hc Hwp.
        rewrite (node_string_unique _ _ _ _ _ _ TK _ _ Hwp). by eapply Hpar.
    + intros [(w & Hw & Hr) Hpar]. split_and!.
      * by eapply node_string_valid.
      * exists w. split; [|done]. symmetry.
        by apply (node_string_unique _ _ _ _ _ _ TK).
      * intros p pn c Hp Hc. eapply (Hpar p pn c); [done..|].
        apply (node_string_D _ _ _ _ _ _ TK). by eapply lookup_lt_Some.
  - destruct (tk_root TK) as [rn Hrn]. by eapply lookup_lt_Some.
  - by rewrite (tk_Droot TK).
  - rewrite (tk_Droot TK). apply prefix_nil.
  - rewrite Htxt. unfold len. lia.
Qed.

Lemma find_internal_node_locus_witness :
  ∃ st, build (text "banana$") = Some st ∧
    len (text "an") + len (text "banana$") ≤ 2 ^ 32 ∧
    (find_internal_node st (text "an") = Some (Some 1%nat, 1)
     ↔ locus (text "banana$") (inodes st) (text "an") 1%nat 1).
Proof.
  eexists. split; [vm_compute; reflexivity|]. split; [vm_compute; discriminate|].
  apply (find_internal_node_locus (text "banana$")); [vm_compute; reflexivity|].
  vm_compute. discriminate.
Defined.

(** X8: [find_internal_node] never answers with an internal node for a
    query that does not occur in the text. *)
Theorem find_internal_node_absent t st s :
  build t = Some st → len s + len t ≤ 2 ^ 32 → occurrences s t = 0%nat →
  ∃ r, find_internal_node st s = Some (None, r).
Proof.
  intros Hb Hlen Hocc. destruct (build_inv t st Hb) as (Htxt & D & PI).
  pose proof (pi_tree PI) as TK. rewrite Htxt in TK.
  assert (len t < 2 ^ 32) as Ht by (pose proof (pi_k PI); rewrite Htxt in *; lia).
  destruct (find_internal_node_total t _ _ D st TK Htxt Ht s) as [[[S_|] r] Hf];
    [exfalso|by exists r].
  unfold find_internal_node in Hf. rewrite Htxt in Hf.
  apply (find_loop_locus t _ _ D st TK Htxt s Hlen _ root 0 S_ r) in Hf
    as (HS & (w & Hw & Hr) & _);
    [|destruct (tk_root TK) as [rn Hrn]; by eapply lookup_lt_Some
     |by rewrite (tk_Droot TK)|rewrite (tk_Droot TK); apply prefix_nil
     |unfold len; lia].
  symmetry in Hw.
  destruct (D_occurs _ _ _ _ _ _ S_ TK HS) as (p & Hp0 & Hp1 & Hp).
  pose proof (len_nonneg s). pose proof (len_nonneg w).
  assert (0 < occurrences s t)%nat; [|lia].
  apply (occurrences_pos s t (Z.to_nat p)).
  - rewrite <- Hw, len_app in Hp1. unfold len in *. lia.
  - apply (f_equal (take (length s))) in Hp. rewrite <- Hw in Hp at 1.
    rewrite take_app_length in Hp. etrans; [|symmetry; exact Hp].
    unfold sub. rewrite take_take. f_equal.
    rewrite <- Hw, len_app. unfold len. lia.
Qed.

Lemma find_internal_node_absent_witness :
  ∃ st, build (text "banana$") = Some st ∧
    len (text "nab") + len (text "banana$") ≤ 2 ^ 32 ∧
    occurrences (text "nab") (text "banana$") = 0%nat ∧
    ∃ r, find_internal_node st (text "nab") = Some (None, r).
Proof.
  eexists. split; [vm_compute; reflexivity|]. split; [vm_compute; discriminate|].
  split; [vm_compute; reflexivity|].
  apply (find_internal_node_absent (text "banana$"));
    [vm_compute; reflexivity|vm_compute; discriminate|vm_compute; reflexivity].
Defined.

(** ** What [all_nf] changes *)

Lemma process_keys_only S_ ys : ∀ h h',
  process_keys S_ ys h = Some h' → nf_only h h'.
Proof.
  induction ys as [|y ys IH]; intros h h' H; simpl in H.
  - inversion H; subst. apply nf_only_refl.
  - destruct (h !! S_) as [sn|] eqn:Hs; [|done]. simpl in H.
    destruct (decide _); [|by apply IH].
    eapply nf_only_trans; [|by apply IH].
    split; [by rewrite length_insert|]. intros u un Hu.
    destruct (decide (u = S_)) as [->|Hne].
    + rewrite list_lookup_insert_eq by (by eapply lookup_lt_Some).
      assert (un = sn) as -> by congruence. eauto.
    + rewrite list_lookup_insert_ne by done. exists (nf un). by rewrite set_nf_id.
Qed.

Lemma for_each_only {A} (f : A → list InternalNode → option (list InternalNode)) l :
  (∀ a h h', f a h = Some h' → nf_only h h') →
  ∀ h h', for_each f l h = Some h' → nf_only h h'.
Proof.
  intros Hf. induction l as [|a l IH]; intros h h' H; simpl in H.
  - inversion H; subst. apply nf_only_refl.
  - destruct (f a h) as [h1|] eqn:Ha; [|done]. simpl in H.
    eapply nf_only_trans; [by eapply Hf|by apply IH].
Qed.

Lemma process_only fuel : ∀ x h h', process fuel x h = Some h' → nf_only h h'.
Proof.
  induction fuel as [|fuel IH]; intros x h h' H; [done|]. simpl in H.
  destruct (h !! x) as [xn|] eqn:Hx; [|done]. simpl in H.
  match type of H with (?e ≫= _) = _ => destruct e as [h1|] eqn:Hv end; [|done].
  simpl in H.
  assert (nf_only h h1) as H1.
  { destruct (decide _); [inversion Hv; subst; apply nf_only_refl|].
    simpl in Hv. destruct (suffix_link xn) as [S_|]; [|done]. simpl in Hv.
    eapply nf_only_trans; [|by eapply process_keys_only].
    split; [by rewrite length_insert|]. intros u un Hu.
    destruct (decide (u = x)) as [->|Hne].
    - rewrite list_lookup_insert_eq by (by eapply lookup_lt_Some).
      assert (un = xn) as -> by congruence. eauto.
    - rewrite list_lookup_insert_ne by done. exists (nf un). by rewrite set_nf_id. }
  eapply nf_only_trans; [done|].
  eapply (for_each_only (λ c : ascii * nat, process fuel c.2)); [|done].
  intros a h2 h3. apply IH.
Qed.

Lemma accumulate_only fuel h h' : accumulate fuel h = Some h' → nf_only h h'.
Proof.
  unfold accumulate. intros H. destruct (h !! root) as [r|]; [|done]. simpl in H.
  eapply (for_each_only (λ c : ascii * nat, process fuel c.2)); [|done].
  intros a h2 h3. apply process_only.
Qed.

(** The locator and [single_nf] do not read [nf]. *)
Lemma nf_only_None h h' u : nf_only h h' → h !! u = None → h' !! u = None.
Proof.
  intros [Hl _] Hu. apply lookup_ge_None. apply lookup_ge_None in Hu. lia.
Qed.

Lemma find_loop_nf_only st h s fuel : ∀ node i,
  nf_only (inodes st) h →
  find_loop fuel (set_inodes h st) s node i = find_loop fuel st s node i.
Proof.
  induction fuel as [|fuel IH]; intros node i Hon; [done|]. simpl.
  destruct (decide _) as [|_]; [done|].
  destruct (inodes st !! node) as [nd|] eqn:Hn.
  2:{ by rewrite (nf_only_None _ _ _ Hon Hn). }
  destruct (nf_only_lookup _ _ _ _ Hon Hn) as [z ->]. simpl.
  destruct (char_at s i) as [si|]; [|done]. simpl.
  destruct (internal_children nd !! si) as [ch|]; [|done].
  destruct (inodes st !! ch) as [chn|] eqn:Hch.
  2:{ by rewrite (nf_only_None _ _ _ Hon Hch). }
  destruct (nf_only_lookup _ _ _ _ Hon Hch) as [z' ->]. simpl.
  change (edge_length (set_nf z' chn)) with (edge_length chn).
  destruct (substr s i _) as [a|]; [|done]. simpl.
  destruct (substr (txt st) _ _) as [b|]; [|done]. simpl.
  destruct (decide _); [|done]. by apply IH.
Qed.

Lemma nf_dec_links_nf_only h h' sn xs : ∀ n,
  nf_only h h' → nf_dec_links h' sn xs n = nf_dec_links h sn xs n.
Proof.
  induction xs as [|x xs IH]; intros n Hon; [done|]. simpl.
  destruct (h !! x) as [xn|] eqn:Hx.
  2:{ by rewrite (nf_only_None _ _ _ Hon Hx). }
  destruct (nf_only_lookup _ _ _ _ Hon Hx) as [z ->]. simpl. by apply IH.
Qed.

Lemma nf_dec_links_set_nf h z sn xs : ∀ n,
  nf_dec_links h (set_nf z sn) xs n = nf_dec_links h sn xs n.
Proof.
  induction xs as [|x xs IH]; intros n; [done|]. simpl.
  destruct (h !! x); [|done]. simpl. apply IH.
Qed.

Lemma single_nf_nf_only st h s :
  nf_only (inodes st) h → single_nf (set_inodes h st) s = single_nf st s.
Proof.
  intros Hon. unfold single_nf, find_internal_node.
  change (txt (set_inodes h st)) with (txt st).
  rewrite find_loop_nf_only by done.
  destruct (find_loop _ st s root 0) as [[[S_|] r]|]; [|done..]. simpl.
  destruct r; [|done..].
  destruct (inodes st !! S_) as [sn|] eqn:Hs.
  2:{ by rewrite (nf_only_None _ _ _ Hon Hs). }
  destruct (nf_only_lookup _ _ _ _ Hon Hs) as [z ->]. simpl.
  destruct (decide _); [done|].
  change (weiner_links (set_nf z sn)) with (weiner_links sn).
  rewrite (nf_dec_links_nf_only (inodes st) h) by done.
  apply nf_dec_links_set_nf.
Qed.

(** X9: whatever the tree, a call of [all_nf] that returns has changed
    nothing but [nf] fields of internal nodes; [find_internal_node] and
    [single_nf] answer after it as they did before. *)
Theorem all_nf_only_nf st out st' :
  all_nf st = Some (out, st') →
  st' = set_inodes (inodes st') st ∧
  length (inodes st') = length (inodes st) ∧
  (∀ u un, inodes st !! u = Some un →
           ∃ z, inodes st' !! u = Some (set_nf z un)) ∧
  (∀ s, find_internal_node st' s = find_internal_node st s) ∧
  (∀ s, single_nf st' s = single_nf st s).
Proof.
  unfold all_nf. intros H.
  destruct (accumulate _ _) as [h|] eqn:Hacc; [|done]. simpl in H.
  destruct (report_all _ _) as [o|]; [|done]. simpl in H.
  inversion H; subst. apply accumulate_only in Hacc. simpl.
  split_and!; [done|symmetry; apply Hacc|apply Hacc| |].
  - intros s. unfold find_internal_node.
    change (txt (set_inodes h st)) with (txt st). by apply find_loop_nf_only.
  - intros s. by apply single_nf_nf_only.
Qed.

Lemma all_nf_only_nf_witness :
  ∃ st out st', build (text "banana$") = Some st ∧
    all_nf st = Some (out, st') ∧
    st' = set_inodes (inodes st') st ∧
    length (inodes st') = length (inodes st) ∧
    (∀ u un, inodes st !! u = Some un →
             ∃ z, inodes st' !! u = Some (set_nf z un)) ∧
    (∀ s, find_internal_node st' s = find_internal_node st s) ∧
    (∀ s, single_nf st' s = single_nf st s).
Proof.
  eexists. eexists. eexists. split; [vm_compute; reflexivity|].
  split; [vm_compute; reflexivity|].
  eapply all_nf_only_nf. vm_compute. reflexivity.
Defined.

(** ** [add_links] *)

(** X11: whatever the tree, a call [add_links(node)] that returns leaves
    [need_link] at [node], changes no edge and no child map, touches at
    most the pending node and [node]; the pending node, if there is one,
    then has its suffix link to [node] and is among the Weiner links of
    [node]; and no list of Weiner links gets a duplicate. *)
Theorem add_links_effect n st st' :
  add_links n st = Some st' →
  st' = set_need_link (Some n) (set_inodes (inodes st') st) ∧
  same_tree (inodes st) (inodes st') ∧
  (∀ u, u ≠ n → need_link st ≠ Some u → inodes st' !! u = inodes st !! u) ∧
  (∀ nl, need_link st = Some nl →
         ∃ x' t', inodes st' !! nl = Some x' ∧ suffix_link x' = Some n ∧
                  inodes st' !! n = Some t' ∧ nl ∈ weiner_links t') ∧
  ((∀ u un, inodes st !! u = Some un → NoDup (weiner_links un)) →
   ∀ u un', inodes st' !! u = Some un' → NoDup (weiner_links un')).
Proof.
  intros H. pose proof (add_links_same_tree _ _ _ H) as [_ ST].
  unfold add_links in H. destruct (need_link st) as [nl|] eqn:Hnl.
  2:{ inversion H; subst; simpl. split_and!; [by destruct st|done|done|done|done]. }
  destruct (inodes st !! nl) as [x|] eqn:Hx; [|done]. simpl in H.
  set (h1 := <[nl:=set_suffix_link (Some n) x]> (inodes st)) in *.
  destruct (h1 !! n) as [tn|] eqn:Htn; [|done]. simpl in H.
  assert (nl < length (inodes st))%nat as Hnlt by by eapply lookup_lt_Some.
  assert (n < length h1)%nat as Hnlt1 by by eapply lookup_lt_Some.
  assert (∀ u un, inodes st !! u = Some un → NoDup (weiner_links un) →
            ∀ un1, h1 !! u = Some un1 → NoDup (weiner_links un1)) as Hnd1.
  { intros u un Hu Hnd un1 Hu1. unfold h1 in Hu1.
    apply list_lookup_insert_Some in Hu1 as [(-> & <- & _)|[_ Hu1]].
    - simpl. by assert (x = un) as -> by congruence.
    - by assert (un1 = un) as -> by congruence. }
  destruct (decide (nl ∈ weiner_links tn)) as [Hin|Hnin];
    inversion H; subst; simpl; clear H.
  - split_and!; [done|done| | |].
    + intros u Hun Hunl. unfold h1. rewrite list_lookup_insert_ne; [done|congruence].
    + intros nl' [= <-]. destruct (decide (nl = n)) as [->|Hne].
      * exists tn, tn. unfold h1 in Htn.
        rewrite list_lookup_insert_eq in Htn by done. injection Htn as <-.
        unfold h1. rewrite list_lookup_insert_eq by done. done.
      * exists (set_suffix_link (Some n) x), tn. unfold h1.
        rewrite list_lookup_insert_eq by done. done.
    + intros Hall u un' Hu.
      destruct (lookup_lt_is_Some_2 (inodes st) u) as [un Hun].
      { apply lookup_lt_Some in Hu. unfold h1 in Hu. by rewrite length_insert in Hu. }
      by eapply (Hnd1 u un Hun (Hall u un Hun)).
  - split_and!; [done|done| | |].
    + intros u Hun Hunl. rewrite list_lookup_insert_ne by done.
      unfold h1. rewrite list_lookup_insert_ne; [done|congruence].
    + intros nl' [= <-].
      assert (<[n:=set_weiner_links (weiner_links tn ++ [nl]) tn]> h1 !! n
              = Some (set_weiner_links (weiner_links tn ++ [nl]) tn)) as Hn'
        by by apply list_lookup_insert_eq.
      destruct (decide (nl = n)) as [->|Hne].
      * eexists _, _. split_and!; [exact Hn'| |exact Hn'|simpl; set_solver].
        simpl. unfold h1 in Htn.
        rewrite list_lookup_insert_eq in Htn by done. by injection Htn as <-.
      * exists (set_suffix_link (Some n) x), (set_weiner_links (weiner_links tn ++ [nl]) tn).
        split_and!; [|done|exact Hn'|simpl; set_solver].
        rewrite list_lookup_insert_ne by done. unfold h1.
        by rewrite list_lookup_insert_eq.
    + intros Hall u un' Hu.
      apply list_lookup_insert_Some in Hu as [(-> & <- & _)|[_ Hu]].
      * simpl. apply NoDup_app. split_and!.
        -- destruct (lookup_lt_is_Some_2 (inodes st) u) as [un Hun].
           { unfold h1 in Hnlt1. by rewrite length_insert in Hnlt1. }
           by eapply (Hnd1 u un Hun (Hall u un Hun)).
        -- intros y Hy ->%list_elem_of_singleton. done.
        -- apply NoDup_singleton.
      * destruct (lookup_lt_is_Some_2 (inodes st) u) as [un Hun].
        { apply lookup_lt_Some in Hu. unfold h1 in Hu. by rewrite length_insert in Hu. }
        by eapply (Hnd1 u un Hun (Hall u un Hun)).
Qed.

Lemma add_links_effect_witness :
  ∃ st0 st st', build (text "banana$") = Some st0 ∧
    st = set_need_link (Some 3%nat) st0 ∧
    add_links 1%nat st = Some st' ∧
    st' = set_need_link (Some 1%nat) (set_inodes (inodes st') st) ∧
    same_tree (inodes st) (inodes st') ∧
    (∀ u, u ≠ 1%nat → need_link st ≠ Some u → inodes st' !! u = inodes st !! u) ∧
    (∀ nl, need_link st = Some nl →
           ∃ x' t', inodes st' !! nl = Some x' ∧ suffix_link x' = Some 1%nat ∧
                    inodes st' !! 1%nat = Some t' ∧ nl ∈ weiner_links t') ∧
    ((∀ u un, inodes st !! u = Some un → NoDup (weiner_links un)) →
     ∀ u un', inodes st' !! u = Some un' → NoDup (weiner_links un')).
Proof.
  eexists. eexists. eexists. split; [vm_compute; reflexivity|].
  split; [reflexivity|]. split; [vm_compute; reflexivity|].
  apply add_links_effect. vm_compute. reflexivity.
Defined.

(** ** The values [all_nf] leaves *)

(** X12: on the tree of a sentinel-terminated text, [all_nf] leaves in
    every internal node but the root its net frequency, a number between
    0 and the number of its leaf children; in the root, which it never
    passes to [process], it leaves the negated number of cancelling pairs
    of the root, modulo [2^32]. *)
Theorem all_nf_values t st out st' u un :
  build t = Some st → sentinel_terminated t →
  all_nf st = Some (out, st') → inodes st !! u = Some un →
  ∃ un', inodes st' !! u = Some un' ∧
    (u ≠ root →
     nf un' = net_frequency (inodes st) un ∧
     0 ≤ nf un' ∧ nf un' ≤ Z.of_nat (size (leaf_children un))) ∧
    (u = root → nf un' = wrap32 (- cancelling_pairs (inodes st) un)).
Proof.
  intros Hb Hsen Hall Hu.
  destruct (built_sentinel t st Hb Hsen) as (D & PI & Htxt & Hlv).
  destruct (all_nf_built t D st PI Htxt (inodes st)) as (out' & h1 & Ha & Hs);
    [apply nf_only_refl|by eapply built_nf_range|].
  rewrite set_inodes_id, Hall in Ha. injection Ha as -> ->.
  destruct Hs as [_ Hs]. specialize (Hs u un Hu). simpl.
  eexists. split; [exact Hs|]. simpl.
  rewrite (lk_nf (pi_links PI) u un Hu), Z.add_0_l. unfold bulk_delta. rewrite Hu.
  pose proof (cancelling_pairs_le t D st PI Htxt Hlv u un Hu) as Hle.
  rewrite size_dom in Hle.
  pose proof (gmap_ascii_size (leaf_children un)).
  assert (0 ≤ cancelling_pairs (inodes st) un) as H0.
  { unfold cancelling_pairs. induction (weiner_links un) as [|x xs IH]; simpl; [done|].
    destruct (inodes st !! x); lia. }
  split.
  - intros Hr. rewrite decide_False by done.
    rewrite wrap32_small by lia. unfold net_frequency. rewrite size_dom. lia.
  - intros ->. rewrite decide_True by done. f_equal.
Qed.

Lemma all_nf_values_witness :
  ∃ st out st' un, build (text "aaaa$") = Some st ∧
    sentinel_terminated (text "aaaa$") ∧
    all_nf st = Some (out, st') ∧ inodes st !! 1%nat = Some un ∧
    ∃ un', inodes st' !! 1%nat = Some un' ∧
      (1%nat ≠ root →
       nf un' = net_frequency (inodes st) un ∧
       0 ≤ nf un' ∧ nf un' ≤ Z.of_nat (size (leaf_children un))) ∧
      (1%nat = root → nf un' = wrap32 (- cancelling_pairs (inodes st) un)).
Proof.
  assert (sentinel_terminated (text "aaaa$")) as Hsen.
  { apply sentinel_check_ok. vm_compute. reflexivity. }
  eexists. eexists. eexists. eexists. split; [vm_compute; reflexivity|].
  split; [exact Hsen|]. split; [vm_compute; reflexivity|].
  split; [vm_compute; reflexivity|].
  eapply (all_nf_values (text "aaaa$")); [vm_compute; reflexivity|exact Hsen|..];
    vm_compute; reflexivity.
Defined.

(** ** Weiner links, byte by byte *)

(** X13: in a built tree the Weiner links of an internal node are told
    apart by the first byte of their strings: the string of each is a
    byte followed by the string of the node, and two of them that start
    with the same byte are the same node.  A node has at most 256 Weiner
    links. *)
Theorem weiner_links_by_byte t st u un w :
  build t = Some st → inodes st !! u = Some un →
  node_string t (inodes st) u w →
  (∀ v, v ∈ weiner_links un → ∃ x, node_string t (inodes st) v (x :: w)) ∧
  (∀ v v' x, v ∈ weiner_links un → v' ∈ weiner_links un →
             node_string t (inodes st) v (x :: w) →
             node_string t (inodes st) v' (x :: w) → v = v') ∧
  (length (weiner_links un) ≤ 256)%nat.
Proof.
  intros Hb Hu Hw. destruct (build_inv t st Hb) as (Htxt & D & PI).
  pose proof (pi_tree PI) as TK. rewrite Htxt in TK. pose proof (pi_links PI) as LK.
  apply (node_string_unique _ _ _ _ _ _ TK) in Hw. subst w.
  assert (∀ v, v ∈ weiner_links un →
            (v < length (inodes st))%nat ∧ ∃ x, D v = x :: D u) as Hwl.
  { intros v Hv. apply (lk_wl LK u un v Hu) in Hv as (vn & Hvn & Hsl).
    split; [by eapply lookup_lt_Some|].
    assert (v ≠ root) as Hr.
    { intros ->. by rewrite (lk_root LK vn Hvn) in Hsl. }
    pose proof (lk_suf LK v vn Hvn Hr) as Hsuf. rewrite Hsl in Hsuf.
    by destruct Hsuf. }
  split_and!.
  - intros v Hv. destruct (Hwl v Hv) as (Hvl & x & Hx). exists x.
    rewrite <- Hx. by apply (node_string_D _ _ _ _ _ _ TK).
  - intros v v' x Hv Hv' Hs Hs'.
    apply (D_inj _ _ _ _ _ _ TK); [apply (Hwl v Hv)|apply (Hwl v' Hv')|].
    rewrite <- (node_string_unique _ _ _ _ _ _ TK _ _ Hs).
    by rewrite <- (node_string_unique _ _ _ _ _ _ TK _ _ Hs').
  - pose proof (lk_nodup LK u un Hu) as Hnd.
    set (first := λ v, match D v with x :: _ => nat_of_ascii x | [] => 0%nat end).
    rewrite <- (length_fmap first).
    trans (length (seq 0 256)); [|by rewrite length_seq].
    apply submseteq_length, NoDup_submseteq.
    + apply NoDup_fmap_2_strong; [|done].
      intros v v' Hv Hv' Hf.
      destruct (Hwl v Hv) as (Hvl & x & Hx). destruct (Hwl v' Hv') as (Hvl' & x' & Hx').
      unfold first in Hf. rewrite Hx, Hx' in Hf.
      apply (D_inj _ _ _ _ _ _ TK); [done..|]. rewrite Hx, Hx'. f_equal.
      rewrite <- (ascii_nat_embedding x), <- (ascii_nat_embedding x'). by rewrite Hf.
    + intros n (v & -> & Hv)%list_elem_of_fmap. apply elem_of_seq.
      unfold first. destruct (D v) as [|x ?]; [lia|].
      pose proof (nat_ascii_bounded x). lia.
Qed.

Lemma weiner_links_by_byte_witness :
  ∃ st un, build (text "banana$") = Some st ∧ inodes st !! root = Some un ∧
    node_string (text "banana$") (inodes st) root [] ∧
    (∀ v, v ∈ weiner_links un →
          ∃ x, node_string (text "banana$") (inodes st) v [x]) ∧
    (∀ v v' x, v ∈ weiner_links un → v' ∈ weiner_links un →
               node_string (text "banana$") (inodes st) v [x] →
               node_string (text "banana$") (inodes st) v' [x] → v = v') ∧
    (length (weiner_links un) ≤ 256)%nat.
Proof.
  eexists. eexists. split; [vm_compute; reflexivity|].
  split; [vm_compute; reflexivity|]. split; [constructor|].
  apply (weiner_links_by_byte (text "banana$") _ root);
    [vm_compute; reflexivity|vm_compute; reflexivity|constructor].
Defined.

(** ** What [all_nf] prints *)

Lemma flat_map_concat {A B} (f : A → list B) (ls : list (list A)) :
  flat_map f (concat ls) = concat (map (flat_map f) ls).
Proof.
  induction ls as [|l ls IH]; simpl; [done|]. by rewrite flat_map_app, IH.
Qed.

Lemma mapM_zip_with {A B C} (f : A → option B) (g : A → option C)
    (G : A → B → C) cs ls :
  Forall2 (λ c l, f c = Some l) cs ls →
  (∀ c l, c ∈ cs → f c = Some l → g c = Some (G c l)) →
  mapM g cs = Some (zip_with G cs ls).
Proof.
  induction 1 as [|c l cs ls Hc _ IH]; intros Hg; simpl; [done|].
  rewrite (Hg c l) by (done || by left). simpl.
  rewrite IH; [done|]. intros c' l' Hin. apply Hg. by right.
Qed.

(** [report] prints one line per visited node with a non-zero [nf]. *)
Lemma report_spec t k kl D h0 hl h fuel :
  tree_ok t k kl D h0 hl → len t < 2 ^ 32 → nf_only h0 h →
  ∀ x l sp, dfs fuel h0 x = Some l → 0 ≤ sp → sp ≤ len t →
    report fuel t h x sp (len (D x))
    = Some (flat_map (λ u, report_line t h sp u (D u)) l).
Proof.
  intros TK Ht Hon. pose proof (tk_k TK) as (Hk0 & Hk & _).
  induction fuel as [|fuel IH]; intros x l sp Hd Hsp0 Hsp; [done|].
  simpl in Hd. destruct (h0 !! x) as [xn0|] eqn:H0; [|done]. simpl in Hd.
  destruct (mapM _ _) as [ls|] eqn:Els; [|done]. simpl in Hd. injection Hd as <-.
  destruct (nf_only_lookup _ _ _ _ Hon H0) as [zx Hx].
  simpl. rewrite Hx. simpl.
  apply mapM_Some in Els.
  rewrite (mapM_zip_with (λ c : ascii * nat, dfs fuel h0 c.2) _
             (λ c l, flat_map (λ u, report_line t h sp u (D u)) l) _ ls Els).
  - unfold report_line at 2. rewrite Hx. simpl.
    assert (zip_with (λ (_ : ascii * nat) l,
                flat_map (λ u, report_line t h sp u (D u)) l)
              (map_to_list (internal_children xn0)) ls
            = map (flat_map (λ u, report_line t h sp u (D u))) ls) as ->.
    { clear -Els. induction Els; simpl; [done|]. by f_equal. }
    rewrite flat_map_concat.
    destruct (decide (zx = 0)); [done|].
    unfold substr. rewrite decide_True by (unfold len in *; lia). simpl.
    unfold len. by rewrite Nat2Z.id.
  - intros [c ch] lc Hc%elem_of_map_to_list Hlc. simpl in *.
    destruct (tk_int TK x xn0 c ch H0 Hc) as [cn E].
    destruct (nf_only_lookup _ _ _ _ Hon (ie_lookup E)) as [zc Hzc].
    rewrite Hzc. simpl.
    pose proof (ie_start E). pose proof (ie_lt E). pose proof (ie_end E).
    pose proof (ie_len _ _ _ _ _ _ TK E) as HL.
    assert (ch < length h0)%nat as Hch by (eapply lookup_lt_Some, (ie_lookup E)).
    pose proof (D_len_le _ _ _ _ _ _ TK ch Hch). pose proof (len_nonneg (D x)).
    change (edge_length (set_nf zc cn)) with (edge_length cn).
    unfold edge_length. rewrite (wrap32_small (end_ cn - start cn)) by lia.
    rewrite wrap32_small by lia.
    replace (len (D x) + (end_ cn - start cn)) with (len (D ch)) by lia.
    by apply IH.
Qed.

Lemma Forall2_impl_elem {A B} (P Q : A → B → Prop) l k :
  Forall2 P l k → (∀ x y, x ∈ l → P x y → Q x y) → Forall2 Q l k.
Proof.
  induction 1 as [|x y l k Hxy _ IH]; intros HPQ; constructor.
  - apply HPQ; [by left|done].
  - apply IH. intros x' y' Hin. apply HPQ. by right.
Qed.

Lemma flat_map_fmap {A B C} (f : B → list C) (g : A → B) l :
  flat_map f (g <$> l) = flat_map (λ a, f (g a)) l.
Proof.
  induction l as [|a l IH]; [done|]. rewrite fmap_cons. cbn [flat_map].
  by rewrite IH.
Qed.

Lemma flat_map_zip_with {A B C E} (f : C → list E) (F : A → B → C) cs : ∀ ls,
  flat_map f (concat (zip_with (λ c l, F c <$> l) cs ls))
  = concat (zip_with (λ c l, flat_map (λ u, f (F c u)) l) cs ls).
Proof.
  induction cs as [|c cs IH]; intros [|l ls]; try done.
  cbn [zip_with concat]. by rewrite flat_map_app, flat_map_fmap, IH.
Qed.

Lemma fmap_concat_zip_with {A B C} (F : A → B → C) (p : C → B) cs ls :
  (∀ c u, p (F c u) = u) → length cs = length ls →
  p <$> concat (zip_with (λ c l, F c <$> l) cs ls) = concat ls.
Proof.
  intros Hp. revert ls. induction cs as [|c cs IH]; intros [|l ls] Hl; try done.
  cbn [zip_with concat]. simpl in Hl. rewrite fmap_app, IH by lia. f_equal.
  rewrite <- list_fmap_compose. rewrite <- (list_fmap_id l) at 2.
  apply list_fmap_ext. intros i u _. apply Hp.
Qed.

Lemma elem_of_concat_zip_with {A B C} (P : A → B → Prop) (F : A → B → C) cs ls :
  Forall2 (λ c l, ∀ y, y ∈ l ↔ P c y) cs ls →
  ∀ e, e ∈ concat (zip_with (λ c l, F c <$> l) cs ls)
       ↔ ∃ c u, c ∈ cs ∧ P c u ∧ e = F c u.
Proof.
  induction 1 as [|c l cs ls Hl _ IH]; intros e; cbn [zip_with concat].
  - split; [by intros ?%elem_of_nil|]. by intros (c & u & ?%elem_of_nil & _).
  - rewrite elem_of_app, list_elem_of_fmap, IH. split.
    + intros [(u & -> & Hu)|(c' & u & Hc' & HP & ->)].
      * exists c, u. split_and!; [by left|by apply Hl|done].
      * exists c', u. split_and!; [by right|done..].
    + intros (c' & u & [->|Hc']%elem_of_cons & HP & ->).
      * left. exists u. split; [done|]. by apply Hl.
      * right. eauto.
Qed.

(** X10: on a built tree [all_nf] prints one line for every internal
    node [u] other than the root whose [nf] is then not zero, and no
    other line: the count is that [nf], and the substring is made of the
    first [|w|] bytes of the text from the start of the edge between the
    root and the child [top] of the root above [u], where [w] is the
    string of [u]. *)
Theorem all_nf_output t st out st' :
  build t = Some st → all_nf st = Some (out, st') →
  ∃ l : list (nat * nat * list ascii),
    out = flat_map (report_entry t (inodes st')) l ∧ NoDup l ∧
    ∀ top u w,
      (top, u, w) ∈ l ↔
      (∃ rn c, inodes st !! root = Some rn ∧
               internal_children rn !! c = Some top) ∧
      anc (inodes st) top u ∧ node_string t (inodes st) u w.
Proof.
  intros Hb Hall. destruct (build_inv t st Hb) as (Htxt & D & PI).
  pose proof (pi_tree PI) as TK. rewrite Htxt in TK.
  assert (len t < 2 ^ 32) as Ht by (pose proof (pi_k PI); rewrite Htxt in *; lia).
  unfold all_nf in Hall. rewrite Htxt in Hall.
  destruct (accumulate _ _) as [h|] eqn:Hacc; [|done]. simpl in Hall.
  destruct (report_all t h) as [o|] eqn:Hrep; [|done]. simpl in Hall.
  injection Hall as <- <-. simpl.
  pose proof (accumulate_only _ _ _ Hacc) as Hon.
  destruct (tk_root TK) as [rn Hrn].
  destruct (nf_only_lookup _ _ _ _ Hon Hrn) as [zr Hzr].
  unfold report_all in Hrep. rewrite Hzr in Hrep. simpl in Hrep.
  set (cs := map_to_list (internal_children rn)) in *.
  destruct (dfs_children _ _ _ _ _ _ TK (length t) root rn Hrn)
    as (ls & Hm & Hnd & _).
  { rewrite (tk_Droot TK). unfold len. simpl. lia. }
  fold cs in Hm. apply mapM_Some in Hm.
  (* every child of the root, with the nodes visited below it *)
  assert (Forall2 (λ (c : ascii * nat) l,
            dfs (length t) (inodes st) c.2 = Some l ∧
            ∃ cn, int_edge_ok t (len t) D (inodes st) root c.1 c.2 cn ∧
                  ∀ y, y ∈ l ↔ anc (inodes st) c.2 y) cs ls) as Hcs.
  { eapply Forall2_impl_elem; [exact Hm|].
    intros [c ch] l Hc%elem_of_map_to_list Hl. simpl in *. split; [done|].
    destruct (tk_int TK root rn c ch Hrn Hc) as [cn E]. exists cn. split; [done|].
    pose proof (ie_len _ _ _ _ _ _ TK E) as HL. pose proof (ie_lt E).
    destruct (dfs_tree _ _ _ _ _ _ TK (length t) ch) as (l' & Hl' & _ & Hin).
    { eapply lookup_lt_Some, (ie_lookup E). }
    { unfold len in *. lia. }
    by assert (l' = l) as -> by congruence. }
  rewrite (mapM_zip_with (λ c : ascii * nat, dfs (length t) (inodes st) c.2) _
             (λ c l, flat_map (λ u, report_entry t h (c.2, u, D u)) l) cs ls Hm)
    in Hrep.
  2:{ intros [c ch] l Hc%elem_of_map_to_list Hl. simpl in *.
      destruct (tk_int TK root rn c ch Hrn Hc) as [cn E].
      destruct (nf_only_lookup _ _ _ _ Hon (ie_lookup E)) as [zc Hzc].
      rewrite Hzc. simpl.
      pose proof (ie_start E). pose proof (ie_lt E). pose proof (ie_end E).
      pose proof (ie_len _ _ _ _ _ _ TK E) as HL.
      rewrite (tk_Droot TK) in HL. change (len []) with 0 in HL.
      change (edge_length (set_nf zc cn)) with (edge_length cn).
      unfold edge_length. rewrite wrap32_small by lia.
      replace (end_ cn - start cn) with (len (D ch)) by lia.
      rewrite (report_spec t _ _ D (inodes st) (lnodes st) h (length t) TK Ht Hon
                 ch l (start cn) Hl) by lia.
      f_equal. apply flat_map_ext. intros u. unfold report_entry. simpl.
      by rewrite Hzc. }
  simpl in Hrep. injection Hrep as <-.
  exists (concat (zip_with (λ (c : ascii * nat) l, (λ u, (c.2, u, D u)) <$> l) cs ls)).
  split_and!.
  - by rewrite flat_map_zip_with.
  - apply (NoDup_fmap_1 (λ e : nat * nat * list ascii, e.1.2)).
    rewrite (fmap_concat_zip_with (λ (c : ascii * nat) u, (c.2, u, D u))); [done|done|].
    by eapply Forall2_length.
  - intros top u w.
    rewrite (elem_of_concat_zip_with (λ (c : ascii * nat) y, anc (inodes st) c.2 y)
               (λ (c : ascii * nat) u, (c.2, u, D u)) cs ls).
    2:{ eapply Forall2_impl; [exact Hcs|]. by intros c l (_ & cn & _ & ?). }
    split.
    + intros ([c ch] & u' & Hc%elem_of_map_to_list & Hanc & [= -> -> ->]).
      simpl in *. destruct (tk_int TK root rn c ch Hrn Hc) as [cn E].
      split_and!; [by exists rn, c|done|].
      apply (node_string_D _ _ _ _ _ _ TK).
      eapply (anc_valid _ _ _ _ _ _ TK); [|done].
      eapply lookup_lt_Some, (ie_lookup E).
    + intros ((rn' & c & Hrn' & Hc) & Hanc & Hw).
      assert (rn' = rn) as -> by congruence.
      exists (c, top), u. split_and!; [by apply elem_of_map_to_list|done|].
      by rewrite (node_string_unique _ _ _ _ _ _ TK _ _ Hw).
Qed.

Lemma all_nf_output_witness :
  ∃ st out st', build (text "banana$") = Some st ∧
    all_nf st = Some (out, st') ∧
    ∃ l : list (nat * nat * list ascii),
      out = flat_map (report_entry (text "banana$") (inodes st')) l ∧ NoDup l ∧
      ∀ top u w,
        (top, u, w) ∈ l ↔
        (∃ rn c, inodes st !! root = Some rn ∧
                 internal_children rn !! c = Some top) ∧
        anc (inodes st) top u ∧ node_string (text "banana$") (inodes st) u w.
Proof.
  eexists. eexists. eexists. split; [vm_compute; reflexivity|].
  split; [vm_compute; reflexivity|].
  apply (all_nf_output (text "banana$")); vm_compute; reflexivity.
Defined.

(** The substring printed for a node below a child of the root is read
    at the start of that child's edge: in ["abxabyacxacz$"] the line of
    the node of ["ac"] shows ["ab"], so that, whatever the order of the
    lines, ["ab"] is printed twice and ["ac"] not at all. *)
Lemma all_nf_substring_of_deeper_node :
  ∃ out, (st ← build (text "abxabyacxacz$"); fst <$> all_nf st) = Some out ∧
         out ≡ₚ [(text "ab", 2); (text "ab", 2); (text "xa", 2)].
Proof. eexists. split; [vm_compute; reflexivity|done]. Qed.

(** ** Occurrences in a text *)

Lemma occurs_at_sub (s t : list ascii) p :
  0 ≤ p → p + len s ≤ len t → sub t p (p + len s) = s →
  occurs_at s t (Z.to_nat p).
Proof.
  unfold occurs_at, sub, len. intros Hp Hle Hs. split; [lia|].
  rewrite <- Hs at 2. f_equal. lia.
Qed.

Lemma occurs_at_inv (s t : list ascii) i :
  occurs_at s t i →
  Z.of_nat i + len s ≤ len t ∧ sub t (Z.of_nat i) (Z.of_nat i + len s) = s.
Proof.
  unfold occurs_at, sub, len. intros [Hle Hs]. split; [lia|].
  rewrite <- Hs at 2. f_equal; [lia|]. f_equal. lia.
Qed.

Lemma occurs_at_lookup (s t : list ascii) i j :
  occurs_at s t i → (j < length s)%nat → t !! (i + j)%nat = s !! j.
Proof.
  intros [Hle Hs] Hj. rewrite <- Hs at 1.
  rewrite lookup_take_lt by done. by rewrite lookup_drop.
Qed.

Lemma occurs_at_intro (s t : list ascii) i :
  (i + length s ≤ length t)%nat →
  (∀ j, (j < length s)%nat → t !! (i + j)%nat = s !! j) →
  occurs_at s t i.
Proof.
  intros Hle Hl. split; [done|]. apply list_eq_same_length with (length s).
  - done.
  - rewrite length_take, length_drop. lia.
  - intros j x y Hj Hx Hy. rewrite lookup_take_lt, lookup_drop, Hl in Hx by done.
    congruence.
Qed.

Lemma occurs_at_app (s w t : list ascii) i :
  occurs_at (s ++ w) t i ↔ occurs_at s t i ∧ occurs_at w t (i + length s).
Proof.
  split.
  - intros H. pose proof H as [Hle _]. rewrite length_app in Hle. split.
    + apply occurs_at_intro; [lia|]. intros j Hj.
      rewrite (occurs_at_lookup _ _ _ _ H) by (rewrite length_app; lia).
      by rewrite lookup_app_l.
    + apply occurs_at_intro; [lia|]. intros j Hj.
      replace (i + length s + j)%nat with (i + (length s + j))%nat by lia.
      rewrite (occurs_at_lookup _ _ _ _ H) by (rewrite length_app; lia).
      rewrite lookup_app_r by lia. f_equal. lia.
  - intros [H1 H2]. pose proof H1 as [Hle1 _]. pose proof H2 as [Hle2 _].
    apply occurs_at_intro; [rewrite length_app; lia|]. intros j Hj.
    rewrite length_app in Hj. destruct (decide (j < length s)%nat).
    + rewrite lookup_app_l by done. by apply occurs_at_lookup.
    + rewrite lookup_app_r by lia.
      rewrite <- (occurs_at_lookup _ _ _ _ H2) by lia. f_equal. lia.
Qed.

Lemma occurs_at_one (y : ascii) (t : list ascii) i :
  occurs_at [y] t i ↔ t !! i = Some y.
Proof.
  split.
  - intros H. rewrite <- (Nat.add_0_r i).
    by rewrite (occurs_at_lookup _ _ _ _ H) by (simpl; lia).
  - intros H. apply occurs_at_intro.
    + apply lookup_lt_Some in H. simpl. lia.
    + intros j Hj. simpl in Hj. replace j with 0%nat by lia.
      by rewrite Nat.add_0_r.
Qed.

Lemma occurs_at_snoc (s : list ascii) y t i :
  occurs_at (s ++ [y]) t i ↔ occurs_at s t i ∧ t !! (i + length s)%nat = Some y.
Proof. by rewrite occurs_at_app, occurs_at_one. Qed.

Lemma occurs_at_cons x (s t : list ascii) i :
  occurs_at (x :: s) t i ↔ t !! i = Some x ∧ occurs_at s t (S i).
Proof.
  change (x :: s) with ([x] ++ s). rewrite occurs_at_app, occurs_at_one.
  simpl. by replace (i + 1)%nat with (S i) by lia.
Qed.

Lemma elem_of_positions (s t : list ascii) i :
  i ∈ filter (λ i, take (length s) (drop i t) = s)
        (seq 0 (S (length t) - length s))
  ↔ occurs_at s t i.
Proof.
  rewrite list_elem_of_filter, elem_of_seq. unfold occurs_at. split.
  - intros [? ?]. split; [lia|done].
  - intros [? ?]. split; [done|lia].
Qed.

Lemma NoDup_positions (s t : list ascii) :
  NoDup (filter (λ i, take (length s) (drop i t) = s)
           (seq 0 (S (length t) - length s))).
Proof. apply NoDup_filter, NoDup_seq. Qed.

Lemma occurrences_one (s t : list ascii) :
  occurrences s t = 1%nat
  ↔ ∃ i, occurs_at s t i ∧ ∀ j, occurs_at s t j → j = i.
Proof.
  unfold occurrences. pose proof (elem_of_positions s t) as He.
  pose proof (NoDup_positions s t) as Hnd.
  destruct (filter _ _) as [|a [|b l]]; simpl.
  - split; [done|]. intros (i & Hi & _). apply He in Hi. by apply elem_of_nil in Hi.
  - split; [|done]. intros _. exists a. split; [apply He; by left|].
    intros j Hj%He. by apply list_elem_of_singleton in Hj.
  - split; [done|]. intros (i & _ & Hu).
    assert (a = i) as -> by (apply Hu, He; by left).
    assert (b = i) as -> by (apply Hu, He; right; by left).
    apply NoDup_cons in Hnd as [Hn _]. exfalso. apply Hn. by left.
Qed.

Lemma occurrences_two (s t : list ascii) :
  (2 ≤ occurrences s t)%nat
  ↔ ∃ i j, i ≠ j ∧ occurs_at s t i ∧ occurs_at s t j.
Proof.
  unfold occurrences. pose proof (elem_of_positions s t) as He.
  pose proof (NoDup_positions s t) as Hnd.
  destruct (filter _ _) as [|a [|b l]]; simpl.
  - split; [lia|]. intros (i & _ & _ & Hi & _). apply He in Hi.
    by apply elem_of_nil in Hi.
  - split; [lia|]. intros (i & j & Hij & Hi%He & Hj%He).
    apply list_elem_of_singleton in Hi, Hj. congruence.
  - split; [|lia]. intros _. exists a, b. split_and!.
    + apply NoDup_cons in Hnd as [Hn _]. intros ->. apply Hn. by left.
    + apply He. by left.
    + apply He. right. by left.
Qed.

(** In a sentinel-terminated text a suffix occurs only once. *)
Lemma suffix_occurs_once (s t : list ascii) i j :
  sentinel_terminated t → s ≠ [] → occurs_at s t i →
  (i + length s = length t)%nat → occurs_at s t j → j = i.
Proof.
  intros (t0 & c & -> & Hc) Hs Hi Hend Hj.
  rewrite length_app in Hend. simpl in Hend.
  assert (0 < length s)%nat as Hpos by (destruct s; [done|simpl; lia]).
  pose proof (occurs_at_lookup _ _ _ (length s - 1) Hi ltac:(lia)) as H1.
  pose proof (occurs_at_lookup _ _ _ (length s - 1) Hj ltac:(lia)) as H2.
  replace (i + (length s - 1))%nat with (length t0) in H1 by lia.
  rewrite lookup_app_r, Nat.sub_diag in H1 by lia. simpl in H1.
  rewrite <- H1 in H2. destruct Hj as [Hle _].
  rewrite length_app in Hle. simpl in Hle.
  destruct (decide (j + (length s - 1) < length t0)%nat) as [Hlt|Hge]; [|lia].
  rewrite lookup_app_l in H2 by done.
  exfalso. apply Hc. by eapply list_elem_of_lookup_2.
Qed.

(** ** The nodes of the finished tree and the occurrences in the text *)

Lemma two_elements (X : gset ascii) :
  (2 ≤ size X)%nat → ∃ a b, a ≠ b ∧ a ∈ X ∧ b ∈ X.
Proof.
  intros Hsz. destruct (size_pos_elem_of X ltac:(lia)) as [a Ha].
  assert (0 < size (X ∖ {[a]}))%nat as Hpos.
  { rewrite size_difference by set_solver. rewrite size_singleton. lia. }
  destruct (size_pos_elem_of _ Hpos) as [b Hb].
  exists a, b. set_solver.
Qed.

Lemma occ_prefix_suffix (t w : list ascii) i :
  occurs_at w t i → w `prefix_of` sub t (Z.of_nat i) (len t).
Proof.
  intros [Hle Hw]%occurs_at_inv. rewrite <- Hw.
  pose proof (len_nonneg w). apply sub_prefix_of; lia.
Qed.

Lemma snoc_occ_inj (t w : list ascii) y1 y2 p :
  occurs_at (w ++ [y1]) t p → occurs_at (w ++ [y2]) t p → y1 = y2.
Proof. intros [_ H1]%occurs_at_snoc [_ H2]%occurs_at_snoc. congruence. Qed.

Section Semantics.
Context (t : list ascii) (D : nat → list ascii) (st : SuffixTree).
Hypothesis PI : phase_inv (len t) D st.
Hypothesis Htxt : txt st = t.
Hypothesis Hleaves : Z.of_nat (length (lnodes st)) = len t.
Hypothesis BR : branching (inodes st) (lnodes st).
Hypothesis Hsen : sentinel_terminated t.

Local Abbreviation hi := (inodes st).
Local Abbreviation hl := (lnodes st).
Local Abbreviation TK := (final_tree t D st PI Htxt).

Lemma leaf_child_occ u un y lf :
  hi !! u = Some un → leaf_children un !! y = Some lf →
  occurs_at (D u ++ [y]) t lf.
Proof.
  intros Hu Hl. destruct (tk_leaf TK u un y lf Hu Hl) as [ln E].
  pose proof (leaf_edge_start _ _ _ _ _ _ TK _ _ _ _ E) as Hst.
  pose proof (le_hi E) as Hhi. pose proof (le_key E) as Hkey.
  pose proof (le_D E) as HD. pose proof (len_nonneg (D u)) as H0.
  apply occurs_at_snoc. split.
  - rewrite <- (Nat2Z.id lf). apply occurs_at_sub; [lia|lia|].
    rewrite <- Hst. by symmetry.
  - unfold char_at in Hkey. rewrite Hst in Hkey. unfold len in Hkey.
    by replace (Z.to_nat (Z.of_nat lf + Z.of_nat (length (D u))))
      with (lf + length (D u))%nat in Hkey by lia.
Qed.

Lemma int_child_occ u un c ch :
  hi !! u = Some un → internal_children un !! c = Some ch →
  ∃ p, occurs_at (D u ++ [c]) t p.
Proof.
  intros Hu Hc. destruct (tk_int TK u un c ch Hu Hc) as [cn E].
  pose proof (ie_pos E) as Hpos. pose proof (ie_lt E) as Hlt.
  pose proof (ie_end E) as Hend. pose proof (ie_key E) as Hkey.
  pose proof (ie_occ E) as Hocc. pose proof (len_nonneg (D u)) as H0.
  exists (Z.to_nat (start cn - len (D u))). apply occurs_at_snoc. split.
  - apply occurs_at_sub; [lia|lia|].
    replace (start cn - len (D u) + len (D u)) with (start cn) by lia.
    by symmetry.
  - unfold char_at in Hkey. unfold len in *.
    by replace (Z.to_nat (start cn - Z.of_nat (length (D u))) + length (D u))%nat
      with (Z.to_nat (start cn)) by lia.
Qed.

Lemma key_occ u un c :
  hi !! u = Some un → c ∈ child_keys un → ∃ p, occurs_at (D u ++ [c]) t p.
Proof.
  intros Hu [[lf Hl]%elem_of_dom|[ch Hc]%elem_of_dom]%elem_of_union.
  - exists lf. by eapply leaf_child_occ.
  - by eapply int_child_occ.
Qed.

(** The string of an internal node other than the root is followed in the
    text by two different bytes. *)
Lemma node_two_ext u un :
  hi !! u = Some un → u ≠ root →
  ∃ c1 c2 p1 p2, c1 ≠ c2 ∧ occurs_at (D u ++ [c1]) t p1 ∧
                 occurs_at (D u ++ [c2]) t p2.
Proof.
  intros Hu Hr. destruct BR as (_ & _ & Hbr).
  destruct (two_elements _ (Hbr u un Hu Hr)) as (a & b & Hab & Ha & Hb).
  destruct (key_occ u un a Hu Ha) as [p1 H1].
  destruct (key_occ u un b Hu Hb) as [p2 H2].
  by exists a, b, p1, p2.
Qed.

Lemma node_repeated u un :
  hi !! u = Some un → u ≠ root → (2 ≤ occurrences (D u) t)%nat.
Proof.
  intros Hu Hr. destruct (node_two_ext u un Hu Hr) as (c1 & c2 & p1 & p2 & Hc & H1 & H2).
  apply occurrences_two. exists p1, p2. split_and!.
  - intros ->. apply Hc. by eapply snoc_occ_inj.
  - by apply occurs_at_snoc in H1 as [? _].
  - by apply occurs_at_snoc in H2 as [? _].
Qed.

Lemma occ_leaf (w : list ascii) i :
  occurs_at w t i → w ≠ [] → (i < length hl)%nat.
Proof.
  intros [Hle _] Hw. assert (0 < length w)%nat by (destruct w; [done|simpl; lia]).
  unfold len in Hleaves. lia.
Qed.

(** From a node towards the leaf of an occurrence of its string followed
    by [y]: the child under [y] is an internal node on the way to that
    leaf, or the leaf itself. *)
Lemma toward u un y i :
  hi !! u = Some un → occurs_at (D u ++ [y]) t i →
  (∃ ch cn, internal_children un !! y = Some ch ∧
            int_edge_ok t (len t) D hi u y ch cn ∧
            D ch `prefix_of` sub t (Z.of_nat i) (len t)) ∨
  leaf_children un !! y = Some i.
Proof.
  intros Hu Hocc. pose proof (occ_prefix_suffix _ _ _ Hocc) as Hpre.
  assert (i < length hl)%nat as Hi.
  { apply (occ_leaf _ _ Hocc). by destruct (D u). }
  assert (D u `prefix_of` sub t (Z.of_nat i) (len t)) as Hpu.
  { etrans; [|exact Hpre]. by apply prefix_app_r. }
  destruct (child_toward_leaf _ _ _ _ _ _ TK u un i Hu Hi Hpu)
    as [(c & ch & cn & Hch & E & Hpch)|(c & ln & Hlf & E)].
  - left. assert (c = y) as ->.
    { rewrite (ie_cons _ _ _ _ E) in Hpch.
      change (D u ++ [y]) with (D u ++ y :: []) in Hpre.
      by eapply key_prefix. }
    by exists ch, cn.
  - right. assert (c = y) as ->; [|done].
    pose proof (leaf_child_occ u un c i Hu Hlf) as Hocc'.
    by eapply snoc_occ_inj.
Qed.

Lemma branch_descend m : ∀ a s y1 y2 p1 p2,
  (a < length hi)%nat → D a `prefix_of` s →
  (length s - length (D a) < m)%nat → y1 ≠ y2 →
  occurs_at (s ++ [y1]) t p1 → occurs_at (s ++ [y2]) t p2 →
  ∃ u, (u < length hi)%nat ∧ D u = s.
Proof.
  induction m as [|m IH]; intros a s y1 y2 p1 p2 Ha Hpre Hm Hy H1 H2; [lia|].
  destruct (decide (D a = s)) as [Heq|Hne]; [by exists a|].
  destruct Hpre as [w Hw]. destruct w as [|c w].
  { rewrite app_nil_r in Hw. congruence. }
  destruct (lookup_lt_is_Some_2 hi a Ha) as [an Han].
  assert (occurs_at (D a ++ [c]) t p1) as Ho1.
  { rewrite Hw in H1. replace ((D a ++ c :: w) ++ [y1])
      with ((D a ++ [c]) ++ (w ++ [y1])) in H1 by (by rewrite <- !app_assoc).
    by apply occurs_at_app in H1 as [? _]. }
  assert (occurs_at (D a ++ [c]) t p2) as Ho2.
  { rewrite Hw in H2. replace ((D a ++ c :: w) ++ [y2])
      with ((D a ++ [c]) ++ (w ++ [y2])) in H2 by (by rewrite <- !app_assoc).
    by apply occurs_at_app in H2 as [? _]. }
  pose proof (occ_prefix_suffix _ _ _ H1) as Hs1.
  pose proof (occ_prefix_suffix _ _ _ H2) as Hs2.
  destruct (toward a an c p1 Han Ho1) as [(ch & cn & Hch & E & Hp1)|Hl1];
    destruct (toward a an c p2 Han Ho2) as [(ch2 & cn2 & Hch2 & E2 & Hp2)|Hl2].
  - assert (ch2 = ch) as -> by congruence.
    destruct (decide (length (D ch) ≤ length s)%nat) as [Hle|Hgt].
    + apply (IH ch s y1 y2 p1 p2); [by eapply lookup_lt_Some, (ie_lookup E)| |
        |done..].
      * apply (prefix_of_le _ _ (sub t (Z.of_nat p1) (len t))); [done| |done].
        etrans; [|exact Hs1]. by apply prefix_app_r.
      * pose proof (ie_len _ _ _ _ _ _ TK E) as HL. pose proof (ie_lt E).
        unfold len in HL. lia.
    + exfalso. apply Hy.
      assert ((s ++ y1 :: []) `prefix_of` D ch) as Hq1.
      { apply (prefix_of_le _ _ (sub t (Z.of_nat p1) (len t))); [done..|].
        rewrite length_app. simpl. lia. }
      assert ((s ++ y2 :: []) `prefix_of` D ch) as Hq2.
      { apply (prefix_of_le _ _ (sub t (Z.of_nat p2) (len t))); [done..|].
        rewrite length_app. simpl. lia. }
      by eapply key_prefix.
  - destruct (tk_disj TK a an c Han); congruence.
  - destruct (tk_disj TK a an c Han); congruence.
  - assert (p2 = p1) as -> by congruence. exfalso. apply Hy.
    by eapply snoc_occ_inj.
Qed.

(** A string followed in the text by two different bytes is the string of
    an internal node. *)
Lemma branch_is_node (s : list ascii) y1 y2 p1 p2 :
  y1 ≠ y2 → occurs_at (s ++ [y1]) t p1 → occurs_at (s ++ [y2]) t p2 →
  ∃ u, (u < length hi)%nat ∧ D u = s.
Proof.
  intros Hy H1 H2. destruct (tk_root TK) as [rn Hrn].
  apply (branch_descend (S (length s)) root s y1 y2 p1 p2); [|
    |rewrite (tk_Droot TK); simpl; lia|done..].
  - by eapply lookup_lt_Some.
  - rewrite (tk_Droot TK). apply prefix_nil.
Qed.

(** The leaf children of a node: the bytes [y] for which [s y] occurs
    exactly once, with the position of that occurrence. *)
Lemma leaf_key_iff u un y i :
  hi !! u = Some un →
  leaf_children un !! y = Some i
  ↔ occurs_at (D u ++ [y]) t i ∧ ∀ j, occurs_at (D u ++ [y]) t j → j = i.
Proof.
  intros Hu. split.
  - intros Hl. split; [by eapply leaf_child_occ|]. intros j Hj.
    destruct (toward u un y j Hu Hj) as [(ch & cn & Hch & _)|Hl2].
    + destruct (tk_disj TK u un y Hu); congruence.
    + congruence.
  - intros [Hi Hun].
    destruct (toward u un y i Hu Hi) as [(ch & cn & Hch & E & Hp)|Hl]; [|done].
    exfalso. pose proof (ie_cons _ _ _ _ E) as HD.
    assert (ch ≠ root) as Hr.
    { intros ->. rewrite (tk_Droot TK) in HD. by destruct (D u). }
    destruct (node_two_ext ch cn (ie_lookup E) Hr)
      as (c1 & c2 & p1 & p2 & Hc & H1 & H2).
    assert (∀ c p, occurs_at (D ch ++ [c]) t p → p = i) as Hall.
    { intros c p Hp'. apply Hun. rewrite HD in Hp'.
      replace ((D u ++ y :: sub t (start cn + 1) (end_ cn)) ++ [c])
        with ((D u ++ [y]) ++ (sub t (start cn + 1) (end_ cn) ++ [c])) in Hp'
        by (by rewrite <- !app_assoc).
      by apply occurs_at_app in Hp' as [? _]. }
    apply Hc. rewrite (Hall _ _ H1) in H1. rewrite (Hall _ _ H2) in H2.
    by eapply snoc_occ_inj.
Qed.

(** Under an internal child the string goes on in at least two places. *)
Lemma int_key_repeated u un y ch :
  hi !! u = Some un → internal_children un !! y = Some ch →
  (2 ≤ occurrences (D u ++ [y]) t)%nat.
Proof.
  intros Hu Hc. destruct (tk_int TK u un y ch Hu Hc) as [cn E].
  pose proof (ie_cons _ _ _ _ E) as HD.
  assert (ch ≠ root) as Hr.
  { intros ->. rewrite (tk_Droot TK) in HD. by destruct (D u). }
  pose proof (node_repeated ch cn (ie_lookup E) Hr) as Hrep.
  apply occurrences_two in Hrep as (i & j & Hij & Hi & Hj).
  apply occurrences_two. exists i, j. split; [done|].
  rewrite HD in Hi, Hj.
  replace (D u ++ y :: sub t (start cn + 1) (end_ cn))
    with ((D u ++ [y]) ++ sub t (start cn + 1) (end_ cn)) in Hi, Hj
    by (by rewrite <- !app_assoc).
  apply occurs_at_app in Hi as [? _]. apply occurs_at_app in Hj as [? _]. done.
Qed.

(** A repeated string with an occurrence whose right extension is unique
    is the string of an internal node. *)
Lemma rep_unique_is_node (s : list ascii) y i j :
  s ≠ [] → occurs_at s t i → occurs_at s t j → i ≠ j →
  t !! (i + length s)%nat = Some y →
  (∀ p, occurs_at (s ++ [y]) t p → p = i) →
  ∃ u, (u < length hi)%nat ∧ D u = s.
Proof.
  intros Hs Hi Hj Hij Hy Hun.
  destruct (decide (j + length s = length t)%nat) as [Hend|Hnend].
  { exfalso. apply Hij. by eapply (suffix_occurs_once s t j i). }
  destruct (lookup_lt_is_Some_2 t (j + length s)%nat) as [y' Hy'].
  { destruct Hj as [? _]. lia. }
  apply (branch_is_node s y y' i j).
  - intros ->. apply Hij. symmetry. apply Hun. by apply occurs_at_snoc.
  - by apply occurs_at_snoc.
  - by apply occurs_at_snoc.
Qed.

(** The Weiner links of a node: the internal nodes of the strings [x s]. *)
Lemma weiner_iff u un x :
  hi !! u = Some un →
  x ∈ weiner_links un ↔ (x < length hi)%nat ∧ ∃ c, D x = c :: D u.
Proof.
  intros Hu. pose proof (pi_links PI) as LK.
  rewrite (lk_wl LK u un x Hu). split.
  - intros (xn & Hx & Hsl). split; [by eapply lookup_lt_Some|].
    assert (x ≠ root) as Hr.
    { intros ->. rewrite (lk_root LK xn Hx) in Hsl. done. }
    pose proof (lk_suf LK x xn Hx Hr) as Hsuf. rewrite Hsl in Hsuf.
    by destruct Hsuf as [_ ?].
  - intros [Hx [c HD]]. destruct (lookup_lt_is_Some_2 hi x Hx) as [xn Hxn].
    exists xn. split; [done|].
    assert (x ≠ root) as Hr.
    { intros ->. by rewrite (tk_Droot TK) in HD. }
    pose proof (lk_suf LK x xn Hxn Hr) as Hsuf.
    destruct (suffix_link xn) as [v|]; [|done].
    destruct Hsuf as [Hv [c' HD']]. f_equal.
    apply (D_inj _ _ _ _ _ _ TK); [done|by eapply lookup_lt_Some|].
    congruence.
Qed.

End Semantics.

(** ** Net occurrences *)

Lemma elem_of_net (t s : list ascii) i :
  i ∈ filter (λ i, net_occurrence t s i = true)
        (seq 0 (S (length t) - length s))
  ↔ occurs_at s t i ∧ (2 ≤ occurrences s t)%nat ∧
    left_unique t s i = true ∧ right_unique t s i = true.
Proof.
  rewrite list_elem_of_filter, elem_of_seq. unfold net_occurrence, occurs_at.
  rewrite !andb_true_iff, bool_decide_eq_true, Nat.leb_le. split.
  - intros [[[[? ?] ?] ?] ?]. split_and!; (done || lia).
  - intros [[? ?] [? [? ?]]]. split_and!; (done || lia).
Qed.

Lemma right_unique_iff (t s : list ascii) i :
  sentinel_terminated t → s ≠ [] → occurs_at s t i →
  (2 ≤ occurrences s t)%nat →
  right_unique t s i = true
  ↔ ∃ y, t !! (i + length s)%nat = Some y ∧
         ∀ p, occurs_at (s ++ [y]) t p → p = i.
Proof.
  intros Hsen Hs Hi Hrep. unfold right_unique. split.
  - destruct (t !! (i + length s)%nat) as [y|] eqn:Hy.
    + intros H1%Nat.eqb_eq. apply occurrences_one in H1 as (p0 & Hp0 & Hun).
      exists y. split; [done|]. intros p Hp.
      rewrite (Hun p Hp). symmetry. apply Hun. by apply occurs_at_snoc.
    + intros _. exfalso. apply lookup_ge_None in Hy. pose proof Hi as [Hle _].
      apply occurrences_two in Hrep as (a & b & Hab & Ha & Hb). apply Hab.
      rewrite (suffix_occurs_once s t i a Hsen Hs Hi ltac:(lia) Ha).
      by rewrite (suffix_occurs_once s t i b Hsen Hs Hi ltac:(lia) Hb).
  - intros (y & Hy & Hun). rewrite Hy. apply Nat.eqb_eq, occurrences_one.
    exists i. split; [|done]. by apply occurs_at_snoc.
Qed.

Lemma left_unique_iff (t s : list ascii) i :
  occurs_at s t i →
  left_unique t s i = true
  ↔ ∀ j x, i = S j → t !! j = Some x → ∀ p, occurs_at (x :: s) t p → p = j.
Proof.
  intros Hi. unfold left_unique. split.
  - intros H j x -> Hx p Hp. rewrite Hx in H. apply Nat.eqb_eq in H.
    apply occurrences_one in H as (p0 & Hp0 & Hun).
    rewrite (Hun p Hp). symmetry. apply Hun. by apply occurs_at_cons.
  - intros H. destruct i as [|j]; [done|].
    destruct (t !! j) as [x|] eqn:Hx; [|done].
    apply Nat.eqb_eq, occurrences_one. exists j. split.
    + by apply occurs_at_cons.
    + by apply (H j x).
Qed.

Section Counting.
Context (t : list ascii) (D : nat → list ascii) (st : SuffixTree).
Hypothesis PI : phase_inv (len t) D st.
Hypothesis Htxt : txt st = t.
Hypothesis Hleaves : Z.of_nat (length (lnodes st)) = len t.
Hypothesis BR : branching (inodes st) (lnodes st).
Hypothesis Hsen : sentinel_terminated t.

Local Abbreviation hi := (inodes st).
Local Abbreviation hl := (lnodes st).
Local Abbreviation TK := (final_tree t D st PI Htxt).

(** The cancelling pairs of [S], counted by their byte [y]. *)
Lemma pairs_sum_eq S_ sn xs :
  hi !! S_ = Some sn → NoDup xs →
  (∀ x, x ∈ xs → ∃ xn, hi !! x = Some xn ∧ suffix_link xn = Some S_) →
  ∃ U : gset ascii, U ⊆ dom (leaf_children sn) ∧
    (∀ y, y ∈ U ↔ ∃ x xn, x ∈ xs ∧ hi !! x = Some xn ∧
                          y ∈ shared_leaf_keys xn sn) ∧
    foldr (λ x acc,
             match hi !! x with
             | Some xn => Z.of_nat (size (shared_leaf_keys xn sn))
             | None => 0
             end + acc) 0 xs = Z.of_nat (size U).
Proof.
  intros Hs. induction xs as [|x xs IH]; intros Hnd Hall.
  - exists ∅. split_and!; [set_solver| |by rewrite size_empty].
    intros y. split; [set_solver|]. intros (x & xn & Hx & _).
    by apply elem_of_nil in Hx.
  - apply NoDup_cons in Hnd as [Hx Hnd].
    destruct IH as (U & HU & Hfrom & Hsum); [done|intros; apply Hall; by right|].
    destruct (Hall x ltac:(left)) as (xn & Hxn & Hsl).
    exists (shared_leaf_keys xn sn ∪ U). split_and!.
    + unfold shared_leaf_keys at 1. set_solver.
    + intros y. rewrite elem_of_union, Hfrom. split.
      * intros [Hy|(x' & xn' & ? & ? & ?)].
        -- exists x, xn. split; [by left|done].
        -- exists x', xn'. split; [by right|done].
      * intros (x' & xn' & [->|Hin]%elem_of_cons & Hxn' & Hy).
        -- left. congruence.
        -- right. by exists x', xn'.
    + simpl. rewrite Hxn, Hsum, size_union; [lia|].
      intros y Hy1 Hy2. apply Hfrom in Hy2 as (x' & xn' & Hin & Hxn' & Hy').
      destruct (Hall x' ltac:(by right)) as (xn'' & Hxn'' & Hsl').
      assert (xn'' = xn') as -> by congruence.
      assert (x = x') as -> by (by eapply (pair_unique t D st PI Htxt)).
      done.
Qed.

(** What [single_nf] computes at a node is the number of net occurrences
    of the string of the node. *)
Lemma net_frequency_counts S_ sn :
  hi !! S_ = Some sn → S_ ≠ root →
  net_frequency hi sn = Z.of_nat (net_occurrences t (D S_)).
Proof.
  intros Hs Hr. pose proof (pi_links PI) as LK.
  assert (S_ < length hi)%nat as HS by (by eapply lookup_lt_Some).
  pose proof (D_nonroot _ _ _ _ _ _ TK S_ HS Hr) as Hne.
  pose proof (node_repeated t D st PI Htxt BR S_ sn Hs Hr) as Hrep.
  destruct (pairs_sum_eq S_ sn (weiner_links sn) Hs) as (U & HU & HUiff & Hsum).
  { apply (lk_nodup LK S_ sn Hs). }
  { intros x Hx. by apply (lk_wl LK S_ sn x Hs). }
  unfold net_frequency, cancelling_pairs. rewrite Hsum.
  set (N := dom (leaf_children sn) ∖ U).
  assert (size N = size (dom (leaf_children sn)) - size U)%nat as HN
    by (by apply size_difference).
  pose proof (subseteq_size _ _ HU) as HUle.
  set (g := λ y : ascii, default 0%nat (leaf_children sn !! y)).
  assert (filter (λ i, net_occurrence t (D S_) i = true)
            (seq 0 (S (length t) - length (D S_)))
          ≡ₚ g <$> elements N) as Hperm.
  { apply NoDup_Permutation.
    - apply NoDup_filter, NoDup_seq.
    - apply NoDup_fmap_2_strong; [|apply NoDup_elements].
      intros a b Ha Hb Hg. apply elem_of_elements, elem_of_difference in Ha as [Ha _].
      apply elem_of_elements, elem_of_difference in Hb as [Hb _].
      apply elem_of_dom in Ha as [la Hla]. apply elem_of_dom in Hb as [lb Hlb].
      unfold g in Hg. rewrite Hla, Hlb in Hg. simpl in Hg. subst lb.
      by destruct (leaf_parent_unique _ _ _ _ _ _ TK _ _ _ _ _ _ _ Hs Hla Hs Hlb).
    - intros i. rewrite elem_of_net, list_elem_of_fmap. split.
      + intros (Hi & _ & Hleft & Hright).
        apply (right_unique_iff t _ i Hsen Hne Hi Hrep) in Hright
          as (y & Hy & Hun).
        assert (leaf_children sn !! y = Some i) as Hl.
        { apply (leaf_key_iff t D st PI Htxt Hleaves BR S_ sn y i Hs).
          split; [by apply occurs_at_snoc|done]. }
        exists y. split; [unfold g; by rewrite Hl|].
        apply elem_of_elements, elem_of_difference. split; [by apply elem_of_dom|].
        intros (x & xn & Hx & Hxn & Hsh)%HUiff.
        apply (weiner_iff t D st PI Htxt S_ sn x Hs) in Hx as [Hxv [c HDx]].
        unfold shared_leaf_keys in Hsh.
        apply elem_of_intersection in Hsh as [[l Hlx]%elem_of_dom _].
        pose proof (leaf_child_occ t D st PI Htxt x xn y l Hxn Hlx) as Ho.
        rewrite HDx in Ho. change ((c :: D S_) ++ [y]) with (c :: (D S_ ++ [y])) in Ho.
        apply occurs_at_cons in Ho as [Hc Ho]. specialize (Hun _ Ho). subst i.
        pose proof (proj1 (left_unique_iff t _ _ Hi) Hleft l c eq_refl Hc) as Hlu.
        assert (x ≠ root) as Hxr.
        { intros ->. by rewrite (tk_Droot TK) in HDx. }
        pose proof (node_repeated t D st PI Htxt BR x xn Hxn Hxr) as Hrx.
        rewrite HDx in Hrx. apply occurrences_two in Hrx as (a & b & Hab & Ha & Hb).
        apply Hab. by rewrite (Hlu a Ha), (Hlu b Hb).
      + intros (y & -> & [Hy HyU]%elem_of_elements%elem_of_difference).
        apply elem_of_dom in Hy as [i Hl]. unfold g. rewrite Hl. simpl.
        apply (leaf_key_iff t D st PI Htxt Hleaves BR S_ sn y i Hs) in Hl as Ho.
        destruct Ho as [Ho Hun]. pose proof Ho as [Hi Hy]%occurs_at_snoc.
        split_and!; [done|done| |].
        * apply (left_unique_iff t _ _ Hi). intros j x -> Hx p Hp.
          destruct (decide (p = j)) as [|Hpj]; [done|]. exfalso. apply HyU.
          destruct (rep_unique_is_node t D st PI Htxt Hleaves Hsen
                      (x :: D S_) y j p) as (X & HX & HDX);
            [done|by apply occurs_at_cons|done|done| | |].
          { simpl. by replace (j + S (length (D S_)))%nat
              with (S j + length (D S_))%nat by lia. }
          { intros q Hq. change ((x :: D S_) ++ [y]) with (x :: (D S_ ++ [y])) in Hq.
            apply occurs_at_cons in Hq as [_ Hq]. specialize (Hun _ Hq). lia. }
          destruct (lookup_lt_is_Some_2 hi X HX) as [Xn HXn].
          apply HUiff. exists X, Xn. split_and!; [|done|].
          -- apply (weiner_iff t D st PI Htxt S_ sn X Hs). split; [done|by exists x].
          -- unfold shared_leaf_keys.
             apply elem_of_intersection. split; apply elem_of_dom; [|by exists (S j)].
             exists j. apply (leaf_key_iff t D st PI Htxt Hleaves BR X Xn y j HXn).
             rewrite HDX. change ((x :: D S_) ++ [y]) with (x :: (D S_ ++ [y])).
             split.
             ++ apply occurs_at_cons. split; [done|exact Ho].
             ++ intros q [_ Hq]%occurs_at_cons. specialize (Hun _ Hq). lia.
        * apply (right_unique_iff t _ _ Hsen Hne Hi Hrep). by exists y. }
  unfold net_occurrences. rewrite Hperm, length_fmap.
  change (length (elements N)) with (size N). lia.
Qed.

End Counting.

(** ** The finished tree, read against the text *)

(** X14: in the tree of a sentinel-terminated text the internal nodes
    other than the root are exactly the branching strings: a non-empty
    string is spelled by the path to an internal node if and only if it
    is followed in the text by two different bytes. *)
Theorem internal_nodes_are_branching t st s :
  build t = Some st → sentinel_terminated t → s ≠ [] →
  (∃ u, node_string t (inodes st) u s)
  ↔ ∃ y1 y2 p1 p2, y1 ≠ y2 ∧ occurs_at (s ++ [y1]) t p1 ∧
                   occurs_at (s ++ [y2]) t p2.
Proof.
  intros Hb Hsen Hs. destruct (built_sentinel t st Hb Hsen) as (D & PI & Htxt & Hlv).
  pose proof (build_branching t st Hb) as BR.
  pose proof (final_tree t D st PI Htxt) as TK. split.
  - intros [u Hu]. pose proof (node_string_valid _ _ _ _ _ _ _ _ TK Hu) as Hv.
    apply (node_string_unique _ _ _ _ _ _ TK) in Hu. subst s.
    destruct (lookup_lt_is_Some_2 _ _ Hv) as [un Hun].
    apply (node_two_ext t D st PI Htxt BR u un Hun).
    intros ->. by rewrite (tk_Droot TK) in Hs.
  - intros (y1 & y2 & p1 & p2 & Hy & H1 & H2).
    destruct (branch_is_node t D st PI Htxt Hlv s y1 y2 p1 p2 Hy H1 H2)
      as (u & Hu & <-).
    exists u. by apply (node_string_D _ _ _ _ _ _ TK).
Qed.

Lemma internal_nodes_are_branching_witness :
  ∃ st, build (text "banana$") = Some st ∧
    sentinel_terminated (text "banana$") ∧ text "ana" ≠ [] ∧
    ((∃ u, node_string (text "banana$") (inodes st) u (text "ana"))
     ↔ ∃ y1 y2 p1 p2, y1 ≠ y2 ∧
         occurs_at (text "ana" ++ [y1]) (text "banana$") p1 ∧
         occurs_at (text "ana" ++ [y2]) (text "banana$") p2).
Proof.
  assert (sentinel_terminated (text "banana$")) as Hsen.
  { apply sentinel_check_ok. vm_compute. reflexivity. }
  eexists. split; [vm_compute; reflexivity|]. split; [exact Hsen|].
  split; [done|].
  apply (internal_nodes_are_branching (text "banana$"));
    [vm_compute; reflexivity|exact Hsen|done].
Defined.

(** X15: the children of an internal node, read against the text.  With
    [s] the string of the node, a byte [y] keys a leaf child exactly when
    [s y] occurs once in the text, and the handle of that leaf is the
    position of the occurrence (the unique right extensions that
    [single_nf] counts); [y] keys an internal child exactly when [s y]
    occurs at least twice. *)
Theorem children_are_right_extensions t st u un s :
  build t = Some st → sentinel_terminated t →
  inodes st !! u = Some un → node_string t (inodes st) u s →
  (∀ y i, leaf_children un !! y = Some i
          ↔ occurs_at (s ++ [y]) t i ∧ occurrences (s ++ [y]) t = 1%nat) ∧
  (∀ y, is_Some (internal_children un !! y)
        ↔ (2 ≤ occurrences (s ++ [y]) t)%nat).
Proof.
  intros Hb Hsen Hu Hns.
  destruct (built_sentinel t st Hb Hsen) as (D & PI & Htxt & Hlv).
  pose proof (build_branching t st Hb) as BR.
  pose proof (final_tree t D st PI Htxt) as TK.
  apply (node_string_unique _ _ _ _ _ _ TK) in Hns. subst s.
  assert (∀ y i, leaf_children un !! y = Some i
                 ↔ occurs_at (D u ++ [y]) t i ∧ occurrences (D u ++ [y]) t = 1%nat)
    as Hleaf.
  { intros y i. rewrite (leaf_key_iff t D st PI Htxt Hlv BR u un y i Hu).
    rewrite occurrences_one. split.
    - intros [Hi Hun]. split; [done|]. by exists i.
    - intros [Hi (i0 & Hi0 & Hun)]. split; [done|]. intros j Hj.
      by rewrite (Hun j Hj), (Hun i Hi). }
  split; [exact Hleaf|]. intros y. split.
  - intros [ch Hch]. by eapply (int_key_repeated t D st PI Htxt BR u un y ch).
  - intros Hrep. pose proof Hrep as (i & j & Hij & Hi & Hj)%occurrences_two.
    destruct (toward t D st PI Htxt Hlv u un y i Hu Hi)
      as [(ch & cn & Hch & _)|Hl]; [by exists ch|].
    apply Hleaf in Hl as [_ Hone]. lia.
Qed.

Lemma children_are_right_extensions_witness :
  ∃ st un, build (text "banana$") = Some st ∧
    sentinel_terminated (text "banana$") ∧
    inodes st !! root = Some un ∧
    node_string (text "banana$") (inodes st) root [] ∧
    (∀ y i, leaf_children un !! y = Some i
            ↔ occurs_at ([] ++ [y]) (text "banana$") i ∧
              occurrences ([] ++ [y]) (text "banana$") = 1%nat) ∧
    (∀ y, is_Some (internal_children un !! y)
          ↔ (2 ≤ occurrences ([] ++ [y]) (text "banana$"))%nat).
Proof.
  assert (sentinel_terminated (text "banana$")) as Hsen.
  { apply sentinel_check_ok. vm_compute. reflexivity. }
  eexists. eexists. split; [vm_compute; reflexivity|]. split; [exact Hsen|].
  split; [vm_compute; reflexivity|]. split; [apply ns_root|].
  eapply (children_are_right_extensions (text "banana$") _ root);
    [vm_compute; reflexivity|exact Hsen|vm_compute; reflexivity|apply ns_root].
Defined.

(** X16: the Weiner links of an internal node, read against the text.
    With [s] the string of the node, its Weiner links are exactly the
    internal nodes whose string is [x s] for a byte [x], and there is one
    for [x] exactly when [x s] is followed in the text by two different
    bytes. *)
Theorem weiner_links_are_left_extensions t st u un s :
  build t = Some st → sentinel_terminated t →
  inodes st !! u = Some un → node_string t (inodes st) u s →
  (∀ v, v ∈ weiner_links un ↔ ∃ x, node_string t (inodes st) v (x :: s)) ∧
  (∀ x, (∃ v, v ∈ weiner_links un ∧ node_string t (inodes st) v (x :: s))
        ↔ ∃ y1 y2 p1 p2, y1 ≠ y2 ∧ occurs_at (x :: s ++ [y1]) t p1 ∧
                         occurs_at (x :: s ++ [y2]) t p2).
Proof.
  intros Hb Hsen Hu Hns.
  destruct (built_sentinel t st Hb Hsen) as (D & PI & Htxt & Hlv).
  pose proof (build_branching t st Hb) as BR.
  pose proof (final_tree t D st PI Htxt) as TK.
  apply (node_string_unique _ _ _ _ _ _ TK) in Hns. subst s.
  assert (∀ v, v ∈ weiner_links un
               ↔ ∃ x, node_string t (inodes st) v (x :: D u)) as Hwl.
  { intros v. rewrite (weiner_iff t D st PI Htxt u un v Hu). split.
    - intros [Hv [c HD]]. exists c. rewrite <- HD.
      by apply (node_string_D _ _ _ _ _ _ TK).
    - intros [x Hx]. split; [by eapply node_string_valid|]. exists x.
      symmetry. by apply (node_string_unique _ _ _ _ _ _ TK). }
  split; [exact Hwl|]. intros x. split.
  - intros (v & _ & Hv).
    pose proof (node_string_valid _ _ _ _ _ _ _ _ TK Hv) as Hvv.
    apply (node_string_unique _ _ _ _ _ _ TK) in Hv.
    destruct (lookup_lt_is_Some_2 _ _ Hvv) as [vn Hvn].
    change (∃ y1 y2 p1 p2, y1 ≠ y2 ∧ occurs_at ((x :: D u) ++ [y1]) t p1 ∧
                           occurs_at ((x :: D u) ++ [y2]) t p2).
    rewrite Hv. apply (node_two_ext t D st PI Htxt BR v vn Hvn).
    intros ->. by rewrite (tk_Droot TK) in Hv.
  - intros (y1 & y2 & p1 & p2 & Hy & H1 & H2).
    destruct (branch_is_node t D st PI Htxt Hlv (x :: D u) y1 y2 p1 p2 Hy H1 H2)
      as (v & Hv & HD).
    exists v. assert (node_string t (inodes st) v (x :: D u)) as Hnv.
    { rewrite <- HD. by apply (node_string_D _ _ _ _ _ _ TK). }
    split; [|done]. apply Hwl. by exists x.
Qed.

Lemma weiner_links_are_left_extensions_witness :
  ∃ st un, build (text "banana$") = Some st ∧
    sentinel_terminated (text "banana$") ∧
    inodes st !! root = Some un ∧
    node_string (text "banana$") (inodes st) root [] ∧
    (∀ v, v ∈ weiner_links un
          ↔ ∃ x, node_string (text "banana$") (inodes st) v [x]) ∧
    (∀ x, (∃ v, v ∈ weiner_links un ∧
                node_string (text "banana$") (inodes st) v [x])
          ↔ ∃ y1 y2 p1 p2, y1 ≠ y2 ∧
              occurs_at (x :: [] ++ [y1]) (text "banana$") p1 ∧
              occurs_at (x :: [] ++ [y2]) (text "banana$") p2).
Proof.
  assert (sentinel_terminated (text "banana$")) as Hsen.
  { apply sentinel_check_ok. vm_compute. reflexivity. }
  eexists. eexists. split; [vm_compute; reflexivity|]. split; [exact Hsen|].
  split; [vm_compute; reflexivity|]. split; [apply ns_root|].
  eapply (weiner_links_are_left_extensions (text "banana$") _ root);
    [vm_compute; reflexivity|exact Hsen|vm_compute; reflexivity|apply ns_root].
Defined.

(** ** What [single_nf] and [all_nf] count *)

(** X17: on the tree of a sentinel-terminated text, [single_nf] of a
    non-empty query returns the number of net occurrences of the query in
    the text: the occurrences of a repeated string whose extension by the
    next byte and whose extension by the previous byte are both found
    nowhere else.  It is 0 for a query that does not occur, occurs once,
    or is always followed by the same byte. *)
Theorem single_nf_counts_net_occurrences t st s :
  build t = Some st → sentinel_terminated t → s ≠ [] →
  len s + len t ≤ 2 ^ 32 →
  single_nf st s = Some (Z.of_nat (net_occurrences t s)).
Proof.
  intros Hb Hsen Hs Hlen.
  destruct (built_sentinel t st Hb Hsen) as (D & PI & Htxt & Hlv).
  pose proof (build_branching t st Hb) as BR.
  pose proof (final_tree t D st PI Htxt) as TK.
  pose proof (pi_k PI) as (_ & _ & Ht). rewrite Htxt in Ht.
  destruct (find_internal_node_total t _ _ D st TK Htxt Ht s) as [r Hf].
  assert ((∃ S_, r = (Some S_, 0)) ∨ ¬ ∃ S_, r = (Some S_, 0)) as [[S_ ->]|Hno].
  { destruct r as [[S_|] z]; [|right; by intros [? ?]].
    destruct (decide (z = 0)) as [->|]; [left; by exists S_|].
    right. intros [? ?]. congruence. }
  - pose proof Hf as [HS HD]%(find_internal_node_spec t _ _ D st TK Htxt s Hlen S_).
    destruct (lookup_lt_is_Some_2 _ _ HS) as [sn Hsn].
    destruct (single_nf_exact t st s S_ sn Hb Hsen Hf Hsn) as [_ ->].
    f_equal. rewrite <- HD.
    apply (net_frequency_counts t D st PI Htxt Hlv BR Hsen S_ sn Hsn).
    intros ->. rewrite (tk_Droot TK) in HD. congruence.
  - assert (single_nf st s = Some 0) as ->.
    { unfold single_nf. rewrite Hf. simpl. destruct r as [[S_|] z]; [|done].
      destruct z; [|done..]. exfalso. apply Hno. by exists S_. }
    f_equal. unfold net_occurrences.
    destruct (filter _ _) as [|i l] eqn:E; [done|]. exfalso.
    assert (i ∈ filter (λ i, net_occurrence t s i = true)
              (seq 0 (S (length t) - length s))) as Hi by (rewrite E; by left).
    apply elem_of_net in Hi as (Hi & Hrep & _ & Hright).
    apply (right_unique_iff t s i Hsen Hs Hi Hrep) in Hright as (y & Hy & Hun).
    apply occurrences_two in Hrep as (a & b & Hab & Ha & Hb').
    assert (∃ j, occurs_at s t j ∧ i ≠ j) as (j & Hj & Hij).
    { destruct (decide (a = i)) as [->|]; [by exists b|by exists a]. }
    destruct (rep_unique_is_node t D st PI Htxt Hlv Hsen s y i j Hs Hi Hj Hij Hy Hun)
      as (u & Hu & HD).
    apply Hno. exists u.
    assert (find_internal_node st s = Some (Some u, 0)) as Hfu
      by (by apply (find_internal_node_spec t _ _ D st TK Htxt s Hlen u)).
    congruence.
Qed.

Lemma single_nf_counts_net_occurrences_witness :
  ∃ st, build paper_text = Some st ∧ sentinel_terminated paper_text ∧
    text "abcd" ≠ [] ∧ len (text "abcd") + len paper_text ≤ 2 ^ 32 ∧
    single_nf st (text "abcd")
    = Some (Z.of_nat (net_occurrences paper_text (text "abcd"))).
Proof.
  assert (sentinel_terminated paper_text) as Hsen.
  { apply sentinel_check_ok. vm_compute. reflexivity. }
  eexists. split; [vm_compute; reflexivity|]. split; [exact Hsen|].
  split; [done|]. split; [vm_compute; discriminate|].
  apply (single_nf_counts_net_occurrences paper_text);
    [vm_compute; reflexivity|exact Hsen|done|vm_compute; discriminate].
Defined.

(** X18: on the freshly built tree of a sentinel-terminated text,
    [all_nf] leaves in every internal node but the root the number of net
    occurrences of the string of the node. *)
Theorem all_nf_counts_net_occurrences t st out st' u un' :
  build t = Some st → sentinel_terminated t →
  all_nf st = Some (out, st') → inodes st' !! u = Some un' → u ≠ root →
  ∃ w, node_string t (inodes st) u w ∧
       nf un' = Z.of_nat (net_occurrences t w).
Proof.
  intros Hb Hsen Hall Hu' Hr.
  destruct (built_sentinel t st Hb Hsen) as (D & PI & Htxt & Hlv).
  pose proof (build_branching t st Hb) as BR.
  pose proof (final_tree t D st PI Htxt) as TK.
  destruct (all_nf_built t D st PI Htxt (inodes st)) as (out' & h1 & Ha & Hs);
    [apply nf_only_refl|by eapply built_nf_range|].
  rewrite set_inodes_id, Hall in Ha. injection Ha as -> ->.
  destruct Hs as [Hlen Hs]. simpl in Hu'.
  assert (u < length (inodes st))%nat as Hv.
  { rewrite Hlen. by eapply lookup_lt_Some. }
  destruct (lookup_lt_is_Some_2 _ _ Hv) as [un Hun].
  specialize (Hs u un Hun). rewrite Hu' in Hs. injection Hs as ->.
  exists (D u). split; [by apply (node_string_D _ _ _ _ _ _ TK)|]. simpl.
  rewrite (lk_nf (pi_links PI) u un Hun), Z.add_0_l. unfold bulk_delta.
  rewrite Hun, decide_False by done.
  pose proof (net_frequency_counts t D st PI Htxt Hlv BR Hsen u un Hun Hr) as Hnf.
  unfold net_frequency in Hnf. rewrite size_dom in Hnf. rewrite Hnf.
  apply wrap32_small.
  pose proof (gmap_ascii_size (leaf_children un)).
  assert (0 ≤ cancelling_pairs (inodes st) un) as H0.
  { unfold cancelling_pairs. induction (weiner_links un) as [|x xs IH]; simpl; [done|].
    destruct (inodes st !! x); lia. }
  lia.
Qed.

Lemma all_nf_counts_net_occurrences_witness :
  ∃ st out st' un', build (text "aaaa$") = Some st ∧
    sentinel_terminated (text "aaaa$") ∧
    all_nf st = Some (out, st') ∧ inodes st' !! 1%nat = Some un' ∧
    1%nat ≠ root ∧
    ∃ w, node_string (text "aaaa$") (inodes st) 1%nat w ∧
         nf un' = Z.of_nat (net_occurrences (text "aaaa$") w).
Proof.
  assert (sentinel_terminated (text "aaaa$")) as Hsen.
  { apply sentinel_check_ok. vm_compute. reflexivity. }
  eexists. eexists. eexists. eexists. split; [vm_compute; reflexivity|].
  split; [exact Hsen|]. split; [vm_compute; reflexivity|].
  split; [vm_compute; reflexivity|]. split; [done|].
  eapply (all_nf_counts_net_occurrences (text "aaaa$"));
    [vm_compute; reflexivity|exact Hsen|vm_compute; reflexivity
    |vm_compute; reflexivity|done].
Defined.

(** ** The answer of the locator and the frequency of the query *)

Lemma node_prefix_occurs t k kl D hi hl u (s w : list ascii) :
  tree_ok t k kl D hi hl → (u < length hi)%nat → D u = s ++ w →
  ∃ p, occurs_at s t p.
Proof.
  intros TK Hu HD. destruct (D_occurs _ _ _ _ _ _ u TK Hu) as (p & Hp0 & Hp1 & Hp).
  exists (Z.to_nat p).
  assert (occurs_at (D u) t (Z.to_nat p)) as Ho
    by (by apply occurs_at_sub).
  rewrite HD in Ho. by apply occurs_at_app in Ho as [? _].
Qed.

Section LocateFrequency.
Context (t : list ascii) (D : nat → list ascii) (st : SuffixTree).
Hypothesis PI : phase_inv (len t) D st.
Hypothesis Htxt : txt st = t.
Hypothesis Hleaves : Z.of_nat (length (lnodes st)) = len t.
Hypothesis BR : branching (inodes st) (lnodes st).
Context (s : list ascii).
Hypothesis Hs : s ≠ [].
Hypothesis Hlen : len s + len t ≤ 2 ^ 32.

Local Abbreviation hi := (inodes st).
Local Abbreviation TK := (final_tree t D st PI Htxt).

Lemma prefix_repeated u un :
  hi !! u = Some un → u ≠ root → s `prefix_of` D u →
  (2 ≤ occurrences s t)%nat.
Proof.
  intros Hu Hr [w Hw].
  pose proof (node_repeated t D st PI Htxt BR u un Hu Hr) as Hrep.
  apply occurrences_two in Hrep as (a & b & Hab & Ha & Hb).
  apply occurrences_two. exists a, b. split; [done|].
  rewrite Hw in Ha, Hb.
  apply occurs_at_app in Ha as [? _]. apply occurs_at_app in Hb as [? _]. done.
Qed.

(** From a node on the path of a query that occurs at [p], the loop of
    the locator ends at an internal node when the query is repeated, and
    with [{nullptr, 1}] when this is its only occurrence. *)
Lemma find_loop_occurs p fuel : ∀ node i,
  occurs_at s t p → (node < length hi)%nat → i = len (D node) →
  D node `prefix_of` s → len t - i < Z.of_nat fuel →
  ((∃ S_ r, find_loop fuel st s node i = Some (Some S_, r)) ∧
   (2 ≤ occurrences s t)%nat) ∨
  (find_loop fuel st s node i = Some (None, 1) ∧ occurrences s t = 1%nat).
Proof.
  intros node i Hocc. revert node i.
  pose proof (tk_k TK) as (? & ? & ? & ?).
  pose proof (pi_k PI) as (_ & _ & Ht). rewrite Htxt in Ht.
  induction fuel as [|fuel IH]; intros node i Hnode Hi Hpre Hfuel.
  { pose proof (D_len_le _ _ _ _ _ _ TK node Hnode). lia. }
  pose proof (prefix_len_le _ _ Hpre) as Hle. pose proof (len_nonneg (D node)).
  destruct (lookup_lt_is_Some_2 _ _ Hnode) as [n Hn].
  destruct (decide (len s ≤ i)) as [Hge|Hlt].
  { left. assert (D node = s) as HD.
    { apply prefix_length_eq; [done|]. unfold len in *. lia. }
    split.
    - simpl. rewrite decide_True by done. by eexists _, _.
    - apply (prefix_repeated node n Hn); [|by rewrite HD].
      intros ->. rewrite (tk_Droot TK) in HD. congruence. }
  destruct Hpre as [w Hw]. destruct w as [|si w].
  { rewrite app_nil_r in Hw. rewrite Hw in Hlt. lia. }
  assert (char_at s i = Some si) as Hsi.
  { unfold char_at. rewrite Hw, Hi. unfold len. rewrite Nat2Z.id.
    by rewrite list_lookup_middle. }
  assert (occurs_at (D node ++ [si]) t p) as Ho.
  { rewrite Hw in Hocc. replace (D node ++ si :: w)
      with ((D node ++ [si]) ++ w) in Hocc by (by rewrite <- app_assoc).
    by apply occurs_at_app in Hocc as [? _]. }
  pose proof (occ_prefix_suffix t _ _ Hocc) as Hsp.
  pose proof Hocc as [Hple Hsub]%occurs_at_inv.
  destruct (toward t D st PI Htxt Hleaves node n si p Hn Ho)
    as [(ch & chn & Hch & E & Hpch)|Hleaf].
  - pose proof (ie_start E). pose proof (ie_lt E). pose proof (ie_end E).
    pose proof (ie_len _ _ _ _ _ _ TK E) as HlenD.
    assert (ch < length hi)%nat as Hchlt by (eapply lookup_lt_Some, (ie_lookup E)).
    pose proof (D_len_le _ _ _ _ _ _ TK ch Hchlt).
    rewrite (find_loop_child t _ _ D st TK Htxt s Hlen fuel node n i si ch chn
               Hn ltac:(lia) ltac:(lia) Hsi Hch (ie_lookup E)).
    destruct (edge_on_suffix _ _ _ _ _ _ TK _ _ _ _ (Z.of_nat p) E
                ltac:(lia) ltac:(unfold len in *; lia) Hpch) as (_ & HLk & Hlab).
    rewrite decide_True.
    2:{ set (m := Z.min (end_ chn - start chn) (len s - i)).
        assert (0 ≤ m ∧ m ≤ end_ chn - start chn ∧ m ≤ len s - i) as (? & ? & ?)
          by (unfold m; lia).
        rewrite <- Hi in Hlab.
        rewrite (sub_prefix t (start chn) (end_ chn) (Z.of_nat p + i)
                   (Z.of_nat p + i + (end_ chn - start chn)) m Hlab) by lia.
        rewrite <- Hsub at 1. unfold sub at 1.
        rewrite (sub_sub t (Z.of_nat p) (Z.of_nat p + len s) i (i + m)) by lia.
        f_equal. lia. }
    destruct (decide (end_ chn - start chn ≤ len s - i)) as [Hfit|Hover].
    + apply IH; [done|lia| |lia].
      apply (prefix_of_le _ _ (sub t (Z.of_nat p) (len t))); [done..|].
      unfold len in *. lia.
    + left. split.
      * destruct fuel as [|fuel]; [lia|]. simpl.
        rewrite decide_True by (unfold len in *; lia). by eexists _, _.
      * apply (prefix_repeated ch chn (ie_lookup E)).
        -- intros ->. rewrite (tk_Droot TK) in HlenD. change (len []) with 0 in HlenD.
           lia.
        -- apply (prefix_of_le _ _ (sub t (Z.of_nat p) (len t))); [done..|].
           unfold len in *. lia.
  - right. split.
    + assert (internal_children n !! si = None) as Hint
        by (destruct (tk_disj TK node n si Hn); congruence).
      simpl. rewrite decide_False by (unfold len in *; lia).
      rewrite Hn. simpl. rewrite Hsi. simpl. by rewrite Hint, Hleaf.
    + apply occurrences_one. exists p. split; [done|]. intros j Hj.
      apply (leaf_key_iff t D st PI Htxt Hleaves BR node n si p Hn) in Hleaf
        as [_ Hun].
      apply Hun. rewrite Hw in Hj. replace (D node ++ si :: w)
        with ((D node ++ [si]) ++ w) in Hj by (by rewrite <- app_assoc).
      by apply occurs_at_app in Hj as [? _].
Qed.

Lemma find_internal_node_occurs p :
  occurs_at s t p →
  ((∃ S_ r, find_internal_node st s = Some (Some S_, r)) ∧
   (2 ≤ occurrences s t)%nat) ∨
  (find_internal_node st s = Some (None, 1) ∧ occurrences s t = 1%nat).
Proof.
  intros Hocc. unfold find_internal_node. apply (find_loop_occurs p); [done| | | |].
  - destruct (tk_root TK) as [rn Hrn]. by eapply lookup_lt_Some.
  - by rewrite (tk_Droot TK).
  - rewrite (tk_Droot TK). apply prefix_nil.
  - rewrite Htxt. unfold len. lia.
Qed.

End LocateFrequency.

(** X19: on the tree of a sentinel-terminated text, the locator sorts a
    non-empty query by its frequency: it answers with an internal node
    exactly when the query occurs at least twice, and with
    [{nullptr, 1}] when the query occurs exactly once (case a of the
    comment above [find_internal_node]). *)
Theorem find_internal_node_by_frequency t st s :
  build t = Some st → sentinel_terminated t → s ≠ [] →
  len s + len t ≤ 2 ^ 32 →
  (occurrences s t = 1%nat → find_internal_node st s = Some (None, 1)) ∧
  ((2 ≤ occurrences s t)%nat
   ↔ ∃ S_ r, find_internal_node st s = Some (Some S_, r)).
Proof.
  intros Hb Hsen Hs Hlen.
  destruct (built_sentinel t st Hb Hsen) as (D & PI & Htxt & Hlv).
  pose proof (build_branching t st Hb) as BR.
  pose proof (final_tree t D st PI Htxt) as TK.
  split; [|split].
  - intros H1. pose proof H1 as (p & Hp & _)%occurrences_one.
    destruct (find_internal_node_occurs t D st PI Htxt Hlv BR s Hs Hlen p Hp)
      as [[_ ?]|[? _]]; [lia|done].
  - intros H2. pose proof H2 as (p & _ & _ & Hp & _)%occurrences_two.
    destruct (find_internal_node_occurs t D st PI Htxt Hlv BR s Hs Hlen p Hp)
      as [[? _]|[_ ?]]; [done|lia].
  - intros (S_ & r & Hf). pose proof Hf as Hf'.
    unfold find_internal_node in Hf'. rewrite Htxt in Hf'.
    apply (find_loop_locus t _ _ D st TK Htxt s Hlen _ root 0 S_ r) in Hf'
      as (HS & (w & Hw & _) & _);
      [|destruct (tk_root TK) as [rn Hrn]; by eapply lookup_lt_Some
       |by rewrite (tk_Droot TK)|rewrite (tk_Droot TK); apply prefix_nil
       |unfold len; lia].
    destruct (node_prefix_occurs _ _ _ _ _ _ S_ s w TK HS Hw) as [p Hp].
    destruct (find_internal_node_occurs t D st PI Htxt Hlv BR s Hs Hlen p Hp)
      as [[_ ?]|[Hf2 _]]; [done|congruence].
Qed.

Lemma find_internal_node_by_frequency_witness :
  ∃ st, build (text "banana$") = Some st ∧
    sentinel_terminated (text "banana$") ∧ text "nan" ≠ [] ∧
    len (text "nan") + len (text "banana$") ≤ 2 ^ 32 ∧
    (occurrences (text "nan") (text "banana$") = 1%nat →
     find_internal_node st (text "nan") = Some (None, 1)) ∧
    ((2 ≤ occurrences (text "nan") (text "banana$"))%nat
     ↔ ∃ S_ r, find_internal_node st (text "nan") = Some (Some S_, r)).
Proof.
  assert (sentinel_terminated (text "banana$")) as Hsen.
  { apply sentinel_check_ok. vm_compute. reflexivity. }
  eexists. split; [vm_compute; reflexivity|]. split; [exact Hsen|].
  split; [done|]. split; [vm_compute; discriminate|].
  apply (find_internal_node_by_frequency (text "banana$"));
    [vm_compute; reflexivity|exact Hsen|done|vm_compute; discriminate].
Defined.
